(** * SimTK::Array_<T,X> : a shallow embedding of SimTKcommon/internal/Array.h

    The container is three data members (a pointer and two counts) over a
    heap of element slots.  Member functions are embedded as computations
    over the object's own state and the heap; an exception leaves both in
    the state they had when it was thrown. *)

From Stdlib Require Import Ascii.
From stdpp Require Import base numbers option list gmap.

Local Open Scope Z_scope.

(** ** IndexTraits<X>

    The built-in specialisations.  [size_type] is the index type itself; its
    width and signedness are those of the usual LP64/LLP64 targets (plain
    [char] is taken as signed; its [max_size] of 127 fits either way). *)

Inductive index_type : Set :=
| Unsigned | Int | UShort | Short | ULongLong | LongLong | UChar | SChar | Char.

Definition size_bits (X : index_type) : Z :=
  match X with
  | Unsigned | Int => 32
  | UShort | Short => 16
  | ULongLong | LongLong => 64
  | UChar | SChar | Char => 8
  end.

Definition size_signed (X : index_type) : bool :=
  match X with
  | Unsigned | UShort | ULongLong | UChar => false
  | Int | Short | LongLong | SChar | Char => true
  end.

(** [IndexTraits<X>::max_size] *)
Definition traits_max_size (X : index_type) : Z :=
  match X with
  | Unsigned => 0x7fffffff
  | Int => 0x7fffffff
  | UShort => 0x7fff
  | Short => 0x7fff
  | ULongLong => 0x7fffffffffffffff
  | LongLong => 0x7fffffffffffffff
  | UChar => 255
  | SChar => 127
  | Char => 127
  end.

(** [IndexTraits<X>::difference_type], named by the index type of the same
    width and signedness. *)
Definition difference_type (X : index_type) : index_type :=
  match X with
  | Unsigned | Int => Int
  | UShort | Short => Short
  | ULongLong | LongLong => LongLong
  | UChar => Short
  | SChar | Char => SChar
  end.

(** Least and greatest value of [size_type]. *)
Definition size_type_min (X : index_type) : Z :=
  if size_signed X then - 2 ^ (size_bits X - 1) else 0.

Definition size_type_max (X : index_type) : Z :=
  if size_signed X then 2 ^ (size_bits X - 1) - 1 else 2 ^ size_bits X - 1.

(** Conversion of an integer value to [size_type]: reduction modulo
    [2^size_bits] into the type's range (two's complement for the signed
    types). *)
Definition to_size_type (X : index_type) (z : Z) : Z :=
  if size_signed X
  then (z + 2 ^ (size_bits X - 1)) mod 2 ^ size_bits X - 2 ^ (size_bits X - 1)
  else z mod 2 ^ size_bits X.

(** The type in which [size_type] arithmetic is carried out after the usual
    arithmetic conversions: [int] for the types narrower than [int], the type
    itself otherwise. *)
Definition promoted (X : index_type) : index_type :=
  match X with
  | UShort | Short | UChar | SChar | Char => Int
  | _ => X
  end.

(** Value of an arithmetic expression over [size_type] operands whose
    mathematical value is [z]. *)
Definition arith (X : index_type) (z : Z) : Z := to_size_type (promoted X) z.

(** [(unsigned long long)sz] *)
Definition ull (sz : Z) : Z := sz mod 2 ^ 64.

(** ** Build configuration, error conditions

    The checking macros are defined outside Array.h.  Array.h documents the
    convention it relies on: the [_ALWAYS] forms are checked "even in a
    Release build", the plain forms and [assert] only in a Debug build. *)

Inductive Build : Set := Debug | Release.

(** The conditions a failed check reports.  Every check site of Array.h is
    given the condition that describes its message. *)
Inductive Condition : Set :=
| SizeLimitExceeded      (* "... exceed the max_size ... set by its index type" *)
| InvalidRange           (* bad pointers, iterators out of order, aliasing *)
| OutOfRange             (* SimTK_INDEXCHECK *)
| EmptyContainerAccess   (* "Array was empty." *)
| BadAlloc.              (* operator new[] cannot satisfy the request *)

(** ** The object and the heap *)

(** The three data members, in declaration order. *)
Record Array : Set := mkArray
  { data : Z          (* T* data : address of the first slot, 0 when null *)
  ; nUsed : Z         (* size_type nUsed *)
  ; nAllocated : Z    (* size_type nAllocated *) }.

(** The heap, addressed in units of [sizeof(T)].  A key of [cells] is an
    allocated slot; it holds [None] while no object is constructed in it.
    [blocks] records the live allocations (base address and slot count),
    [brk] is the next address [operator new[]] hands out, and [nalloc]
    counts the calls of [operator new[]]. *)
Record Heap (T : Type) : Type := mkHeap
  { cells : gmap Z (option T)
  ; blocks : gmap Z Z
  ; brk : Z
  ; nalloc : nat }.

Arguments mkHeap {T} _ _ _ _.
Arguments cells {T} _.
Arguments blocks {T} _.
Arguments brk {T} _.
Arguments nalloc {T} _.

(** How a call ends: it returns [v], it throws [c], or it leaves the defined
    behaviour of the program (a failed [assert], an access to a slot that is
    not allocated, a read or a destructor call on a slot that holds no
    object, a constructor call on a slot that holds one).  [S] is the state
    of the objects involved next to the heap. *)
Inductive outcome (T S A : Type) : Type :=
| Returns (v : A) (s : S) (h : Heap T)
| Throws (c : Condition) (s : S) (h : Heap T)
| Fault.

Arguments Returns {T S A} _ _ _.
Arguments Throws {T S A} _ _ _.
Arguments Fault {T S A}.

(** A member function of [Array_]: a computation over [*this] and the heap. *)
Definition M (T A : Type) : Type := Array → Heap T → outcome T Array A.

Definition ret {T A} (v : A) : M T A := λ a h, Returns v a h.

Definition bind {T A B} (m : M T A) (f : A → M T B) : M T B :=
  λ a h,
    match m a h with
    | Returns v a' h' => f v a' h'
    | Throws c a' h' => Throws c a' h'
    | Fault => Fault
    end.

Definition throw {T A} (c : Condition) : M T A := λ a h, Throws c a h.

Definition fault {T A} : M T A := λ _ _, Fault.

Notation "x <- m ;; k" := (bind m (λ x, k))
  (at level 100, m at next level, right associativity).
Notation "m ;; k" := (bind m (λ _, k))
  (at level 100, right associativity).

(** Reading and writing the data members of [*this]. *)
Definition this {T} : M T Array := λ a h, Returns a a h.
Definition set_data {T} (p : Z) : M T unit :=
  λ a h, Returns tt (mkArray p (nUsed a) (nAllocated a)) h.
Definition set_nUsed {T} (n : Z) : M T unit :=
  λ a h, Returns tt (mkArray (data a) n (nAllocated a)) h.
Definition set_nAllocated {T} (n : Z) : M T unit :=
  λ a h, Returns tt (mkArray (data a) (nUsed a) n) h.

(** Heap primitives. *)

(** [n] unconstructed slots from [p] on. *)
Fixpoint raw_cells {T} (p : Z) (n : nat) (m : gmap Z (option T)) : gmap Z (option T) :=
  match n with
  | O => m
  | S n' => <[p := None]> (raw_cells (p + 1) n' m)
  end.

Fixpoint drop_cells {T} (p : Z) (n : nat) (m : gmap Z (option T)) : gmap Z (option T) :=
  match n with
  | O => m
  | S n' => delete p (drop_cells (p + 1) n' m)
  end.

(** [*p] read as a value. *)
Definition load {T} (p : Z) : M T T :=
  λ a h,
    match cells h !! p with
    | Some (Some v) => Returns v a h
    | _ => Fault
    end.

(** The heap with slot [p] holding [c]. *)
Definition set_cell {T} (h : Heap T) (p : Z) (c : option T) : Heap T :=
  mkHeap (<[p := c]> (cells h)) (blocks h) (brk h) (nalloc h).

(** [new(p) T(v)] *)
Definition construct_at {T} (p : Z) (v : T) : M T unit :=
  λ a h,
    match cells h !! p with
    | Some None => Returns tt a (set_cell h p (Some v))
    | _ => Fault
    end.

(** [p->~T()] *)
Definition destroy_at {T} (p : Z) : M T unit :=
  λ a h,
    match cells h !! p with
    | Some (Some _) => Returns tt a (set_cell h p None)
    | _ => Fault
    end.

(** [operator new[]] granting a request for [n] whole elements, [n] other than
    zero: one block of [n] slots at the next address.  The heap is addressed
    in elements, so the request is stated in elements here; the source states
    it in bytes, [new unsigned char[n * sizeof(T)]], which [Bytes.allocN]
    below follows.  The two agree when [request_exact] holds of [n], and
    memory is taken not to run out.  A negative [n] is refused. *)
Definition operator_new {T} (n : Z) : M T Z :=
  λ a h,
    if n <? 0 then Throws BadAlloc a h
    else Returns (brk h) a
           (mkHeap (raw_cells (brk h) (Z.to_nat n) (cells h))
                   (<[brk h := n]> (blocks h))
                   (brk h + n)
                   (S (nalloc h))).

(** [delete[] p] for [p] other than null. *)
Definition operator_delete {T} (p : Z) : M T unit :=
  λ a h,
    match blocks h !! p with
    | Some n => Returns tt a
                  (mkHeap (drop_cells p (Z.to_nat n) (cells h))
                          (delete p (blocks h))
                          (brk h)
                          (nalloc h))
    | None => Fault
    end.

(** The empty heap; address 0 is the null pointer and is never handed out. *)
Definition empty_heap {T} : Heap T := mkHeap ∅ ∅ 1 0.

(** ** class Array_<T,X> *)

Section Array_.

Context {T : Type}.
Variable T_default : T.      (* the value a call of T() constructs *)
Variable build : Build.
Variable X : index_type.

Local Abbreviation M := (M T).

(** The checking macros. *)
Definition SimTK_ERRCHK_ALWAYS (cond : bool) (c : Condition) : M unit :=
  if cond then ret tt else throw c.

Definition SimTK_ERRCHK (cond : bool) (c : Condition) : M unit :=
  match build with
  | Debug => SimTK_ERRCHK_ALWAYS cond c
  | Release => ret tt
  end.

Definition assert (cond : bool) : M unit :=
  match build with
  | Debug => if cond then ret tt else fault
  | Release => ret tt
  end.

Definition SimTK_SIZECHECK (sz maxsz : Z) : M unit :=
  SimTK_ERRCHK ((0 <=? sz) && (sz <=? maxsz)) SizeLimitExceeded.

Definition SimTK_INDEXCHECK_ALWAYS (i ub : Z) : M unit :=
  SimTK_ERRCHK_ALWAYS ((0 <=? i) && (i <? ub)) OutOfRange.

Definition SimTK_INDEXCHECK (i ub : Z) : M unit :=
  SimTK_ERRCHK ((0 <=? i) && (i <? ub)) OutOfRange.

(** *** Queries (const member functions) *)

Definition max_size : Z := traits_max_size X.
Definition size (a : Array) : Z := nUsed a.
Definition capacity (a : Array) : Z := nAllocated a.
Definition empty (a : Array) : bool := nUsed a =? 0.
Definition begin (a : Array) : Z := data a.
Definition end_ (a : Array) : Z := data a + nUsed a.

Definition ullSize (a : Array) : Z := ull (size a).
Definition ullCapacity (a : Array) : Z := ull (capacity a).
Definition ullMaxSize : Z := ull max_size.

Definition isSizeOK (srcSz : Z) : bool := ull srcSz <=? ullMaxSize.

(** The sum is an [unsigned long long] sum. *)
Definition isGrowthOK (a : Array) (n : Z) : bool :=
  isSizeOK ((ullCapacity a + ull n) mod 2 ^ 64).

Definition minAlloc : Z := Z.min max_size (to_size_type X 4).

(** *** Raw storage *)

(** [allocN(n)], with the request in elements (see [operator_new]). *)
Definition allocN (n : Z) : M Z :=
  if n =? 0 then ret 0 else operator_new n.

Definition freeN (p : Z) : M unit :=
  if p =? 0 then ret tt else operator_delete p.

Definition allocateNoConstruct (n : Z) : M unit :=
  p <- allocN n ;; set_data p ;; set_nAllocated n.

Definition deallocateNoDestruct : M unit :=
  a <- this ;; freeN (data a) ;; set_data 0 ;; set_nAllocated 0.

Definition reallocateNoDestructOrConstruct (n : Z) : M unit :=
  deallocateNoDestruct ;; allocateNoConstruct n.

(** *** Construction and destruction of elements

    A loop [while (b != e) ... b++ ...] makes [e - b] passes; when [e] lies
    below [b] it runs off the allocation. *)

Definition defaultConstructOne (p : Z) : M unit := construct_at p T_default.

Fixpoint defaultConstruct_loop (k : nat) (b : Z) : M unit :=
  match k with
  | O => ret tt
  | S k' => construct_at b T_default ;; defaultConstruct_loop k' (b + 1)
  end.

Definition defaultConstruct (b e : Z) : M unit :=
  if e <? b then fault else defaultConstruct_loop (Z.to_nat (e - b)) b.

Fixpoint fillConstruct_loop (k : nat) (b : Z) (v : T) : M unit :=
  match k with
  | O => ret tt
  | S k' => construct_at b v ;; fillConstruct_loop k' (b + 1) v
  end.

Definition fillConstruct (b e : Z) (v : T) : M unit :=
  if e <? b then fault else fillConstruct_loop (Z.to_nat (e - b)) b v.

Definition copyConstructOne (p : Z) (v : T) : M unit := construct_at p v.

Fixpoint copyConstruct_loop (k : nat) (b src : Z) : M unit :=
  match k with
  | O => ret tt
  | S k' => v <- load src ;; construct_at b v ;; copyConstruct_loop k' (b + 1) (src + 1)
  end.

Definition copyConstruct (b e src : Z) : M unit :=
  if e <? b then fault else copyConstruct_loop (Z.to_nat (e - b)) b src.

Fixpoint copyConstructThenDestructSource_loop (k : nat) (b src : Z) : M unit :=
  match k with
  | O => ret tt
  | S k' =>
      v <- load src ;; construct_at b v ;; destroy_at src ;;
      copyConstructThenDestructSource_loop k' (b + 1) (src + 1)
  end.

Definition copyConstructThenDestructSource (b e src : Z) : M unit :=
  if e <? b then fault
  else copyConstructThenDestructSource_loop (Z.to_nat (e - b)) b src.

Definition destructOne (p : Z) : M unit := destroy_at p.

Fixpoint destruct_loop (k : nat) (b : Z) : M unit :=
  match k with
  | O => ret tt
  | S k' => destroy_at b ;; destruct_loop k' (b + 1)
  end.

Definition destructRange (b e : Z) : M unit :=
  if e <? b then fault else destruct_loop (Z.to_nat (e - b)) b.

Definition moveOneElement (to from : Z) : M unit :=
  a <- this ;;
  assert ((data a <=? to) && (to <? data a + nAllocated a)) ;;
  assert ((data a <=? from) && (from <? data a + nAllocated a)) ;;
  v <- load from ;;
  copyConstructOne to v ;;
  destructOne from.

(** [for (; p != end(); ++p) moveOneElement(p-n,p);] *)
Fixpoint moveElementsDown_loop (k : nat) (p n : Z) : M unit :=
  match k with
  | O => ret tt
  | S k' => moveOneElement (p - n) p ;; moveElementsDown_loop k' (p + 1) n
  end.

Definition moveElementsDown (p n : Z) : M unit :=
  assert (0 <? n) ;;
  a <- this ;;
  if end_ a <? p then fault
  else moveElementsDown_loop (Z.to_nat (end_ a - p)) p n.

(** [while (src != p) { --src; moveOneElement(src+n, src); }] *)
Fixpoint moveElementsUp_loop (k : nat) (src n : Z) : M unit :=
  match k with
  | O => ret tt
  | S k' => moveOneElement (src - 1 + n) (src - 1) ;; moveElementsUp_loop k' (src - 1) n
  end.

Definition moveElementsUp (p n : Z) : M unit :=
  assert (0 <? n) ;;
  a <- this ;;
  if end_ a <? p then fault
  else moveElementsUp_loop (Z.to_nat (end_ a - p)) (end_ a) n.

(** *** Growth *)

Definition calcNewCapacityForGrowthBy (n : Z) : M Z :=
  a <- this ;;
  SimTK_ERRCHK_ALWAYS (isGrowthOK a n) SizeLimitExceeded ;;
  let mustHave := to_size_type X (arith X (capacity a + n)) in
  let wantToHave :=
    to_size_type X
      (if capacity a <=? max_size `quot` 2 then arith X (2 * capacity a) else max_size) in
  let newCapacity := Z.max (Z.max mustHave wantToHave) minAlloc in
  ret newCapacity.

Definition growAtEnd (n : Z) : M unit :=
  assert (0 <? n) ;;
  c <- calcNewCapacityForGrowthBy n ;;
  set_nAllocated c ;;
  a <- this ;;
  newData <- allocN (nAllocated a) ;;
  copyConstructThenDestructSource newData (newData + nUsed a) (data a) ;;
  freeN (data a) ;;
  set_data newData.


Definition insertGapAt (p n : Z) : M Z :=
  a <- this ;;
  SimTK_ERRCHK ((begin a <=? p) && (p <=? end_ a)) InvalidRange ;;
  if n =? 0 then ret p
  else
    let before := to_size_type X (p - begin a) in
    let after := to_size_type X (end_ a - p) in
    if arith X (size a + n) <=? capacity a
    then moveElementsUp p n ;; ret p
    else
      c <- calcNewCapacityForGrowthBy n ;;
      set_nAllocated c ;;
      newdata <- allocN c ;;
      copyConstructThenDestructSource newdata (newdata + before) (data a) ;;
      copyConstructThenDestructSource (newdata + before + n) (newdata + before + n + after) p ;;
      freeN (data a) ;;
      set_data newdata ;;
      ret (newdata + before).

Definition reallocateIfAdvisable (n : Z) : M unit :=
  a <- this ;;
  if (nAllocated a <? n) || (Z.max minAlloc n <? nAllocated a `quot` 2)
  then reallocateNoDestructOrConstruct n
  else ret tt.

(** *** Size and capacity *)

Definition clear : M unit :=
  a <- this ;; destructRange (begin a) (end_ a) ;; set_nUsed 0.

Definition reserve (newCapacity : Z) : M unit :=
  a <- this ;;
  if newCapacity <=? nAllocated a then ret tt
  else
    assert (nUsed a <? newCapacity) ;;
    newdata <- allocN newCapacity ;;
    copyConstructThenDestructSource newdata (newdata + nUsed a) (data a) ;;
    freeN (data a) ;;
    set_data newdata ;;
    set_nAllocated newCapacity.

(** *** Erasure *)

Definition erase (first last1 : Z) : M Z :=
  a <- this ;;
  SimTK_ERRCHK ((begin a <=? first) && (first <=? last1) && (last1 <=? end_ a))
    InvalidRange ;;
  let nErased := to_size_type X (last1 - first) in
  (if nErased =? 0 then ret tt
   else
     destructRange first last1 ;;
     moveElementsDown last1 nErased ;;
     set_nUsed (to_size_type X (nUsed a - nErased))) ;;
  ret first.

Definition eraseOne (p : Z) : M Z :=
  a <- this ;;
  SimTK_ERRCHK ((begin a <=? p) && (p <? end_ a)) InvalidRange ;;
  destructOne p ;;
  moveElementsDown (p + 1) 1 ;;
  set_nUsed (to_size_type X (nUsed a - 1)) ;;
  ret p.

Definition back : M Z :=
  a <- this ;;
  SimTK_ERRCHK (negb (empty a)) EmptyContainerAccess ;;
  ret (data a + (nUsed a - 1)).

Definition eraseFast (p : Z) : M Z :=
  a <- this ;;
  assert ((begin a <=? p) && (p <? end_ a)) ;;
  destructOne p ;;
  (if p + 1 =? end_ a then ret tt
   else last <- back ;; moveOneElement p last) ;;
  set_nUsed (to_size_type X (nUsed a - 1)) ;;
  ret p.

(** *** Insertion *)

Definition insertFill (p n : Z) (value : T) : M Z :=
  gap <- insertGapAt p n ;;
  fillConstruct gap (gap + n) value ;;
  a <- this ;;
  set_nUsed (to_size_type X (nUsed a + n)) ;;
  ret gap.

Definition insertOne (p : Z) (value : T) : M Z :=
  gap <- insertGapAt p 1 ;;
  copyConstructOne gap value ;;
  a <- this ;;
  set_nUsed (to_size_type X (nUsed a + 1)) ;;
  ret gap.

(** [insertImpl(p, first, last1, std::input_iterator_tag)]; the source is the
    sequence of values the iterator yields. *)
Fixpoint insertImpl_input_loop (src : list T) (p nInserted : Z) : M Z :=
  match src with
  | [] => ret (p - nInserted)
  | v :: src' =>
      p' <- insertOne p v ;;
      insertImpl_input_loop src' (p' + 1) (to_size_type X (nInserted + 1))
  end.

Definition insertImpl_input (p : Z) (src : list T) : M Z :=
  insertImpl_input_loop src p 0.

(** [insertImpl(p, first, last1, std::random_access_iterator_tag)]; it leaves
    [nUsed] as [insertGapAt] returned it. *)
Definition insertImpl (p first last1 : Z) : M Z :=
  a <- this ;;
  SimTK_ERRCHK (first <=? last1) InvalidRange ;;
  SimTK_ERRCHK (isGrowthOK a (last1 - first)) SizeLimitExceeded ;;
  let n := to_size_type X (last1 - first) in
  p' <- insertGapAt p n ;;
  copyConstruct p' (p' + n) first ;;
  ret p'.

Definition insertRange (p first last1 : Z) : M Z :=
  a <- this ;;
  SimTK_ERRCHK ((negb (first =? 0) && negb (last1 =? 0)) || (first =? last1))
    InvalidRange ;;
  SimTK_ERRCHK ((last1 <=? begin a) || (end_ a <=? first)) InvalidRange ;;
  insertImpl p first last1.

Definition push_back (value : T) : M Z :=
  a <- this ;;
  (if nAllocated a =? nUsed a then growAtEnd 1 else ret tt) ;;
  a <- this ;;
  let p := data a + nUsed a in
  set_nUsed (to_size_type X (nUsed a + 1)) ;;
  copyConstructOne p value ;;
  ret p.

Definition push_back_default : M Z :=
  a <- this ;;
  (if nAllocated a =? nUsed a then growAtEnd 1 else ret tt) ;;
  a <- this ;;
  let p := data a + nUsed a in
  set_nUsed (to_size_type X (nUsed a + 1)) ;;
  defaultConstructOne p ;;
  ret p.

Definition raw_push_back : M Z :=
  a <- this ;;
  (if nAllocated a =? nUsed a then growAtEnd 1 else ret tt) ;;
  a <- this ;;
  let p := data a + nUsed a in
  set_nUsed (to_size_type X (nUsed a + 1)) ;;
  ret p.

Definition pop_back : M unit :=
  a <- this ;;
  SimTK_ERRCHK (negb (empty a)) EmptyContainerAccess ;;
  set_nUsed (to_size_type X (nUsed a - 1)) ;;
  a <- this ;;
  destructOne (data a + nUsed a).

(** *** Assignment *)

Definition assignFill (n : Z) (fillValue : T) : M unit :=
  SimTK_ERRCHK_ALWAYS (isSizeOK n) SizeLimitExceeded ;;
  clear ;;
  reallocateIfAdvisable n ;;
  a <- this ;;
  fillConstruct (data a) (data a + n) fillValue ;;
  set_nUsed n.

(** [assignImpl(first, last1, std::random_access_iterator_tag)] on pointers *)
Definition assignImpl (first last1 : Z) : M unit :=
  SimTK_ERRCHK (first <=? last1) InvalidRange ;;
  SimTK_ERRCHK (isSizeOK (last1 - first)) SizeLimitExceeded ;;
  clear ;;
  set_nUsed (to_size_type X (last1 - first)) ;;
  a <- this ;;
  reallocateIfAdvisable (nUsed a) ;;
  a <- this ;;
  copyConstruct (data a) (data a + nUsed a) first.

(** [assignImpl(first, last1, std::input_iterator_tag)]; the source is the
    sequence of values the iterator yields. *)
Fixpoint assignImpl_input_loop (src : list T) : M unit :=
  match src with
  | [] => ret tt
  | v :: src' => push_back v ;; assignImpl_input_loop src'
  end.

Definition assignImpl_input (src : list T) : M unit :=
  clear ;; assignImpl_input_loop src.

Definition assignRange (first last1 : Z) : M unit :=
  a <- this ;;
  SimTK_ERRCHK ((negb (first =? 0) && negb (last1 =? 0)) || (first =? last1))
    InvalidRange ;;
  SimTK_ERRCHK ((last1 <=? begin a) || (end_ a <=? first)) InvalidRange ;;
  assignImpl first last1.

(** [operator=(const Array_<T2,X2>& src)]: no test of [this] against [&src]. *)
Definition operator_assign_converting (src : Array) : M unit :=
  assignImpl (begin src) (end_ src).

(** *** Resizing *)

Definition resize (sz : Z) : M unit :=
  a <- this ;;
  if sz =? nUsed a then ret tt
  else if sz =? 0 then clear
  else if sz <? nUsed a then erase (data a + sz) (end_ a) ;; ret tt
  else
    reserve sz ;;
    a <- this ;;
    defaultConstruct (data a + nUsed a) (data a + sz) ;;
    set_nUsed sz.

Definition resizeFill (sz : Z) (initVal : T) : M unit :=
  a <- this ;;
  if sz =? nUsed a then ret tt
  else if sz =? 0 then clear
  else if sz <? nUsed a then erase (data a + sz) (end_ a) ;; ret tt
  else
    reserve sz ;;
    a <- this ;;
    fillConstruct (data a + nUsed a) (data a + sz) initVal ;;
    set_nUsed sz.

(** *** Constructors and destructor

    A constructor starts from whatever the three members hold. *)

Definition Array_default : M unit :=
  set_data 0 ;; set_nUsed 0 ;; set_nAllocated 0.

Definition Array_n (n : Z) : M unit :=
  SimTK_SIZECHECK n max_size ;;
  allocateNoConstruct n ;;
  a <- this ;;
  defaultConstruct (data a) (data a + n) ;;
  set_nUsed n.

Definition Array_fill (n : Z) (initVal : T) : M unit :=
  SimTK_SIZECHECK n max_size ;;
  allocateNoConstruct n ;;
  a <- this ;;
  fillConstruct (data a) (data a + n) initVal ;;
  set_nUsed n.

Definition Array_range (first last1 : Z) : M unit :=
  SimTK_ERRCHK ((negb (first =? 0) && negb (last1 =? 0)) || (first =? last1))
    InvalidRange ;;
  SimTK_ERRCHK (isSizeOK (last1 - first)) SizeLimitExceeded ;;
  set_nUsed (to_size_type X (last1 - first)) ;;
  a <- this ;;
  allocateNoConstruct (nUsed a) ;;
  a <- this ;;
  copyConstruct (data a) (data a + nUsed a) first.

Definition Array_copy (src : Array) : M unit :=
  set_nUsed (nUsed src) ;;
  a <- this ;;
  allocateNoConstruct (nUsed a) ;;
  a <- this ;;
  copyConstruct (data a) (data a + nUsed a) (data src).

(** [Array_(const Array_<T2,X2>& src)]: the range constructor run on the
    elements of [src]. *)
Definition Array_converting (src : Array) : M unit :=
  Array_range (begin src) (end_ src).

Definition Array_destroy : M unit :=
  clear ;; deallocateNoDestruct.

(** *** Element access; a reference is the address of the slot *)

Definition operator_index (i : Z) : M Z :=
  a <- this ;; SimTK_INDEXCHECK i (nUsed a) ;; ret (data a + i).

Definition at_ (i : Z) : M Z :=
  a <- this ;; SimTK_INDEXCHECK_ALWAYS i (nUsed a) ;; ret (data a + i).

Definition front : M Z :=
  a <- this ;;
  SimTK_ERRCHK (negb (empty a)) EmptyContainerAccess ;;
  ret (data a + 0).

(** [a[i]] used as a value. *)
Definition read (i : Z) : M T :=
  r <- operator_index i ;; load r.

End Array_.

(** ** The request of [allocN] in bytes

    [allocN(n)] evaluates [new unsigned char[n * sizeof(T)]].  [sizeof]
    yields a [size_t], so [n] is converted to [size_t] and the product is
    taken modulo [2^64]: for a large [n] the block asked for is shorter than
    [n] elements.  [operator_new_array] takes the request in bytes; the
    member functions that allocate are embedded over it in the module
    [Bytes] below. *)

(** [(size_t)z] *)
Definition size_t (z : Z) : Z := z mod 2 ^ 64.

(** No block is larger than [PTRDIFF_MAX] bytes. *)
Definition PTRDIFF_MAX : Z := 2 ^ 63 - 1.

(** [new unsigned char[bytes]]: one block of [bytes] bytes, which is room for
    [bytes / sizeof(T)] whole elements.  A request above [PTRDIFF_MAX] is
    refused; below it memory is taken not to run out.  A block of no bytes
    still has an address of its own. *)
Definition operator_new_array {T} (sizeof_T : positive) (bytes : Z) : M T Z :=
  λ a h,
    if PTRDIFF_MAX <? bytes then Throws BadAlloc a h
    else
      let n := bytes / Z.pos sizeof_T in
      Returns (brk h) a
        (mkHeap (raw_cells (brk h) (Z.to_nat n) (cells h))
                (<[brk h := n]> (blocks h))
                (brk h + Z.max 1 n)
                (S (nalloc h))).

(** The request is for [n] whole elements and no more than a block can
    hold: [n * sizeof(T)] is the product of the integers, not a residue. *)
Definition request_exact (sizeof_T : positive) (n : Z) : Prop :=
  0 ≤ n ∧ n * Z.pos sizeof_T ≤ PTRDIFF_MAX.

(** ** Objects at addresses

    [operator=] compares [this] with [&src], and [swap] works on two objects;
    both are embedded over a table of the objects by address. *)

Definition call {T A} (self : Z) (m : M T A)
  : gmap Z Array → Heap T → outcome T (gmap Z Array) A :=
  λ objs h,
    match objs !! self with
    | None => Fault
    | Some a =>
        match m a h with
        | Returns v a' h' => Returns v (<[self := a']> objs) h'
        | Throws c a' h' => Throws c (<[self := a']> objs) h'
        | Fault => Fault
        end
    end.

(** [Array_& operator=(const Array_& src)] *)
Definition operator_assign {T} (build : Build) (X : index_type) (self src : Z)
  : gmap Z Array → Heap T → outcome T (gmap Z Array) unit :=
  λ objs h,
    if negb (self =? src)
    then match objs !! src with
         | None => Fault
         | Some s => call self (assignImpl build X (begin s) (end_ s)) objs h
         end
    else Returns tt objs h.

(** The body of the converting [operator=], run on objects at addresses. *)
Definition operator_assign_converting_at {T} (build : Build) (X : index_type)
  (self src : Z) : gmap Z Array → Heap T → outcome T (gmap Z Array) unit :=
  λ objs h,
    match objs !! src with
    | None => Fault
    | Some s => call self (operator_assign_converting build X s) objs h
    end.

(** [void swap(Array_& other)]: the three members are exchanged one by one. *)
Definition swap {T} (self other : Z)
  : gmap Z Array → Heap T → outcome T (gmap Z Array) unit :=
  λ objs h,
    match objs !! self, objs !! other with
    | Some a, Some b =>
        let objs1 := <[other := mkArray (data a) (nUsed b) (nAllocated b)]>
                       (<[self := mkArray (data b) (nUsed a) (nAllocated a)]> objs) in
        match objs1 !! self, objs1 !! other with
        | Some a1, Some b1 =>
            let objs2 := <[other := mkArray (data b1) (nUsed a1) (nAllocated b1)]>
                           (<[self := mkArray (data a1) (nUsed b1) (nAllocated a1)]> objs1) in
            match objs2 !! self, objs2 !! other with
            | Some a2, Some b2 =>
                Returns tt
                  (<[other := mkArray (data b2) (nUsed b2) (nAllocated a2)]>
                     (<[self := mkArray (data a2) (nUsed a2) (nAllocated b2)]> objs2)) h
            | _, _ => Fault
            end
        | _, _ => Fault
        end
    | _, _ => Fault
    end.

(** ** Related global operators *)

(** What a stream is sent: a character, or an element, which is written by
    the [operator<<] of the element type. *)
Inductive output (T : Type) : Type :=
| PutChar (c : ascii)
| PutElem (v : T).

Arguments PutChar {T} _.
Arguments PutElem {T} _.

(** [for (const T* p = a.begin()+1; p != a.end(); ++p) o << ' ' << *p;] *)
Fixpoint operator_output_loop {T} (k : nat) (p : Z) (o : list (output T))
  : M T (list (output T)) :=
  match k with
  | O => ret o
  | S k' =>
      v <- load p ;;
      operator_output_loop k' (p + 1) (o ++ [PutChar " "; PutElem v])
  end.

(** [operator<<(std::ostream& o, const Array_<T,X>& a)]; the stream is what
    it has been sent so far. *)
Definition operator_output {T} (build : Build) (o : list (output T))
  : M T (list (output T)) :=
  a <- this ;;
  let o := o ++ [PutChar "{"] in
  o <- (if negb (empty a)
        then
          r <- front build ;;
          v <- load r ;;
          let o := o ++ [PutElem v] in
          if end_ a <? begin a + 1 then fault
          else operator_output_loop (Z.to_nat (end_ a - (begin a + 1))) (begin a + 1) o
        else ret o) ;;
  ret (o ++ [PutChar "}"]).

(** ** Specification vocabulary *)

Section Spec.

Context {T : Type}.

(** The invariants of the data members: length at most capacity, a null
    buffer when the capacity is zero, capacity at most [max_size]. *)
Definition inv (X : index_type) (a : Array) : Prop :=
  nUsed a ≤ nAllocated a ∧
  (nAllocated a = 0 → data a = 0) ∧
  nAllocated a ≤ traits_max_size X.

(** The slots from [p] on hold the objects [l], in order. *)
Definition live (h : Heap T) (p : Z) (l : list T) : Prop :=
  ∀ q, p ≤ q < p + Z.of_nat (length l) → cells h !! q = Some (l !! Z.to_nat (q - p)).

(** The [n] slots from [p] on are allocated and hold no object. *)
Definition raw (h : Heap T) (p n : Z) : Prop :=
  ∀ q, p ≤ q < p + n → cells h !! q = Some None.

(** Every allocated slot and every live allocation lies between address 1
    and [brk]. *)
Definition heap_wf (h : Heap T) : Prop :=
  0 < brk h ∧
  (∀ q, is_Some (cells h !! q) → 0 < q < brk h) ∧
  (∀ b n, blocks h !! b = Some n → 0 < b ∧ 0 < n ∧ b + n ≤ brk h).

(** The array [a] owns its buffer in [h] and holds the elements [l]: the
    first [nUsed] slots of the buffer hold [l], the remaining slots up to
    [nAllocated] are allocated and unconstructed, and the buffer is one live
    allocation of [nAllocated] slots (none when [nAllocated] is zero). *)
Definition owns (a : Array) (h : Heap T) (l : list T) : Prop :=
  Z.of_nat (length l) = nUsed a ∧
  nUsed a ≤ nAllocated a ∧
  live h (data a) l ∧
  raw h (data a + nUsed a) (nAllocated a - nUsed a) ∧
  (nAllocated a = 0 → data a = 0) ∧
  (nAllocated a ≠ 0 → blocks h !! data a = Some (nAllocated a)).

(** [h'] differs from [h] in slot contents only. *)
Definition same_alloc (h h' : Heap T) : Prop :=
  blocks h' = blocks h ∧ brk h' = brk h ∧ nalloc h' = nalloc h.

(** The capacity the growth policy prescribes for a capacity [c] that must
    take [n] more elements. *)
Definition grown_capacity (X : index_type) (c n : Z) : Z :=
  Z.max (Z.max (c + n) (Z.min (2 * c) (traits_max_size X))) (Z.min 4 (traits_max_size X)).

(** [k] appends in a row. *)
Fixpoint appends (build : Build) (X : index_type) (values : list T) : M T unit :=
  match values with
  | [] => ret tt
  | v :: values' => push_back build X v ;; appends build X values'
  end.

(** The list [eraseFast] leaves when it erases index [i]: the last element
    takes the place of the erased one. *)
Definition eraseFast_list (i : nat) (l : list T) : list T :=
  match last l with
  | Some x => take (length l - 1) (<[i := x]> l)
  | None => l
  end.

(** The state [insertGapAt] leaves: the elements [l] with [n] unconstructed
    slots before index [i], the length not yet updated. *)
Definition gapped (a : Array) (h : Heap T) (l : list T) (i : nat) (n : Z) : Prop :=
  Z.of_nat (length l) = nUsed a ∧
  nUsed a + n ≤ nAllocated a ∧
  live h (data a) (take i l) ∧
  raw h (data a + Z.of_nat i) n ∧
  live h (data a + Z.of_nat i + n) (drop i l) ∧
  raw h (data a + nUsed a + n) (nAllocated a - nUsed a - n) ∧
  (nAllocated a = 0 → data a = 0) ∧
  (nAllocated a ≠ 0 → blocks h !! data a = Some (nAllocated a)).


(** [reallocateIfAdvisable(n)] keeps a buffer of [c] slots when it is large
    enough and half of it is at most the larger of [minAlloc] and [n]. *)
Definition keeps_buffer (c n : Z) : Prop := n ≤ c ∧ c `quot` 2 ≤ Z.max 4 n.

(** The call ends by returning or by throwing, and the data members then
    satisfy the invariants. *)
Definition ends_with_inv {A} (X : index_type) (o : outcome T Array A) : Prop :=
  match o with
  | Returns _ a' _ => inv X a'
  | Throws _ a' _ => inv X a'
  | Fault => False
  end.


(** A call neither faults nor throws. *)
Definition returns {S A} (o : outcome T S A) : Prop :=
  match o with Returns _ _ _ => True | _ => False end.

(** The public operations that act on one container, with their arguments. *)
Inductive operation : Type :=
| OpDefaultCtor
| OpCtorN (n : Z)
| OpCtorFill (n : Z) (initVal : T)
| OpCtorRange (first last1 : Z)
| OpCtorCopy (src : Array)
| OpDtor
| OpAssignFill (n : Z) (fillValue : T)
| OpAssignRange (first last1 : Z)
| OpAssignInput (values : list T)
| OpAssignConverting (src : Array)
| OpResize (sz : Z)
| OpResizeFill (sz : Z) (initVal : T)
| OpReserve (newCapacity : Z)
| OpClear
| OpErase (first last1 : Z)
| OpEraseOne (p : Z)
| OpEraseFast (p : Z)
| OpInsertFill (p n : Z) (value : T)
| OpInsertOne (p : Z) (value : T)
| OpInsertRange (p first last1 : Z)
| OpPushBack (value : T)
| OpPushBackDefault
| OpRawPushBack
| OpPopBack
| OpIndex (i : Z)
| OpAt (i : Z)
| OpFront
| OpBack.

(** The call of an operation; what it returns is dropped. *)
Definition run (T_default : T) (build : Build) (X : index_type) (op : operation)
  : M T unit :=
  match op with
  | OpDefaultCtor => Array_default
  | OpCtorN n => Array_n T_default build X n
  | OpCtorFill n v => Array_fill build X n v
  | OpCtorRange first last1 => Array_range build X first last1
  | OpCtorCopy src => Array_copy src
  | OpDtor => Array_destroy
  | OpAssignFill n v => assignFill X n v
  | OpAssignRange first last1 => assignRange build X first last1
  | OpAssignInput values => assignImpl_input build X values
  | OpAssignConverting src => operator_assign_converting build X src
  | OpResize sz => resize T_default build X sz
  | OpResizeFill sz v => resizeFill build X sz v
  | OpReserve n => reserve build n
  | OpClear => clear
  | OpErase first last1 => erase build X first last1 ;; ret tt
  | OpEraseOne p => eraseOne build X p ;; ret tt
  | OpEraseFast p => eraseFast build X p ;; ret tt
  | OpInsertFill p n v => insertFill build X p n v ;; ret tt
  | OpInsertOne p v => insertOne build X p v ;; ret tt
  | OpInsertRange p first last1 => insertRange build X p first last1 ;; ret tt
  | OpPushBack v => push_back build X v ;; ret tt
  | OpPushBackDefault => push_back_default T_default build X ;; ret tt
  | OpRawPushBack => raw_push_back build X ;; ret tt
  | OpPopBack => pop_back build X
  | OpIndex i => operator_index build i ;; ret tt
  | OpAt i => at_ i ;; ret tt
  | OpFront => front build ;; ret tt
  | OpBack => back build ;; ret tt
  end.

(** [p] points at index [i] of the array, or one past its last element. *)
Definition position (a : Array) (l : list T) (p : Z) (i : nat) : Prop :=
  p = data a + Z.of_nat i ∧ (i ≤ length l)%nat.

(** [first, last1) is a range of objects of at most [max_size] elements that
    lies outside the buffer of [a]. *)
Definition foreign_range (X : index_type) (a : Array) (h : Heap T) (first last1 : Z)
  : Prop :=
  ∃ vs, live h first vs ∧ last1 = first + Z.of_nat (length vs) ∧
        Z.of_nat (length vs) ≤ traits_max_size X ∧
        (last1 ≤ data a ∨ data a + nAllocated a ≤ first).

(** The allocation of a buffer grown by [n] is requested exactly. *)
Definition grows_exactly (sizeof_T : positive) (X : index_type) (a : Array) (n : Z)
  : Prop :=
  nAllocated a + n ≤ traits_max_size X →
  request_exact sizeof_T (grown_capacity X (nAllocated a) n).

(** The conditions under which a call of an operation is followed here.
    Positions lie inside the array; [pop_back], [front] and [back] are
    called on an array that is not empty and [operator[]] with an index
    below the length; a source range holds at most [max_size] objects and
    lies outside the buffer; a size or capacity the caller asks for is
    between 0 and [max_size] (any value of [size_type] for [assign(n, v)],
    which checks it); the sum of capacity and growth is a value of the
    promoted size type; and every buffer the call may allocate is requested
    exactly ([request_exact]): the one of the size asked for, of the length
    of the source, or of the capacity grown for the elements added. *)
Definition requires (sizeof_T : positive) (X : index_type) (op : operation)
  (a : Array) (h : Heap T) (l : list T) : Prop :=
  match op with
  | OpDefaultCtor | OpDtor | OpClear | OpAt _ => True
  | OpPushBack _ | OpPushBackDefault | OpRawPushBack => grows_exactly sizeof_T X a 1
  | OpAssignInput values =>
      request_exact sizeof_T
        (Z.min (traits_max_size X) (Z.max 4 (2 * Z.of_nat (length values))))
  | OpCtorN n | OpCtorFill n _ =>
      0 ≤ n ≤ traits_max_size X ∧ request_exact sizeof_T n
  | OpCtorRange first last1 =>
      foreign_range X (mkArray 0 0 0) h first last1 ∧
      request_exact sizeof_T (last1 - first)
  | OpCtorCopy src =>
      inv X src ∧ (∃ ls, owns src h ls) ∧ request_exact sizeof_T (nUsed src)
  | OpAssignFill n _ =>
      size_type_min X ≤ n ≤ size_type_max X ∧
      (0 ≤ n ≤ traits_max_size X → request_exact sizeof_T n)
  | OpAssignRange first last1 =>
      foreign_range X a h first last1 ∧ request_exact sizeof_T (last1 - first)
  | OpAssignConverting src =>
      foreign_range X a h (data src) (data src + nUsed src) ∧
      request_exact sizeof_T (nUsed src)
  | OpResize sz | OpResizeFill sz _ =>
      0 ≤ sz ≤ traits_max_size X ∧ request_exact sizeof_T sz
  | OpReserve n => n ≤ traits_max_size X ∧ (0 ≤ n → request_exact sizeof_T n)
  | OpErase first last1 =>
      ∃ i j, position a l first i ∧ position a l last1 j ∧ (i ≤ j)%nat
  | OpEraseOne p | OpEraseFast p => ∃ i, position a l p i ∧ (i < length l)%nat
  | OpInsertFill p n _ =>
      (∃ i, position a l p i) ∧ 0 ≤ n ∧ nAllocated a + n ≤ size_type_max (promoted X) ∧
      grows_exactly sizeof_T X a n
  | OpInsertOne p _ =>
      (∃ i, position a l p i) ∧ nAllocated a + 1 ≤ size_type_max (promoted X) ∧
      grows_exactly sizeof_T X a 1
  | OpInsertRange p first last1 =>
      (∃ i, position a l p i) ∧ foreign_range X a h first last1 ∧
      nAllocated a + (last1 - first) ≤ size_type_max (promoted X) ∧
      grows_exactly sizeof_T X a (last1 - first)
  | OpPopBack | OpFront | OpBack => l ≠ []
  | OpIndex i => 0 ≤ i < nUsed a
  end.

(** The operations that leave the array holding a list of elements.  The
    two others leave that to the caller or do not get there:
    [raw_push_back()] returns a slot that the caller has yet to construct,
    and [insert(p, first, last1)] does not count what it inserted. *)
Definition keeps_elements (op : operation) : bool :=
  match op with
  | OpRawPushBack | OpInsertRange _ _ _ => false
  | _ => true
  end.

(** The call ends by returning or by throwing, and, where [keeps] is set, the
    heap is then well formed and the array owns its buffer and holds some
    list of elements. *)
Definition ends_owning {A} (keeps : bool) (o : outcome T Array A) : Prop :=
  match o with
  | Returns _ a' h' => keeps = true → heap_wf h' ∧ ∃ l', owns a' h' l'
  | Throws _ a' h' => keeps = true → heap_wf h' ∧ ∃ l', owns a' h' l'
  | Fault => False
  end.





(** Every object of the table satisfies the invariants. *)
Definition store_inv (X : index_type) (objs : gmap Z Array) : Prop :=
  ∀ k a, objs !! k = Some a → inv X a.


(** The elements [l] as a stream is sent them after the first one: each
    after a space. *)
Fixpoint spaced (l : list T) : list (output T) :=
  match l with
  | [] => []
  | v :: l' => PutChar " " :: PutElem v :: spaced l'
  end.

(** The text of an array holding [l]: the elements between braces, one
    space between neighbours. *)
Definition braced (l : list T) : list (output T) :=
  match l with
  | [] => [PutChar "{"; PutChar "}"]
  | v :: l' => PutChar "{" :: PutElem v :: spaced l' ++ [PutChar "}"]
  end.


End Spec.

(** ** class Array_<T,X>, with the requests of [allocN] in bytes

    The member functions that allocate, or call one that does, embedded over
    [operator_new_array]: [allocN] computes [n * sizeof(T)] in [size_t].
    Everything else is as above, and the member functions that do not
    allocate are the ones above. *)

Module Bytes.
Section Array_.

Context {T : Type}.
Variable T_default : T.      (* the value a call of T() constructs *)
Variable build : Build.
Variable X : index_type.
Variable sizeof_T : positive.   (* sizeof(T) *)

Local Abbreviation M := (M T).

(** *** Raw storage *)

(** In a Debug build [allocN] goes on to fill the block with [0xff] bytes,
    which constructs no object. *)
Definition allocN (n : Z) : M Z :=
  if n =? 0 then ret 0
  else operator_new_array sizeof_T (size_t (size_t n * Z.pos sizeof_T)).

Definition allocateNoConstruct (n : Z) : M unit :=
  p <- allocN n ;; set_data p ;; set_nAllocated n.

Definition reallocateNoDestructOrConstruct (n : Z) : M unit :=
  deallocateNoDestruct ;; allocateNoConstruct n.

(** *** Growth *)

Definition growAtEnd (n : Z) : M unit :=
  assert build (0 <? n) ;;
  c <- calcNewCapacityForGrowthBy X n ;;
  set_nAllocated c ;;
  a <- this ;;
  newData <- allocN (nAllocated a) ;;
  copyConstructThenDestructSource newData (newData + nUsed a) (data a) ;;
  freeN (data a) ;;
  set_data newData.

Definition insertGapAt (p n : Z) : M Z :=
  a <- this ;;
  SimTK_ERRCHK build ((begin a <=? p) && (p <=? end_ a)) InvalidRange ;;
  if n =? 0 then ret p
  else
    let before := to_size_type X (p - begin a) in
    let after := to_size_type X (end_ a - p) in
    if arith X (size a + n) <=? capacity a
    then moveElementsUp build p n ;; ret p
    else
      c <- calcNewCapacityForGrowthBy X n ;;
      set_nAllocated c ;;
      newdata <- allocN c ;;
      copyConstructThenDestructSource newdata (newdata + before) (data a) ;;
      copyConstructThenDestructSource (newdata + before + n) (newdata + before + n + after) p ;;
      freeN (data a) ;;
      set_data newdata ;;
      ret (newdata + before).

Definition reallocateIfAdvisable (n : Z) : M unit :=
  a <- this ;;
  if (nAllocated a <? n) || (Z.max (minAlloc X) n <? nAllocated a `quot` 2)
  then reallocateNoDestructOrConstruct n
  else ret tt.

(** *** Size and capacity *)

Definition reserve (newCapacity : Z) : M unit :=
  a <- this ;;
  if newCapacity <=? nAllocated a then ret tt
  else
    assert build (nUsed a <? newCapacity) ;;
    newdata <- allocN newCapacity ;;
    copyConstructThenDestructSource newdata (newdata + nUsed a) (data a) ;;
    freeN (data a) ;;
    set_data newdata ;;
    set_nAllocated newCapacity.

(** *** Insertion *)

Definition insertFill (p n : Z) (value : T) : M Z :=
  gap <- insertGapAt p n ;;
  fillConstruct gap (gap + n) value ;;
  a <- this ;;
  set_nUsed (to_size_type X (nUsed a + n)) ;;
  ret gap.

Definition insertOne (p : Z) (value : T) : M Z :=
  gap <- insertGapAt p 1 ;;
  copyConstructOne gap value ;;
  a <- this ;;
  set_nUsed (to_size_type X (nUsed a + 1)) ;;
  ret gap.

Definition insertImpl (p first last1 : Z) : M Z :=
  a <- this ;;
  SimTK_ERRCHK build (first <=? last1) InvalidRange ;;
  SimTK_ERRCHK build (isGrowthOK X a (last1 - first)) SizeLimitExceeded ;;
  let n := to_size_type X (last1 - first) in
  p' <- insertGapAt p n ;;
  copyConstruct p' (p' + n) first ;;
  ret p'.

Definition insertRange (p first last1 : Z) : M Z :=
  a <- this ;;
  SimTK_ERRCHK build ((negb (first =? 0) && negb (last1 =? 0)) || (first =? last1))
    InvalidRange ;;
  SimTK_ERRCHK build ((last1 <=? begin a) || (end_ a <=? first)) InvalidRange ;;
  insertImpl p first last1.

Definition push_back (value : T) : M Z :=
  a <- this ;;
  (if nAllocated a =? nUsed a then growAtEnd 1 else ret tt) ;;
  a <- this ;;
  let p := data a + nUsed a in
  set_nUsed (to_size_type X (nUsed a + 1)) ;;
  copyConstructOne p value ;;
  ret p.

Definition push_back_default : M Z :=
  a <- this ;;
  (if nAllocated a =? nUsed a then growAtEnd 1 else ret tt) ;;
  a <- this ;;
  let p := data a + nUsed a in
  set_nUsed (to_size_type X (nUsed a + 1)) ;;
  defaultConstructOne T_default p ;;
  ret p.

Definition raw_push_back : M Z :=
  a <- this ;;
  (if nAllocated a =? nUsed a then growAtEnd 1 else ret tt) ;;
  a <- this ;;
  let p := data a + nUsed a in
  set_nUsed (to_size_type X (nUsed a + 1)) ;;
  ret p.

(** *** Assignment *)

Definition assignFill (n : Z) (fillValue : T) : M unit :=
  SimTK_ERRCHK_ALWAYS (isSizeOK X n) SizeLimitExceeded ;;
  clear ;;
  reallocateIfAdvisable n ;;
  a <- this ;;
  fillConstruct (data a) (data a + n) fillValue ;;
  set_nUsed n.

Definition assignImpl (first last1 : Z) : M unit :=
  SimTK_ERRCHK build (first <=? last1) InvalidRange ;;
  SimTK_ERRCHK build (isSizeOK X (last1 - first)) SizeLimitExceeded ;;
  clear ;;
  set_nUsed (to_size_type X (last1 - first)) ;;
  a <- this ;;
  reallocateIfAdvisable (nUsed a) ;;
  a <- this ;;
  copyConstruct (data a) (data a + nUsed a) first.

Fixpoint assignImpl_input_loop (src : list T) : M unit :=
  match src with
  | [] => ret tt
  | v :: src' => push_back v ;; assignImpl_input_loop src'
  end.

Definition assignImpl_input (src : list T) : M unit :=
  clear ;; assignImpl_input_loop src.

Definition assignRange (first last1 : Z) : M unit :=
  a <- this ;;
  SimTK_ERRCHK build ((negb (first =? 0) && negb (last1 =? 0)) || (first =? last1))
    InvalidRange ;;
  SimTK_ERRCHK build ((last1 <=? begin a) || (end_ a <=? first)) InvalidRange ;;
  assignImpl first last1.

Definition operator_assign_converting (src : Array) : M unit :=
  assignImpl (begin src) (end_ src).

(** *** Resizing *)

Definition resize (sz : Z) : M unit :=
  a <- this ;;
  if sz =? nUsed a then ret tt
  else if sz =? 0 then clear
  else if sz <? nUsed a then erase build X (data a + sz) (end_ a) ;; ret tt
  else
    reserve sz ;;
    a <- this ;;
    defaultConstruct T_default (data a + nUsed a) (data a + sz) ;;
    set_nUsed sz.

Definition resizeFill (sz : Z) (initVal : T) : M unit :=
  a <- this ;;
  if sz =? nUsed a then ret tt
  else if sz =? 0 then clear
  else if sz <? nUsed a then erase build X (data a + sz) (end_ a) ;; ret tt
  else
    reserve sz ;;
    a <- this ;;
    fillConstruct (data a + nUsed a) (data a + sz) initVal ;;
    set_nUsed sz.

(** *** Constructors *)

Definition Array_n (n : Z) : M unit :=
  SimTK_SIZECHECK build n (max_size X) ;;
  allocateNoConstruct n ;;
  a <- this ;;
  defaultConstruct T_default (data a) (data a + n) ;;
  set_nUsed n.

Definition Array_fill (n : Z) (initVal : T) : M unit :=
  SimTK_SIZECHECK build n (max_size X) ;;
  allocateNoConstruct n ;;
  a <- this ;;
  fillConstruct (data a) (data a + n) initVal ;;
  set_nUsed n.

Definition Array_range (first last1 : Z) : M unit :=
  SimTK_ERRCHK build ((negb (first =? 0) && negb (last1 =? 0)) || (first =? last1))
    InvalidRange ;;
  SimTK_ERRCHK build (isSizeOK X (last1 - first)) SizeLimitExceeded ;;
  set_nUsed (to_size_type X (last1 - first)) ;;
  a <- this ;;
  allocateNoConstruct (nUsed a) ;;
  a <- this ;;
  copyConstruct (data a) (data a + nUsed a) first.

Definition Array_copy (src : Array) : M unit :=
  set_nUsed (nUsed src) ;;
  a <- this ;;
  allocateNoConstruct (nUsed a) ;;
  a <- this ;;
  copyConstruct (data a) (data a + nUsed a) (data src).

(** *** The public operations *)

(** [k] appends in a row. *)
Fixpoint appends (values : list T) : M unit :=
  match values with
  | [] => ret tt
  | v :: values' => push_back v ;; appends values'
  end.

(** The call of an operation; what it returns is dropped. *)
Definition run (op : operation) : M unit :=
  match op with
  | OpDefaultCtor => Array_default
  | OpCtorN n => Array_n n
  | OpCtorFill n v => Array_fill n v
  | OpCtorRange first last1 => Array_range first last1
  | OpCtorCopy src => Array_copy src
  | OpDtor => Array_destroy
  | OpAssignFill n v => assignFill n v
  | OpAssignRange first last1 => assignRange first last1
  | OpAssignInput values => assignImpl_input values
  | OpAssignConverting src => operator_assign_converting src
  | OpResize sz => resize sz
  | OpResizeFill sz v => resizeFill sz v
  | OpReserve n => reserve n
  | OpClear => clear
  | OpErase first last1 => erase build X first last1 ;; ret tt
  | OpEraseOne p => eraseOne build X p ;; ret tt
  | OpEraseFast p => eraseFast build X p ;; ret tt
  | OpInsertFill p n v => insertFill p n v ;; ret tt
  | OpInsertOne p v => insertOne p v ;; ret tt
  | OpInsertRange p first last1 => insertRange p first last1 ;; ret tt
  | OpPushBack v => push_back v ;; ret tt
  | OpPushBackDefault => push_back_default ;; ret tt
  | OpRawPushBack => raw_push_back ;; ret tt
  | OpPopBack => pop_back build X
  | OpIndex i => operator_index build i ;; ret tt
  | OpAt i => at_ i ;; ret tt
  | OpFront => front build ;; ret tt
  | OpBack => back build ;; ret tt
  end.

End Array_.

(** [Array_& operator=(const Array_& src)] *)
Definition operator_assign {T} (build : Build) (X : index_type) (sizeof_T : positive)
  (self src : Z) : gmap Z Array → Heap T → outcome T (gmap Z Array) unit :=
  λ objs h,
    if negb (self =? src)
    then match objs !! src with
         | None => Fault
         | Some s => call self (assignImpl build X sizeof_T (begin s) (end_ s)) objs h
         end
    else Returns tt objs h.

End Bytes.

(** ** Example states

    An array of [int] holding 1..5 in a buffer of 8 slots at address 1, and a
    second array holding 100, 200 in a buffer of its own at address 9. *)

Definition example_heap : Heap Z :=
  mkHeap
    (list_to_map
       [(1, Some 1); (2, Some 2); (3, Some 3); (4, Some 4); (5, Some 5);
        (6, None); (7, None); (8, None); (9, Some 100); (10, Some 200)])
    (list_to_map [(1, 8); (9, 2)])
    11 2.

Definition example_array : Array := mkArray 1 5 8.

Definition example_source : Array := mkArray 9 2 2.


(** An [Array_<int, signed char>] with no elements in a buffer of 126 slots
    at address 1, and two [int]s, 7 and 8, in a buffer of their own at
    address 127. *)

Definition example_spare_heap : Heap Z :=
  mkHeap
    (raw_cells 1 126 (list_to_map [(127, Some 7); (128, Some 8)]))
    (list_to_map [(1, 126); (127, 2)])
    129 2.

Definition example_spare_array : Array := mkArray 1 0 126.


(** An [Array_<int>] holding 1, 2, 3 in a buffer of 7 slots at address 1, and
    one [int], 100, in a block of its own at address 8. *)

Definition example_small_heap : Heap Z :=
  mkHeap
    (list_to_map
       [(1, Some 1); (2, Some 2); (3, Some 3); (4, None); (5, None); (6, None);
        (7, None); (8, Some 100)])
    (list_to_map [(1, 7); (8, 1)])
    9 2.

Definition example_small_array : Array := mkArray 1 3 7.


(** * Properties *)

(** ** Integer conversions *)

Lemma max_size_bounds X : 127 ≤ traits_max_size X ≤ size_type_max X.
Proof. destruct X; vm_compute; split; congruence. Qed.

Lemma max_size_lt_ull X : traits_max_size X < 2 ^ 63.
Proof. destruct X; vm_compute; congruence. Qed.

Lemma size_type_min_nonpos X : size_type_min X ≤ 0.
Proof. destruct X; vm_compute; congruence. Qed.

Lemma to_size_type_id X z :
  size_type_min X ≤ z ≤ size_type_max X → to_size_type X z = z.
Proof.
  unfold size_type_min, size_type_max, to_size_type.
  destruct X; cbn [size_signed size_bits]; intros Hz.
  all: try (rewrite Z.mod_small; lia).
Qed.

Lemma to_size_type_small X z : 0 ≤ z ≤ traits_max_size X → to_size_type X z = z.
Proof.
  intros Hz. apply to_size_type_id.
  pose proof (max_size_bounds X). pose proof (size_type_min_nonpos X). lia.
Qed.

Lemma arith_id X z :
  size_type_min (promoted X) ≤ z ≤ size_type_max (promoted X) → arith X z = z.
Proof. apply to_size_type_id. Qed.

Lemma arith_small X z : 0 ≤ z ≤ traits_max_size X → arith X z = z.
Proof.
  intros Hz. apply arith_id.
  unfold size_type_min, size_type_max.
  destruct X; cbn [promoted size_signed size_bits traits_max_size] in *; lia.
Qed.

Lemma ull_id z : 0 ≤ z < 2 ^ 64 → ull z = z.
Proof. intros. unfold ull. apply Z.mod_small. lia. Qed.

(** ** The monad *)

(** Case analysis on the address tests of a slot-by-slot description, in the
    goal only. *)
Tactic Notation "case_goal" "as" ident(H) :=
  match goal with |- context [decide ?P] => destruct (decide P) as [H|H] end.
Tactic Notation "case_goal" :=
  let H := fresh in case_goal as H.

Ltac by_cases := repeat case_goal; subst; try reflexivity; try lia; try congruence.

Section Properties.

Context {T : Type}.
Variable T_default : T.
Variable build : Build.
Variable X : index_type.
Variable sizeof_T : positive.   (* sizeof(T) *)

Implicit Types (a : Array) (h : Heap T) (l : list T) (p q n : Z).

Lemma bind_Returns {A B} (m : M T A) (f : A → M T B) a h v a' h' :
  m a h = Returns v a' h' → bind m f a h = f v a' h'.
Proof. unfold bind. intros ->. reflexivity. Qed.

Lemma bind_Throws {A B} (m : M T A) (f : A → M T B) a h c a' h' :
  m a h = Throws c a' h' → bind m f a h = Throws c a' h'.
Proof. unfold bind. intros ->. reflexivity. Qed.

(** Run the first call of a sequence, given its result. *)
Ltac mstep E := erewrite bind_Returns by E; cbv beta.

(** ** Growth policy *)

Lemma minAlloc_eq : minAlloc X = 4.
Proof.
  unfold minAlloc, max_size. rewrite to_size_type_small.
  - pose proof (max_size_bounds X). lia.
  - pose proof (max_size_bounds X). lia.
Qed.

Lemma isSizeOK_iff z :
  0 ≤ z < 2 ^ 64 → isSizeOK X z = true ↔ z ≤ traits_max_size X.
Proof.
  intros Hz. unfold isSizeOK, ullMaxSize, max_size.
  pose proof (max_size_bounds X). pose proof (max_size_lt_ull X).
  rewrite !ull_id by lia. apply Z.leb_le.
Qed.

Lemma isGrowthOK_iff a n :
  0 ≤ nAllocated a → 0 ≤ n → nAllocated a + n < 2 ^ 64 →
  isGrowthOK X a n = true ↔ nAllocated a + n ≤ traits_max_size X.
Proof.
  intros Hc Hn Hs. unfold isGrowthOK, ullCapacity, capacity.
  rewrite !ull_id by lia. fold (ull (nAllocated a + n)).
  rewrite ull_id by lia. apply isSizeOK_iff. lia.
Qed.

(** The capacity chosen when the growth check passes. *)
Lemma calcNewCapacityForGrowthBy_ok n a h :
  0 ≤ nAllocated a → 0 ≤ n → nAllocated a + n ≤ traits_max_size X →
  calcNewCapacityForGrowthBy X n a h =
    Returns (Z.max (Z.max (nAllocated a + n)
                          (Z.min (2 * nAllocated a) (traits_max_size X)))
                   (Z.min 4 (traits_max_size X))) a h.
Proof.
  intros Hc Hn Hs.
  pose proof (max_size_bounds X) as HM. pose proof (max_size_lt_ull X) as HU.
  unfold calcNewCapacityForGrowthBy, bind, this, SimTK_ERRCHK_ALWAYS.
  assert (isGrowthOK X a n = true) as -> by (apply isGrowthOK_iff; lia).
  unfold ret, capacity, max_size. rewrite minAlloc_eq.
  rewrite (arith_small X (nAllocated a + n)) by lia.
  rewrite (to_size_type_small X (nAllocated a + n)) by lia.
  f_equal. f_equal; [f_equal|lia].
  destruct (Z.leb_spec (nAllocated a) (traits_max_size X `quot` 2)) as [Hle|Hgt].
  - assert (2 * nAllocated a ≤ traits_max_size X).
    { pose proof (Z.quot_pos (traits_max_size X) 2).
      pose proof (Z.mul_quot_le (traits_max_size X) 2). lia. }
    rewrite arith_small, to_size_type_small by lia. lia.
  - assert (traits_max_size X < 2 * nAllocated a).
    { pose proof (Z.mul_succ_quot_gt (traits_max_size X) 2). lia. }
    rewrite to_size_type_small by lia. lia.
Qed.

(** The growth check fails whenever the capacity asked for exceeds
    [max_size] and the [unsigned long long] sum does not wrap. *)
Lemma calcNewCapacityForGrowthBy_limit n a h :
  0 ≤ nAllocated a → 0 ≤ n → nAllocated a + n < 2 ^ 64 →
  traits_max_size X < nAllocated a + n →
  calcNewCapacityForGrowthBy X n a h = Throws SizeLimitExceeded a h.
Proof.
  intros Hc Hn Hs Hlim.
  unfold calcNewCapacityForGrowthBy, bind, this, SimTK_ERRCHK_ALWAYS.
  destruct (isGrowthOK X a n) eqn:E; [|reflexivity].
  apply isGrowthOK_iff in E; lia.
Qed.

(** ** Heap primitives *)

Lemma lookup_raw_cells (m : gmap Z (option T)) k : ∀ p q,
  raw_cells p k m !! q =
    if decide (p ≤ q < p + Z.of_nat k) then Some None else m !! q.
Proof.
  induction k as [|k IH]; intros p q; cbn [raw_cells].
  - case_goal; [lia|reflexivity].
  - rewrite lookup_insert. case_goal as E.
    + subst q. case_goal; [reflexivity|lia].
    + rewrite IH. repeat case_goal; try reflexivity; lia.
Qed.

Lemma lookup_drop_cells (m : gmap Z (option T)) k : ∀ p q,
  drop_cells p k m !! q =
    if decide (p ≤ q < p + Z.of_nat k) then None else m !! q.
Proof.
  induction k as [|k IH]; intros p q; cbn [drop_cells].
  - case_goal; [lia|reflexivity].
  - rewrite lookup_delete. case_goal as E.
    + subst q. case_goal; [reflexivity|lia].
    + rewrite IH. repeat case_goal; try reflexivity; lia.
Qed.

Lemma lookup_set_cell h p c q :
  cells (set_cell h p c) !! q = if decide (p = q) then Some c else cells h !! q.
Proof. unfold set_cell; cbn. apply lookup_insert. Qed.

Lemma same_alloc_refl h : same_alloc h h.
Proof. repeat split. Qed.

Lemma same_alloc_trans h1 h2 h3 :
  same_alloc h1 h2 → same_alloc h2 h3 → same_alloc h1 h3.
Proof. unfold same_alloc. intros (?&?&?) (?&?&?). repeat split; congruence. Qed.

Lemma same_alloc_set_cell h p c : same_alloc h (set_cell h p c).
Proof. repeat split. Qed.

Lemma load_eq p v a h :
  cells h !! p = Some (Some v) → load p a h = Returns v a h.
Proof. unfold load. intros ->. reflexivity. Qed.

Lemma construct_at_eq p v a h :
  cells h !! p = Some None → construct_at p v a h = Returns tt a (set_cell h p (Some v)).
Proof. unfold construct_at. intros ->. reflexivity. Qed.

Lemma destroy_at_eq p v a h :
  cells h !! p = Some (Some v) → destroy_at p a h = Returns tt a (set_cell h p None).
Proof. unfold destroy_at. intros ->. reflexivity. Qed.

Lemma lookup_cons_Z (v : T) l q b :
  b < q → (v :: l) !! Z.to_nat (q - b) = l !! Z.to_nat (q - (b + 1)).
Proof.
  intros Hq. replace (Z.to_nat (q - b)) with (S (Z.to_nat (q - (b + 1)))) by lia.
  reflexivity.
Qed.

Lemma live_lookup h p l (i : nat) v :
  live h p l → l !! i = Some v → cells h !! (p + Z.of_nat i) = Some (Some v).
Proof.
  intros Hl Hi. pose proof (lookup_lt_Some _ _ _ Hi) as Hlt.
  rewrite Hl by lia. replace (Z.to_nat (p + Z.of_nat i - p)) with i by lia.
  by rewrite Hi.
Qed.

(** ** The construction and destruction loops *)

Lemma fillConstruct_loop_spec k : ∀ b v a h,
  raw h b (Z.of_nat k) →
  ∃ h', fillConstruct_loop k b v a h = Returns tt a h' ∧ same_alloc h h' ∧
        ∀ q, cells h' !! q =
               if decide (b ≤ q < b + Z.of_nat k) then Some (Some v) else cells h !! q.
Proof.
  induction k as [|k IH]; intros b v a h Hraw; cbn [fillConstruct_loop].
  - exists h. split; [reflexivity|]. split; [apply same_alloc_refl|].
    intros q. case_goal; [lia|reflexivity].
  - erewrite bind_Returns by (apply construct_at_eq, Hraw; lia).
    destruct (IH (b + 1) v a (set_cell h b (Some v))) as (h' & E & Hs & Hc).
    { intros q Hq. rewrite lookup_set_cell. case_goal; [lia|]. apply Hraw. lia. }
    exists h'. split; [exact E|]. split.
    { eapply same_alloc_trans; [apply same_alloc_set_cell|exact Hs]. }
    intros q. rewrite Hc, lookup_set_cell.
    by_cases.
Qed.

Lemma defaultConstruct_loop_eq k : ∀ b a h,
  defaultConstruct_loop T_default k b a h = fillConstruct_loop k b T_default a h.
Proof.
  induction k as [|k IH]; intros b a h; cbn; [reflexivity|].
  unfold bind. destruct (construct_at b T_default a h); auto.
Qed.

Lemma destruct_loop_spec l : ∀ b a h,
  live h b l →
  ∃ h', destruct_loop (length l) b a h = Returns tt a h' ∧ same_alloc h h' ∧
        ∀ q, cells h' !! q =
               if decide (b ≤ q < b + Z.of_nat (length l)) then Some None else cells h !! q.
Proof.
  induction l as [|v l IH]; intros b a h Hl; cbn [destruct_loop length].
  - exists h. split; [reflexivity|]. split; [apply same_alloc_refl|].
    intros q. case_goal; [lia|reflexivity].
  - assert (cells h !! b = Some (Some v)) as Hb.
    { rewrite Hl by (cbn [length]; lia). by replace (Z.to_nat (b - b)) with O by lia. }
    erewrite bind_Returns by (eapply destroy_at_eq, Hb).
    destruct (IH (b + 1) a (set_cell h b None)) as (h' & E & Hs & Hc).
    { intros q Hq. rewrite lookup_set_cell. case_goal; [lia|].
      rewrite Hl by (cbn [length]; lia). by rewrite lookup_cons_Z by lia. }
    exists h'. split; [exact E|]. split.
    { eapply same_alloc_trans; [apply same_alloc_set_cell|exact Hs]. }
    intros q. rewrite Hc, lookup_set_cell.
    by_cases.
Qed.

Lemma live_is_object h p l q :
  live h p l → p ≤ q < p + Z.of_nat (length l) → ∃ v, cells h !! q = Some (Some v).
Proof.
  intros Hl Hq. rewrite Hl by lia.
  destruct (lookup_lt_is_Some_2 l (Z.to_nat (q - p))) as [v ->]; [lia|]. by exists v.
Qed.

Lemma live_raw_disjoint h p l b n q :
  live h p l → raw h b n → p ≤ q < p + Z.of_nat (length l) → b ≤ q < b + n → False.
Proof.
  intros Hl Hr Hq1 Hq2. destruct (live_is_object h p l q Hl Hq1) as [v Hv].
  rewrite Hr in Hv by lia. discriminate.
Qed.

Lemma live_head h p v l : live h p (v :: l) → cells h !! p = Some (Some v).
Proof.
  intros Hl. rewrite Hl by (cbn [length]; lia).
  by replace (Z.to_nat (p - p)) with O by lia.
Qed.

Lemma copyConstruct_loop_spec l : ∀ b src a h,
  live h src l → raw h b (Z.of_nat (length l)) →
  ∃ h', copyConstruct_loop (length l) b src a h = Returns tt a h' ∧ same_alloc h h' ∧
        ∀ q, cells h' !! q =
               if decide (b ≤ q < b + Z.of_nat (length l))
               then Some (l !! Z.to_nat (q - b)) else cells h !! q.
Proof.
  induction l as [|v l IH]; intros b src a h Hl Hraw; cbn [copyConstruct_loop length].
  - exists h. split; [reflexivity|]. split; [apply same_alloc_refl|].
    intros q. case_goal; [lia|reflexivity].
  - pose proof (live_head _ _ _ _ Hl) as Hs.
    erewrite bind_Returns by (eapply load_eq, Hs).
    erewrite bind_Returns by (apply construct_at_eq, Hraw; cbn [length]; lia).
    destruct (IH (b + 1) (src + 1) a (set_cell h b (Some v))) as (h' & E & Hsa & Hc).
    { intros q Hq. rewrite lookup_set_cell. case_goal as Hbq.
      - exfalso. eapply (live_raw_disjoint h src (v :: l) b _ q); eauto;
          cbn [length]; lia.
      - rewrite Hl by (cbn [length]; lia). by rewrite lookup_cons_Z by lia. }
    { intros q Hq. rewrite lookup_set_cell. case_goal; [lia|].
      apply Hraw. cbn [length]. lia. }
    exists h'. split; [exact E|]. split.
    { eapply same_alloc_trans; [apply same_alloc_set_cell|exact Hsa]. }
    intros q. rewrite Hc, lookup_set_cell. repeat case_goal; subst; try lia; try reflexivity.
    + by rewrite lookup_cons_Z by lia.
    + by replace (Z.to_nat (q - q)) with O by lia.
Qed.

(** Moving [l] from [src] to [b], front to back.  The target may lie below
    the source and overlap it; the target slots outside the source are
    unconstructed. *)
Lemma copyConstructThenDestructSource_loop_spec l : ∀ b src a h,
  live h src l →
  (∀ q, b ≤ q < b + Z.of_nat (length l) → ¬ src ≤ q < src + Z.of_nat (length l) →
        cells h !! q = Some None) →
  b < src ∨ src + Z.of_nat (length l) ≤ b →
  ∃ h', copyConstructThenDestructSource_loop (length l) b src a h = Returns tt a h' ∧
        same_alloc h h' ∧
        ∀ q, cells h' !! q =
               if decide (b ≤ q < b + Z.of_nat (length l))
               then Some (l !! Z.to_nat (q - b))
               else if decide (src ≤ q < src + Z.of_nat (length l)) then Some None
               else cells h !! q.
Proof.
  induction l as [|v l IH]; intros b src a h Hl Hraw Hpos;
    cbn [copyConstructThenDestructSource_loop length].
  - exists h. split; [reflexivity|]. split; [apply same_alloc_refl|].
    intros q. by_cases.
  - pose proof (live_head _ _ _ _ Hl) as Hs. cbn [length] in *.
    erewrite bind_Returns by (eapply load_eq, Hs).
    erewrite bind_Returns by (apply construct_at_eq, Hraw; lia).
    erewrite bind_Returns.
    2:{ eapply destroy_at_eq. rewrite lookup_set_cell. case_goal; [lia|exact Hs]. }
    destruct (IH (b + 1) (src + 1) a (set_cell (set_cell h b (Some v)) src None))
      as (h' & E & Hsa & Hc).
    { intros q Hq. rewrite !lookup_set_cell. repeat case_goal; try lia.
      rewrite Hl by (cbn [length]; lia). by rewrite lookup_cons_Z by lia. }
    { intros q Hq Hn. rewrite !lookup_set_cell. repeat case_goal; try lia; try reflexivity.
      apply Hraw; lia. }
    { lia. }
    exists h'. split; [exact E|]. split.
    { eapply same_alloc_trans; [|exact Hsa].
      eapply same_alloc_trans; apply same_alloc_set_cell. }
    intros q. rewrite Hc, !lookup_set_cell. repeat case_goal; subst; try lia; try reflexivity.
    + by rewrite lookup_cons_Z by lia.
    + by replace (Z.to_nat (q - q)) with O by lia.
Qed.

Lemma assert_true cond a h : cond = true → assert build cond a h = Returns tt a h.
Proof. intros ->. unfold assert. by destruct build. Qed.

Lemma moveOneElement_eq to from v a h :
  data a ≤ to < data a + nAllocated a →
  data a ≤ from < data a + nAllocated a →
  cells h !! from = Some (Some v) → cells h !! to = Some None → to ≠ from →
  moveOneElement build to from a h =
    Returns tt a (set_cell (set_cell h to (Some v)) from None).
Proof.
  intros Hto Hfrom Hf Ht Hne. unfold moveOneElement.
  erewrite bind_Returns by reflexivity.
  erewrite bind_Returns by (apply assert_true; lia).
  erewrite bind_Returns by (apply assert_true; lia).
  erewrite bind_Returns by (eapply load_eq, Hf).
  unfold copyConstructOne, destructOne.
  erewrite bind_Returns by (apply construct_at_eq, Ht).
  eapply destroy_at_eq. rewrite lookup_set_cell. case_goal; [lia|exact Hf].
Qed.

(** Closing a gap of [n] slots below [p]: the elements [l] from [p] on move
    down by [n], front to back. *)
Lemma moveElementsDown_loop_spec l : ∀ p n a h,
  0 < n → data a ≤ p - n → p + Z.of_nat (length l) ≤ data a + nAllocated a →
  live h p l → raw h (p - n) n →
  ∃ h', moveElementsDown_loop build (length l) p n a h = Returns tt a h' ∧
        same_alloc h h' ∧
        ∀ q, cells h' !! q =
               if decide (p - n ≤ q < p - n + Z.of_nat (length l))
               then Some (l !! Z.to_nat (q - (p - n)))
               else if decide (p ≤ q < p + Z.of_nat (length l)) then Some None
               else cells h !! q.
Proof.
  induction l as [|v l IH]; intros p n a h Hn Hlo Hhi Hl Hraw;
    cbn [moveElementsDown_loop length].
  - exists h. split; [reflexivity|]. split; [apply same_alloc_refl|].
    intros q. by_cases.
  - pose proof (live_head _ _ _ _ Hl) as Hs. cbn [length] in *.
    erewrite bind_Returns.
    2:{ eapply moveOneElement_eq; try lia; [exact Hs|apply Hraw; lia]. }
    destruct (IH (p + 1) n a (set_cell (set_cell h (p - n) (Some v)) p None))
      as (h' & E & Hsa & Hc); try lia.
    { intros q Hq. rewrite !lookup_set_cell. repeat case_goal; try lia.
      rewrite Hl by (cbn [length]; lia). by rewrite lookup_cons_Z by lia. }
    { intros q Hq. rewrite !lookup_set_cell. repeat case_goal; try lia; try reflexivity.
      apply Hraw; lia. }
    exists h'. split; [exact E|]. split.
    { eapply same_alloc_trans; [|exact Hsa].
      eapply same_alloc_trans; apply same_alloc_set_cell. }
    intros q. rewrite Hc, !lookup_set_cell. repeat case_goal; subst; try lia; try reflexivity.
    + replace (q - (p + 1 - n)) with (q - (p - n + 1)) by lia.
      by rewrite lookup_cons_Z by lia.
    + by replace (Z.to_nat (p - n - (p - n))) with O by lia.
Qed.

(** Opening a gap of [n] slots: the elements [l] below [src] move up by [n],
    back to front. *)
Lemma moveElementsUp_loop_spec l : ∀ src n a h,
  0 < n → data a ≤ src - Z.of_nat (length l) → src + n ≤ data a + nAllocated a →
  live h (src - Z.of_nat (length l)) l →
  (∀ q, src - Z.of_nat (length l) + n ≤ q < src + n →
        ¬ src - Z.of_nat (length l) ≤ q < src → cells h !! q = Some None) →
  ∃ h', moveElementsUp_loop build (length l) src n a h = Returns tt a h' ∧
        same_alloc h h' ∧
        ∀ q, cells h' !! q =
               if decide (src - Z.of_nat (length l) + n ≤ q < src + n)
               then Some (l !! Z.to_nat (q - (src - Z.of_nat (length l) + n)))
               else if decide (src - Z.of_nat (length l) ≤ q < src) then Some None
               else cells h !! q.
Proof.
  induction l as [|v l IH] using rev_ind; intros src n a h Hn Hlo Hhi Hl Hraw.
  - cbn [moveElementsUp_loop length] in *.
    exists h. split; [reflexivity|]. split; [apply same_alloc_refl|].
    intros q. by_cases.
  - rewrite length_app in *. cbn [length] in *.
    replace (length l + 1)%nat with (S (length l)) in * by lia.
    cbn [moveElementsUp_loop].
    assert (cells h !! (src - 1) = Some (Some v)) as Hs.
    { rewrite Hl by (rewrite length_app; cbn [length]; lia).
      replace (Z.to_nat (src - 1 - (src - Z.of_nat (S (length l))))) with (length l) by lia.
      by rewrite list_lookup_middle. }
    erewrite bind_Returns.
    2:{ eapply moveOneElement_eq; try lia; [exact Hs|apply Hraw; lia]. }
    destruct (IH (src - 1) n a (set_cell (set_cell h (src - 1 + n) (Some v)) (src - 1) None))
      as (h' & E & Hsa & Hc); try lia.
    { intros q Hq. rewrite !lookup_set_cell. repeat case_goal; try lia.
      rewrite Hl by (rewrite length_app; cbn [length]; lia).
      replace (src - Z.of_nat (S (length l))) with (src - 1 - Z.of_nat (length l)) by lia.
      by rewrite lookup_app_l by lia. }
    { intros q Hq Hnq. rewrite !lookup_set_cell.
      repeat case_goal; try lia; try reflexivity. apply Hraw; lia. }
    exists h'. split; [exact E|]. split.
    { eapply same_alloc_trans; [|exact Hsa].
      eapply same_alloc_trans; apply same_alloc_set_cell. }
    intros q. rewrite Hc, !lookup_set_cell.
    replace (src - Z.of_nat (S (length l))) with (src - 1 - Z.of_nat (length l)) by lia.
    repeat case_goal; subst; try lia; try reflexivity.
    + by rewrite lookup_app_l by lia.
    + replace (Z.to_nat (src - 1 + n - (src - 1 - Z.of_nat (length l) + n)))
        with (length l) by lia.
      by rewrite list_lookup_middle.
Qed.

Lemma range_loop_count (k : nat) b : (b + Z.of_nat k <? b) = false ∧ Z.to_nat (b + Z.of_nat k - b) = k.
Proof. split; [apply Z.ltb_ge|]; lia. Qed.

Lemma fillConstruct_eq (k : nat) b (v : T) :
  fillConstruct b (b + Z.of_nat k) v = fillConstruct_loop k b v.
Proof. unfold fillConstruct. by destruct (range_loop_count k b) as [-> ->]. Qed.

Lemma defaultConstruct_eq (k : nat) b :
  defaultConstruct T_default b (b + Z.of_nat k) = defaultConstruct_loop T_default k b.
Proof. unfold defaultConstruct. by destruct (range_loop_count k b) as [-> ->]. Qed.

Lemma copyConstruct_eq (k : nat) b src :
  copyConstruct (T:=T) b (b + Z.of_nat k) src = copyConstruct_loop k b src.
Proof. unfold copyConstruct. by destruct (range_loop_count k b) as [-> ->]. Qed.

Lemma copyConstructThenDestructSource_eq (k : nat) b src :
  copyConstructThenDestructSource (T:=T) b (b + Z.of_nat k) src =
    copyConstructThenDestructSource_loop k b src.
Proof. unfold copyConstructThenDestructSource. by destruct (range_loop_count k b) as [-> ->]. Qed.

Lemma destructRange_eq (k : nat) b :
  destructRange (T:=T) b (b + Z.of_nat k) = destruct_loop k b.
Proof. unfold destructRange. by destruct (range_loop_count k b) as [-> ->]. Qed.

(** ** Allocation *)

Lemma heap_wf_same_dom h h' :
  heap_wf h → same_alloc h h' →
  (∀ q, is_Some (cells h' !! q) → is_Some (cells h !! q)) → heap_wf h'.
Proof.
  intros (Hb & Hc & Hbl) (E1 & E2 & E3) Hdom. unfold heap_wf.
  rewrite E1, E2. split; [exact Hb|]. split; [|exact Hbl].
  intros q Hq. apply Hc, Hdom, Hq.
Qed.

Lemma heap_wf_fresh h q : heap_wf h → brk h ≤ q → cells h !! q = None.
Proof.
  intros (_ & Hc & _) Hq. destruct (cells h !! q) eqn:E; [|reflexivity].
  assert (is_Some (cells h !! q)) as Hs by (rewrite E; eauto).
  apply Hc in Hs. lia.
Qed.

Lemma heap_wf_fresh_block h q : heap_wf h → brk h ≤ q → blocks h !! q = None.
Proof.
  intros (_ & _ & Hbl) Hq. destruct (blocks h !! q) eqn:E; [|reflexivity].
  apply Hbl in E. lia.
Qed.

Lemma allocN_spec n a h :
  heap_wf h → 0 < n →
  ∃ h', allocN n a h = Returns (brk h) a h' ∧ heap_wf h' ∧
        blocks h' = <[brk h := n]> (blocks h) ∧ brk h' = brk h + n ∧
        nalloc h' = S (nalloc h) ∧
        ∀ q, cells h' !! q =
               if decide (brk h ≤ q < brk h + n) then Some None else cells h !! q.
Proof.
  intros Hwf Hn. unfold allocN, operator_new.
  destruct (Z.eqb_spec n 0) as [|_]; [lia|].
  destruct (Z.ltb_spec n 0) as [|_]; [lia|].
  eexists. split; [reflexivity|]. cbn [cells blocks brk nalloc].
  assert (∀ q, raw_cells (brk h) (Z.to_nat n) (cells h) !! q =
               if decide (brk h ≤ q < brk h + n) then Some None else cells h !! q) as Hc.
  { intros q. rewrite lookup_raw_cells. rewrite Z2Nat.id by lia. reflexivity. }
  split; [|auto].
  destruct Hwf as (Hb & Hcw & Hbl). unfold heap_wf. cbn [cells blocks brk].
  split; [lia|]. split.
  - intros q. rewrite Hc. case_goal; [lia|]. intros Hq. apply Hcw in Hq. lia.
  - intros b m. rewrite lookup_insert. case_goal.
    + intros [= <-]. subst. lia.
    + intros Hm. apply Hbl in Hm. lia.
Qed.

Lemma allocN_zero a h : allocN 0 a h = Returns 0 a h.
Proof. reflexivity. Qed.

Lemma freeN_spec p n a h :
  heap_wf h → blocks h !! p = Some n →
  ∃ h', freeN p a h = Returns tt a h' ∧ heap_wf h' ∧
        blocks h' = delete p (blocks h) ∧ brk h' = brk h ∧ nalloc h' = nalloc h ∧
        ∀ q, cells h' !! q =
               if decide (p ≤ q < p + n) then None else cells h !! q.
Proof.
  intros Hwf Hp. unfold freeN, operator_delete.
  destruct Hwf as (Hb & Hcw & Hbl). pose proof (Hbl _ _ Hp) as Hpn.
  destruct (Z.eqb_spec p 0) as [|_]; [lia|]. rewrite Hp.
  eexists. split; [reflexivity|]. cbn [cells blocks brk nalloc].
  assert (∀ q, drop_cells p (Z.to_nat n) (cells h) !! q =
               if decide (p ≤ q < p + n) then None else cells h !! q) as Hc.
  { intros q. rewrite lookup_drop_cells. rewrite Z2Nat.id by lia. reflexivity. }
  split; [|auto].
  unfold heap_wf. cbn [cells blocks brk]. split; [lia|]. split.
  - intros q. rewrite Hc. case_goal; [by intros [? ?]|]. apply Hcw.
  - intros b m. rewrite lookup_delete. case_goal; [discriminate|]. apply Hbl.
Qed.

Lemma freeN_null a h : freeN 0 a h = Returns tt a h.
Proof. reflexivity. Qed.

(** ** Moving the elements into a fresh buffer *)

Lemma owns_block_bounds a h l :
  heap_wf h → owns a h l →
  0 ≤ nUsed a ∧ 0 ≤ data a ∧ data a + nAllocated a ≤ brk h.
Proof.
  intros (Hb & _ & Hbl) (Hlen & Hle & _ & _ & Hnull & Hblk).
  destruct (decide (nAllocated a = 0)) as [E|E].
  - rewrite E, Hnull by exact E. lia.
  - apply Hblk, Hbl in E. lia.
Qed.

(** The sequence [allocN; copyConstructThenDestructSource; freeN] of
    [growAtEnd] and [reserve], followed by any continuation [K]. *)
Lemma relocate_spec {B} (K : Z → M T B) a0 a h l c :
  heap_wf h → owns a h l → nUsed a ≤ c → 0 < c →
  ∃ h',
    (newData <- allocN c ;;
     copyConstructThenDestructSource newData (newData + nUsed a) (data a) ;;
     freeN (data a) ;;
     K newData) a0 h = K (brk h) a0 h' ∧
    heap_wf h' ∧ owns (mkArray (brk h) (nUsed a) c) h' l ∧
    brk h' = brk h + c ∧ nalloc h' = S (nalloc h) ∧
    (∀ q, q < brk h → ¬ data a ≤ q < data a + nAllocated a →
          cells h' !! q = cells h !! q).
Proof.
  intros Hwf Hown Hc Hc0.
  pose proof (owns_block_bounds _ _ _ Hwf Hown) as (Hu0 & Hd0 & Hdb).
  pose proof Hwf as (Hbrk0 & _ & Hblk0).
  destruct Hown as (Hlen & Hle & Hlive & Hraw & Hnull & Hblk).
  assert (data a < brk h) as Hdlt.
  { destruct (decide (nAllocated a = 0)) as [E|E]; [rewrite Hnull by exact E; lia|].
    apply Hblk, Hblk0 in E. lia. }
  destruct (allocN_spec c a0 h Hwf Hc0) as (h1 & E1 & Hwf1 & Hbl1 & Hbrk1 & Hn1 & Hc1).
  mstep ltac:(exact E1).
  rewrite <- Hlen. rewrite copyConstructThenDestructSource_eq.
  destruct (copyConstructThenDestructSource_loop_spec l (brk h) (data a) a0 h1)
    as (h2 & E2 & Hsa2 & Hc2).
  { intros q Hq. rewrite Hc1. case_goal; [lia|]. apply Hlive, Hq. }
  { intros q Hq _. rewrite Hc1. case_goal; [reflexivity|lia]. }
  { right. lia. }
  mstep ltac:(exact E2).
  assert (heap_wf h2) as Hwf2.
  { eapply heap_wf_same_dom; [exact Hwf1|exact Hsa2|].
    intros q. rewrite Hc2. repeat case_goal; eauto; intros _; rewrite Hc1.
    - case_goal; eauto. lia.
    - case_goal; eauto. }
  destruct Hsa2 as (Hbl2 & Hbrk2 & Hn2).
  assert (∃ h', freeN (data a) a0 h2 = Returns tt a0 h' ∧ heap_wf h' ∧
                blocks h' = delete (data a) (blocks h2) ∧ brk h' = brk h2 ∧
                nalloc h' = nalloc h2 ∧
                ∀ q, cells h' !! q =
                       if decide (data a ≤ q < data a + nAllocated a) then None
                       else cells h2 !! q) as (h3 & E3 & Hwf3 & Hbl3 & Hbrk3 & Hn3 & Hc3).
  { destruct (decide (nAllocated a = 0)) as [E0|E0].
    - exists h2. rewrite Hnull by exact E0. split; [apply freeN_null|]. split; [exact Hwf2|].
      split.
      { symmetry. apply delete_id. rewrite Hbl2, Hbl1.
        rewrite lookup_insert_ne by lia.
        destruct (blocks h !! 0) eqn:E; [|reflexivity].
        apply Hblk0 in E. lia. }
      repeat split. intros q. case_goal; [lia|reflexivity].
    - apply freeN_spec; [exact Hwf2|].
      rewrite Hbl2, Hbl1. rewrite lookup_insert_ne by lia. exact (Hblk E0). }
  mstep ltac:(exact E3).
  exists h3. split; [reflexivity|]. split; [exact Hwf3|].
  split; [|split; [lia|split; [lia|]]].
  - unfold owns; cbn [data nUsed nAllocated]. split; [reflexivity|]. split; [lia|].
    split; [|split].
    + intros q Hq. rewrite Hc3, Hc2. by_cases.
    + intros q Hq. rewrite Hc3, Hc2, Hc1. by_cases.
    + split; [lia|]. intros _. rewrite Hbl3, Hbl2, Hbl1.
      rewrite lookup_delete_ne by lia. apply lookup_insert_eq.
  - intros q Hq Hnq. rewrite Hc3, Hc2, Hc1. by_cases.
Qed.

(** ** Appending *)

Lemma grown_capacity_bounds c n :
  0 ≤ c → 0 < n → c + n ≤ traits_max_size X →
  c + n ≤ grown_capacity X c n ≤ traits_max_size X.
Proof. unfold grown_capacity. pose proof (max_size_bounds X). lia. Qed.

Lemma growAtEnd_spec n a h l :
  heap_wf h → owns a h l → 0 < n → nAllocated a + n ≤ traits_max_size X →
  ∃ h', growAtEnd build X n a h =
          Returns tt (mkArray (brk h) (nUsed a) (grown_capacity X (nAllocated a) n)) h' ∧
        heap_wf h' ∧
        owns (mkArray (brk h) (nUsed a) (grown_capacity X (nAllocated a) n)) h' l ∧
        nalloc h' = S (nalloc h) ∧
        (∀ q, q < brk h → ¬ data a ≤ q < data a + nAllocated a →
              cells h' !! q = cells h !! q).
Proof.
  intros Hwf Hown Hn Hfit.
  pose proof (owns_block_bounds _ _ _ Hwf Hown) as (Hu0 & Hd0 & Hdb).
  assert (0 ≤ nAllocated a) as Hc0 by (destruct Hown as (_ & ? & _); lia).
  pose proof (grown_capacity_bounds (nAllocated a) n Hc0 Hn Hfit) as Hg.
  unfold growAtEnd.
  mstep ltac:(apply assert_true; lia).
  mstep ltac:(apply calcNewCapacityForGrowthBy_ok; lia).
  fold (grown_capacity X (nAllocated a) n).
  mstep ltac:(reflexivity). mstep ltac:(reflexivity).
  cbn [data nUsed nAllocated].
  destruct (relocate_spec set_data
              (mkArray (data a) (nUsed a) (grown_capacity X (nAllocated a) n))
              a h l (grown_capacity X (nAllocated a) n))
    as (h' & E & Hwf' & Hown' & _ & Hna & Hfr); try assumption; try lia.
  { destruct Hown as (_ & ? & _). lia. }
  exists h'. rewrite E. split; [reflexivity|]. auto.
Qed.

Lemma growAtEnd_limit n a h :
  0 ≤ nAllocated a → 0 < n → nAllocated a + n < 2 ^ 64 →
  traits_max_size X < nAllocated a + n →
  growAtEnd build X n a h = Throws SizeLimitExceeded a h.
Proof.
  intros Hc Hn Hs Hlim. unfold growAtEnd.
  mstep ltac:(apply assert_true; lia).
  erewrite bind_Throws; [reflexivity|].
  apply calcNewCapacityForGrowthBy_limit; lia.
Qed.

Lemma heap_wf_set_cell h p c :
  heap_wf h → is_Some (cells h !! p) → heap_wf (set_cell h p c).
Proof.
  intros Hwf Hp. eapply heap_wf_same_dom; [exact Hwf|apply same_alloc_set_cell|].
  intros q. rewrite lookup_set_cell. case_goal; [by subst|auto].
Qed.

(** Constructing [v] in the first unused slot appends it. *)
Lemma owns_append v a h l :
  heap_wf h → owns a h l → nUsed a < nAllocated a →
  heap_wf (set_cell h (data a + nUsed a) (Some v)) ∧
  owns (mkArray (data a) (nUsed a + 1) (nAllocated a))
       (set_cell h (data a + nUsed a) (Some v)) (l ++ [v]).
Proof.
  intros Hwf (Hlen & Hle & Hlive & Hraw & Hnull & Hblk) Hlt.
  assert (cells h !! (data a + nUsed a) = Some None) as Hslot by (apply Hraw; lia).
  split.
  { apply heap_wf_set_cell; [exact Hwf|]. rewrite Hslot. eauto. }
  unfold owns; cbn [data nUsed nAllocated blocks set_cell].
  split; [rewrite length_app; cbn [length]; lia|]. split; [lia|].
  split; [|split; [|split; [exact Hnull|exact Hblk]]].
  - intros q Hq. rewrite length_app in Hq. cbn [length] in Hq.
    rewrite lookup_set_cell. case_goal as E.
    + rewrite <- E. replace (Z.to_nat (data a + nUsed a - data a)) with (length l) by lia.
      by rewrite list_lookup_middle.
    + rewrite Hlive by lia. by rewrite lookup_app_l by lia.
  - intros q Hq. rewrite lookup_set_cell. case_goal; [lia|]. apply Hraw. lia.
Qed.

Lemma push_back_spec v a h l :
  heap_wf h → owns a h l → nAllocated a ≤ traits_max_size X →
  nUsed a < traits_max_size X →
  ∃ a' h', push_back build X v a h = Returns (data a' + nUsed a) a' h' ∧
           heap_wf h' ∧ owns a' h' (l ++ [v]) ∧
           nUsed a' = nUsed a + 1 ∧
           nAllocated a ≤ nAllocated a' ≤ traits_max_size X.
Proof.
  intros Hwf Hown Hmax Hroom.
  pose proof (owns_block_bounds _ _ _ Hwf Hown) as (Hu0 & Hd0 & Hdb).
  assert (nUsed a ≤ nAllocated a) as Hle by (destruct Hown as (_ & ? & _); lia).
  assert (∃ a1 h1,
            (if nAllocated a =? nUsed a then growAtEnd build X 1 else ret tt) a h =
              Returns tt a1 h1 ∧ heap_wf h1 ∧ owns a1 h1 l ∧
            nUsed a1 = nUsed a ∧ nUsed a1 < nAllocated a1 ∧
            nAllocated a ≤ nAllocated a1 ≤ traits_max_size X)
    as (a1 & h1 & E1 & Hwf1 & Hown1 & Hu1 & Hlt1 & Hmax1).
  { destruct (Z.eqb_spec (nAllocated a) (nUsed a)) as [Heq|Hne].
    - destruct (growAtEnd_spec 1 a h l) as (h1 & E & Hwf1 & Hown1 & _); try assumption; try lia.
      pose proof (grown_capacity_bounds (nAllocated a) 1 ltac:(lia) ltac:(lia) ltac:(lia)).
      eexists _, h1. split; [exact E|]. cbn [nUsed nAllocated].
      split; [exact Hwf1|]. split; [exact Hown1|]. lia.
    - exists a, h. split; [reflexivity|].
      split; [exact Hwf|]. split; [exact Hown|]. lia. }
  unfold push_back.
  mstep ltac:(reflexivity). mstep ltac:(exact E1). mstep ltac:(reflexivity).
  mstep ltac:(reflexivity). unfold copyConstructOne.
  rewrite to_size_type_small by lia.
  destruct (owns_append v a1 h1 l Hwf1 Hown1 Hlt1) as (Hwf2 & Hown2).
  assert (cells h1 !! (data a1 + nUsed a1) = Some None) as Hslot.
  { destruct Hown1 as (_ & _ & _ & Hraw & _). apply Hraw. lia. }
  mstep ltac:(apply construct_at_eq, Hslot). unfold ret.
  exists (mkArray (data a1) (nUsed a1 + 1) (nAllocated a1)),
         (set_cell h1 (data a1 + nUsed a1) (Some v)).
  split; [cbn [data]; rewrite <- Hu1; reflexivity|].
  split; [exact Hwf2|]. split; [exact Hown2|]. cbn [nUsed nAllocated]. lia.
Qed.

(** A full array at [max_size] cannot take another element. *)
Lemma push_back_limit v a h :
  nUsed a = traits_max_size X → nAllocated a = traits_max_size X →
  push_back build X v a h = Throws SizeLimitExceeded a h.
Proof.
  intros Hu Hc. pose proof (max_size_bounds X). pose proof (max_size_lt_ull X).
  unfold push_back. mstep ltac:(reflexivity).
  rewrite Hu, Hc, Z.eqb_refl.
  erewrite bind_Throws; [reflexivity|]. apply growAtEnd_limit; lia.
Qed.

Lemma owns_nil_default h : owns (mkArray 0 0 0) h [].
Proof.
  unfold owns, live, raw; cbn [data nUsed nAllocated length].
  repeat split; try lia; intros; lia.
Qed.

Lemma SimTK_ERRCHK_true cond c a h :
  cond = true → SimTK_ERRCHK build cond c a h = Returns tt a h.
Proof. intros ->. unfold SimTK_ERRCHK. by destruct build. Qed.

Lemma operator_index_spec i a h :
  0 ≤ i < nUsed a → operator_index build i a h = Returns (data a + i) a h.
Proof.
  intros Hi. unfold operator_index, SimTK_INDEXCHECK.
  mstep ltac:(reflexivity). mstep ltac:(apply SimTK_ERRCHK_true; lia). reflexivity.
Qed.

Lemma read_spec (i : nat) v a h l :
  owns a h l → l !! i = Some v → read build (Z.of_nat i) a h = Returns v a h.
Proof.
  intros (Hlen & _ & Hlive & _) Hi.
  pose proof (lookup_lt_Some _ _ _ Hi) as Hlt.
  unfold read. mstep ltac:(apply operator_index_spec; lia).
  apply load_eq. eapply live_lookup; eauto.
Qed.

Lemma appends_spec values : ∀ a h l,
  heap_wf h → owns a h l → nAllocated a ≤ traits_max_size X →
  nUsed a + Z.of_nat (length values) ≤ traits_max_size X →
  ∃ a' h', appends build X values a h = Returns tt a' h' ∧
           heap_wf h' ∧ owns a' h' (l ++ values) ∧
           nAllocated a ≤ nAllocated a' ≤ traits_max_size X.
Proof.
  induction values as [|v values IH]; intros a h l Hwf Hown Hmax Hfit; cbn [appends].
  - exists a, h. rewrite app_nil_r. split; [reflexivity|].
    split; [exact Hwf|]. split; [exact Hown|]. lia.
  - cbn [length] in Hfit.
    destruct (push_back_spec v a h l) as (a1 & h1 & E1 & Hwf1 & Hown1 & Hu1 & Hc1);
      try assumption; try lia.
    mstep ltac:(exact E1).
    destruct (IH a1 h1 (l ++ [v])) as (a2 & h2 & E2 & Hwf2 & Hown2 & Hc2);
      try assumption; try lia.
    exists a2, h2. rewrite <- app_assoc in Hown2.
    split; [exact E2|]. split; [exact Hwf2|]. split; [exact Hown2|]. lia.
Qed.

Lemma heap_wf_empty : heap_wf (empty_heap (T:=T)).
Proof.
  unfold heap_wf, empty_heap; cbn [cells blocks brk]. split; [lia|]. split.
  - intros q [c Hc]. rewrite lookup_empty in Hc. discriminate.
  - intros b n Hb. rewrite lookup_empty in Hb. discriminate.
Qed.

Lemma Array_default_eq a0 h : Array_default a0 h = Returns tt (mkArray 0 0 0) h.
Proof. reflexivity. Qed.

(** C1 (as amended): any [k ≤ max_size] appends to a default-constructed
    container all return; afterwards the length is [k], the capacity is at
    least the length, and reading index [i] yields the [i]-th appended
    value. *)
Theorem appends_to_default_constructed (values : list T) a0 h :
  heap_wf h → Z.of_nat (length values) ≤ traits_max_size X →
  ∃ a' h',
    (Array_default ;; appends build X values) a0 h = Returns tt a' h' ∧
    size a' = Z.of_nat (length values) ∧
    size a' ≤ capacity a' ∧
    ∀ (i : nat) v, values !! i = Some v → read build (Z.of_nat i) a' h' = Returns v a' h'.
Proof.
  intros Hwf Hk. pose proof (max_size_bounds X) as HM.
  mstep ltac:(apply Array_default_eq).
  destruct (appends_spec values (mkArray 0 0 0) h [])
    as (a' & h' & E & Hwf' & Hown' & Hc'); cbn [nUsed nAllocated];
    try assumption; try apply owns_nil_default; try lia.
  exists a', h'. split; [exact E|]. cbn [app] in Hown'.
  pose proof Hown' as (Hlen & Hle & _). unfold size, capacity.
  split; [lia|]. split; [lia|].
  intros i v Hi. eapply read_spec; eauto.
Qed.

(** ** reserve *)

Lemma reserve_noop newCapacity a h :
  newCapacity ≤ nAllocated a → reserve build newCapacity a h = Returns tt a h.
Proof.
  intros Hle. unfold reserve. mstep ltac:(reflexivity).
  destruct (Z.leb_spec newCapacity (nAllocated a)); [reflexivity|lia].
Qed.

Lemma reserve_grow newCapacity a h l :
  heap_wf h → owns a h l → nAllocated a < newCapacity →
  ∃ h', reserve build newCapacity a h =
          Returns tt (mkArray (brk h) (nUsed a) newCapacity) h' ∧
        heap_wf h' ∧ owns (mkArray (brk h) (nUsed a) newCapacity) h' l ∧
        nalloc h' = S (nalloc h).
Proof.
  intros Hwf Hown Hlt.
  pose proof (owns_block_bounds _ _ _ Hwf Hown) as (Hu0 & Hd0 & Hdb).
  assert (nUsed a ≤ nAllocated a) as Hle by (destruct Hown as (_ & ? & _); lia).
  unfold reserve. mstep ltac:(reflexivity).
  destruct (Z.leb_spec newCapacity (nAllocated a)); [lia|].
  mstep ltac:(apply assert_true; lia).
  destruct (relocate_spec (λ newdata, set_data newdata ;; set_nAllocated newCapacity)
              a a h l newCapacity)
    as (h' & E & Hwf' & Hown' & _ & Hna & _); try assumption; try lia.
  exists h'. rewrite E. split; [reflexivity|]. auto.
Qed.

(** ** clear, pop_back *)

Lemma clear_spec a h l :
  owns a h l →
  ∃ h', clear a h = Returns tt (mkArray (data a) 0 (nAllocated a)) h' ∧
        same_alloc h h' ∧
        (∀ q, cells h' !! q =
                if decide (data a ≤ q < data a + nUsed a) then Some None
                else cells h !! q) ∧
        owns (mkArray (data a) 0 (nAllocated a)) h' [].
Proof.
  intros (Hlen & Hle & Hlive & Hraw & Hnull & Hblk).
  unfold clear, begin, end_. mstep ltac:(reflexivity).
  rewrite <- Hlen, destructRange_eq.
  destruct (destruct_loop_spec l (data a) a h Hlive) as (h' & E & Hsa & Hc).
  mstep ltac:(exact E).
  exists h'. split; [reflexivity|]. split; [exact Hsa|]. split; [exact Hc|].
  destruct Hsa as (Hb & _).
  unfold owns, live, raw; cbn [data nUsed nAllocated length].
  split; [reflexivity|]. split; [lia|]. split; [intros; lia|].
  split; [|split; [exact Hnull|rewrite Hb; exact Hblk]].
  intros q Hq. rewrite Hc. case_goal; [reflexivity|]. apply Hraw. lia.
Qed.

Lemma heap_wf_written h h' :
  heap_wf h → same_alloc h h' →
  (∀ q, cells h' !! q = cells h !! q ∨ is_Some (cells h !! q)) → heap_wf h'.
Proof.
  intros Hwf Hsa Hc. eapply heap_wf_same_dom; [exact Hwf|exact Hsa|].
  intros q Hq. destruct (Hc q) as [<-|Hs]; auto.
Qed.

Lemma clear_heap_wf a h l h' a' :
  heap_wf h → owns a h l → clear a h = Returns tt a' h' → heap_wf h'.
Proof.
  intros Hwf Hown E. pose proof Hown as (Hlen & _ & Hlive & _).
  destruct (clear_spec a h l Hown) as (h1 & E1 & Hsa & Hc & _).
  rewrite E1 in E. injection E as <- <-.
  eapply heap_wf_written; [exact Hwf|exact Hsa|].
  intros q. rewrite Hc. case_goal; [|by left].
  right. destruct (live_is_object h (data a) l q Hlive) as [v ->]; eauto. lia.
Qed.

Lemma owns_last_cell a h l v :
  owns a h (l ++ [v]) → cells h !! (data a + (nUsed a - 1)) = Some (Some v).
Proof.
  intros (Hlen & _ & Hlive & _). rewrite length_app in Hlen. cbn [length] in Hlen.
  rewrite Hlive by (rewrite length_app; cbn [length]; lia).
  replace (Z.to_nat (data a + (nUsed a - 1) - data a)) with (length l) by lia.
  by rewrite list_lookup_middle.
Qed.

(** Destroying the last element leaves the elements before it. *)
Lemma owns_remove_last a h l v :
  owns a h (l ++ [v]) →
  owns (mkArray (data a) (nUsed a - 1) (nAllocated a))
       (set_cell h (data a + (nUsed a - 1)) None) l.
Proof.
  intros (Hlen & Hle & Hlive & Hraw & Hnull & Hblk).
  rewrite length_app in Hlen. cbn [length] in Hlen.
  unfold owns; cbn [data nUsed nAllocated blocks set_cell].
  split; [lia|]. split; [lia|]. split; [|split; [|split; [exact Hnull|exact Hblk]]].
  - intros q Hq. rewrite lookup_set_cell. case_goal; [lia|].
    rewrite Hlive by (rewrite length_app; cbn [length]; lia).
    by rewrite lookup_app_l by lia.
  - intros q Hq. rewrite lookup_set_cell. case_goal; [reflexivity|]. apply Hraw. lia.
Qed.

Lemma pop_back_spec a h l v :
  owns a h (l ++ [v]) → nUsed a ≤ size_type_max X →
  pop_back build X a h =
    Returns tt (mkArray (data a) (nUsed a - 1) (nAllocated a))
      (set_cell h (data a + (nUsed a - 1)) None).
Proof.
  intros Hown Hty. pose proof (owns_last_cell _ _ _ _ Hown) as Hcell.
  pose proof Hown as (Hlen & _). rewrite length_app in Hlen. cbn [length] in Hlen.
  pose proof (size_type_min_nonpos X).
  unfold pop_back, empty. mstep ltac:(reflexivity).
  mstep ltac:(apply SimTK_ERRCHK_true; apply negb_true_iff, Z.eqb_neq; lia).
  mstep ltac:(reflexivity). mstep ltac:(reflexivity).
  cbn [data nUsed]. rewrite to_size_type_id by lia.
  unfold destructOne. eapply destroy_at_eq, Hcell.
Qed.

Lemma pop_back_empty_debug a h :
  nUsed a = 0 → pop_back Debug X a h = Throws EmptyContainerAccess a h.
Proof.
  intros Hu. unfold pop_back, empty, SimTK_ERRCHK, SimTK_ERRCHK_ALWAYS.
  mstep ltac:(reflexivity). rewrite Hu. reflexivity.
Qed.

(** ** Erasure *)

Lemma owns_cell a h l (i : nat) v :
  owns a h l → l !! i = Some v → cells h !! (data a + Z.of_nat i) = Some (Some v).
Proof. intros (_ & _ & Hlive & _). by apply live_lookup. Qed.

Lemma back_spec a h : 0 < nUsed a → back build a h = Returns (data a + (nUsed a - 1)) a h.
Proof.
  intros Hu. unfold back, empty. mstep ltac:(reflexivity).
  mstep ltac:(apply SimTK_ERRCHK_true; apply negb_true_iff, Z.eqb_neq; lia).
  reflexivity.
Qed.

Lemma eraseFast_list_lookup (i j : nat) l x :
  last l = Some x → (i < length l)%nat → (j < length l - 1)%nat →
  eraseFast_list i l !! j = if decide (i = j) then Some x else l !! j.
Proof.
  intros Hlast Hi Hj. unfold eraseFast_list. rewrite Hlast.
  rewrite lookup_take_lt by lia. case_goal as E.
  - subst j. by rewrite list_lookup_insert_eq by lia.
  - by rewrite list_lookup_insert_ne by lia.
Qed.

Lemma eraseFast_list_length (i : nat) l :
  (i < length l)%nat → length (eraseFast_list i l) = (length l - 1)%nat.
Proof.
  intros Hi. unfold eraseFast_list. destruct (last l) eqn:E.
  - rewrite length_take, length_insert. lia.
  - apply last_None in E. subst l. cbn in Hi. lia.
Qed.

Lemma eraseFast_spec (i : nat) a h l :
  owns a h l → (i < length l)%nat → nUsed a ≤ size_type_max X →
  ∃ h', eraseFast build X (data a + Z.of_nat i) a h =
          Returns (data a + Z.of_nat i) (mkArray (data a) (nUsed a - 1) (nAllocated a)) h' ∧
        same_alloc h h' ∧
        owns (mkArray (data a) (nUsed a - 1) (nAllocated a)) h' (eraseFast_list i l) ∧
        (∀ q, ¬ data a ≤ q < data a + nUsed a → cells h' !! q = cells h !! q).
Proof.
  intros Hown Hi Hty. pose proof Hown as (Hlen & Hle & Hlive & Hraw & Hnull & Hblk).
  pose proof (size_type_min_nonpos X) as Hmin.
  destruct (lookup_lt_is_Some_2 l i Hi) as [vi Hvi].
  pose proof (owns_cell _ _ _ _ _ Hown Hvi) as Hci.
  destruct (last l) as [x|] eqn:Hlast; [|apply last_None in Hlast; subst l; cbn in Hi; lia].
  assert (l !! (length l - 1)%nat = Some x) as Hx.
  { rewrite <- Hlast, last_lookup. f_equal. lia. }
  pose proof (owns_cell _ _ _ _ _ Hown Hx) as Hcx.
  replace (data a + Z.of_nat (length l - 1)%nat) with (data a + (nUsed a - 1)) in Hcx by lia.
  unfold eraseFast, begin, end_. mstep ltac:(reflexivity).
  mstep ltac:(apply assert_true; lia).
  unfold destructOne at 1. mstep ltac:(eapply destroy_at_eq, Hci).
  rewrite to_size_type_id by lia.
  assert (∃ h',
            (if data a + Z.of_nat i + 1 =? data a + nUsed a then ret tt
             else last <- back build ;; moveOneElement build (data a + Z.of_nat i) last)
              a (set_cell h (data a + Z.of_nat i) None) = Returns tt a h' ∧
            same_alloc h h' ∧
            ∀ q, cells h' !! q =
                   if decide (q = data a + (nUsed a - 1)) then Some None
                   else if decide (q = data a + Z.of_nat i) then Some (Some x)
                   else cells h !! q) as (h' & E & Hsa & Hc).
  { destruct (Z.eqb_spec (data a + Z.of_nat i + 1) (data a + nUsed a)) as [Heq|Hne].
    - eexists. split; [reflexivity|]. split; [apply same_alloc_set_cell|].
      intros q. rewrite lookup_set_cell. by_cases.
    - mstep ltac:(apply back_spec; lia).
      erewrite moveOneElement_eq; try lia.
      + eexists. split; [reflexivity|]. split.
        { eapply same_alloc_trans; [apply same_alloc_set_cell|].
          eapply same_alloc_trans; apply same_alloc_set_cell. }
        intros q. rewrite !lookup_set_cell. by_cases.
      + rewrite lookup_set_cell. case_goal; [lia|exact Hcx].
      + rewrite lookup_set_cell. case_goal; [reflexivity|lia]. }
  mstep ltac:(exact E). mstep ltac:(reflexivity).
  exists h'. split; [reflexivity|]. split; [exact Hsa|]. split.
  - destruct Hsa as (Hb & _).
    unfold owns; cbn [data nUsed nAllocated].
    split; [rewrite eraseFast_list_length by lia; lia|]. split; [lia|].
    split; [|split; [|split; [exact Hnull|rewrite Hb; exact Hblk]]].
    + intros q Hq. rewrite eraseFast_list_length in Hq by lia.
      rewrite Hc. erewrite eraseFast_list_lookup by (try exact Hlast; lia).
      repeat case_goal; try lia; try reflexivity.
      apply Hlive. lia.
    + intros q Hq. rewrite Hc. repeat case_goal; try lia; try reflexivity.
      apply Hraw. lia.
  - intros q Hq. rewrite Hc. by_cases.
Qed.

Lemma moveElementsDown_spec l' p n a h :
  0 < n → data a ≤ p - n → data a + nUsed a = p + Z.of_nat (length l') →
  nUsed a ≤ nAllocated a → live h p l' → raw h (p - n) n →
  ∃ h', moveElementsDown build p n a h = Returns tt a h' ∧ same_alloc h h' ∧
        ∀ q, cells h' !! q =
               if decide (p - n ≤ q < p - n + Z.of_nat (length l'))
               then Some (l' !! Z.to_nat (q - (p - n)))
               else if decide (p ≤ q < p + Z.of_nat (length l')) then Some None
               else cells h !! q.
Proof.
  intros Hn Hlo Hend Hle Hl Hraw. unfold moveElementsDown, end_.
  mstep ltac:(apply assert_true; lia). mstep ltac:(reflexivity).
  destruct (Z.ltb_spec (data a + nUsed a) p); [lia|].
  replace (Z.to_nat (data a + nUsed a - p)) with (length l') by lia.
  apply moveElementsDown_loop_spec; auto; lia.
Qed.

(** Closing the gap left by destroying the elements [i..j). *)
Lemma close_gap (i j : nat) a h h1 l :
  owns a h l → (i < j ≤ length l)%nat → same_alloc h h1 →
  (∀ q, cells h1 !! q =
          if decide (data a + Z.of_nat i ≤ q < data a + Z.of_nat j) then Some None
          else cells h !! q) →
  ∃ h', moveElementsDown build (data a + Z.of_nat j) (Z.of_nat j - Z.of_nat i) a h1 =
          Returns tt a h' ∧
        same_alloc h h' ∧
        owns (mkArray (data a) (nUsed a - (Z.of_nat j - Z.of_nat i)) (nAllocated a)) h'
             (take i l ++ drop j l) ∧
        (∀ q, ¬ data a ≤ q < data a + nUsed a → cells h' !! q = cells h !! q).
Proof.
  intros (Hlen & Hle & Hlive & Hraw & Hnull & Hblk) Hij Hsa Hc1.
  destruct (moveElementsDown_spec (drop j l) (data a + Z.of_nat j)
              (Z.of_nat j - Z.of_nat i) a h1) as (h' & E & Hsa' & Hc'); try lia.
  { rewrite length_drop. lia. }
  { intros q Hq. rewrite length_drop in Hq. rewrite Hc1. case_goal; [lia|].
    rewrite Hlive by lia. rewrite lookup_drop. do 2 f_equal. lia. }
  { intros q Hq. rewrite Hc1. case_goal; [reflexivity|lia]. }
  rewrite length_drop in Hc'.
  exists h'. split; [exact E|].
  assert (same_alloc h h') as Hsa2 by (eapply same_alloc_trans; eauto).
  split; [exact Hsa2|]. split.
  - destruct Hsa2 as (Hb & _).
    unfold owns; cbn [data nUsed nAllocated].
    rewrite length_app, length_take, length_drop.
    split; [lia|]. split; [lia|].
    split; [|split; [|split; [exact Hnull|rewrite Hb; exact Hblk]]].
    + intros q Hq. rewrite length_app, length_take, length_drop in Hq.
      rewrite Hc', Hc1. repeat case_goal; try lia.
      * rewrite lookup_app_r by (rewrite length_take; lia).
        rewrite length_take. do 2 f_equal. lia.
      * rewrite lookup_app_l by (rewrite length_take; lia).
        rewrite lookup_take_lt by lia. apply Hlive. lia.
    + intros q Hq. rewrite Hc', Hc1. repeat case_goal; try lia; try reflexivity.
      apply Hraw. lia.
  - intros q Hq. rewrite Hc', Hc1. by_cases.
Qed.

Lemma eraseOne_spec (i : nat) a h l :
  owns a h l → (i < length l)%nat → nUsed a ≤ size_type_max X →
  ∃ h', eraseOne build X (data a + Z.of_nat i) a h =
          Returns (data a + Z.of_nat i) (mkArray (data a) (nUsed a - 1) (nAllocated a)) h' ∧
        same_alloc h h' ∧
        owns (mkArray (data a) (nUsed a - 1) (nAllocated a)) h' (delete i l) ∧
        (∀ q, ¬ data a ≤ q < data a + nUsed a → cells h' !! q = cells h !! q).
Proof.
  intros Hown Hi Hty. pose proof Hown as (Hlen & Hle & Hlive & Hraw & Hnull & Hblk).
  pose proof (size_type_min_nonpos X) as Hmin.
  destruct (lookup_lt_is_Some_2 l i Hi) as [vi Hvi].
  pose proof (owns_cell _ _ _ _ _ Hown Hvi) as Hci.
  unfold eraseOne, begin, end_. mstep ltac:(reflexivity).
  mstep ltac:(apply SimTK_ERRCHK_true; lia).
  unfold destructOne. mstep ltac:(eapply destroy_at_eq, Hci).
  rewrite to_size_type_id by lia.
  destruct (close_gap i (S i) a h (set_cell h (data a + Z.of_nat i) None) l)
    as (h' & E & Hsa & Hown' & Hfr); try assumption; try lia.
  { apply same_alloc_set_cell. }
  { intros q. rewrite lookup_set_cell. by_cases. }
  replace (data a + Z.of_nat (S i)) with (data a + Z.of_nat i + 1) in E by lia.
  replace (Z.of_nat (S i) - Z.of_nat i) with 1 in * by lia.
  mstep ltac:(exact E). mstep ltac:(reflexivity).
  exists h'. split; [reflexivity|]. split; [exact Hsa|]. split; [|exact Hfr].
  rewrite delete_take_drop. exact Hown'.
Qed.

Lemma erase_spec (i j : nat) a h l :
  owns a h l → (i ≤ j ≤ length l)%nat → nUsed a ≤ size_type_max X →
  ∃ h', erase build X (data a + Z.of_nat i) (data a + Z.of_nat j) a h =
          Returns (data a + Z.of_nat i)
            (mkArray (data a) (nUsed a - (Z.of_nat j - Z.of_nat i)) (nAllocated a)) h' ∧
        same_alloc h h' ∧
        owns (mkArray (data a) (nUsed a - (Z.of_nat j - Z.of_nat i)) (nAllocated a)) h'
             (take i l ++ drop j l) ∧
        (∀ q, ¬ data a ≤ q < data a + nUsed a → cells h' !! q = cells h !! q).
Proof.
  intros Hown Hij Hty. pose proof Hown as (Hlen & Hle & Hlive & Hraw & Hnull & Hblk).
  pose proof (size_type_min_nonpos X) as Hmin.
  unfold erase, begin, end_. mstep ltac:(reflexivity).
  mstep ltac:(apply SimTK_ERRCHK_true; lia).
  replace (data a + Z.of_nat j - (data a + Z.of_nat i)) with (Z.of_nat j - Z.of_nat i) by lia.
  rewrite (to_size_type_id X (Z.of_nat j - Z.of_nat i)) by lia.
  destruct (Z.eqb_spec (Z.of_nat j - Z.of_nat i) 0) as [Heq|Hne].
  - mstep ltac:(reflexivity). assert (i = j) as -> by lia.
    exists h. rewrite Heq, Z.sub_0_r, take_drop. destruct a as [d u c]; cbn in *.
    split; [reflexivity|]. split; [apply same_alloc_refl|]. split; [exact Hown|auto].
  - destruct (destruct_loop_spec (take (j - i) (drop i l)) (data a + Z.of_nat i) a h)
      as (h1 & E1 & Hsa1 & Hc1).
    { intros q Hq. rewrite length_take, length_drop in Hq.
      rewrite Hlive by lia. rewrite lookup_take_lt by lia. rewrite lookup_drop.
      do 2 f_equal. lia. }
    rewrite length_take, length_drop in E1, Hc1.
    rewrite Nat.min_l in E1, Hc1 by lia.
    replace (destructRange (T:=T) (data a + Z.of_nat i) (data a + Z.of_nat j))
      with (destruct_loop (T:=T) (j - i) (data a + Z.of_nat i))
      by (rewrite <- destructRange_eq; f_equal; lia).
    destruct (close_gap i j a h h1 l) as (h' & E & Hsa & Hown' & Hfr);
      try assumption; try lia.
    { intros q. rewrite Hc1. by_cases. }
    rewrite to_size_type_id by lia.
    erewrite bind_Returns.
    2:{ mstep ltac:(exact E1). mstep ltac:(exact E). reflexivity. }
    exists h'. split; [reflexivity|]. auto.
Qed.

(** ** Insertion *)

Lemma moveElementsUp_spec l' p n a h :
  0 < n → data a ≤ p → data a + nUsed a = p + Z.of_nat (length l') →
  nUsed a + n ≤ nAllocated a → live h p l' →
  raw h (data a + nUsed a) (nAllocated a - nUsed a) →
  ∃ h', moveElementsUp build p n a h = Returns tt a h' ∧ same_alloc h h' ∧
        ∀ q, cells h' !! q =
               if decide (p + n ≤ q < p + n + Z.of_nat (length l'))
               then Some (l' !! Z.to_nat (q - (p + n)))
               else if decide (p ≤ q < p + Z.of_nat (length l')) then Some None
               else cells h !! q.
Proof.
  intros Hn Hlo Hend Hfit Hl Hraw. unfold moveElementsUp, end_.
  mstep ltac:(apply assert_true; lia). mstep ltac:(reflexivity).
  destruct (Z.ltb_spec (data a + nUsed a) p); [lia|].
  replace (Z.to_nat (data a + nUsed a - p)) with (length l') by lia.
  destruct (moveElementsUp_loop_spec l' (data a + nUsed a) n a h) as (h' & E & Hsa & Hc);
    try lia.
  { replace (data a + nUsed a - Z.of_nat (length l')) with p by lia. exact Hl. }
  { intros q Hq Hnq. apply Hraw. lia. }
  exists h'. split; [exact E|]. split; [exact Hsa|].
  intros q. rewrite Hc.
  replace (data a + nUsed a - Z.of_nat (length l')) with p by lia.
  replace (data a + nUsed a + n) with (p + n + Z.of_nat (length l')) by lia.
  replace (data a + nUsed a) with (p + Z.of_nat (length l')) by lia.
  reflexivity.
Qed.

Lemma live_take_drop h p (i : nat) l :
  (i ≤ length l)%nat → live h p l →
  live h p (take i l) ∧ live h (p + Z.of_nat i) (drop i l).
Proof.
  intros Hi Hl. split.
  - intros q Hq. rewrite length_take in Hq. rewrite Hl by lia.
    by rewrite lookup_take_lt by lia.
  - intros q Hq. rewrite length_drop in Hq. rewrite Hl by lia.
    rewrite lookup_drop. do 2 f_equal. lia.
Qed.

Lemma insertGapAt_inplace (i : nat) n a h l :
  owns a h l → (i ≤ length l)%nat → 0 < n →
  nUsed a + n ≤ nAllocated a →
  nUsed a + n ≤ size_type_max (promoted X) →
  ∃ h', insertGapAt build X (data a + Z.of_nat i) n a h =
          Returns (data a + Z.of_nat i) a h' ∧
        same_alloc h h' ∧ gapped a h' l i n ∧
        (∀ q, ¬ data a ≤ q < data a + nAllocated a → cells h' !! q = cells h !! q).
Proof.
  intros Hown Hi Hn Hfit Hty.
  pose proof Hown as (Hlen & Hle & Hlive & Hraw & Hnull & Hblk).
  destruct (live_take_drop h (data a) i l Hi Hlive) as (Hl1 & Hl2).
  pose proof (size_type_min_nonpos (promoted X)) as Hmin.
  unfold insertGapAt, begin, end_, size, capacity. mstep ltac:(reflexivity).
  mstep ltac:(apply SimTK_ERRCHK_true; lia).
  destruct (Z.eqb_spec n 0); [lia|].
  rewrite arith_id by lia.
  destruct (Z.leb_spec (nUsed a + n) (nAllocated a)); [|lia].
  destruct (moveElementsUp_spec (drop i l) (data a + Z.of_nat i) n a h)
    as (h' & E & Hsa & Hc); try assumption; try lia.
  { rewrite length_drop. lia. }
  rewrite length_drop in Hc.
  mstep ltac:(exact E). exists h'. split; [reflexivity|]. split; [exact Hsa|].
  destruct Hsa as (Hb & _). split.
  - unfold gapped. split; [exact Hlen|]. split; [lia|].
    split; [|split; [|split; [|split; [|split; [exact Hnull|rewrite Hb; exact Hblk]]]]].
    + intros q Hq. rewrite length_take in Hq. rewrite Hc. repeat case_goal; try lia.
      apply Hl1. rewrite length_take. lia.
    + intros q Hq. rewrite Hc. repeat case_goal; try lia; try reflexivity.
      apply Hraw. lia.
    + intros q Hq. rewrite length_drop in Hq. rewrite Hc.
      repeat case_goal; try lia. reflexivity.
    + intros q Hq. rewrite Hc. repeat case_goal; try lia. apply Hraw. lia.
  - intros q Hq. rewrite Hc. by_cases.
Qed.

Lemma insertGapAt_zero (i : nat) a h l :
  owns a h l → (i ≤ length l)%nat →
  insertGapAt build X (data a + Z.of_nat i) 0 a h = Returns (data a + Z.of_nat i) a h.
Proof.
  intros (Hlen & _) Hi. unfold insertGapAt, begin, end_. mstep ltac:(reflexivity).
  mstep ltac:(apply SimTK_ERRCHK_true; lia). reflexivity.
Qed.

Lemma insertGapAt_limit (i : nat) n a h l :
  owns a h l → (i ≤ length l)%nat → 0 < n →
  nAllocated a < nUsed a + n → nUsed a + n ≤ size_type_max (promoted X) →
  traits_max_size X < nAllocated a + n → nAllocated a + n < 2 ^ 64 →
  insertGapAt build X (data a + Z.of_nat i) n a h = Throws SizeLimitExceeded a h.
Proof.
  intros (Hlen & Hle & _) Hi Hn Hgrow Hty Hlim Hull.
  pose proof (size_type_min_nonpos (promoted X)) as Hmin.
  unfold insertGapAt, begin, end_, size, capacity. mstep ltac:(reflexivity).
  mstep ltac:(apply SimTK_ERRCHK_true; lia).
  destruct (Z.eqb_spec n 0); [lia|].
  rewrite arith_id by lia.
  destruct (Z.leb_spec (nUsed a + n) (nAllocated a)); [lia|].
  erewrite bind_Throws; [reflexivity|].
  apply calcNewCapacityForGrowthBy_limit; lia.
Qed.

Lemma insertGapAt_grow (i : nat) n a h l :
  heap_wf h → owns a h l → (i ≤ length l)%nat → 0 < n →
  nAllocated a < nUsed a + n → nUsed a + n ≤ size_type_max (promoted X) →
  nUsed a ≤ size_type_max X →
  nAllocated a + n ≤ traits_max_size X →
  ∃ h', insertGapAt build X (data a + Z.of_nat i) n a h =
          Returns (brk h + Z.of_nat i)
            (mkArray (brk h) (nUsed a) (grown_capacity X (nAllocated a) n)) h' ∧
        heap_wf h' ∧
        gapped (mkArray (brk h) (nUsed a) (grown_capacity X (nAllocated a) n)) h' l i n ∧
        nalloc h' = S (nalloc h) ∧
        (∀ q, q < brk h → ¬ data a ≤ q < data a + nAllocated a →
              cells h' !! q = cells h !! q).
Proof.
  intros Hwf Hown Hi Hn Hgrow Hty Hty' Hfit.
  pose proof (owns_block_bounds _ _ _ Hwf Hown) as (Hu0 & Hd0 & Hdb).
  pose proof Hwf as (Hbrk0 & _ & Hblk0).
  pose proof Hown as (Hlen & Hle & Hlive & Hraw & Hnull & Hblk).
  destruct (live_take_drop h (data a) i l Hi Hlive) as (Hl1 & Hl2).
  pose proof (size_type_min_nonpos (promoted X)) as Hmin.
  pose proof (size_type_min_nonpos X) as Hmin'.
  pose proof (grown_capacity_bounds (nAllocated a) n ltac:(lia) Hn Hfit) as Hg.
  set (c := grown_capacity X (nAllocated a) n) in *.
  assert (data a < brk h) as Hdlt.
  { destruct (decide (nAllocated a = 0)) as [E|E]; [rewrite Hnull by exact E; lia|].
    apply Hblk, Hblk0 in E. lia. }
  unfold insertGapAt, begin, end_, size, capacity. mstep ltac:(reflexivity).
  mstep ltac:(apply SimTK_ERRCHK_true; lia).
  destruct (Z.eqb_spec n 0); [lia|].
  rewrite arith_id by lia.
  destruct (Z.leb_spec (nUsed a + n) (nAllocated a)); [lia|].
  mstep ltac:(apply calcNewCapacityForGrowthBy_ok; lia).
  fold (grown_capacity X (nAllocated a) n). fold c.
  mstep ltac:(reflexivity).
  set (a1 := mkArray (data a) (nUsed a) c).
  destruct (allocN_spec c a1 h Hwf ltac:(lia)) as (h1 & E1 & Hwf1 & Hbl1 & Hbrk1 & Hn1 & Hc1).
  mstep ltac:(exact E1).
  replace (data a + Z.of_nat i - data a) with (Z.of_nat i) by lia.
  replace (data a + nUsed a - (data a + Z.of_nat i)) with (Z.of_nat (length l - i)) by lia.
  rewrite !to_size_type_id by lia.
  rewrite copyConstructThenDestructSource_eq.
  rewrite (copyConstructThenDestructSource_eq (length l - i) (brk h + Z.of_nat i + n)).
  destruct (copyConstructThenDestructSource_loop_spec (take i l) (brk h) (data a) a1 h1)
    as (h2 & E2 & Hsa2 & Hc2).
  { intros q Hq. rewrite Hc1. rewrite length_take in Hq. case_goal; [lia|]. apply Hl1.
    rewrite length_take. lia. }
  { intros q Hq _. rewrite length_take in Hq. rewrite Hc1. case_goal; [reflexivity|lia]. }
  { rewrite length_take. right. lia. }
  rewrite length_take, Nat.min_l in E2, Hc2 by lia.
  mstep ltac:(exact E2).
  destruct (copyConstructThenDestructSource_loop_spec (drop i l)
              (brk h + Z.of_nat i + n) (data a + Z.of_nat i) a1 h2)
    as (h3 & E3 & Hsa3 & Hc3).
  { intros q Hq. rewrite length_drop in Hq. rewrite Hc2, Hc1.
    repeat case_goal; try lia. apply Hl2. rewrite length_drop. lia. }
  { intros q Hq _. rewrite length_drop in Hq. rewrite Hc2, Hc1.
    repeat case_goal; try lia. reflexivity. }
  { rewrite length_drop. right. lia. }
  rewrite length_drop in E3, Hc3.
  mstep ltac:(exact E3).
  assert (heap_wf h3) as Hwf3.
  { eapply heap_wf_written; [exact Hwf1| eapply same_alloc_trans; eauto |].
    intros q. rewrite Hc3, Hc2. repeat case_goal; auto; right; rewrite Hc1.
    - case_goal; eauto. lia.
    - case_goal; [lia|]. destruct (live_is_object h (data a) l q Hlive) as [v ->]; eauto. lia.
    - case_goal; eauto. lia.
    - case_goal; [lia|]. destruct (live_is_object h (data a) l q Hlive) as [v ->]; eauto. lia. }
  destruct Hsa2 as (Hbl2 & Hbrk2 & Hn2). destruct Hsa3 as (Hbl3 & Hbrk3 & Hn3).
  assert (∃ h', freeN (data a) a1 h3 = Returns tt a1 h' ∧ heap_wf h' ∧
                blocks h' = delete (data a) (blocks h3) ∧ brk h' = brk h3 ∧
                nalloc h' = nalloc h3 ∧
                ∀ q, cells h' !! q =
                       if decide (data a ≤ q < data a + nAllocated a) then None
                       else cells h3 !! q) as (h4 & E4 & Hwf4 & Hbl4 & Hbrk4 & Hn4 & Hc4).
  { destruct (decide (nAllocated a = 0)) as [E0|E0].
    - exists h3. rewrite Hnull by exact E0. split; [apply freeN_null|]. split; [exact Hwf3|].
      split.
      { symmetry. apply delete_id. rewrite Hbl3, Hbl2, Hbl1.
        rewrite lookup_insert_ne by lia.
        destruct (blocks h !! 0) eqn:E; [|reflexivity].
        apply Hblk0 in E. lia. }
      repeat split. intros q. case_goal; [lia|reflexivity].
    - apply freeN_spec; [exact Hwf3|].
      rewrite Hbl3, Hbl2, Hbl1. rewrite lookup_insert_ne by lia. exact (Hblk E0). }
  mstep ltac:(exact E4). mstep ltac:(reflexivity).
  exists h4. split; [reflexivity|]. split; [exact Hwf4|].
  split; [|split; [lia|]].
  - unfold gapped; cbn [data nUsed nAllocated].
    split; [exact Hlen|]. split; [lia|].
    split; [|split; [|split; [|split; [|split; [lia|]]]]].
    + intros q Hq. rewrite length_take in Hq. rewrite Hc4, Hc3, Hc2. by_cases.
    + intros q Hq. rewrite Hc4, Hc3, Hc2, Hc1. by_cases.
    + intros q Hq. rewrite length_drop in Hq. rewrite Hc4, Hc3. by_cases.
    + intros q Hq. rewrite Hc4, Hc3, Hc2, Hc1. by_cases.
    + intros _. rewrite Hbl4, Hbl3, Hbl2, Hbl1.
      rewrite lookup_delete_ne by lia. apply lookup_insert_eq.
  - intros q Hq Hnq. rewrite Hc4, Hc3, Hc2, Hc1. by_cases.
Qed.

Lemma size_type_max_promoted : size_type_max X ≤ size_type_max (promoted X).
Proof. unfold size_type_max. destruct X; cbn [promoted size_signed size_bits]; lia. Qed.

Lemma owns_gapped_zero a h l (i : nat) :
  owns a h l → (i ≤ length l)%nat → gapped a h l i 0.
Proof.
  intros (Hlen & Hle & Hlive & Hraw & Hnull & Hblk) Hi.
  destruct (live_take_drop h (data a) i l Hi Hlive) as (Hl1 & Hl2).
  unfold gapped. split; [exact Hlen|]. split; [lia|]. split; [exact Hl1|].
  split; [intros q Hq; lia|]. split; [by rewrite Z.add_0_r|].
  split; [|auto]. intros q Hq. apply Hraw. lia.
Qed.

(** [insertGapAt] when the gap fits below [max_size]. *)
Lemma insertGapAt_ok (i : nat) n a h l :
  heap_wf h → owns a h l → (i ≤ length l)%nat → 0 ≤ n →
  nAllocated a ≤ traits_max_size X →
  nUsed a + n ≤ nAllocated a ∨ nAllocated a + n ≤ traits_max_size X →
  ∃ a' h', insertGapAt build X (data a + Z.of_nat i) n a h =
             Returns (data a' + Z.of_nat i) a' h' ∧
           heap_wf h' ∧ gapped a' h' l i n ∧
           nAllocated a ≤ nAllocated a' ≤ traits_max_size X ∧
           (nalloc h' ≤ S (nalloc h))%nat ∧ brk h ≤ brk h' ∧
           (∀ q, q < brk h → ¬ data a ≤ q < data a + nAllocated a →
                 cells h' !! q = cells h !! q).
Proof.
  intros Hwf Hown Hi Hn Hmax Hfit.
  pose proof (max_size_bounds X) as HM. pose proof size_type_max_promoted as HP.
  pose proof (owns_block_bounds _ _ _ Hwf Hown) as (Hu0 & Hd0 & Hdb).
  assert (nUsed a ≤ nAllocated a) as Hle by (destruct Hown as (_ & ? & _); lia).
  destruct (decide (n = 0)) as [->|Hn0].
  { exists a, h. rewrite (insertGapAt_zero i a h l) by assumption.
    split; [reflexivity|]. split; [exact Hwf|]. split; [by apply owns_gapped_zero|].
    split; [lia|]. split; [lia|]. split; [lia|]. auto. }
  destruct (decide (nUsed a + n ≤ nAllocated a)) as [Hin|Hout].
  - destruct (insertGapAt_inplace i n a h l) as (h' & E & Hsa & Hg & Hfr);
      try assumption; try lia.
    exists a, h'. split; [exact E|]. split.
    { eapply heap_wf_written; [exact Hwf|exact Hsa|].
      intros q. destruct (decide (data a ≤ q < data a + nAllocated a)) as [Hq|Hq].
      - right. destruct Hown as (Hlen & _ & Hlive & Hraw & _).
        destruct (decide (q < data a + nUsed a)).
        + destruct (live_is_object h (data a) l q Hlive) as [v ->]; eauto. lia.
        + rewrite Hraw by lia. eauto.
      - left. apply Hfr, Hq. }
    destruct Hsa as (_ & -> & ->).
    split; [exact Hg|]. split; [lia|]. split; [lia|]. split; [lia|]. auto.
  - destruct (insertGapAt_grow i n a h l) as (h' & E & Hwf' & Hg & Hna & Hfr);
      try assumption; try lia.
    pose proof (grown_capacity_bounds (nAllocated a) n ltac:(lia) ltac:(lia) ltac:(lia)).
    exists (mkArray (brk h) (nUsed a) (grown_capacity X (nAllocated a) n)), h'.
    split; [exact E|]. split; [exact Hwf'|]. split; [exact Hg|].
    cbn [nAllocated]. split; [lia|]. split; [lia|]. split; [|exact Hfr].
    destruct Hg as (_ & _ & _ & _ & _ & _ & _ & Hblk'). cbn [nAllocated data] in Hblk'.
    destruct Hwf' as (_ & _ & Hb'). specialize (Hblk' ltac:(lia)). apply Hb' in Hblk'. lia.
Qed.

(** Constructing the values [vs] in the gap completes the insertion. *)
Lemma gapped_filled a h h' l (i : nat) vs :
  gapped a h l i (Z.of_nat (length vs)) → (i ≤ length l)%nat → same_alloc h h' →
  (∀ q, cells h' !! q =
          if decide (data a + Z.of_nat i ≤ q < data a + Z.of_nat i + Z.of_nat (length vs))
          then Some (vs !! Z.to_nat (q - (data a + Z.of_nat i)))
          else cells h !! q) →
  owns (mkArray (data a) (nUsed a + Z.of_nat (length vs)) (nAllocated a)) h'
       (take i l ++ vs ++ drop i l).
Proof.
  intros (Hlen & Hfit & Hl1 & Hr1 & Hl2 & Hr2 & Hnull & Hblk) Hi (Hb & _) Hc.
  unfold owns; cbn [data nUsed nAllocated].
  rewrite !length_app, length_take, length_drop.
  split; [lia|]. split; [lia|].
  split; [|split; [|split; [exact Hnull|rewrite Hb; exact Hblk]]].
  - intros q Hq. rewrite !length_app, length_take, length_drop in Hq.
    rewrite Hc. case_goal.
    + rewrite lookup_app_r by (rewrite length_take; lia).
      rewrite lookup_app_l by (rewrite length_take; lia).
      rewrite length_take. do 2 f_equal. lia.
    + destruct (decide (q < data a + Z.of_nat i)).
      * rewrite lookup_app_l by (rewrite length_take; lia).
        apply Hl1. rewrite length_take. lia.
      * rewrite lookup_app_r by (rewrite length_take; lia).
        rewrite lookup_app_r by (rewrite length_take; lia).
        rewrite Hl2 by (rewrite length_drop; lia).
        rewrite length_take. do 2 f_equal. lia.
  - intros q Hq. rewrite Hc. case_goal; [lia|]. apply Hr2. lia.
Qed.

Lemma size_type_max_lt_ull Y : size_type_max Y < 2 ^ 64.
Proof. unfold size_type_max. destruct Y; cbn [size_signed size_bits]; lia. Qed.

(** [insertGapAt] for any gap size whose sum with the capacity does not
    overflow: it makes the gap, or it reports the size limit and changes
    nothing. *)
Lemma insertGapAt_total (i : nat) n a h l :
  heap_wf h → owns a h l → (i ≤ length l)%nat → 0 ≤ n →
  nAllocated a ≤ traits_max_size X →
  nAllocated a + n ≤ size_type_max (promoted X) →
  (∃ a' h', insertGapAt build X (data a + Z.of_nat i) n a h =
              Returns (data a' + Z.of_nat i) a' h' ∧
            heap_wf h' ∧ gapped a' h' l i n ∧
            nAllocated a ≤ nAllocated a' ≤ traits_max_size X ∧
            (nalloc h' ≤ S (nalloc h))%nat ∧ brk h ≤ brk h' ∧
            (∀ q, q < brk h → ¬ data a ≤ q < data a + nAllocated a →
                  cells h' !! q = cells h !! q)) ∨
  insertGapAt build X (data a + Z.of_nat i) n a h = Throws SizeLimitExceeded a h.
Proof.
  intros Hwf Hown Hi Hn Hmax Hty.
  pose proof (owns_block_bounds _ _ _ Hwf Hown) as (Hu0 & Hd0 & Hdb).
  assert (nUsed a ≤ nAllocated a) as Hle by (destruct Hown as (_ & ? & _); lia).
  pose proof (size_type_max_lt_ull (promoted X)).
  destruct (decide (nUsed a + n ≤ nAllocated a ∨ nAllocated a + n ≤ traits_max_size X))
    as [Hfit|Hout].
  - left. by apply insertGapAt_ok.
  - right. eapply insertGapAt_limit; eauto; lia.
Qed.

Lemma insertFill_total (i k : nat) v a h l :
  heap_wf h → owns a h l → (i ≤ length l)%nat →
  nAllocated a ≤ traits_max_size X →
  nAllocated a + Z.of_nat k ≤ size_type_max (promoted X) →
  (∃ a' h', insertFill build X (data a + Z.of_nat i) (Z.of_nat k) v a h =
              Returns (data a' + Z.of_nat i) a' h' ∧
            heap_wf h' ∧ owns a' h' (take i l ++ replicate k v ++ drop i l) ∧
            nAllocated a ≤ nAllocated a' ≤ traits_max_size X) ∨
  insertFill build X (data a + Z.of_nat i) (Z.of_nat k) v a h = Throws SizeLimitExceeded a h.
Proof.
  intros Hwf Hown Hi Hmax Hty.
  pose proof (max_size_bounds X) as HM.
  destruct (insertGapAt_total i (Z.of_nat k) a h l)
    as [(a' & h' & E & Hwf' & Hg & Hc' & _)|E]; try assumption; try lia.
  2:{ right. unfold insertFill. erewrite bind_Throws; [reflexivity|exact E]. }
  left. unfold insertFill. mstep ltac:(exact E).
  rewrite fillConstruct_eq.
  pose proof Hg as (Hlen & Hfit & Hl1 & Hr1 & Hl2 & Hr2 & Hnull & Hblk).
  destruct (fillConstruct_loop_spec k (data a' + Z.of_nat i) v a' h' Hr1)
    as (h'' & E2 & Hsa & Hc).
  mstep ltac:(exact E2). mstep ltac:(reflexivity). mstep ltac:(reflexivity).
  rewrite to_size_type_small by lia.
  exists (mkArray (data a') (nUsed a' + Z.of_nat k) (nAllocated a')), h''.
  split; [reflexivity|]. split; [|split; [|exact Hc']].
  - eapply heap_wf_written; [exact Hwf'|exact Hsa|].
    intros q. rewrite Hc. case_goal; [right|by left]. rewrite Hr1 by lia. eauto.
  - rewrite <- (length_replicate k v) at 1.
    eapply gapped_filled; eauto; rewrite length_replicate; [exact Hg|].
    intros q. rewrite Hc. case_goal; [|reflexivity].
    by rewrite lookup_replicate_2 by lia.
Qed.

Lemma insertOne_total (i : nat) v a h l :
  heap_wf h → owns a h l → (i ≤ length l)%nat →
  nAllocated a ≤ traits_max_size X →
  nAllocated a + 1 ≤ size_type_max (promoted X) →
  (∃ a' h', insertOne build X (data a + Z.of_nat i) v a h =
              Returns (data a' + Z.of_nat i) a' h' ∧
            heap_wf h' ∧ owns a' h' (take i l ++ v :: drop i l) ∧
            nAllocated a ≤ nAllocated a' ≤ traits_max_size X) ∨
  insertOne build X (data a + Z.of_nat i) v a h = Throws SizeLimitExceeded a h.
Proof.
  intros Hwf Hown Hi Hmax Hty.
  pose proof (max_size_bounds X) as HM. pose proof size_type_max_promoted as HP.
  destruct (insertGapAt_total i 1 a h l)
    as [(a' & h' & E & Hwf' & Hg & Hc' & _)|E]; try assumption; try lia.
  2:{ right. unfold insertOne. erewrite bind_Throws; [reflexivity|exact E]. }
  left. unfold insertOne. mstep ltac:(exact E).
  pose proof Hg as (Hlen & Hfit & Hl1 & Hr1 & Hl2 & Hr2 & Hnull & Hblk).
  unfold copyConstructOne.
  mstep ltac:(apply construct_at_eq, Hr1; lia).
  mstep ltac:(reflexivity). mstep ltac:(reflexivity).
  rewrite to_size_type_small by (cbn [nUsed]; lia).
  exists (mkArray (data a') (nUsed a' + 1) (nAllocated a')),
         (set_cell h' (data a' + Z.of_nat i) (Some v)).
  split; [reflexivity|]. split; [|split; [|exact Hc']].
  - apply heap_wf_set_cell; [exact Hwf'|]. rewrite Hr1 by lia. eauto.
  - change (v :: drop i l) with ([v] ++ drop i l).
    change 1 with (Z.of_nat (length [v])) at 1.
    eapply gapped_filled; eauto; [apply same_alloc_set_cell|].
    intros q. rewrite lookup_set_cell. cbn [length].
    repeat case_goal; try lia; try reflexivity.
    subst q. by replace (Z.to_nat (data a' + Z.of_nat i - (data a' + Z.of_nat i))) with O by lia.
Qed.

(** ** Assignment *)

Lemma deallocateNoDestruct_spec a h :
  heap_wf h → owns (mkArray (data a) 0 (nAllocated a)) h [] →
  ∃ h', deallocateNoDestruct a h = Returns tt (mkArray 0 (nUsed a) 0) h' ∧
        heap_wf h' ∧ brk h' = brk h ∧ nalloc h' = nalloc h ∧
        (∀ q, cells h' !! q =
                if decide (data a ≤ q < data a + nAllocated a) then None
                else cells h !! q).
Proof.
  intros Hwf (_ & Hle & _ & _ & Hnull & Hblk). cbn [data nUsed nAllocated] in *.
  unfold deallocateNoDestruct. mstep ltac:(reflexivity).
  destruct (decide (nAllocated a = 0)) as [E0|E0].
  - rewrite Hnull by exact E0. mstep ltac:(apply freeN_null).
    exists h. split; [reflexivity|]. split; [exact Hwf|]. split; [reflexivity|].
    split; [reflexivity|]. intros q. case_goal; [lia|reflexivity].
  - destruct (freeN_spec (data a) (nAllocated a) a h Hwf (Hblk E0))
      as (h' & E & Hwf' & _ & Hbrk & Hna & Hc).
    mstep ltac:(exact E). exists h'. split; [reflexivity|]. auto.
Qed.

Lemma allocateNoConstruct_spec n a h :
  heap_wf h → 0 ≤ n →
  ∃ p h', allocateNoConstruct n a h = Returns tt (mkArray p (nUsed a) n) h' ∧
          heap_wf h' ∧ owns (mkArray p 0 n) h' [] ∧ brk h ≤ brk h' ∧
          nalloc h' = (if decide (n = 0) then nalloc h else S (nalloc h)) ∧
          (∀ q, q < brk h → cells h' !! q = cells h !! q).
Proof.
  intros Hwf Hn. unfold allocateNoConstruct.
  destruct (decide (n = 0)) as [->|Hn0].
  - mstep ltac:(apply allocN_zero). exists 0, h. split; [reflexivity|].
    split; [exact Hwf|]. split; [apply owns_nil_default|]. split; [lia|]. auto.
  - destruct (allocN_spec n a h Hwf ltac:(lia)) as (h' & E & Hwf' & Hbl & Hbrk & Hna & Hc).
    mstep ltac:(exact E). exists (brk h), h'. split; [reflexivity|].
    split; [exact Hwf'|]. split; [|split; [lia|split; [exact Hna|]]].
    + unfold owns, live, raw; cbn [data nUsed nAllocated length].
      split; [reflexivity|]. split; [lia|]. split; [intros; lia|].
      split; [|split; [lia|]].
      * intros q Hq. rewrite Hc. case_goal; [reflexivity|lia].
      * intros _. rewrite Hbl. apply lookup_insert_eq.
    + intros q Hq. rewrite Hc. case_goal; [lia|reflexivity].
Qed.

Lemma reallocateIfAdvisable_keep n a h :
  keeps_buffer (nAllocated a) n → reallocateIfAdvisable X n a h = Returns tt a h.
Proof.
  intros (H1 & H2). unfold reallocateIfAdvisable. mstep ltac:(reflexivity).
  rewrite minAlloc_eq.
  destruct (Z.ltb_spec (nAllocated a) n); [lia|].
  destruct (Z.ltb_spec (Z.max 4 n) (nAllocated a `quot` 2)); [lia|]. reflexivity.
Qed.

Lemma reallocateIfAdvisable_realloc n a h :
  heap_wf h → owns (mkArray (data a) 0 (nAllocated a)) h [] → 0 ≤ n →
  ¬ keeps_buffer (nAllocated a) n →
  ∃ p h', reallocateIfAdvisable X n a h = Returns tt (mkArray p (nUsed a) n) h' ∧
          heap_wf h' ∧ owns (mkArray p 0 n) h' [] ∧ brk h ≤ brk h' ∧
          nalloc h' = (if decide (n = 0) then nalloc h else S (nalloc h)) ∧
          (∀ q, q < brk h → ¬ data a ≤ q < data a + nAllocated a →
                cells h' !! q = cells h !! q) ∧
          (∀ q, data a ≤ q < data a + nAllocated a → cells h' !! q = None).
Proof.
  intros Hwf Hbuf Hn Hk.
  pose proof (owns_block_bounds _ _ _ Hwf Hbuf) as (_ & _ & Hdb).
  cbn [data nAllocated] in Hdb.
  unfold reallocateIfAdvisable. mstep ltac:(reflexivity).
  rewrite minAlloc_eq.
  assert ((nAllocated a <? n) || (Z.max 4 n <? nAllocated a `quot` 2) = true) as ->.
  { apply orb_true_iff. unfold keeps_buffer in Hk.
    destruct (Z.ltb_spec (nAllocated a) n); [by left|].
    destruct (Z.ltb_spec (Z.max 4 n) (nAllocated a `quot` 2)); [by right|lia]. }
  unfold reallocateNoDestructOrConstruct.
  destruct (deallocateNoDestruct_spec a h Hwf Hbuf) as (h1 & E1 & Hwf1 & Hbrk1 & Hna1 & Hc1).
  mstep ltac:(exact E1).
  destruct (allocateNoConstruct_spec n (mkArray 0 (nUsed a) 0) h1 Hwf1 Hn)
    as (p & h2 & E2 & Hwf2 & Hown2 & Hbrk2 & Hna2 & Hc2).
  exists p, h2. split; [exact E2|]. split; [exact Hwf2|]. split; [exact Hown2|].
  split; [lia|]. split; [by rewrite Hna2, Hna1|]. split.
  - intros q Hq Hnq. rewrite Hc2, Hc1 by lia. case_goal; [lia|reflexivity].
  - intros q Hq. rewrite Hc2, Hc1 by lia. case_goal; [reflexivity|lia].
Qed.

Lemma reallocateIfAdvisable_spec n a h :
  heap_wf h → owns (mkArray (data a) 0 (nAllocated a)) h [] → 0 ≤ n →
  ∃ a' h', reallocateIfAdvisable X n a h = Returns tt a' h' ∧
           heap_wf h' ∧ nUsed a' = nUsed a ∧
           owns (mkArray (data a') 0 (nAllocated a')) h' [] ∧
           n ≤ nAllocated a' ∧
           (keeps_buffer (nAllocated a) n → a' = a ∧ h' = h) ∧
           (¬ keeps_buffer (nAllocated a) n →
            nAllocated a' = n ∧
            nalloc h' = (if decide (n = 0) then nalloc h else S (nalloc h)) ∧
            ∀ q, data a ≤ q < data a + nAllocated a → cells h' !! q = None) ∧
           brk h ≤ brk h' ∧
           (∀ q, q < brk h → ¬ data a ≤ q < data a + nAllocated a →
                 cells h' !! q = cells h !! q).
Proof.
  intros Hwf Hbuf Hn.
  destruct (decide (n ≤ nAllocated a ∧ nAllocated a `quot` 2 ≤ Z.max 4 n)) as [Hk|Hk].
  - exists a, h. rewrite reallocateIfAdvisable_keep by exact Hk.
    split; [reflexivity|]. split; [exact Hwf|]. split; [reflexivity|].
    split; [exact Hbuf|]. split; [apply Hk|]. split; [auto|].
    split; [intros Hnk; by destruct Hnk|]. split; [lia|auto].
  - destruct (reallocateIfAdvisable_realloc n a h Hwf Hbuf Hn Hk)
      as (p & h' & E & Hwf' & Hown' & Hbrk & Hna & Hfr & Hfreed).
    exists (mkArray p (nUsed a) n), h'. split; [exact E|]. split; [exact Hwf'|].
    cbn [data nUsed nAllocated]. split; [reflexivity|]. split; [exact Hown'|].
    split; [lia|]. split; [intros Hk'; by destruct Hk|]. split; [auto|]. auto.
Qed.

(** Constructing [vs] at the start of an unconstructed buffer. *)
Lemma owns_constructed a h h' vs :
  owns (mkArray (data a) 0 (nAllocated a)) h [] →
  Z.of_nat (length vs) ≤ nAllocated a → same_alloc h h' →
  (∀ q, cells h' !! q =
          if decide (data a ≤ q < data a + Z.of_nat (length vs))
          then Some (vs !! Z.to_nat (q - data a)) else cells h !! q) →
  owns (mkArray (data a) (Z.of_nat (length vs)) (nAllocated a)) h' vs.
Proof.
  intros (_ & _ & _ & Hraw & Hnull & Hblk) Hfit (Hb & _) Hc.
  cbn [data nUsed nAllocated] in *.
  unfold owns; cbn [data nUsed nAllocated].
  split; [reflexivity|]. split; [lia|].
  split; [|split; [|split; [exact Hnull|rewrite Hb; exact Hblk]]].
  - intros q Hq. rewrite Hc. case_goal; [reflexivity|lia].
  - intros q Hq. rewrite Hc. case_goal; [lia|]. apply Hraw. lia.
Qed.

Lemma assignImpl_spec first vs a h l :
  heap_wf h → owns a h l → live h first vs →
  (∀ q, first ≤ q < first + Z.of_nat (length vs) →
        ¬ data a ≤ q < data a + nAllocated a) →
  Z.of_nat (length vs) ≤ traits_max_size X →
  ∃ a' h', assignImpl build X first (first + Z.of_nat (length vs)) a h = Returns tt a' h' ∧
           heap_wf h' ∧ owns a' h' vs ∧
           (keeps_buffer (nAllocated a) (Z.of_nat (length vs)) →
            data a' = data a ∧ nAllocated a' = nAllocated a ∧ nalloc h' = nalloc h) ∧
           (¬ keeps_buffer (nAllocated a) (Z.of_nat (length vs)) →
            nAllocated a' = Z.of_nat (length vs) ∧
            nalloc h' = (if decide (Z.of_nat (length vs) = 0) then nalloc h
                         else S (nalloc h))).
Proof.
  intros Hwf Hown Hsrc Hdisj Hfit.
  pose proof (max_size_bounds X) as HM. pose proof (max_size_lt_ull X) as HU.
  unfold assignImpl.
  mstep ltac:(apply SimTK_ERRCHK_true; lia).
  replace (first + Z.of_nat (length vs) - first) with (Z.of_nat (length vs)) by lia.
  mstep ltac:(apply SimTK_ERRCHK_true; apply isSizeOK_iff; lia).
  destruct (clear_spec a h l Hown) as (h1 & E1 & Hsa1 & Hc1 & Hown1).
  pose proof (clear_heap_wf _ _ _ _ _ Hwf Hown E1) as Hwf1.
  mstep ltac:(exact E1). mstep ltac:(reflexivity). mstep ltac:(reflexivity).
  cbn [data nUsed nAllocated]. rewrite to_size_type_small by lia.
  set (a2 := mkArray (data a) (Z.of_nat (length vs)) (nAllocated a)).
  destruct (reallocateIfAdvisable_spec (Z.of_nat (length vs)) a2 h1)
    as (a3 & h3 & E3 & Hwf3 & Hu3 & Hown3 & Hfit3 & Hkeep & Hre & Hbrk3 & Hfr3);
    try assumption; try lia.
  mstep ltac:(exact E3). mstep ltac:(reflexivity).
  rewrite Hu3. cbn [a2 nUsed]. rewrite copyConstruct_eq.
  pose proof (owns_block_bounds _ _ _ Hwf Hown) as (Hu0 & Hd0 & Hdb).
  assert (nUsed a ≤ nAllocated a) as Hle by (destruct Hown as (_ & ? & _); lia).
  assert (live h3 first vs) as Hsrc3.
  { intros q Hq. destruct (live_is_object h first vs q Hsrc Hq) as [v Hv].
    assert (0 < q < brk h) as Hqb.
    { destruct Hwf as (_ & Hcw & _). apply Hcw. rewrite Hv. eauto. }
    destruct Hsa1 as (_ & Hbrk1 & _).
    rewrite Hfr3 by (cbn [a2 data nAllocated]; try apply Hdisj; lia).
    rewrite Hc1. case_goal; [exfalso; eapply Hdisj; eauto; lia|]. apply Hsrc, Hq. }
  destruct (copyConstruct_loop_spec vs (data a3) first a3 h3 Hsrc3)
    as (h4 & E4 & Hsa4 & Hc4).
  { destruct Hown3 as (_ & _ & _ & Hraw3 & _). cbn [data nUsed nAllocated] in Hraw3.
    intros q Hq. apply Hraw3. lia. }
  exists (mkArray (data a3) (Z.of_nat (length vs)) (nAllocated a3)), h4.
  assert (a3 = mkArray (data a3) (Z.of_nat (length vs)) (nAllocated a3)) as Ha3.
  { destruct a3; cbn in *. by rewrite Hu3. }
  split; [rewrite <- Ha3; exact E4|].
  split; [|split; [|split]].
  - eapply heap_wf_written; [exact Hwf3|exact Hsa4|].
    intros q. rewrite Hc4. case_goal; [right|by left].
    destruct Hown3 as (_ & _ & _ & Hraw3 & _). cbn [data nUsed nAllocated] in Hraw3.
    rewrite Hraw3 by lia. eauto.
  - eapply owns_constructed; eauto.
  - intros Hk. destruct (Hkeep Hk) as (-> & ->). cbn [a2 data nAllocated].
    destruct Hsa4 as (_ & _ & ->). destruct Hsa1 as (_ & _ & ->). auto.
  - intros Hk. destruct (Hre Hk) as (-> & Hna & _). cbn [nAllocated]. split; [reflexivity|].
    destruct Hsa4 as (_ & _ & ->). destruct Hsa1 as (_ & _ & Hna1).
    rewrite Hna, Hna1. reflexivity.
Qed.

Lemma SimTK_ERRCHK_debug_false c a h :
  SimTK_ERRCHK (T:=T) Debug false c a h = Throws c a h.
Proof. reflexivity. Qed.

Lemma assignRange_ok first vs a h l :
  heap_wf h → owns a h l → live h first vs →
  first + Z.of_nat (length vs) ≤ data a ∨ data a + nAllocated a ≤ first →
  Z.of_nat (length vs) ≤ traits_max_size X →
  ∃ a' h', assignRange build X first (first + Z.of_nat (length vs)) a h =
             Returns tt a' h' ∧
           heap_wf h' ∧ owns a' h' vs ∧ nAllocated a' ≤ Z.max (nAllocated a) (traits_max_size X).
Proof.
  intros Hwf Hown Hsrc Hdisj Hfit.
  pose proof (owns_block_bounds _ _ _ Hwf Hown) as (Hu0 & Hd0 & Hdb).
  assert (nUsed a ≤ nAllocated a) as Hle by (destruct Hown as (_ & ? & _); lia).
  unfold assignRange, begin, end_. mstep ltac:(reflexivity).
  assert (vs = [] ∨ 0 < first) as Hnull.
  { destruct vs as [|v vs]; [by left|right].
    pose proof (live_head _ _ _ _ Hsrc) as Hc.
    destruct Hwf as (_ & Hcw & _). apply Hcw. rewrite Hc. eauto. }
  assert (negb (first =? 0) && negb (first + Z.of_nat (length vs) =? 0)
          || (first =? first + Z.of_nat (length vs)) = true) as Hchk.
  { destruct Hnull as [->|Hpos]; cbn [length].
    - rewrite Z.add_0_r, Z.eqb_refl. apply orb_true_r.
    - apply orb_true_iff. left. apply andb_true_iff.
      split; apply negb_true_iff, Z.eqb_neq; lia. }
  mstep ltac:(apply SimTK_ERRCHK_true, Hchk).
  mstep ltac:(apply SimTK_ERRCHK_true; apply orb_true_iff; lia).
  destruct (assignImpl_spec first vs a h l) as (a' & h' & E & Hwf' & Hown' & Hk & Hnk);
    try assumption.
  { intros q Hq. lia. }
  exists a', h'. split; [exact E|]. split; [exact Hwf'|]. split; [exact Hown'|].
  destruct (decide (Z.of_nat (length vs) ≤ nAllocated a ∧
                    nAllocated a `quot` 2 ≤ Z.max 4 (Z.of_nat (length vs)))) as [K|K].
  - destruct (Hk K) as (_ & -> & _). lia.
  - destruct (Hnk K) as (-> & _). lia.
Qed.

Lemma isSizeOK_negative n : - 2 ^ 63 ≤ n < 0 → isSizeOK X n = false.
Proof.
  intros Hn. unfold isSizeOK, ullMaxSize, max_size.
  pose proof (max_size_bounds X). pose proof (max_size_lt_ull X).
  rewrite (ull_id (traits_max_size X)) by lia.
  unfold ull. rewrite <- (Z.mod_add n 1) by lia. rewrite Z.mod_small by lia.
  apply Z.leb_gt. lia.
Qed.

Lemma size_type_min_ge Y : - 2 ^ 63 ≤ size_type_min Y.
Proof. unfold size_type_min. destruct Y; cbn [size_signed size_bits]; lia. Qed.

Lemma assignFill_total n v a h l :
  heap_wf h → owns a h l → size_type_min X ≤ n ≤ size_type_max X →
  (∃ a' h', assignFill X n v a h = Returns tt a' h' ∧ heap_wf h' ∧
            owns a' h' (replicate (Z.to_nat n) v) ∧ 0 ≤ n ∧
            nAllocated a' ≤ Z.max (nAllocated a) (traits_max_size X)) ∨
  assignFill X n v a h = Throws SizeLimitExceeded a h.
Proof.
  intros Hwf Hown Hty.
  pose proof (max_size_bounds X) as HM. pose proof (max_size_lt_ull X) as HU.
  pose proof (size_type_min_ge X). pose proof (size_type_max_lt_ull X).
  unfold assignFill.
  destruct (isSizeOK X n) eqn:Hok.
  2:{ right. reflexivity. }
  assert (0 ≤ n ≤ traits_max_size X) as Hn.
  { destruct (decide (n < 0)); [rewrite isSizeOK_negative in Hok by lia; discriminate|].
    apply isSizeOK_iff in Hok; lia. }
  left. mstep ltac:(reflexivity).
  destruct (clear_spec a h l Hown) as (h1 & E1 & Hsa1 & Hc1 & Hown1).
  pose proof (clear_heap_wf _ _ _ _ _ Hwf Hown E1) as Hwf1.
  mstep ltac:(exact E1).
  set (a1 := mkArray (data a) 0 (nAllocated a)) in *.
  destruct (reallocateIfAdvisable_spec n a1 h1)
    as (a3 & h3 & E3 & Hwf3 & Hu3 & Hown3 & Hfit3 & Hkeep & Hre & Hbrk3 & Hfr3);
    try assumption; try lia.
  mstep ltac:(exact E3). mstep ltac:(reflexivity).
  replace (fillConstruct (data a3) (data a3 + n) v)
    with (fillConstruct_loop (Z.to_nat n) (data a3) v)
    by (rewrite <- fillConstruct_eq, Z2Nat.id by lia; reflexivity).
  destruct (fillConstruct_loop_spec (Z.to_nat n) (data a3) v a3 h3) as (h4 & E4 & Hsa4 & Hc4).
  { destruct Hown3 as (_ & _ & _ & Hraw3 & _). cbn [data nUsed nAllocated] in Hraw3.
    intros q Hq. apply Hraw3. lia. }
  mstep ltac:(exact E4).
  exists (mkArray (data a3) n (nAllocated a3)), h4. split; [reflexivity|].
  split; [|split; [|split; [lia|]]].
  - eapply heap_wf_written; [exact Hwf3|exact Hsa4|].
    intros q. rewrite Hc4. case_goal; [right|by left].
    destruct Hown3 as (_ & _ & _ & Hraw3 & _). cbn [data nUsed nAllocated] in Hraw3.
    rewrite Hraw3 by lia. eauto.
  - replace n with (Z.of_nat (length (replicate (Z.to_nat n) v))) at 1
      by (rewrite length_replicate; lia).
    eapply owns_constructed; eauto; rewrite length_replicate; try lia.
    intros q. rewrite Hc4. case_goal; [|reflexivity].
    by rewrite lookup_replicate_2 by lia.
  - cbn [nAllocated].
    destruct (decide (n ≤ nAllocated a1 ∧ nAllocated a1 `quot` 2 ≤ Z.max 4 n)) as [K|K].
    + destruct (Hkeep K) as (-> & _). unfold a1. cbn [nAllocated]. lia.
    + destruct (Hre K) as (-> & _). lia.
Qed.

(** ** Totality of the appending operations *)

Lemma inv_of_owns a h l :
  owns a h l → nAllocated a ≤ traits_max_size X → inv X a.
Proof. intros (_ & Hle & _ & _ & Hnull & _) Hmax. unfold inv. auto. Qed.

Lemma make_room a h l :
  heap_wf h → owns a h l → nAllocated a ≤ traits_max_size X →
  nUsed a < traits_max_size X →
  ∃ a1 h1,
    (if nAllocated a =? nUsed a then growAtEnd build X 1 else ret tt) a h =
      Returns tt a1 h1 ∧ heap_wf h1 ∧ owns a1 h1 l ∧
    nUsed a1 = nUsed a ∧ nUsed a1 < nAllocated a1 ∧
    nAllocated a ≤ nAllocated a1 ≤ traits_max_size X.
Proof.
  intros Hwf Hown Hmax Hroom.
  pose proof (owns_block_bounds _ _ _ Hwf Hown) as (Hu0 & Hd0 & Hdb).
  assert (nUsed a ≤ nAllocated a) as Hle by (destruct Hown as (_ & ? & _); lia).
  destruct (Z.eqb_spec (nAllocated a) (nUsed a)) as [Heq|Hne].
  - destruct (growAtEnd_spec 1 a h l) as (h1 & E & Hwf1 & Hown1 & _); try assumption; try lia.
    pose proof (grown_capacity_bounds (nAllocated a) 1 ltac:(lia) ltac:(lia) ltac:(lia)).
    eexists _, h1. split; [exact E|]. cbn [nUsed nAllocated].
    split; [exact Hwf1|]. split; [exact Hown1|]. lia.
  - exists a, h. split; [reflexivity|].
    split; [exact Hwf|]. split; [exact Hown|]. lia.
Qed.

Lemma make_room_limit a h l :
  owns a h l → nAllocated a ≤ traits_max_size X → traits_max_size X ≤ nUsed a →
  (if nAllocated a =? nUsed a then growAtEnd build X 1 else ret tt) a h =
    Throws SizeLimitExceeded a h.
Proof.
  intros (_ & Hle & _) Hmax Hfull.
  pose proof (max_size_bounds X). pose proof (max_size_lt_ull X).
  destruct (Z.eqb_spec (nAllocated a) (nUsed a)) as [Heq|Hne]; [|lia].
  apply growAtEnd_limit; lia.
Qed.

Lemma push_back_total v a h l :
  heap_wf h → owns a h l → nAllocated a ≤ traits_max_size X →
  (∃ p a' h', push_back build X v a h = Returns p a' h' ∧ heap_wf h' ∧
              owns a' h' (l ++ [v]) ∧ nAllocated a' ≤ traits_max_size X) ∨
  push_back build X v a h = Throws SizeLimitExceeded a h.
Proof.
  intros Hwf Hown Hmax.
  destruct (decide (nUsed a < traits_max_size X)) as [Hroom|Hfull].
  - left. destruct (push_back_spec v a h l) as (a' & h' & E & Hwf' & Hown' & _ & Hc);
      try assumption.
    eexists _, a', h'. split; [exact E|]. split; [exact Hwf'|]. split; [exact Hown'|]. lia.
  - right. unfold push_back. mstep ltac:(reflexivity).
    erewrite bind_Throws; [reflexivity|]. eapply make_room_limit; eauto. lia.
Qed.

Lemma push_back_default_eq :
  push_back_default T_default build X = push_back build X T_default.
Proof. reflexivity. Qed.

Lemma raw_push_back_total a h l :
  heap_wf h → owns a h l → nAllocated a ≤ traits_max_size X →
  ends_with_inv X (raw_push_back build X a h).
Proof.
  intros Hwf Hown Hmax. unfold raw_push_back. mstep ltac:(reflexivity).
  destruct (decide (nUsed a < traits_max_size X)) as [Hroom|Hfull].
  - destruct (make_room a h l) as (a1 & h1 & E1 & Hwf1 & Hown1 & Hu1 & Hlt1 & Hc1);
      try assumption.
    mstep ltac:(exact E1). mstep ltac:(reflexivity). mstep ltac:(reflexivity).
    rewrite to_size_type_small by (pose proof (owns_block_bounds _ _ _ Hwf1 Hown1); lia).
    cbn. destruct Hown1 as (_ & _ & _ & _ & Hnull & _).
    unfold inv; cbn [data nUsed nAllocated]. split; [lia|]. split; [exact Hnull|lia].
  - erewrite bind_Throws by (eapply make_room_limit; eauto; lia).
    cbn. eapply inv_of_owns; eauto.
Qed.

Lemma appends_total (values : list T) : ∀ a h l,
  heap_wf h → owns a h l → nAllocated a ≤ traits_max_size X →
  ends_with_inv X (appends build X values a h).
Proof.
  induction values as [|v values IH]; intros a h l Hwf Hown Hmax; cbn [appends].
  - cbn. eapply inv_of_owns; eauto.
  - destruct (push_back_total v a h l Hwf Hown Hmax)
      as [(p & a' & h' & E & Hwf' & Hown' & Hmax')|E].
    + mstep ltac:(exact E). eapply IH; eauto.
    + erewrite bind_Throws by exact E. cbn. eapply inv_of_owns; eauto.
Qed.

Lemma assignImpl_input_loop_eq (values : list T) :
  assignImpl_input_loop build X values = appends build X values.
Proof. induction values as [|v values IH]; cbn; [reflexivity|]. by rewrite IH. Qed.

Lemma assignImpl_input_total values a h l :
  heap_wf h → owns a h l → nAllocated a ≤ traits_max_size X →
  ends_with_inv X (assignImpl_input build X values a h).
Proof.
  intros Hwf Hown Hmax. unfold assignImpl_input.
  destruct (clear_spec a h l Hown) as (h1 & E1 & Hsa1 & Hc1 & Hown1).
  pose proof (clear_heap_wf _ _ _ _ _ Hwf Hown E1) as Hwf1.
  mstep ltac:(exact E1). rewrite assignImpl_input_loop_eq.
  eapply appends_total; eauto.
Qed.

(** ** Constructors, destructor, resize *)

Lemma heap_wf_frame a h h' l :
  heap_wf h → owns a h l → same_alloc h h' →
  (∀ q, ¬ data a ≤ q < data a + nAllocated a → cells h' !! q = cells h !! q) →
  heap_wf h'.
Proof.
  intros Hwf Hown Hsa Hfr.
  eapply heap_wf_written; [exact Hwf|exact Hsa|].
  intros q. destruct (decide (data a ≤ q < data a + nAllocated a)) as [Hq|Hq].
  - right. destruct Hown as (Hlen & _ & Hlive & Hraw & _).
    destruct (decide (q < data a + nUsed a)).
    + destruct (live_is_object h (data a) l q Hlive) as [v ->]; eauto. lia.
    + rewrite Hraw by lia. eauto.
  - left. apply Hfr, Hq.
Qed.

Lemma owns_gapped_end a h l n :
  owns a h l → 0 ≤ n → nUsed a + n ≤ nAllocated a → gapped a h l (length l) n.
Proof.
  intros (Hlen & Hle & Hlive & Hraw & Hnull & Hblk) Hn Hfit.
  unfold gapped. rewrite take_ge, drop_ge by lia.
  split; [exact Hlen|]. split; [lia|]. split; [exact Hlive|].
  split; [intros q Hq; apply Hraw; lia|]. split; [intros q Hq; cbn [length] in Hq; lia|].
  split; [intros q Hq; apply Hraw; lia|]. auto.
Qed.

(** Constructing [k] copies of [v] after the last element. *)
Lemma fill_at_end (k : nat) v a h l :
  heap_wf h → owns a h l → nUsed a + Z.of_nat k ≤ nAllocated a →
  ∃ h', fillConstruct_loop k (data a + nUsed a) v a h = Returns tt a h' ∧
        heap_wf h' ∧
        owns (mkArray (data a) (nUsed a + Z.of_nat k) (nAllocated a)) h' (l ++ replicate k v).
Proof.
  intros Hwf Hown Hfit.
  pose proof (owns_gapped_end a h l (Z.of_nat k) Hown ltac:(lia) Hfit) as Hg.
  pose proof Hown as (Hlen & _ & _ & Hraw & _).
  destruct (fillConstruct_loop_spec k (data a + nUsed a) v a h) as (h' & E & Hsa & Hc).
  { intros q Hq. apply Hraw. lia. }
  exists h'. split; [exact E|]. split.
  - eapply heap_wf_written; [exact Hwf|exact Hsa|].
    intros q. rewrite Hc. case_goal; [right|by left]. rewrite Hraw by lia. eauto.
  - rewrite <- (length_replicate k v) at 1.
    replace (l ++ replicate k v)
      with (take (length l) l ++ replicate k v ++ drop (length l) l)
      by (rewrite take_ge, drop_ge, app_nil_r by lia; reflexivity).
    eapply gapped_filled; eauto; rewrite length_replicate; [exact Hg|].
    intros q. rewrite Hc, Hlen. case_goal; [|reflexivity].
    by rewrite lookup_replicate_2 by lia.
Qed.

Lemma SimTK_SIZECHECK_true sz a h :
  0 ≤ sz ≤ traits_max_size X →
  SimTK_SIZECHECK build sz (max_size X) a h = Returns tt a h.
Proof.
  intros Hsz. unfold SimTK_SIZECHECK, max_size. apply SimTK_ERRCHK_true.
  apply andb_true_iff. split; [apply Z.leb_le|apply Z.leb_le]; lia.
Qed.

(** Constructing [k] copies of [v], or copies of the objects at [first], at
    the start of an unconstructed buffer. *)
Lemma fill_buffer (k : nat) v a h :
  heap_wf h → owns (mkArray (data a) 0 (nAllocated a)) h [] →
  Z.of_nat k ≤ nAllocated a →
  ∃ h', fillConstruct_loop k (data a) v a h = Returns tt a h' ∧ heap_wf h' ∧
        owns (mkArray (data a) (Z.of_nat k) (nAllocated a)) h' (replicate k v).
Proof.
  intros Hwf Hbuf Hfit.
  pose proof Hbuf as (_ & _ & _ & Hraw & _). cbn [data nUsed nAllocated] in Hraw.
  destruct (fillConstruct_loop_spec k (data a) v a h) as (h' & E & Hsa & Hc).
  { intros q Hq. apply Hraw. lia. }
  exists h'. split; [exact E|]. split.
  - eapply heap_wf_written; [exact Hwf|exact Hsa|].
    intros q. rewrite Hc. case_goal; [right|by left]. rewrite Hraw by lia. eauto.
  - rewrite <- (length_replicate k v) at 1.
    eapply owns_constructed; eauto; rewrite length_replicate; try lia.
    intros q. rewrite Hc. case_goal; [|reflexivity].
    by rewrite lookup_replicate_2 by lia.
Qed.

Lemma copy_buffer first vs a h :
  heap_wf h → owns (mkArray (data a) 0 (nAllocated a)) h [] → live h first vs →
  Z.of_nat (length vs) ≤ nAllocated a →
  ∃ h', copyConstruct_loop (length vs) (data a) first a h = Returns tt a h' ∧ heap_wf h' ∧
        owns (mkArray (data a) (Z.of_nat (length vs)) (nAllocated a)) h' vs.
Proof.
  intros Hwf Hbuf Hsrc Hfit.
  pose proof Hbuf as (_ & _ & _ & Hraw & _). cbn [data nUsed nAllocated] in Hraw.
  destruct (copyConstruct_loop_spec vs (data a) first a h Hsrc) as (h' & E & Hsa & Hc).
  { intros q Hq. apply Hraw. lia. }
  exists h'. split; [exact E|]. split.
  - eapply heap_wf_written; [exact Hwf|exact Hsa|].
    intros q. rewrite Hc. case_goal; [right|by left]. rewrite Hraw by lia. eauto.
  - eapply owns_constructed; eauto.
Qed.

Lemma Array_fill_run (k : nat) v a0 h :
  heap_wf h →
  SimTK_SIZECHECK build (Z.of_nat k) (max_size X) a0 h = Returns tt a0 h →
  ∃ a' h', Array_fill build X (Z.of_nat k) v a0 h = Returns tt a' h' ∧
           heap_wf h' ∧ owns a' h' (replicate k v) ∧ nAllocated a' = Z.of_nat k.
Proof.
  intros Hwf Hk. unfold Array_fill.
  mstep ltac:(exact Hk).
  destruct (allocateNoConstruct_spec (Z.of_nat k) a0 h Hwf ltac:(lia))
    as (p & h1 & E1 & Hwf1 & Hown1 & _).
  mstep ltac:(exact E1). mstep ltac:(reflexivity). cbn [data].
  rewrite fillConstruct_eq.
  destruct (fill_buffer k v (mkArray p (nUsed a0) (Z.of_nat k)) h1)
    as (h2 & E2 & Hwf2 & Hown2); cbn [data nUsed nAllocated]; try assumption; try lia.
  mstep ltac:(exact E2).
  eexists _, h2. split; [reflexivity|]. split; [exact Hwf2|]. split; [exact Hown2|].
  reflexivity.
Qed.

Lemma Array_fill_ok (k : nat) v a0 h :
  heap_wf h → Z.of_nat k ≤ traits_max_size X →
  ∃ a' h', Array_fill build X (Z.of_nat k) v a0 h = Returns tt a' h' ∧
           heap_wf h' ∧ owns a' h' (replicate k v) ∧ nAllocated a' = Z.of_nat k.
Proof.
  intros Hwf Hk. apply Array_fill_run; [exact Hwf|].
  apply SimTK_SIZECHECK_true; lia.
Qed.

Lemma Array_n_run (k : nat) a0 h :
  heap_wf h →
  SimTK_SIZECHECK build (Z.of_nat k) (max_size X) a0 h = Returns tt a0 h →
  ∃ a' h', Array_n T_default build X (Z.of_nat k) a0 h = Returns tt a' h' ∧
           heap_wf h' ∧ owns a' h' (replicate k T_default) ∧ nAllocated a' = Z.of_nat k.
Proof.
  intros Hwf Hk. unfold Array_n.
  mstep ltac:(exact Hk).
  destruct (allocateNoConstruct_spec (Z.of_nat k) a0 h Hwf ltac:(lia))
    as (p & h1 & E1 & Hwf1 & Hown1 & _).
  mstep ltac:(exact E1). mstep ltac:(reflexivity). cbn [data].
  rewrite defaultConstruct_eq.
  destruct (fill_buffer k T_default (mkArray p (nUsed a0) (Z.of_nat k)) h1)
    as (h2 & E2 & Hwf2 & Hown2); cbn [data nUsed nAllocated]; try assumption; try lia.
  rewrite <- defaultConstruct_loop_eq in E2. cbn [data] in E2.
  mstep ltac:(exact E2).
  eexists _, h2. split; [reflexivity|]. split; [exact Hwf2|]. split; [exact Hown2|].
  reflexivity.
Qed.

Lemma Array_n_ok (k : nat) a0 h :
  heap_wf h → Z.of_nat k ≤ traits_max_size X →
  ∃ a' h', Array_n T_default build X (Z.of_nat k) a0 h = Returns tt a' h' ∧
           heap_wf h' ∧ owns a' h' (replicate k T_default) ∧ nAllocated a' = Z.of_nat k.
Proof.
  intros Hwf Hk. apply Array_n_run; [exact Hwf|].
  apply SimTK_SIZECHECK_true; lia.
Qed.

Lemma Array_range_ok first vs a0 h :
  heap_wf h → live h first vs → Z.of_nat (length vs) ≤ traits_max_size X →
  ∃ a' h', Array_range build X first (first + Z.of_nat (length vs)) a0 h =
             Returns tt a' h' ∧
           heap_wf h' ∧ owns a' h' vs ∧ nAllocated a' = Z.of_nat (length vs).
Proof.
  intros Hwf Hsrc Hk.
  pose proof (max_size_bounds X) as HM. pose proof (max_size_lt_ull X) as HU.
  unfold Array_range.
  assert (vs = [] ∨ 0 < first < brk h) as Hnull.
  { destruct vs as [|v vs]; [by left|right].
    pose proof (live_head _ _ _ _ Hsrc) as Hc.
    destruct Hwf as (_ & Hcw & _). apply Hcw. rewrite Hc. eauto. }
  assert (negb (first =? 0) && negb (first + Z.of_nat (length vs) =? 0)
          || (first =? first + Z.of_nat (length vs)) = true) as Hchk.
  { destruct Hnull as [->|Hpos]; cbn [length].
    - rewrite Z.add_0_r, Z.eqb_refl. apply orb_true_r.
    - apply orb_true_iff. left. apply andb_true_iff.
      split; apply negb_true_iff, Z.eqb_neq; lia. }
  mstep ltac:(apply SimTK_ERRCHK_true, Hchk).
  replace (first + Z.of_nat (length vs) - first) with (Z.of_nat (length vs)) by lia.
  mstep ltac:(apply SimTK_ERRCHK_true; apply isSizeOK_iff; lia).
  mstep ltac:(reflexivity). mstep ltac:(reflexivity). cbn [nUsed].
  rewrite to_size_type_small by lia.
  destruct (allocateNoConstruct_spec (Z.of_nat (length vs))
              (mkArray (data a0) (Z.of_nat (length vs)) (nAllocated a0)) h Hwf ltac:(lia))
    as (p & h1 & E1 & Hwf1 & Hown1 & _ & _ & Hfr1).
  mstep ltac:(exact E1). mstep ltac:(reflexivity). cbn [data nUsed].
  rewrite copyConstruct_eq.
  destruct (copy_buffer first vs (mkArray p (Z.of_nat (length vs)) (Z.of_nat (length vs))) h1)
    as (h2 & E2 & Hwf2 & Hown2); cbn [data nUsed nAllocated]; try assumption; try lia.
  { intros q Hq. rewrite Hfr1; [apply Hsrc, Hq|].
    destruct (live_is_object h first vs q Hsrc Hq) as [v Hv].
    destruct Hwf as (_ & Hcw & _). apply Hcw. rewrite Hv. eauto. }
  eexists _, h2. split; [exact E2|]. split; [exact Hwf2|]. split; [exact Hown2|].
  reflexivity.
Qed.

Lemma Array_copy_ok src ls a0 h :
  heap_wf h → owns src h ls →
  ∃ a' h', Array_copy src a0 h = Returns tt a' h' ∧
           heap_wf h' ∧ owns a' h' ls ∧ nAllocated a' = nUsed src.
Proof.
  intros Hwf Hsrc.
  pose proof (owns_block_bounds _ _ _ Hwf Hsrc) as (Hu0 & Hd0 & Hdb).
  pose proof Hsrc as (Hlen & Hle & Hlive & _).
  unfold Array_copy.
  mstep ltac:(reflexivity). mstep ltac:(reflexivity). cbn [nUsed].
  destruct (allocateNoConstruct_spec (nUsed src)
              (mkArray (data a0) (nUsed src) (nAllocated a0)) h Hwf ltac:(lia))
    as (p & h1 & E1 & Hwf1 & Hown1 & Hbrk1 & _ & Hfr1).
  mstep ltac:(exact E1). mstep ltac:(reflexivity). cbn [data nUsed].
  rewrite <- Hlen in *. rewrite copyConstruct_eq.
  destruct (copy_buffer (data src) ls
              (mkArray p (Z.of_nat (length ls)) (Z.of_nat (length ls))) h1)
    as (h2 & E2 & Hwf2 & Hown2); cbn [data nUsed nAllocated]; try assumption; try lia.
  { intros q Hq. rewrite Hfr1; [apply Hlive, Hq|]. lia. }
  eexists _, h2. split; [exact E2|]. split; [exact Hwf2|]. split; [exact Hown2|].
  reflexivity.
Qed.

Lemma Array_destroy_ok a h l :
  heap_wf h → owns a h l →
  ∃ h', Array_destroy a h = Returns tt (mkArray 0 0 0) h' ∧ heap_wf h'.
Proof.
  intros Hwf Hown. unfold Array_destroy.
  destruct (clear_spec a h l Hown) as (h1 & E1 & Hsa1 & Hc1 & Hown1).
  pose proof (clear_heap_wf _ _ _ _ _ Hwf Hown E1) as Hwf1.
  mstep ltac:(exact E1).
  destruct (deallocateNoDestruct_spec (mkArray (data a) 0 (nAllocated a)) h1 Hwf1 Hown1)
    as (h2 & E2 & Hwf2 & _).
  exists h2. split; [exact E2|exact Hwf2].
Qed.

Lemma reserve_total newCapacity a h l :
  heap_wf h → owns a h l →
  ∃ a' h', reserve build newCapacity a h = Returns tt a' h' ∧
           heap_wf h' ∧ owns a' h' l ∧ nUsed a' = nUsed a ∧
           nAllocated a' = Z.max (nAllocated a) newCapacity.
Proof.
  intros Hwf Hown. destruct (decide (newCapacity ≤ nAllocated a)) as [Hle|Hgt].
  - exists a, h. rewrite reserve_noop by exact Hle.
    split; [reflexivity|]. split; [exact Hwf|]. split; [exact Hown|]. split; lia.
  - destruct (reserve_grow newCapacity a h l Hwf Hown ltac:(lia)) as (h' & E & Hwf' & Hown' & _).
    eexists _, h'. split; [exact E|]. split; [exact Hwf'|]. split; [exact Hown'|].
    cbn [nUsed nAllocated]. split; lia.
Qed.

Lemma resizeFill_ok sz v a h l :
  heap_wf h → owns a h l → nAllocated a ≤ traits_max_size X →
  0 ≤ sz ≤ traits_max_size X →
  ∃ a' h', resizeFill build X sz v a h = Returns tt a' h' ∧ heap_wf h' ∧
           owns a' h' (take (Z.to_nat sz) l ++ replicate (Z.to_nat sz - length l) v) ∧
           nAllocated a' ≤ traits_max_size X.
Proof.
  intros Hwf Hown Hmax Hsz.
  pose proof (max_size_bounds X) as HM.
  pose proof Hown as (Hlen & Hle & _).
  unfold resizeFill. mstep ltac:(reflexivity).
  destruct (Z.eqb_spec sz (nUsed a)) as [Heq|Hne].
  { exists a, h. split; [reflexivity|]. split; [exact Hwf|]. split; [|exact Hmax].
    rewrite take_ge by lia. replace (Z.to_nat sz - length l)%nat with O by lia.
    cbn [replicate]. by rewrite app_nil_r. }
  destruct (Z.eqb_spec sz 0) as [Hz|Hnz].
  { destruct (clear_spec a h l Hown) as (h1 & E1 & Hsa1 & Hc1 & Hown1).
    pose proof (clear_heap_wf _ _ _ _ _ Hwf Hown E1) as Hwf1.
    eexists _, h1. split; [exact E1|]. split; [exact Hwf1|]. subst sz.
    cbn [Z.to_nat take replicate Nat.sub app nAllocated]. auto. }
  destruct (Z.ltb_spec sz (nUsed a)) as [Hlt|Hge].
  { unfold end_.
    destruct (erase_spec (Z.to_nat sz) (length l) a h l) as (h1 & E1 & Hsa1 & Hown1 & Hfr1);
      try assumption; try lia.
    replace (data a + Z.of_nat (Z.to_nat sz)) with (data a + sz) in E1 by lia.
    rewrite Hlen in E1, Hown1. mstep ltac:(exact E1).
    eexists _, h1. split; [reflexivity|]. split.
    { eapply heap_wf_frame; eauto. intros q Hq. apply Hfr1. lia. }
    rewrite drop_ge, app_nil_r in Hown1 by lia.
    replace (Z.to_nat sz - length l)%nat with O by lia. cbn [replicate].
    rewrite app_nil_r. split; [exact Hown1|exact Hmax]. }
  destruct (reserve_total sz a h l Hwf Hown) as (a1 & h1 & E1 & Hwf1 & Hown1 & Hu1 & Hc1).
  mstep ltac:(exact E1). mstep ltac:(reflexivity).
  replace (data a1 + sz) with (data a1 + nUsed a1 + Z.of_nat (Z.to_nat sz - length l)) by lia.
  rewrite fillConstruct_eq.
  destruct (fill_at_end (Z.to_nat sz - length l) v a1 h1 l) as (h2 & E2 & Hwf2 & Hown2);
    try assumption; try lia.
  mstep ltac:(exact E2).
  exists (mkArray (data a1) sz (nAllocated a1)), h2. split; [reflexivity|].
  split; [exact Hwf2|]. rewrite take_ge by lia.
  replace (nUsed a1 + Z.of_nat (Z.to_nat sz - length l)) with sz in Hown2 by lia.
  split; [exact Hown2|]. cbn [nAllocated]. lia.
Qed.

Lemma resize_ok sz a h l :
  heap_wf h → owns a h l → nAllocated a ≤ traits_max_size X →
  0 ≤ sz ≤ traits_max_size X →
  ∃ a' h', resize T_default build X sz a h = Returns tt a' h' ∧ heap_wf h' ∧
           owns a' h' (take (Z.to_nat sz) l ++ replicate (Z.to_nat sz - length l) T_default) ∧
           nAllocated a' ≤ traits_max_size X.
Proof.
  intros Hwf Hown Hmax Hsz.
  destruct (resizeFill_ok sz T_default a h l Hwf Hown Hmax Hsz) as (a' & h' & E & Hres).
  exists a', h'. split; [|exact Hres]. rewrite <- E.
  pose proof Hown as (Hlen & Hle & _).
  unfold resize, resizeFill.
  mstep ltac:(reflexivity). symmetry. mstep ltac:(reflexivity). symmetry.
  destruct (sz =? nUsed a); [reflexivity|]. destruct (sz =? 0); [reflexivity|].
  destruct (Z.ltb_spec sz (nUsed a)); [reflexivity|].
  destruct (reserve_total sz a h l Hwf Hown) as (a1 & h1 & E1 & Hwf1 & Hown1 & Hu1 & Hc1).
  mstep ltac:(exact E1). symmetry. mstep ltac:(exact E1). symmetry.
  mstep ltac:(reflexivity). symmetry. mstep ltac:(reflexivity).
  replace (data a1 + sz) with (data a1 + nUsed a1 + Z.of_nat (Z.to_nat sz - length l)) by lia.
  rewrite fillConstruct_eq, defaultConstruct_eq.
  unfold bind. rewrite defaultConstruct_loop_eq. reflexivity.
Qed.

(** ** Range insertion, element access *)

Lemma live_nonnull h first vs :
  heap_wf h → live h first vs → vs = [] ∨ 0 < first < brk h.
Proof.
  intros Hwf Hsrc. destruct vs as [|v vs]; [by left|right].
  pose proof (live_head _ _ _ _ Hsrc) as Hc.
  destruct Hwf as (_ & Hcw & _). apply Hcw. rewrite Hc. eauto.
Qed.

Lemma null_check_passes h first vs :
  heap_wf h → live h first vs →
  negb (first =? 0) && negb (first + Z.of_nat (length vs) =? 0)
  || (first =? first + Z.of_nat (length vs)) = true.
Proof.
  intros Hwf Hsrc. destruct (live_nonnull h first vs Hwf Hsrc) as [->|Hpos]; cbn [length].
  - rewrite Z.add_0_r, Z.eqb_refl. apply orb_true_r.
  - apply orb_true_iff. left. apply andb_true_iff.
    split; apply negb_true_iff, Z.eqb_neq; lia.
Qed.

Lemma insertImpl_total (i : nat) first vs a h l :
  heap_wf h → owns a h l → (i ≤ length l)%nat → live h first vs →
  first + Z.of_nat (length vs) ≤ data a ∨ data a + nAllocated a ≤ first →
  nAllocated a ≤ traits_max_size X →
  Z.of_nat (length vs) ≤ traits_max_size X →
  nAllocated a + Z.of_nat (length vs) ≤ size_type_max (promoted X) →
  ends_with_inv X
    (insertImpl build X (data a + Z.of_nat i) first (first + Z.of_nat (length vs)) a h).
Proof.
  intros Hwf Hown Hi Hsrc Hdisj Hmax Hm Hty.
  pose proof (max_size_bounds X) as HM.
  pose proof (inv_of_owns a h l Hown Hmax) as Hinv.
  unfold insertImpl. mstep ltac:(reflexivity).
  mstep ltac:(apply SimTK_ERRCHK_true; lia).
  replace (first + Z.of_nat (length vs) - first) with (Z.of_nat (length vs)) by lia.
  rewrite to_size_type_small by lia.
  assert (∀ K : M T Z,
            ends_with_inv X (K a h) →
            ends_with_inv X
              ((SimTK_ERRCHK build (isGrowthOK X a (Z.of_nat (length vs))) SizeLimitExceeded ;;
                K) a h)) as Hchk.
  { intros K HK. unfold SimTK_ERRCHK, SimTK_ERRCHK_ALWAYS.
    destruct build; [|exact HK].
    destruct (isGrowthOK X a (Z.of_nat (length vs))); [exact HK|exact Hinv]. }
  apply Hchk.
  destruct (insertGapAt_total i (Z.of_nat (length vs)) a h l)
    as [(a' & h' & E & Hwf' & Hg & Hc' & _ & _ & Hfr)|E]; try assumption; try lia.
  2:{ erewrite bind_Throws by exact E. exact Hinv. }
  mstep ltac:(exact E). rewrite copyConstruct_eq.
  pose proof Hg as (Hlen & Hfit & Hl1 & Hr1 & Hl2 & Hr2 & Hnull & Hblk).
  destruct (copyConstruct_loop_spec vs (data a' + Z.of_nat i) first a' h')
    as (h'' & E2 & Hsa & Hc); [|exact Hr1|].
  { intros q Hq. destruct (live_is_object h first vs q Hsrc Hq) as [w Hw].
    assert (0 < q < brk h) as Hqb.
    { destruct Hwf as (_ & Hcw & _). apply Hcw. rewrite Hw. eauto. }
    rewrite Hfr by lia. apply Hsrc, Hq. }
  mstep ltac:(exact E2). cbn.
  unfold inv. split; [lia|]. split; [exact Hnull|lia].
Qed.

Lemma insertRange_total (i : nat) first vs a h l :
  heap_wf h → owns a h l → (i ≤ length l)%nat → live h first vs →
  first + Z.of_nat (length vs) ≤ data a ∨ data a + nAllocated a ≤ first →
  nAllocated a ≤ traits_max_size X →
  Z.of_nat (length vs) ≤ traits_max_size X →
  nAllocated a + Z.of_nat (length vs) ≤ size_type_max (promoted X) →
  ends_with_inv X
    (insertRange build X (data a + Z.of_nat i) first (first + Z.of_nat (length vs)) a h).
Proof.
  intros Hwf Hown Hi Hsrc Hdisj Hmax Hm Hty.
  assert (nUsed a ≤ nAllocated a) as Hle by (destruct Hown as (_ & ? & _); lia).
  unfold insertRange, begin, end_. mstep ltac:(reflexivity).
  mstep ltac:(apply SimTK_ERRCHK_true; eapply null_check_passes; eauto).
  mstep ltac:(apply SimTK_ERRCHK_true; apply orb_true_iff; lia).
  by eapply insertImpl_total.
Qed.

Lemma at_total i a h : inv X a → ends_with_inv X (at_ i a h).
Proof.
  intros Hinv. unfold at_, SimTK_INDEXCHECK_ALWAYS, SimTK_ERRCHK_ALWAYS.
  mstep ltac:(reflexivity).
  destruct ((0 <=? i) && (i <? nUsed a)); exact Hinv.
Qed.

Lemma front_spec a h : 0 < nUsed a → front build a h = Returns (data a + 0) a h.
Proof.
  intros Hu. unfold front, empty. mstep ltac:(reflexivity).
  mstep ltac:(apply SimTK_ERRCHK_true; apply negb_true_iff, Z.eqb_neq; lia).
  reflexivity.
Qed.

(** ** Invariants *)

Lemma ends_with_inv_drop {A} (m : M T A) a h :
  ends_with_inv X (m a h) → ends_with_inv X ((m ;; ret tt) a h).
Proof. unfold bind, ret. destruct (m a h); auto. Qed.

Lemma inv_max a : inv X a → nAllocated a ≤ traits_max_size X.
Proof. by intros (_ & _ & ?). Qed.

Lemma run_preserves_inv op a h l :
  heap_wf h → owns a h l → inv X a → requires sizeof_T X op a h l →
  ends_with_inv X (run T_default build X op a h).
Proof.
  intros Hwf Hown Hinv Hreq. pose proof (inv_max a Hinv) as Hmax.
  pose proof (max_size_bounds X) as HM.
  pose proof Hown as (Hlen & Hle & _).
  destruct op; cbn [run requires] in *.
  - (* Array_() *) cbn. unfold inv; cbn. lia.
  - (* Array_(n) *)
    destruct (Array_n_ok (Z.to_nat n) a h Hwf ltac:(lia)) as (a' & h' & E & _ & Hown' & Hc).
    rewrite Z2Nat.id in E, Hc by lia. rewrite E. cbn.
    eapply inv_of_owns; eauto. lia.
  - (* Array_(n, initVal) *)
    destruct (Array_fill_ok (Z.to_nat n) initVal a h Hwf ltac:(lia))
      as (a' & h' & E & _ & Hown' & Hc).
    rewrite Z2Nat.id in E, Hc by lia. rewrite E. cbn.
    eapply inv_of_owns; eauto. lia.
  - (* Array_(first, last1) *)
    destruct Hreq as ((vs & Hsrc & -> & Hm & _) & _).
    destruct (Array_range_ok first vs a h Hwf Hsrc Hm) as (a' & h' & E & _ & Hown' & Hc).
    rewrite E. cbn. eapply inv_of_owns; eauto. lia.
  - (* Array_(src) *)
    destruct Hreq as (Hinvs & (ls & Hsrc) & _).
    destruct (Array_copy_ok src ls a h Hwf Hsrc) as (a' & h' & E & _ & Hown' & Hc).
    rewrite E. cbn. eapply inv_of_owns; eauto.
    destruct Hinvs as (? & _ & ?). lia.
  - (* ~Array_() *)
    destruct (Array_destroy_ok a h l Hwf Hown) as (h' & E & _).
    rewrite E. cbn. unfold inv; cbn. lia.
  - (* assign(n, fillValue) *)
    destruct (assignFill_total n fillValue a h l Hwf Hown (proj1 Hreq))
      as [(a' & h' & E & _ & Hown' & _ & Hc)|E]; rewrite E; cbn; [|exact Hinv].
    eapply inv_of_owns; eauto. lia.
  - (* assign(first, last1) *)
    destruct Hreq as ((vs & Hsrc & -> & Hm & Hdisj) & _).
    destruct (assignRange_ok first vs a h l Hwf Hown Hsrc Hdisj Hm)
      as (a' & h' & E & _ & Hown' & Hc).
    rewrite E. cbn. eapply inv_of_owns; eauto. lia.
  - (* assign from an input iterator *)
    eapply assignImpl_input_total; eauto.
  - (* operator=(const Array_<T2,X2>&) *)
    destruct Hreq as ((vs & Hsrc & Hend & Hm & Hdisj) & _).
    unfold operator_assign_converting, begin, end_. rewrite Hend.
    destruct (assignImpl_spec (data src) vs a h l) as (a' & h' & E & _ & Hown' & Hk & Hnk);
      try assumption.
    { intros q Hq. lia. }
    rewrite E. cbn. eapply inv_of_owns; eauto.
    destruct (decide (Z.of_nat (length vs) ≤ nAllocated a ∧
                      nAllocated a `quot` 2 ≤ Z.max 4 (Z.of_nat (length vs)))) as [K|K].
    + destruct (Hk K) as (_ & -> & _). lia.
    + destruct (Hnk K) as (-> & _). lia.
  - (* resize(sz) *)
    destruct (resize_ok sz a h l Hwf Hown Hmax (proj1 Hreq)) as (a' & h' & E & _ & Hown' & Hc).
    rewrite E. cbn. eapply inv_of_owns; eauto.
  - (* resize(sz, initVal) *)
    destruct (resizeFill_ok sz initVal a h l Hwf Hown Hmax (proj1 Hreq))
      as (a' & h' & E & _ & Hown' & Hc).
    rewrite E. cbn. eapply inv_of_owns; eauto.
  - (* reserve(newCapacity) *)
    destruct (reserve_total newCapacity a h l Hwf Hown) as (a' & h' & E & _ & Hown' & _ & Hc).
    rewrite E. cbn. eapply inv_of_owns; eauto. lia.
  - (* clear() *)
    destruct (clear_spec a h l Hown) as (h' & E & _ & _ & Hown').
    rewrite E. cbn. eapply inv_of_owns; eauto.
  - (* erase(first, last1) *)
    destruct Hreq as (i & j & (-> & Hi) & (-> & Hj) & Hij).
    apply ends_with_inv_drop.
    destruct (erase_spec i j a h l Hown ltac:(lia) ltac:(lia)) as (h' & E & _ & Hown' & _).
    rewrite E. cbn. eapply inv_of_owns; eauto.
  - (* erase(p) *)
    destruct Hreq as (i & (-> & _) & Hi). apply ends_with_inv_drop.
    destruct (eraseOne_spec i a h l Hown Hi ltac:(lia)) as (h' & E & _ & Hown' & _).
    rewrite E. cbn. eapply inv_of_owns; eauto.
  - (* eraseFast(p) *)
    destruct Hreq as (i & (-> & _) & Hi). apply ends_with_inv_drop.
    destruct (eraseFast_spec i a h l Hown Hi ltac:(lia)) as (h' & E & _ & Hown' & _).
    rewrite E. cbn. eapply inv_of_owns; eauto.
  - (* insert(p, n, value) *)
    destruct Hreq as ((i & -> & Hi) & Hn & Hty & _). apply ends_with_inv_drop.
    destruct (insertFill_total i (Z.to_nat n) value a h l Hwf Hown Hi Hmax ltac:(lia))
      as [(a' & h' & E & _ & Hown' & Hc)|E];
      rewrite Z2Nat.id in E by lia; rewrite E; cbn; [|exact Hinv].
    eapply inv_of_owns; eauto. lia.
  - (* insert(p, value) *)
    destruct Hreq as ((i & -> & Hi) & Hty & _). apply ends_with_inv_drop.
    destruct (insertOne_total i value a h l Hwf Hown Hi Hmax Hty)
      as [(a' & h' & E & _ & Hown' & Hc)|E]; rewrite E; cbn; [|exact Hinv].
    eapply inv_of_owns; eauto. lia.
  - (* insert(p, first, last1) *)
    destruct Hreq as ((i & -> & Hi) & (vs & Hsrc & -> & Hm & Hdisj) & Hty & _).
    apply ends_with_inv_drop. eapply insertRange_total; eauto. lia.
  - (* push_back(value) *)
    apply ends_with_inv_drop.
    destruct (push_back_total value a h l Hwf Hown Hmax)
      as [(p & a' & h' & E & _ & Hown' & Hc)|E]; rewrite E; cbn; [|exact Hinv].
    eapply inv_of_owns; eauto.
  - (* push_back() *)
    apply ends_with_inv_drop. rewrite push_back_default_eq.
    destruct (push_back_total T_default a h l Hwf Hown Hmax)
      as [(p & a' & h' & E & _ & Hown' & Hc)|E]; rewrite E; cbn; [|exact Hinv].
    eapply inv_of_owns; eauto.
  - (* raw_push_back() *)
    apply ends_with_inv_drop. eapply raw_push_back_total; eauto.
  - (* pop_back() *)
    destruct l as [|x l0] using rev_ind; [done|]. clear IHl0.
    rewrite (pop_back_spec a h l0 x Hown ltac:(lia)). cbn.
    pose proof (owns_remove_last a h l0 x Hown) as Hown'.
    eapply inv_of_owns; eauto.
  - (* operator[] *)
    apply ends_with_inv_drop. rewrite operator_index_spec by lia. exact Hinv.
  - (* at() *)
    apply ends_with_inv_drop. by apply at_total.
  - (* front() *)
    apply ends_with_inv_drop. rewrite front_spec; [exact Hinv|].
    destruct l; [done|]. cbn [length] in Hlen. lia.
  - (* back() *)
    apply ends_with_inv_drop. rewrite back_spec; [exact Hinv|].
    destruct l; [done|]. cbn [length] in Hlen. lia.
Qed.

(** ** Copy assignment and swap *)

Lemma operator_assign_self self (objs : gmap Z Array) h :
  operator_assign build X self self objs h = Returns tt objs h.
Proof. unfold operator_assign. by rewrite Z.eqb_refl. Qed.

Lemma operator_assign_other self src (objs : gmap Z Array) h a s l ls :
  self ≠ src → objs !! self = Some a → objs !! src = Some s →
  heap_wf h → owns a h l → owns s h ls → nUsed s ≤ traits_max_size X →
  data s + nUsed s ≤ data a ∨ data a + nAllocated a ≤ data s →
  ∃ a' h', operator_assign build X self src objs h = Returns tt (<[self := a']> objs) h' ∧
           heap_wf h' ∧ owns a' h' ls ∧
           nAllocated a' ≤ Z.max (nAllocated a) (traits_max_size X).
Proof.
  intros Hne Hself Hsrc Hwf Hown Howns Hm Hdisj.
  pose proof Howns as (Hlens & _ & Hlives & _).
  unfold operator_assign, call, begin, end_.
  destruct (Z.eqb_spec self src) as [|_]; [done|]. cbn [negb].
  rewrite Hsrc, Hself. rewrite <- Hlens in *.
  destruct (assignImpl_spec (data s) ls a h l) as (a' & h' & E & Hwf' & Hown' & Hk & Hnk);
    try assumption.
  { intros q Hq. lia. }
  rewrite E. exists a', h'. split; [reflexivity|]. split; [exact Hwf'|].
  split; [exact Hown'|].
  destruct (decide (Z.of_nat (length ls) ≤ nAllocated a ∧
                    nAllocated a `quot` 2 ≤ Z.max 4 (Z.of_nat (length ls)))) as [K|K].
  - destruct (Hk K) as (_ & -> & _). lia.
  - destruct (Hnk K) as (-> & _). lia.
Qed.

Lemma store_inv_insert (objs : gmap Z Array) k a :
  store_inv X objs → inv X a → store_inv X (<[k := a]> objs).
Proof.
  intros Hs Ha k' a'. rewrite lookup_insert. case_goal.
  - by intros [= <-].
  - apply Hs.
Qed.

Lemma swap_spec self other (objs : gmap Z Array) h a b :
  objs !! self = Some a → objs !! other = Some b →
  swap self other objs h = Returns tt (<[other := a]> (<[self := b]> objs)) h.
Proof.
  intros Ha Hb. unfold swap. rewrite Ha, Hb. cbv zeta.
  destruct a as [da ua ca], b as [db ub cb]. cbn [data nUsed nAllocated].
  destruct (decide (self = other)) as [->|Hne].
  - rewrite Ha in Hb. injection Hb as <- <- <-.
    rewrite !lookup_insert_eq. cbn [data nUsed nAllocated].
    by rewrite !insert_insert_eq.
  - repeat (rewrite ?(lookup_insert_ne _ other self), ?lookup_insert_eq by done;
            cbn [data nUsed nAllocated]).
    f_equal. apply map_eq. intros k.
    rewrite !lookup_insert. repeat case_goal; congruence.
Qed.

(** ** The converting assignment run on the array's own elements *)

Lemma copyConstruct_loop_fault k b src a h :
  (∀ v, cells h !! src ≠ Some (Some v)) →
  copyConstruct_loop (S k) b src a h = Fault.
Proof.
  intros Hsrc. cbn [copyConstruct_loop]. unfold bind, load.
  destruct (cells h !! src) as [[v|]|] eqn:E; try reflexivity.
  by destruct (Hsrc v).
Qed.

Lemma assignImpl_self_faults a h l :
  heap_wf h → owns a h l → l ≠ [] → nUsed a ≤ traits_max_size X →
  assignImpl build X (begin a) (end_ a) a h = Fault.
Proof.
  intros Hwf Hown Hne Hm.
  pose proof (max_size_bounds X) as HM. pose proof (max_size_lt_ull X) as HU.
  pose proof Hown as (Hlen & Hle & _).
  assert (0 < nUsed a) as Hpos by (destruct l; [done|cbn [length] in Hlen; lia]).
  unfold assignImpl, begin, end_.
  mstep ltac:(apply SimTK_ERRCHK_true; lia).
  replace (data a + nUsed a - data a) with (nUsed a) by lia.
  mstep ltac:(apply SimTK_ERRCHK_true; apply isSizeOK_iff; lia).
  destruct (clear_spec a h l Hown) as (h1 & E1 & Hsa1 & Hc1 & Hown1).
  pose proof (clear_heap_wf _ _ _ _ _ Hwf Hown E1) as Hwf1.
  mstep ltac:(exact E1). mstep ltac:(reflexivity). mstep ltac:(reflexivity).
  cbn [data nUsed nAllocated]. rewrite to_size_type_small by lia.
  set (a2 := mkArray (data a) (nUsed a) (nAllocated a)).
  destruct (reallocateIfAdvisable_spec (nUsed a) a2 h1)
    as (a3 & h3 & E3 & Hwf3 & Hu3 & Hown3 & Hfit3 & Hkeep & Hre & Hbrk3 & Hfr3);
    try assumption; try lia.
  mstep ltac:(exact E3). mstep ltac:(reflexivity).
  rewrite Hu3. cbn [a2 nUsed]. unfold copyConstruct.
  destruct (Z.ltb_spec (data a3 + nUsed a) (data a3)); [reflexivity|].
  replace (Z.to_nat (data a3 + nUsed a - data a3)) with (S (Z.to_nat (nUsed a - 1))) by lia.
  apply copyConstruct_loop_fault. intros v.
  destruct (decide (nUsed a ≤ nAllocated a2 ∧
                    nAllocated a2 `quot` 2 ≤ Z.max 4 (nUsed a))) as [K|K].
  - destruct (Hkeep K) as (_ & ->). rewrite Hc1. case_goal; [discriminate|lia].
  - destruct (Hre K) as (_ & _ & Hfreed). rewrite Hfreed; [discriminate|].
    cbn [a2 data nAllocated]. lia.
Qed.

(** ** The claims *)

(** C6: [eraseFast] at index [i] returns, takes one off the length and
    leaves the capacity; the element at [i] is gone and, unless [i] was the
    last index, the former last element stands at [i], the elements at the
    other indices staying where they were.  [erase] at index [i] leaves the
    remaining elements in their order. *)
Theorem eraseFast_and_erase (i : nat) a h l :
  owns a h l → (i < length l)%nat → nUsed a ≤ size_type_max X →
  (∃ a' h', eraseFast build X (data a + Z.of_nat i) a h =
              Returns (data a + Z.of_nat i) a' h' ∧
            owns a' h' (eraseFast_list i l) ∧
            size a' = size a - 1 ∧ capacity a' = capacity a ∧
            length (eraseFast_list i l) = (length l - 1)%nat ∧
            ∀ j : nat, (j < length l - 1)%nat →
                       eraseFast_list i l !! j = if decide (i = j) then last l else l !! j) ∧
  (∃ a' h', eraseOne build X (data a + Z.of_nat i) a h =
              Returns (data a + Z.of_nat i) a' h' ∧
            owns a' h' (delete i l) ∧
            size a' = size a - 1 ∧ capacity a' = capacity a).
Proof.
  intros Hown Hi Hty. split.
  - destruct (eraseFast_spec i a h l Hown Hi Hty) as (h' & E & _ & Hown' & _).
    eexists _, h'. split; [exact E|]. split; [exact Hown'|].
    split; [reflexivity|]. split; [reflexivity|].
    split; [by apply eraseFast_list_length|].
    intros j Hj. destruct (last l) as [x|] eqn:Hlast.
    + by apply eraseFast_list_lookup.
    + apply last_None in Hlast. subst l. cbn in Hi. lia.
  - destruct (eraseOne_spec i a h l Hown Hi Hty) as (h' & E & _ & Hown' & _).
    eexists _, h'. split; [exact E|]. split; [exact Hown'|]. split; reflexivity.
Qed.

(** C7 (as amended): in a build that keeps the SimTK_ERRCHK checks, [assign]
    and [insert] from a pointer range that overlaps the elements of the
    container, [begin(), end()), throw the InvalidRange condition and leave
    the container and the heap as they were. *)
Theorem aliasing_range_rejected_when_checked p first last1 a (h : Heap T) :
  first < end_ a → begin a < last1 →
  assignRange Debug X first last1 a h = Throws InvalidRange a h ∧
  insertRange Debug X p first last1 a h = Throws InvalidRange a h.
Proof.
  intros H1 H2. unfold assignRange, insertRange, SimTK_ERRCHK, SimTK_ERRCHK_ALWAYS.
  assert ((last1 <=? begin a) || (end_ a <=? first) = false) as Hov.
  { apply orb_false_iff. split; apply Z.leb_gt; lia. }
  split.
  - mstep ltac:(reflexivity).
    destruct (negb (first =? 0) && negb (last1 =? 0) || (first =? last1)); [|reflexivity].
    mstep ltac:(reflexivity). rewrite Hov. reflexivity.
  - mstep ltac:(reflexivity).
    destruct (negb (first =? 0) && negb (last1 =? 0) || (first =? last1)); [|reflexivity].
    mstep ltac:(reflexivity). rewrite Hov. reflexivity.
Qed.

(** C9 (as amended): in a build that keeps the SimTK_ERRCHK checks,
    [pop_back] on an empty container throws the EmptyContainerAccess
    condition and changes nothing; in every build, on a non-empty container
    it destroys the last element and takes one off the length, leaving the
    other elements and the capacity. *)
Theorem pop_back_correct a h l :
  owns a h l → nUsed a ≤ size_type_max X →
  (l = [] → pop_back Debug X a h = Throws EmptyContainerAccess a h) ∧
  (∀ l' v, l = l' ++ [v] →
     ∃ a' h', pop_back build X a h = Returns tt a' h' ∧
              owns a' h' l' ∧ size a' = size a - 1 ∧ capacity a' = capacity a ∧
              data a' = data a).
Proof.
  intros Hown Hty. split.
  - intros ->. apply pop_back_empty_debug. by destruct Hown as (<- & _).
  - intros l' v ->.
    exists (mkArray (data a) (nUsed a - 1) (nAllocated a)),
           (set_cell h (data a + (nUsed a - 1)) None).
    split; [by apply (pop_back_spec a h l' v)|].
    split; [by apply (owns_remove_last a h l' v)|].
    split; [reflexivity|]. split; reflexivity.
Qed.

(** C10: copy-assigning a container to itself returns at once and changes
    neither the objects nor the heap, although the body it guards, run on
    the container's own elements, is anything but a no-op: the checked
    [assign] rejects that range as aliasing, and the converting assignment,
    which has no such test, destroys the elements it is about to copy. *)
Theorem self_assignment_is_guarded self (objs : gmap Z Array) a h l :
  heap_wf h → owns a h l → l ≠ [] → nUsed a ≤ traits_max_size X →
  objs !! self = Some a →
  operator_assign build X self self objs h = Returns tt objs h ∧
  assignRange Debug X (begin a) (end_ a) a h = Throws InvalidRange a h ∧
  operator_assign_converting_at build X self self objs h = Fault.
Proof.
  intros Hwf Hown Hne Hm Hself.
  pose proof Hown as (Hlen & _).
  assert (0 < nUsed a) as Hpos by (destruct l; [done|cbn [length] in Hlen; lia]).
  split; [apply operator_assign_self|]. split.
  - unfold assignRange, SimTK_ERRCHK, SimTK_ERRCHK_ALWAYS, begin, end_.
    mstep ltac:(reflexivity).
    destruct (negb (data a =? 0) && negb (data a + nUsed a =? 0)
              || (data a =? data a + nUsed a)); [|reflexivity].
    mstep ltac:(reflexivity).
    assert ((data a + nUsed a <=? data a) || (data a + nUsed a <=? data a) = false) as ->.
    { apply orb_false_iff. split; apply Z.leb_gt; lia. }
    reflexivity.
  - unfold operator_assign_converting_at, call, operator_assign_converting.
    rewrite Hself. by rewrite (assignImpl_self_faults a h l).
Qed.

(** ** Equivalent calls *)

Lemma bind_this {B} (f : Array → M T B) a h : bind this f a h = f a a h.
Proof. reflexivity. Qed.

Lemma bind_eq {A B} (m m' : M T A) (f g : A → M T B) a h :
  m a h = m' a h →
  (∀ v a' h', m a h = Returns v a' h' → f v a' h' = g v a' h') →
  bind m f a h = bind m' g a h.
Proof. unfold bind. intros <-. destruct (m a h); auto. Qed.

Lemma bind_cong {A B} (m : M T A) (f g : A → M T B) a h :
  (∀ v a' h', m a h = Returns v a' h' → f v a' h' = g v a' h') →
  bind m f a h = bind m g a h.
Proof. by apply bind_eq. Qed.

Lemma bind_assoc {A B C} (m : M T A) (f : A → M T B) (g : B → M T C) a h :
  bind (bind m f) g a h = bind m (λ x, bind (f x) g) a h.
Proof. unfold bind. by destruct (m a h). Qed.

Lemma bind_ret_tt (m : M T unit) a h : (m ;; ret tt) a h = m a h.
Proof. unfold bind, ret. by destruct (m a h) as [[] ? ?| |]. Qed.

Lemma to_size_type_one : to_size_type X 1 = 1.
Proof. apply to_size_type_small. pose proof (max_size_bounds X). lia. Qed.

Lemma destructRange_one p a h : destructRange (T:=T) p (p + 1) a h = (destroy_at p ;; ret tt) a h.
Proof. change (p + 1) with (p + Z.of_nat 1). by rewrite destructRange_eq. Qed.

Lemma fillConstruct_one p v a h :
  fillConstruct (T:=T) p (p + 1) v a h = (construct_at p v ;; ret tt) a h.
Proof. change (p + 1) with (p + Z.of_nat 1). by rewrite fillConstruct_eq. Qed.



(** X1: the convenience overloads are their general forms.  On every array
    and heap, in either build, [erase(p)] ends as [erase(p, p+1)],
    [insert(p, value)] as [insert(p, 1, value)], [push_back()] as
    [push_back(T())], and [push_back(value)] as [raw_push_back()] followed by
    the construction of the value in the slot returned (as in
    [new(a.raw_push_back()) T(value)]): the same result, the same members and
    the same heap. *)
Theorem overloads_agree p v a h :
  eraseOne build X p a h = erase build X p (p + 1) a h ∧
  insertOne build X p v a h = insertFill build X p 1 v a h ∧
  push_back_default T_default build X a h = push_back build X T_default a h ∧
  push_back build X v a h =
    (q <- raw_push_back build X ;; construct_at q v ;; ret q) a h.
Proof.
  split; [|split; [|split]].
  - unfold eraseOne, erase.
    rewrite !bind_this.
    replace (p + 1 - p) with 1 by lia. rewrite to_size_type_one.
    replace ((begin a <=? p) && (p <=? p + 1) && (p + 1 <=? end_ a))
      with ((begin a <=? p) && (p <? end_ a)).
    2:{ replace (p <=? p + 1) with true by (symmetry; apply Z.leb_le; lia).
        rewrite andb_true_r. f_equal.
        destruct (Z.ltb_spec p (end_ a)), (Z.leb_spec (p + 1) (end_ a));
          try reflexivity; lia. }
    change (1 =? 0) with false. cbv iota.
    apply bind_cong. intros _ a1 h1 _.
    rewrite !bind_assoc. unfold destructOne.
    apply bind_eq; [by rewrite destructRange_one, bind_ret_tt|].
    intros _ a2 h2 _. by rewrite bind_assoc.
  - unfold insertOne, insertFill.
    apply bind_cong. intros gap a1 h1 _.
    unfold copyConstructOne.
    apply bind_eq; [by rewrite fillConstruct_one, bind_ret_tt|].
    reflexivity.
  - unfold push_back_default, push_back, defaultConstructOne, copyConstructOne.
    reflexivity.
  - unfold push_back, raw_push_back.
    repeat first [rewrite bind_this | rewrite bind_assoc].
    apply bind_cong. intros [] a1 h1 _.
    repeat first [rewrite bind_this | rewrite bind_assoc].
    reflexivity.
Qed.

Lemma destruct_loop_array k : ∀ b a h v a' h',
  destruct_loop (T:=T) k b a h = Returns v a' h' → a' = a.
Proof.
  induction k as [|k IH]; intros b a h v a' h'; cbn [destruct_loop].
  - by intros [= _ <- _].
  - unfold bind, destroy_at. destruct (cells h !! b) as [[?|]|]; try done.
    apply IH.
Qed.

Lemma destructRange_array b e a h v a' h' :
  destructRange (T:=T) b e a h = Returns v a' h' → a' = a.
Proof.
  unfold destructRange. destruct (e <? b); [done|]. apply destruct_loop_array.
Qed.

(** X3: [clear()] is [erase(begin(), end())]: whenever the length is a value
    of [size_type] that is not negative, the two calls end the same way and
    leave the same members and heap; [erase] returns [begin()]. *)
Theorem clear_is_erase_of_all a h :
  0 ≤ nUsed a ≤ size_type_max X →
  erase build X (begin a) (end_ a) a h = (clear ;; ret (begin a)) a h.
Proof.
  intros Hu. unfold erase, clear.
  rewrite bind_assoc, !bind_this.
  erewrite (bind_Returns (SimTK_ERRCHK _ _ _)).
  2:{ apply SimTK_ERRCHK_true. unfold begin, end_. rewrite !andb_true_iff, !Z.leb_le. lia. }
  cbv beta.
  replace (end_ a - begin a) with (nUsed a) by (unfold begin, end_; lia).
  rewrite to_size_type_id by (pose proof (size_type_min_nonpos X); lia).
  destruct (Z.eqb_spec (nUsed a) 0) as [E0|E0].
  - unfold end_, begin. rewrite E0, Z.add_0_r.
    rewrite <- (Z.add_0_r (data a)) at 2. change 0 with (Z.of_nat 0) at 1.
    rewrite destructRange_eq. destruct a as [d u c]; cbn in *. by subst.
  - rewrite !bind_assoc. apply bind_cong. intros [] a1 h1 E.
    pose proof (destructRange_array _ _ _ _ _ _ _ E) as Ha. subst a1. clear E.
    unfold moveElementsDown.
    rewrite !bind_assoc.
    erewrite (bind_Returns (assert _ _)) by (apply assert_true; lia). cbv beta.
    rewrite bind_assoc, bind_this.
    rewrite Z.ltb_irrefl, !Z.sub_diag. cbn [Z.to_nat moveElementsDown_loop].
    rewrite to_size_type_small by (pose proof (max_size_bounds X); lia).
    reflexivity.
Qed.

(** X4: [pop_back()] is [eraseFast(end()-1)] with the result dropped:
    whenever the length is a positive value of [size_type], the two calls
    end the same way and leave the same members and heap. *)
Theorem pop_back_is_eraseFast_of_last a h :
  0 < nUsed a ≤ size_type_max X →
  pop_back build X a h = (eraseFast build X (end_ a - 1) ;; ret tt) a h.
Proof.
  intros Hu. unfold pop_back, eraseFast.
  rewrite !bind_assoc, !bind_this.
  erewrite (bind_Returns (SimTK_ERRCHK _ _ _))
    by (apply SimTK_ERRCHK_true; unfold empty; apply negb_true_iff, Z.eqb_neq; lia).
  cbv beta. rewrite bind_assoc.
  erewrite (bind_Returns (assert _ _))
    by (apply assert_true; unfold begin, end_; rewrite andb_true_iff, Z.leb_le, Z.ltb_lt; lia).
  cbv beta.
  rewrite to_size_type_id by (pose proof (size_type_min_nonpos X); lia).
  replace (end_ a - 1 + 1 =? end_ a) with true by (symmetry; apply Z.eqb_eq; lia).
  unfold destructOne, destroy_at, bind, set_nUsed, ret, this, end_; cbn [data nUsed nAllocated].
  replace (data a + nUsed a - 1) with (data a + (nUsed a - 1)) by lia.
  by destruct (cells h !! (data a + (nUsed a - 1))) as [[v|]|].
Qed.

(** ** Insertion *)

Lemma gapped_length a h l (i : nat) n : gapped a h l i n → Z.of_nat (length l) = nUsed a.
Proof. by intros (? & _). Qed.

(** Filling the gap [insertGapAt] left completes [insert(p, n, value)]. *)
Lemma insertFill_fill (i k : nat) v a h a' h' l :
  insertGapAt build X (data a + Z.of_nat i) (Z.of_nat k) a h =
    Returns (data a' + Z.of_nat i) a' h' →
  heap_wf h' → gapped a' h' l i (Z.of_nat k) → (i ≤ length l)%nat →
  nAllocated a' ≤ traits_max_size X →
  ∃ h'', insertFill build X (data a + Z.of_nat i) (Z.of_nat k) v a h =
           Returns (data a' + Z.of_nat i)
             (mkArray (data a') (nUsed a' + Z.of_nat k) (nAllocated a')) h'' ∧
         heap_wf h'' ∧ same_alloc h' h'' ∧
         owns (mkArray (data a') (nUsed a' + Z.of_nat k) (nAllocated a')) h''
              (take i l ++ replicate k v ++ drop i l).
Proof.
  intros E Hwf' Hg Hi Hc'.
  pose proof (max_size_bounds X) as HM.
  unfold insertFill. mstep ltac:(exact E).
  rewrite fillConstruct_eq.
  pose proof Hg as (Hlen & Hfit & Hl1 & Hr1 & Hl2 & Hr2 & Hnull & Hblk).
  destruct (fillConstruct_loop_spec k (data a' + Z.of_nat i) v a' h' Hr1)
    as (h'' & E2 & Hsa & Hc).
  mstep ltac:(exact E2). mstep ltac:(reflexivity). mstep ltac:(reflexivity).
  rewrite to_size_type_small by lia.
  exists h''. split; [reflexivity|]. split; [|split; [exact Hsa|]].
  - eapply heap_wf_written; [exact Hwf'|exact Hsa|].
    intros q. rewrite Hc. case_goal; [right|by left]. rewrite Hr1 by lia. eauto.
  - rewrite <- (length_replicate k v) at 1.
    eapply gapped_filled; eauto; rewrite length_replicate; [exact Hg|].
    intros q. rewrite Hc. case_goal; [|reflexivity].
    by rewrite lookup_replicate_2 by lia.
Qed.

(** [insert(p, n, value)] in the class that is granted whole slots: the
    insertion that fits or grows, and the one that exceeds [max_size]. *)
Lemma insertFill_slots (i k : nat) v a h l :
  heap_wf h → owns a h l → (i ≤ length l)%nat →
  nAllocated a ≤ traits_max_size X →
  (nUsed a + Z.of_nat k ≤ nAllocated a ∨
   nAllocated a + Z.of_nat k ≤ traits_max_size X →
   ∃ a' h', insertFill build X (data a + Z.of_nat i) (Z.of_nat k) v a h =
              Returns (data a' + Z.of_nat i) a' h' ∧
            owns a' h' (take i l ++ replicate k v ++ drop i l) ∧
            size a' = size a + Z.of_nat k ∧
            capacity a ≤ capacity a' ≤ traits_max_size X ∧
            (nUsed a + Z.of_nat k ≤ nAllocated a →
             data a' = data a ∧ capacity a' = capacity a ∧ nalloc h' = nalloc h)) ∧
  (nAllocated a < nUsed a + Z.of_nat k →
   traits_max_size X < nAllocated a + Z.of_nat k →
   nAllocated a + Z.of_nat k ≤ size_type_max (promoted X) →
   insertFill build X (data a + Z.of_nat i) (Z.of_nat k) v a h =
     Throws SizeLimitExceeded a h).
Proof.
  intros Hwf Hown Hi Hmax.
  pose proof (max_size_bounds X) as HM. pose proof size_type_max_promoted as HP.
  pose proof (owns_block_bounds _ _ _ Hwf Hown) as (Hu0 & Hd0 & Hdb).
  pose proof Hown as (Hlen & Hle & _).
  split.
  - intros Hfit. unfold size, capacity.
    destruct (decide (nUsed a + Z.of_nat k ≤ nAllocated a)) as [Hin|Hout].
    + assert (∃ h1, insertGapAt build X (data a + Z.of_nat i) (Z.of_nat k) a h =
                      Returns (data a + Z.of_nat i) a h1 ∧
                    heap_wf h1 ∧ same_alloc h h1 ∧ gapped a h1 l i (Z.of_nat k))
        as (h1 & E & Hwf1 & Hsa1 & Hg).
      { destruct (insertGapAt_ok i (Z.of_nat k) a h l)
          as (a1 & h1 & E1 & Hwf1 & Hg1 & _); try assumption; try lia.
        destruct (decide (k = 0%nat)) as [->|Hk].
        - exists h. split; [exact (insertGapAt_zero i a h l Hown Hi)|].
          split; [exact Hwf|]. split; [apply same_alloc_refl|].
          exact (owns_gapped_zero a h l i Hown Hi).
        - destruct (insertGapAt_inplace i (Z.of_nat k) a h l) as (h2 & E2 & Hsa2 & Hg2 & _);
            try assumption; try lia.
          rewrite E2 in E1. injection E1 as _ <- <-.
          exists h2. auto. }
      destruct (insertFill_fill i k v a h a h1 l E Hwf1 Hg Hi Hmax)
        as (h2 & E2 & _ & Hsa2 & Hown2).
      exists (mkArray (data a) (nUsed a + Z.of_nat k) (nAllocated a)), h2.
      split; [exact E2|]. split; [exact Hown2|]. cbn [data nUsed nAllocated].
      split; [reflexivity|]. split; [lia|]. intros _.
      destruct Hsa1 as (_ & _ & <-), Hsa2 as (_ & _ & <-). auto.
    + destruct (insertGapAt_ok i (Z.of_nat k) a h l)
        as (a1 & h1 & E1 & Hwf1 & Hg1 & Hc1 & _); try assumption; try lia.
      destruct (insertFill_fill i k v a h a1 h1 l E1 Hwf1 Hg1 Hi ltac:(lia))
        as (h2 & E2 & _ & _ & Hown2).
      exists (mkArray (data a1) (nUsed a1 + Z.of_nat k) (nAllocated a1)), h2.
      split; [exact E2|]. split; [exact Hown2|]. cbn [data nUsed nAllocated].
      apply gapped_length in Hg1. split; [lia|]. split; [lia|]. intros ?. lia.
  - intros Hout Hlim Hty.
    pose proof (size_type_max_lt_ull (promoted X)).
    unfold insertFill. erewrite bind_Throws; [reflexivity|].
    destruct (decide (k = 0%nat)) as [->|Hk]; [lia|].
    eapply insertGapAt_limit; eauto; lia.
Qed.

(** The gap made and filled from the source: what [insertImpl] does once its
    checks have passed. *)
Lemma insertImpl_gap_and_copy (i : nat) first vs a h l :
  heap_wf h → owns a h l → (i ≤ length l)%nat → live h first vs →
  first + Z.of_nat (length vs) ≤ data a ∨ data a + nAllocated a ≤ first →
  nAllocated a ≤ traits_max_size X →
  nUsed a + Z.of_nat (length vs) ≤ nAllocated a ∨
  nAllocated a + Z.of_nat (length vs) ≤ traits_max_size X →
  ∃ a' h',
    (p' <- insertGapAt build X (data a + Z.of_nat i) (Z.of_nat (length vs)) ;;
     copyConstruct p' (p' + Z.of_nat (length vs)) first ;;
     ret p') a h = Returns (data a' + Z.of_nat i) a' h' ∧
    nUsed a' = nUsed a ∧ nAllocated a ≤ nAllocated a' ∧
    (nUsed a + Z.of_nat (length vs) ≤ nAllocated a →
     data a' = data a ∧ nAllocated a' = nAllocated a) ∧
    owns (mkArray (data a') (nUsed a' + Z.of_nat (length vs)) (nAllocated a')) h'
         (take i l ++ vs ++ drop i l).
Proof.
  intros Hwf Hown Hi Hsrc Hdisj Hmax Hfit.
  pose proof (max_size_bounds X) as HM. pose proof size_type_max_promoted as HP.
  pose proof (owns_block_bounds _ _ _ Hwf Hown) as (Hu0 & Hd0 & Hdb).
  pose proof Hown as (Hlen & Hle & _).
  assert (∃ a' h', insertGapAt build X (data a + Z.of_nat i) (Z.of_nat (length vs)) a h =
                     Returns (data a' + Z.of_nat i) a' h' ∧
                   gapped a' h' l i (Z.of_nat (length vs)) ∧
                   nAllocated a ≤ nAllocated a' ∧
                   (nUsed a + Z.of_nat (length vs) ≤ nAllocated a → a' = a) ∧
                   (∀ q, q < brk h → ¬ data a ≤ q < data a + nAllocated a →
                         cells h' !! q = cells h !! q))
    as (a' & h' & E & Hg & Hc' & Hsame & Hfr).
  { destruct (insertGapAt_ok i (Z.of_nat (length vs)) a h l)
      as (a1 & h1 & E1 & _ & Hg1 & Hc1 & _ & _ & Hfr1); try assumption; try lia.
    exists a1, h1. split; [exact E1|]. split; [exact Hg1|]. split; [lia|].
    split; [|exact Hfr1]. intros Hin.
    destruct (decide (length vs = 0%nat)) as [E0|E0].
    - rewrite E0 in E1. change (Z.of_nat 0) with 0 in E1.
      rewrite (insertGapAt_zero i a h l Hown Hi) in E1.
      by injection E1 as _ <- _.
    - destruct (insertGapAt_inplace i (Z.of_nat (length vs)) a h l)
        as (h2 & E2 & _); try assumption; try lia.
      rewrite E2 in E1. by injection E1 as _ <- _. }
  mstep ltac:(exact E). rewrite copyConstruct_eq.
  pose proof Hg as (Hlen' & Hfit' & Hl1 & Hr1 & Hl2 & Hr2 & Hnull & Hblk).
  destruct (copyConstruct_loop_spec vs (data a' + Z.of_nat i) first a' h')
    as (h'' & E2 & Hsa & Hc); [|exact Hr1|].
  { intros q Hq. destruct (live_is_object h first vs q Hsrc Hq) as [w Hw].
    assert (0 < q < brk h) as Hqb.
    { destruct Hwf as (_ & Hcw & _). apply Hcw. rewrite Hw. eauto. }
    rewrite Hfr by lia. apply Hsrc, Hq. }
  mstep ltac:(exact E2).
  exists a', h''. split; [reflexivity|]. split; [lia|]. split; [exact Hc'|].
  split; [by intros Hin; rewrite (Hsame Hin)|].
  exact (gapped_filled a' h' h'' l i vs Hg Hi Hsa Hc).
Qed.

(** X6: [insert(p, first, last1)] on pointers does not count what it
    inserts.  For a source of [vs] outside the buffer, with capacity plus the
    source length at most [max_size], the call returns a pointer to index
    [i]; the buffer then holds the first [i] elements of [l], the elements
    [vs] and the rest of [l], yet the length is the one before the call.  So
    when the source is not empty, objects are left in slots past the length,
    and the array owns its buffer for no list of elements. *)
Theorem insertRange_leaves_size (i : nat) first vs a h l :
  heap_wf h → owns a h l → (i ≤ length l)%nat → live h first vs →
  first + Z.of_nat (length vs) ≤ data a ∨ data a + nAllocated a ≤ first →
  nAllocated a + Z.of_nat (length vs) ≤ traits_max_size X →
  ∃ a' h',
    insertRange build X (data a + Z.of_nat i) first (first + Z.of_nat (length vs)) a h =
      Returns (data a' + Z.of_nat i) a' h' ∧
    size a' = size a ∧
    live h' (data a') (take i l ++ vs ++ drop i l) ∧
    (vs ≠ [] → ∀ l', ¬ owns a' h' l').
Proof.
  intros Hwf Hown Hi Hsrc Hdisj Hfit.
  pose proof (max_size_bounds X) as HM. pose proof (max_size_lt_ull X) as HU.
  pose proof (owns_block_bounds _ _ _ Hwf Hown) as (Hu0 & Hd0 & Hdb).
  pose proof Hown as (Hlen & Hle & _).
  unfold insertRange. rewrite bind_this.
  mstep ltac:(apply SimTK_ERRCHK_true; by eapply null_check_passes).
  mstep ltac:(apply SimTK_ERRCHK_true; unfold begin, end_;
              apply orb_true_iff; rewrite !Z.leb_le; lia).
  unfold insertImpl. rewrite bind_this.
  mstep ltac:(apply SimTK_ERRCHK_true; lia).
  replace (first + Z.of_nat (length vs) - first) with (Z.of_nat (length vs)) by lia.
  mstep ltac:(apply SimTK_ERRCHK_true; apply isGrowthOK_iff; lia).
  rewrite to_size_type_small by lia.
  destruct (insertImpl_gap_and_copy i first vs a h l)
    as (a' & h' & E & Hu' & _ & _ & Hfilled); try assumption; try lia.
  exists a', h'. split; [exact E|]. split; [exact Hu'|]. split.
  - by destruct Hfilled as (_ & _ & Hlive & _).
  - intros Hne l' (_ & _ & _ & Hraw' & _).
    destruct Hfilled as (Hlen2 & Hle2 & Hlive & _). cbn [data nUsed nAllocated] in *.
    assert (0 < Z.of_nat (length vs)) as Hpos by (destruct vs; [done|cbn [length]; lia]).
    destruct (live_is_object h' (data a') _ (data a' + nUsed a') Hlive ltac:(lia))
      as [w Hw].
    rewrite Hraw' in Hw by lia. discriminate.
Qed.

Lemma insertOne_ok (i : nat) v a h l :
  heap_wf h → owns a h l → (i ≤ length l)%nat →
  nAllocated a ≤ traits_max_size X → nUsed a < traits_max_size X →
  ∃ a' h', insertOne build X (data a + Z.of_nat i) v a h =
             Returns (data a' + Z.of_nat i) a' h' ∧
           heap_wf h' ∧ owns a' h' (take i l ++ v :: drop i l) ∧
           nUsed a' = nUsed a + 1 ∧
           nAllocated a ≤ nAllocated a' ≤ traits_max_size X.
Proof.
  intros Hwf Hown Hi Hmax Hroom.
  pose proof (max_size_bounds X) as HM.
  pose proof Hown as (Hlen & Hle & _).
  destruct (insertGapAt_ok i 1 a h l)
    as (a' & h' & E & Hwf' & Hg & Hc' & _); try assumption; try lia.
  unfold insertOne. mstep ltac:(exact E).
  pose proof Hg as (Hlen' & Hfit & Hl1 & Hr1 & Hl2 & Hr2 & Hnull & Hblk).
  unfold copyConstructOne.
  mstep ltac:(apply construct_at_eq, Hr1; lia).
  mstep ltac:(reflexivity). mstep ltac:(reflexivity).
  rewrite to_size_type_small by (cbn [nUsed]; lia).
  exists (mkArray (data a') (nUsed a' + 1) (nAllocated a')),
         (set_cell h' (data a' + Z.of_nat i) (Some v)).
  split; [reflexivity|]. split; [|split; [|cbn [nUsed nAllocated]; lia]].
  - apply heap_wf_set_cell; [exact Hwf'|]. rewrite Hr1 by lia. eauto.
  - change (v :: drop i l) with ([v] ++ drop i l).
    change 1 with (Z.of_nat (length [v])) at 1.
    eapply gapped_filled; eauto; [apply same_alloc_set_cell|].
    intros q. rewrite lookup_set_cell. cbn [length].
    repeat case_goal; try lia; try reflexivity.
    subst q. by replace (Z.to_nat (data a' + Z.of_nat i - (data a' + Z.of_nat i))) with O by lia.
Qed.

Lemma insert_at_next (i : nat) (v : T) vs l :
  (i ≤ length l)%nat →
  take (S i) (take i l ++ v :: drop i l) ++ vs ++ drop (S i) (take i l ++ v :: drop i l) =
    take i l ++ (v :: vs) ++ drop i l.
Proof.
  intros Hi.
  assert (length (take i l) = i) as Hlen by (rewrite length_take; lia).
  replace (S i) with (length (take i l ++ [v])) at 1 2
    by (rewrite length_app, Hlen; cbn [length]; lia).
  replace (take i l ++ v :: drop i l) with ((take i l ++ [v]) ++ drop i l)
    by (by rewrite <- app_assoc).
  rewrite take_app_length, drop_app_length.
  by rewrite <- app_assoc.
Qed.

Lemma insertImpl_input_loop_spec vs : ∀ (i n0 : nat) a h l,
  heap_wf h → owns a h l → (i ≤ length l)%nat →
  nAllocated a ≤ traits_max_size X →
  nUsed a + Z.of_nat (length vs) ≤ traits_max_size X →
  Z.of_nat n0 + Z.of_nat (length vs) ≤ traits_max_size X →
  ∃ a' h',
    insertImpl_input_loop build X vs (data a + Z.of_nat i) (Z.of_nat n0) a h =
      Returns (data a' + Z.of_nat i + Z.of_nat (length vs) - (Z.of_nat n0 + Z.of_nat (length vs)))
        a' h' ∧
    heap_wf h' ∧ owns a' h' (take i l ++ vs ++ drop i l) ∧
    nUsed a' = nUsed a + Z.of_nat (length vs) ∧
    nAllocated a ≤ nAllocated a' ≤ traits_max_size X.
Proof.
  induction vs as [|v vs IH]; intros i n0 a h l Hwf Hown Hi Hmax Hroom Hn0;
    cbn [insertImpl_input_loop length] in *.
  - exists a, h. split; [unfold ret; f_equal; lia|]. split; [exact Hwf|].
    rewrite app_nil_l, take_drop. split; [exact Hown|]. lia.
  - pose proof Hown as (Hlen & _).
    destruct (insertOne_ok i v a h l) as (a1 & h1 & E1 & Hwf1 & Hown1 & Hu1 & Hc1);
      try assumption; try lia.
    mstep ltac:(exact E1).
    rewrite to_size_type_small by lia.
    replace (data a1 + Z.of_nat i + 1) with (data a1 + Z.of_nat (S i)) by lia.
    replace (Z.of_nat n0 + 1) with (Z.of_nat (S n0)) by lia.
    destruct (IH (S i) (S n0) a1 h1 (take i l ++ v :: drop i l))
      as (a' & h' & E & Hwf' & Hown' & Hu' & Hc'); try assumption; try lia.
    { rewrite length_app, length_take. cbn [length]. rewrite length_drop. lia. }
    exists a', h'. split; [rewrite E; f_equal; lia|]. split; [exact Hwf'|].
    split; [by rewrite <- insert_at_next|]. lia.
Qed.

(** X7: the insertion from an input iterator ([insertImpl] with
    [std::input_iterator_tag]) of the values [vs] at index [i] of an array
    holding [l], when the new length is at most [max_size]: the call returns
    a pointer to index [i] of the array, which then holds the first [i]
    elements of [l], the values [vs] in order and the rest of [l], and the
    length has grown by the number of values. *)
Theorem insertImpl_input_correct (i : nat) vs a h l :
  heap_wf h → owns a h l → (i ≤ length l)%nat →
  nAllocated a ≤ traits_max_size X →
  nUsed a + Z.of_nat (length vs) ≤ traits_max_size X →
  ∃ a' h',
    insertImpl_input build X (data a + Z.of_nat i) vs a h =
      Returns (data a' + Z.of_nat i) a' h' ∧
    owns a' h' (take i l ++ vs ++ drop i l) ∧
    size a' = size a + Z.of_nat (length vs) ∧
    capacity a ≤ capacity a' ≤ traits_max_size X.
Proof.
  intros Hwf Hown Hi Hmax Hroom.
  pose proof (owns_block_bounds _ _ _ Hwf Hown) as (Hu0 & _).
  destruct (insertImpl_input_loop_spec vs i 0 a h l)
    as (a' & h' & E & _ & Hown' & Hu' & Hc'); try assumption; try lia.
  exists a', h'. unfold insertImpl_input. change 0 with (Z.of_nat 0) at 1.
  split; [rewrite E; f_equal; lia|]. auto.
Qed.

(** ** Appending and removing at the end *)

(** X8: [push_back(value)] returns [&back()]: when there is room below
    [max_size], the pointer returned is the one [back()] returns on the array
    after the call, it points at index [size()-1], and the element there is
    the value appended. *)
Theorem push_back_returns_back v a h l :
  heap_wf h → owns a h l → nAllocated a ≤ traits_max_size X →
  nUsed a < traits_max_size X →
  ∃ p a' h', push_back build X v a h = Returns p a' h' ∧
             back build a' h' = Returns p a' h' ∧
             p = data a' + (size a' - 1) ∧
             load p a' h' = Returns v a' h'.
Proof.
  intros Hwf Hown Hmax Hroom.
  pose proof (owns_block_bounds _ _ _ Hwf Hown) as (Hu0 & _).
  destruct (push_back_spec v a h l Hwf Hown Hmax Hroom)
    as (a' & h' & E & _ & Hown' & Hu' & _).
  exists (data a' + nUsed a), a', h'. split; [exact E|].
  replace (nUsed a) with (nUsed a' - 1) by lia. unfold size.
  split; [apply back_spec; lia|]. split; [reflexivity|].
  apply load_eq. by eapply owns_last_cell.
Qed.

Lemma push_back_inplace v a h :
  0 ≤ nUsed a < nAllocated a → nAllocated a ≤ traits_max_size X →
  cells h !! (data a + nUsed a) = Some None →
  push_back build X v a h =
    Returns (data a + nUsed a) (mkArray (data a) (nUsed a + 1) (nAllocated a))
      (set_cell h (data a + nUsed a) (Some v)).
Proof.
  intros Hu Hmax Hslot. unfold push_back. rewrite bind_this.
  replace (nAllocated a =? nUsed a) with false by (symmetry; apply Z.eqb_neq; lia).
  mstep ltac:(reflexivity). rewrite bind_this.
  mstep ltac:(reflexivity). unfold copyConstructOne.
  rewrite to_size_type_small by lia.
  mstep ltac:(apply construct_at_eq, Hslot). reflexivity.
Qed.

Lemma set_cell_undo (h : Heap T) p c c' :
  cells h !! p = Some c → set_cell (set_cell h p c') p c = h.
Proof.
  intros Hp. destruct h as [cs bs b n]. unfold set_cell; cbn in *. f_equal.
  rewrite insert_insert_eq. by apply insert_id.
Qed.

(** X9: [push_back(value)] followed by [pop_back()], when there is room
    below [max_size], leaves the array with the elements and the length it
    had, and a capacity that is not smaller; when there was spare capacity,
    the members and the heap are exactly as before the two calls. *)
Theorem push_back_then_pop_back v a h l :
  heap_wf h → owns a h l → nAllocated a ≤ traits_max_size X →
  nUsed a < traits_max_size X →
  (∃ a' h', (push_back build X v ;; pop_back build X) a h = Returns tt a' h' ∧
            owns a' h' l ∧ size a' = size a ∧ capacity a ≤ capacity a') ∧
  (nUsed a < nAllocated a →
   (push_back build X v ;; pop_back build X) a h = Returns tt a h).
Proof.
  intros Hwf Hown Hmax Hroom.
  pose proof (max_size_bounds X) as HM.
  pose proof (owns_block_bounds _ _ _ Hwf Hown) as (Hu0 & _).
  split.
  - destruct (push_back_spec v a h l Hwf Hown Hmax Hroom)
      as (a' & h' & E & _ & Hown' & Hu' & Hc').
    mstep ltac:(exact E).
    rewrite (pop_back_spec a' h' l v Hown') by lia.
    eexists _, _. split; [reflexivity|]. split; [exact (owns_remove_last a' h' l v Hown')|].
    unfold size, capacity; cbn [nUsed nAllocated]. lia.
  - intros Hspare.
    assert (cells h !! (data a + nUsed a) = Some None) as Hslot.
    { destruct Hown as (_ & _ & _ & Hraw & _). apply Hraw. lia. }
    mstep ltac:(apply push_back_inplace; [lia|exact Hmax|exact Hslot]).
    destruct (owns_append v a h l Hwf Hown Hspare) as (_ & Hown').
    rewrite (pop_back_spec _ _ l v Hown') by (cbn [nUsed]; lia).
    cbn [data nUsed nAllocated].
    replace (nUsed a + 1 - 1) with (nUsed a) by lia.
    rewrite set_cell_undo by exact Hslot.
    by destruct a.
Qed.

(** X10: an array whose length and capacity are [max_size] takes no further
    element: [push_back(value)], [push_back()] and [raw_push_back()] each
    throw SizeLimitExceeded, in either build, and leave the members and the
    heap as they were. *)
Theorem push_back_on_full_array v a h :
  nUsed a = traits_max_size X → nAllocated a = traits_max_size X →
  push_back build X v a h = Throws SizeLimitExceeded a h ∧
  push_back_default T_default build X a h = Throws SizeLimitExceeded a h ∧
  raw_push_back build X a h = Throws SizeLimitExceeded a h.
Proof.
  intros Hu Hc. pose proof (max_size_bounds X). pose proof (max_size_lt_ull X).
  assert ((if nAllocated a =? nUsed a then growAtEnd build X 1 else ret tt) a h =
            Throws SizeLimitExceeded a h) as E.
  { rewrite Hu, Hc, Z.eqb_refl. apply growAtEnd_limit; lia. }
  split; [|split].
  - unfold push_back. rewrite bind_this. by erewrite bind_Throws by exact E.
  - unfold push_back_default. rewrite bind_this. by erewrite bind_Throws by exact E.
  - unfold raw_push_back. rewrite bind_this. by erewrite bind_Throws by exact E.
Qed.

Lemma appends_inplace values : ∀ a h l,
  heap_wf h → owns a h l → nAllocated a ≤ traits_max_size X →
  nUsed a + Z.of_nat (length values) ≤ nAllocated a →
  ∃ h', appends build X values a h =
          Returns tt (mkArray (data a) (nUsed a + Z.of_nat (length values)) (nAllocated a)) h' ∧
        heap_wf h' ∧ same_alloc h h' ∧
        owns (mkArray (data a) (nUsed a + Z.of_nat (length values)) (nAllocated a)) h'
             (l ++ values).
Proof.
  induction values as [|v values IH]; intros a h l Hwf Hown Hmax Hfit;
    cbn [appends length] in *.
  - exists h. rewrite Z.add_0_r, app_nil_r. split; [by destruct a|].
    split; [exact Hwf|]. split; [apply same_alloc_refl|]. by destruct a.
  - pose proof (owns_block_bounds _ _ _ Hwf Hown) as (Hu0 & _).
    assert (cells h !! (data a + nUsed a) = Some None) as Hslot.
    { destruct Hown as (_ & _ & _ & Hraw & _). apply Hraw. lia. }
    mstep ltac:(apply push_back_inplace; [lia|exact Hmax|exact Hslot]).
    destruct (owns_append v a h l Hwf Hown ltac:(lia)) as (Hwf1 & Hown1).
    destruct (IH _ _ _ Hwf1 Hown1) as (h' & E & Hwf' & Hsa & Hown');
      cbn [data nUsed nAllocated]; try lia.
    cbn [data nUsed nAllocated] in *.
    replace (nUsed a + 1 + Z.of_nat (length values))
      with (nUsed a + Z.of_nat (S (length values))) in * by lia.
    exists h'. split; [exact E|]. split; [exact Hwf'|].
    split; [|by rewrite <- app_assoc in Hown'].
    eapply same_alloc_trans; [apply same_alloc_set_cell|exact Hsa].
Qed.

Lemma push_back_grow v a h l :
  heap_wf h → owns a h l → nAllocated a = nUsed a → nAllocated a < traits_max_size X →
  ∃ h', push_back build X v a h =
          Returns (brk h + nUsed a)
            (mkArray (brk h) (nUsed a + 1) (grown_capacity X (nAllocated a) 1)) h' ∧
        heap_wf h' ∧
        owns (mkArray (brk h) (nUsed a + 1) (grown_capacity X (nAllocated a) 1)) h'
             (l ++ [v]) ∧
        nalloc h' = S (nalloc h).
Proof.
  intros Hwf Hown Hfull Hroom.
  pose proof (max_size_bounds X) as HM.
  pose proof (owns_block_bounds _ _ _ Hwf Hown) as (Hu0 & _).
  destruct (growAtEnd_spec 1 a h l) as (h1 & E1 & Hwf1 & Hown1 & Hn1 & _);
    try assumption; try lia.
  pose proof (grown_capacity_bounds (nAllocated a) 1 ltac:(lia) ltac:(lia) ltac:(lia)) as Hg.
  unfold push_back. rewrite bind_this, Hfull, Z.eqb_refl.
  rewrite Hfull in E1. mstep ltac:(exact E1). rewrite bind_this.
  mstep ltac:(reflexivity). unfold copyConstructOne. cbn [data nUsed nAllocated].
  rewrite to_size_type_small by lia.
  rewrite Hfull in Hown1, Hg.
  destruct (owns_append v _ h1 l Hwf1 Hown1) as (Hwf2 & Hown2); [cbn [nUsed nAllocated]; lia|].
  cbn [data nUsed nAllocated] in *.
  assert (cells h1 !! (brk h + nUsed a) = Some None) as Hslot.
  { destruct Hown1 as (_ & _ & _ & Hraw & _). cbn [data nUsed nAllocated] in Hraw.
    apply Hraw. lia. }
  mstep ltac:(apply construct_at_eq, Hslot).
  eexists. split; [reflexivity|]. split; [exact Hwf2|]. split; [exact Hown2|].
  exact Hn1.
Qed.

(** The growth policy seen over a run of appends that made [j] allocations:
    an array that has never allocated has no buffer; otherwise two to the
    [j] is at most twice the length, the capacity is at most twice the
    length (or 4), and the capacity has doubled [j] times or reached
    [max_size]. *)
Lemma appends_growth_step (j : nat) v a h l :
  heap_wf h → owns a h l → nAllocated a ≤ traits_max_size X →
  nUsed a < traits_max_size X →
  (j = 0%nat ∧ nAllocated a = 0) ∨
  (2 ^ Z.of_nat j ≤ 2 * nUsed a ∧ nAllocated a ≤ Z.max 4 (2 * nUsed a) ∧
   (2 * 2 ^ Z.of_nat j ≤ nAllocated a ∨ nAllocated a = traits_max_size X)) →
  ∃ p a' h' (d : nat),
    push_back build X v a h = Returns p a' h' ∧
    heap_wf h' ∧ owns a' h' (l ++ [v]) ∧ nUsed a' = nUsed a + 1 ∧
    nAllocated a' ≤ traits_max_size X ∧
    nalloc h' = (nalloc h + d)%nat ∧
    2 ^ Z.of_nat (j + d) ≤ 2 * nUsed a' ∧ nAllocated a' ≤ Z.max 4 (2 * nUsed a') ∧
    (2 * 2 ^ Z.of_nat (j + d) ≤ nAllocated a' ∨ nAllocated a' = traits_max_size X).
Proof.
  intros Hwf Hown Hmax Hroom HI.
  pose proof (max_size_bounds X) as HM.
  pose proof (owns_block_bounds _ _ _ Hwf Hown) as (Hu0 & _).
  pose proof Hown as (_ & Hle & _).
  destruct (decide (nAllocated a = nUsed a)) as [Hfull|Hspare].
  - destruct (push_back_grow v a h l Hwf Hown Hfull ltac:(lia))
      as (h' & E & Hwf' & Hown' & Hn').
    pose proof (grown_capacity_bounds (nAllocated a) 1 ltac:(lia) ltac:(lia) ltac:(lia)) as Hg.
    eexists _, _, h', 1%nat. split; [exact E|]. split; [exact Hwf'|]. split; [exact Hown'|].
    cbn [nUsed nAllocated]. split; [reflexivity|]. split; [lia|]. split; [lia|].
    replace (Z.of_nat (j + 1)) with (Z.succ (Z.of_nat j)) by lia.
    rewrite Z.pow_succ_r by lia.
    unfold grown_capacity in *.
    destruct HI as [[-> Hc0]|(H1 & H2 & H3)].
    + rewrite Hc0 in *. change (2 ^ Z.of_nat 0) with 1. lia.
    + pose proof (Z.pow_pos_nonneg 2 (Z.of_nat j) ltac:(lia) ltac:(lia)). lia.
  - assert (cells h !! (data a + nUsed a) = Some None) as Hslot.
    { destruct Hown as (_ & _ & _ & Hraw & _). apply Hraw. lia. }
    destruct (owns_append v a h l Hwf Hown ltac:(lia)) as (Hwf' & Hown').
    eexists _, _, _, 0%nat.
    split; [apply push_back_inplace; [lia|exact Hmax|exact Hslot]|].
    split; [exact Hwf'|]. split; [exact Hown'|].
    cbn [nUsed nAllocated nalloc set_cell]. rewrite !Nat.add_0_r.
    split; [reflexivity|]. split; [lia|]. split; [reflexivity|].
    destruct HI as [[-> Hc0]|(H1 & H2 & H3)]; lia.
Qed.

Lemma appends_growth_run values : ∀ (j : nat) a h l,
  heap_wf h → owns a h l → nAllocated a ≤ traits_max_size X →
  nUsed a + Z.of_nat (length values) ≤ traits_max_size X →
  (j = 0%nat ∧ nAllocated a = 0) ∨
  (2 ^ Z.of_nat j ≤ 2 * nUsed a ∧ nAllocated a ≤ Z.max 4 (2 * nUsed a) ∧
   (2 * 2 ^ Z.of_nat j ≤ nAllocated a ∨ nAllocated a = traits_max_size X)) →
  ∃ a' h' (d : nat),
    appends build X values a h = Returns tt a' h' ∧
    owns a' h' (l ++ values) ∧
    nalloc h' = (nalloc h + d)%nat ∧
    ((j + d = 0)%nat ∧ nAllocated a' = 0 ∨
     2 ^ Z.of_nat (j + d) ≤ 2 * nUsed a' ∧ nAllocated a' ≤ Z.max 4 (2 * nUsed a')).
Proof.
  induction values as [|v values IH]; intros j a h l Hwf Hown Hmax Hroom HI;
    cbn [appends length] in *.
  - exists a, h, 0%nat. rewrite app_nil_r, !Nat.add_0_r.
    split; [reflexivity|]. split; [exact Hown|]. split; [reflexivity|].
    destruct HI as [?|(? & ? & _)]; auto.
  - destruct (appends_growth_step j v a h l Hwf Hown Hmax ltac:(lia) HI)
      as (p & a1 & h1 & d1 & E1 & Hwf1 & Hown1 & Hu1 & Hc1 & Hn1 & HI1).
    mstep ltac:(exact E1).
    destruct (IH (j + d1)%nat a1 h1 (l ++ [v]) Hwf1 Hown1 Hc1 ltac:(lia) (or_intror HI1))
      as (a' & h' & d & E & Hown' & Hn' & HI').
    exists a', h', (d1 + d)%nat. split; [exact E|].
    split; [by rewrite <- app_assoc in Hown'|]. split; [lia|].
    by rewrite Nat.add_assoc.
Qed.

(** X12: the growth policy makes appending cheap over a run.  After [k]
    appends to a default-constructed array, with [k] positive and at most
    [max_size], the capacity is at most twice [k] (or 4), and the number [j]
    of calls of [operator new] the appends made is logarithmic in [k]: two to
    the [j] is at most twice [k]. *)
Theorem appends_reallocate_logarithmically (values : list T) a0 h :
  heap_wf h → values ≠ [] → Z.of_nat (length values) ≤ traits_max_size X →
  ∃ a' h' (j : nat),
    (Array_default ;; appends build X values) a0 h = Returns tt a' h' ∧
    owns a' h' values ∧
    capacity a' ≤ Z.max 4 (2 * Z.of_nat (length values)) ∧
    nalloc h' = (nalloc h + j)%nat ∧
    2 ^ Z.of_nat j ≤ 2 * Z.of_nat (length values).
Proof.
  intros Hwf Hne Hk.
  pose proof (max_size_bounds X) as HM.
  mstep ltac:(apply Array_default_eq).
  destruct (appends_growth_run values 0 (mkArray 0 0 0) h [] Hwf (owns_nil_default h))
    as (a' & h' & j & E & Hown' & Hn' & HI'); cbn [nUsed nAllocated]; try lia; auto.
  rewrite app_nil_l in Hown'. cbn [Nat.add] in HI'.
  pose proof Hown' as (Hlen & Hle & _).
  assert (0 < Z.of_nat (length values)) as Hpos by (destruct values; [done|cbn [length]; lia]).
  exists a', h', j. split; [exact E|]. split; [exact Hown'|]. unfold capacity.
  rewrite Hlen. destruct HI' as [[_ Hc0]|[H1 H2]]; [lia|]. auto.
Qed.

(** ** Resizing and clearing *)

Lemma fill_at_end_alloc (k : nat) v a h l :
  heap_wf h → owns a h l → nUsed a + Z.of_nat k ≤ nAllocated a →
  ∃ h', fillConstruct_loop k (data a + nUsed a) v a h = Returns tt a h' ∧
        heap_wf h' ∧ same_alloc h h' ∧
        owns (mkArray (data a) (nUsed a + Z.of_nat k) (nAllocated a)) h' (l ++ replicate k v).
Proof.
  intros Hwf Hown Hfit.
  destruct (fill_at_end k v a h l Hwf Hown Hfit) as (h' & E & Hwf' & Hown').
  pose proof Hown as (_ & _ & _ & Hraw & _).
  destruct (fillConstruct_loop_spec k (data a + nUsed a) v a h) as (h'' & E' & Hsa & _).
  { intros q Hq. apply Hraw. lia. }
  rewrite E in E'. injection E' as <-. eauto.
Qed.

Lemma resize_as_resizeFill sz a h :
  resize T_default build X sz a h = resizeFill build X sz T_default a h.
Proof.
  unfold resize, resizeFill. rewrite !bind_this.
  destruct (sz =? nUsed a); [reflexivity|]. destruct (sz =? 0); [reflexivity|].
  destruct (sz <? nUsed a); [reflexivity|].
  apply bind_cong. intros [] a1 h1 _. rewrite !bind_this.
  apply bind_eq; [|reflexivity].
  unfold defaultConstruct, fillConstruct.
  destruct (data a1 + sz <? data a1 + nUsed a1); [reflexivity|].
  apply defaultConstruct_loop_eq.
Qed.

Lemma resizeFill_exact sz v a h l :
  heap_wf h → owns a h l → nAllocated a ≤ traits_max_size X →
  0 ≤ sz ≤ traits_max_size X →
  ∃ a' h', resizeFill build X sz v a h = Returns tt a' h' ∧
           owns a' h' (take (Z.to_nat sz) l ++ replicate (Z.to_nat sz - length l) v) ∧
           nUsed a' = sz ∧ nAllocated a' = Z.max (nAllocated a) sz ∧
           (sz ≤ nAllocated a → data a' = data a ∧ same_alloc h h') ∧
           (nAllocated a < sz → nalloc h' = S (nalloc h)).
Proof.
  intros Hwf Hown Hmax Hsz.
  pose proof (max_size_bounds X) as HM.
  pose proof Hown as (Hlen & Hle & _).
  unfold resizeFill. mstep ltac:(reflexivity).
  destruct (Z.eqb_spec sz (nUsed a)) as [Heq|Hne].
  { exists a, h. split; [reflexivity|]. split.
    { rewrite take_ge by lia. replace (Z.to_nat sz - length l)%nat with O by lia.
      cbn [replicate]. by rewrite app_nil_r. }
    split; [lia|]. split; [lia|]. split; [|lia]. intros _. split; [reflexivity|].
    apply same_alloc_refl. }
  destruct (Z.eqb_spec sz 0) as [Hz|Hnz].
  { destruct (clear_spec a h l Hown) as (h1 & E1 & Hsa1 & Hc1 & Hown1).
    eexists _, h1. split; [exact E1|]. subst sz.
    cbn [Z.to_nat take replicate Nat.sub app data nUsed nAllocated].
    split; [exact Hown1|]. split; [reflexivity|]. split; [lia|]. split; [auto|lia]. }
  destruct (Z.ltb_spec sz (nUsed a)) as [Hlt|Hge].
  { unfold end_.
    destruct (erase_spec (Z.to_nat sz) (length l) a h l) as (h1 & E1 & Hsa1 & Hown1 & Hfr1);
      try assumption; try lia.
    replace (data a + Z.of_nat (Z.to_nat sz)) with (data a + sz) in E1 by lia.
    rewrite Hlen in E1, Hown1. mstep ltac:(exact E1).
    eexists _, h1. split; [reflexivity|].
    rewrite drop_ge, app_nil_r in Hown1 by lia.
    replace (Z.to_nat sz - length l)%nat with O by lia. cbn [replicate].
    rewrite app_nil_r. split; [exact Hown1|]. cbn [data nUsed nAllocated].
    split; [lia|]. split; [lia|]. split; [auto|lia]. }
  destruct (decide (sz ≤ nAllocated a)) as [Hin|Hout].
  - mstep ltac:(apply reserve_noop; lia). mstep ltac:(reflexivity).
    replace (data a + sz) with (data a + nUsed a + Z.of_nat (Z.to_nat sz - length l)) by lia.
    rewrite fillConstruct_eq.
    destruct (fill_at_end_alloc (Z.to_nat sz - length l) v a h l)
      as (h2 & E2 & Hwf2 & Hsa2 & Hown2); try assumption; try lia.
    mstep ltac:(exact E2).
    exists (mkArray (data a) sz (nAllocated a)), h2. split; [reflexivity|].
    rewrite take_ge by lia.
    replace (nUsed a + Z.of_nat (Z.to_nat sz - length l)) with sz in Hown2 by lia.
    split; [exact Hown2|]. cbn [data nUsed nAllocated].
    split; [reflexivity|]. split; [lia|]. split; [auto|lia].
  - destruct (reserve_grow sz a h l Hwf Hown ltac:(lia)) as (h1 & E1 & Hwf1 & Hown1 & Hn1).
    mstep ltac:(exact E1). mstep ltac:(reflexivity). cbn [data nUsed nAllocated].
    replace (brk h + sz) with (brk h + nUsed a + Z.of_nat (Z.to_nat sz - length l)) by lia.
    rewrite fillConstruct_eq.
    destruct (fill_at_end_alloc (Z.to_nat sz - length l) v _ h1 l Hwf1 Hown1)
      as (h2 & E2 & Hwf2 & Hsa2 & Hown2); cbn [data nUsed nAllocated] in *; try lia.
    mstep ltac:(exact E2).
    exists (mkArray (brk h) sz sz), h2. split; [reflexivity|].
    rewrite take_ge by lia.
    replace (nUsed a + Z.of_nat (Z.to_nat sz - length l)) with sz in Hown2 by lia.
    split; [exact Hown2|]. cbn [data nUsed nAllocated].
    split; [reflexivity|]. split; [lia|]. split; [lia|]. intros _.
    destruct Hsa2 as (_ & _ & ->). exact Hn1.
Qed.

(** [resize(sz)] and [resize(sz, initVal)] in the class that is granted
    whole slots. *)
Lemma resize_slots sz v a h l :
  heap_wf h → owns a h l → nAllocated a ≤ traits_max_size X →
  0 ≤ sz ≤ traits_max_size X →
  (∃ a' h', resizeFill build X sz v a h = Returns tt a' h' ∧
            owns a' h' (take (Z.to_nat sz) l ++ replicate (Z.to_nat sz - length l) v) ∧
            size a' = sz ∧ capacity a' = Z.max (capacity a) sz ∧
            (sz ≤ capacity a → data a' = data a ∧ same_alloc h h') ∧
            (capacity a < sz → nalloc h' = S (nalloc h))) ∧
  (∃ a' h', resize T_default build X sz a h = Returns tt a' h' ∧
            owns a' h'
              (take (Z.to_nat sz) l ++ replicate (Z.to_nat sz - length l) T_default) ∧
            size a' = sz ∧ capacity a' = Z.max (capacity a) sz ∧
            (sz ≤ capacity a → data a' = data a ∧ same_alloc h h') ∧
            (capacity a < sz → nalloc h' = S (nalloc h))).
Proof.
  intros Hwf Hown Hmax Hsz. split.
  - exact (resizeFill_exact sz v a h l Hwf Hown Hmax Hsz).
  - rewrite resize_as_resizeFill.
    exact (resizeFill_exact sz T_default a h l Hwf Hown Hmax Hsz).
Qed.

(** X14: [clear()] on an array holding [l] destroys every element and
    nothing else: the array is then empty, its buffer address and capacity
    are the same, no memory is allocated or released, and no slot outside the
    elements changes. *)
Theorem clear_correct a h l :
  owns a h l →
  ∃ a' h', clear a h = Returns tt a' h' ∧
           owns a' h' [] ∧ size a' = 0 ∧ capacity a' = capacity a ∧ data a' = data a ∧
           same_alloc h h' ∧
           (∀ q, data a ≤ q < data a + nUsed a → cells h' !! q = Some None) ∧
           (∀ q, ¬ data a ≤ q < data a + nUsed a → cells h' !! q = cells h !! q).
Proof.
  intros Hown.
  destruct (clear_spec a h l Hown) as (h' & E & Hsa & Hc & Hown').
  eexists _, h'. split; [exact E|]. split; [exact Hown'|].
  split; [reflexivity|]. split; [reflexivity|]. split; [reflexivity|].
  split; [exact Hsa|].
  split; intros q Hq; rewrite Hc; case_goal; try reflexivity; lia.
Qed.

(** ** Erasing a range *)

Lemma erase_empty_range p a h :
  begin a ≤ p ≤ end_ a → erase build X p p a h = Returns p a h.
Proof.
  intros Hp. unfold erase. rewrite bind_this.
  mstep ltac:(apply SimTK_ERRCHK_true; rewrite !andb_true_iff, !Z.leb_le; lia).
  rewrite Z.sub_diag.
  rewrite to_size_type_small by (pose proof (max_size_bounds X); lia).
  reflexivity.
Qed.

(** X15: [erase(first, last1)] on the elements from index [i] up to index
    [j] of an array holding [l]: the call returns [first], and the array
    then holds the elements of [l] before index [i] followed by those from
    index [j] on, in their order; the length has dropped by [j - i], the
    capacity and the buffer address are the same, and no memory is allocated
    or released.  On an empty range nothing changes at all.  In a Debug
    build a range that is out of order or not within the elements is
    rejected with InvalidRange, the array untouched. *)
Theorem erase_range_correct (i j : nat) a h l :
  owns a h l → (i ≤ j ≤ length l)%nat → nUsed a ≤ size_type_max X →
  (∃ a' h', erase build X (data a + Z.of_nat i) (data a + Z.of_nat j) a h =
              Returns (data a + Z.of_nat i) a' h' ∧
            owns a' h' (take i l ++ drop j l) ∧
            size a' = size a - (Z.of_nat j - Z.of_nat i) ∧
            capacity a' = capacity a ∧ data a' = data a ∧ same_alloc h h' ∧
            (i = j → a' = a ∧ h' = h)) ∧
  (∀ first last1, ¬ (begin a ≤ first ∧ first ≤ last1 ∧ last1 ≤ end_ a) →
     erase Debug X first last1 a h = Throws InvalidRange a h).
Proof.
  intros Hown Hij Hty. split.
  - destruct (erase_spec i j a h l Hown Hij Hty) as (h' & E & Hsa & Hown' & _).
    eexists _, h'. split; [exact E|]. split; [exact Hown'|].
    split; [reflexivity|]. split; [reflexivity|]. split; [reflexivity|].
    split; [exact Hsa|].
    intros ->. pose proof Hown as (Hlen & _).
    rewrite erase_empty_range in E by (unfold begin, end_; lia).
    injection E as E1 E2. split; [|by symmetry].
    destruct a; cbn in *. f_equal. lia.
  - intros first last1 Hbad. unfold erase. rewrite bind_this.
    erewrite bind_Throws; [reflexivity|].
    unfold SimTK_ERRCHK, SimTK_ERRCHK_ALWAYS.
    destruct ((begin a <=? first) && (first <=? last1) && (last1 <=? end_ a)) eqn:Hc;
      [|reflexivity].
    rewrite !andb_true_iff, !Z.leb_le in Hc. tauto.
Qed.

(** ** Element access *)

(** X16: [at(i)] is range-checked in either build, [operator[]] in a Debug
    build only.  For an index within the length both return the address of
    slot [i], which holds element [i]; for any other index [at(i)] throws
    OutOfRange and leaves the array untouched, as [operator[]] does in a
    Debug build, while in a Release build [operator[]] returns the address
    [data + i] unchecked. *)
Theorem at_is_always_checked i a h l :
  owns a h l →
  (0 ≤ i < size a →
   at_ i a h = Returns (data a + i) a h ∧
   operator_index build i a h = Returns (data a + i) a h ∧
   ∃ v, l !! Z.to_nat i = Some v ∧ load (data a + i) a h = Returns v a h) ∧
  (¬ 0 ≤ i < size a →
   at_ i a h = Throws OutOfRange a h ∧
   operator_index Debug i a h = Throws OutOfRange a h ∧
   operator_index Release i a h = Returns (data a + i) a h).
Proof.
  intros Hown. pose proof Hown as (Hlen & _). unfold size.
  unfold at_, operator_index, SimTK_INDEXCHECK, SimTK_INDEXCHECK_ALWAYS, SimTK_ERRCHK,
    SimTK_ERRCHK_ALWAYS.
  rewrite !bind_this. split; intros Hi.
  - replace ((0 <=? i) && (i <? nUsed a)) with true
      by (symmetry; rewrite andb_true_iff, Z.leb_le, Z.ltb_lt; lia).
    split; [reflexivity|]. split; [by destruct build|].
    destruct (lookup_lt_is_Some_2 l (Z.to_nat i) ltac:(lia)) as [v Hv].
    exists v. split; [exact Hv|]. apply load_eq.
    replace i with (Z.of_nat (Z.to_nat i)) at 1 by lia. by eapply owns_cell.
  - replace ((0 <=? i) && (i <? nUsed a)) with false; [done|].
    symmetry. apply andb_false_iff. rewrite Z.leb_gt, Z.ltb_ge. lia.
Qed.

(** X17: [front()] and [back()] on an array holding [l]: when [l] is not
    empty they return the addresses of the first and of the last slot in
    use, which hold the first and the last element of [l]; on an empty array
    a Debug build throws EmptyContainerAccess from both and leaves the array
    untouched. *)
Theorem front_and_back a h l :
  owns a h l →
  (∀ x l', l = x :: l' →
     front build a h = Returns (data a) a h ∧ load (data a) a h = Returns x a h) ∧
  (∀ l' y, l = l' ++ [y] →
     back build a h = Returns (data a + (size a - 1)) a h ∧
     load (data a + (size a - 1)) a h = Returns y a h) ∧
  (l = [] →
     front Debug a h = Throws EmptyContainerAccess a h ∧
     back Debug a h = Throws EmptyContainerAccess a h).
Proof.
  intros Hown. pose proof Hown as (Hlen & _ & Hlive & _). unfold size.
  split; [|split].
  - intros x l' ->. cbn [length] in Hlen.
    rewrite front_spec by lia. rewrite Z.add_0_r. split; [reflexivity|].
    apply load_eq. by eapply live_head.
  - intros l' y ->. rewrite length_app in Hlen. cbn [length] in Hlen.
    rewrite back_spec by lia. split; [reflexivity|].
    apply load_eq. by eapply owns_last_cell.
  - intros ->. cbn [length] in Hlen. unfold front, back. rewrite !bind_this.
    unfold empty. rewrite <- Hlen. done.
Qed.

(** ** Assignment *)

(** [assign(n, fillValue)] in the class that is granted whole slots. *)
Lemma assignFill_slots n v a h l :
  heap_wf h → owns a h l → size_type_min X ≤ n ≤ size_type_max X →
  (0 ≤ n ≤ traits_max_size X →
   ∃ a' h', assignFill X n v a h = Returns tt a' h' ∧
            owns a' h' (replicate (Z.to_nat n) v) ∧ size a' = n ∧
            (keeps_buffer (capacity a) n →
             data a' = data a ∧ capacity a' = capacity a ∧ nalloc h' = nalloc h) ∧
            (¬ keeps_buffer (capacity a) n → capacity a' = n)) ∧
  (¬ 0 ≤ n ≤ traits_max_size X →
   assignFill X n v a h = Throws SizeLimitExceeded a h).
Proof.
  intros Hwf Hown Hty.
  pose proof (max_size_bounds X) as HM. pose proof (max_size_lt_ull X) as HU.
  pose proof (size_type_min_ge X). pose proof (size_type_max_lt_ull X).
  unfold assignFill, capacity. split.
  - intros Hn.
    assert (isSizeOK X n = true) as Hok by (apply isSizeOK_iff; lia).
    rewrite Hok. mstep ltac:(reflexivity).
    destruct (clear_spec a h l Hown) as (h1 & E1 & Hsa1 & Hc1 & Hown1).
    pose proof (clear_heap_wf _ _ _ _ _ Hwf Hown E1) as Hwf1.
    mstep ltac:(exact E1).
    set (a1 := mkArray (data a) 0 (nAllocated a)) in *.
    destruct (reallocateIfAdvisable_spec n a1 h1)
      as (a3 & h3 & E3 & Hwf3 & Hu3 & Hown3 & Hfit3 & Hkeep & Hre & Hbrk3 & Hfr3);
      try assumption; try lia.
    mstep ltac:(exact E3). mstep ltac:(reflexivity).
    replace (fillConstruct (data a3) (data a3 + n) v)
      with (fillConstruct_loop (Z.to_nat n) (data a3) v)
      by (rewrite <- fillConstruct_eq, Z2Nat.id by lia; reflexivity).
    destruct (fillConstruct_loop_spec (Z.to_nat n) (data a3) v a3 h3)
      as (h4 & E4 & Hsa4 & Hc4).
    { destruct Hown3 as (_ & _ & _ & Hraw3 & _). cbn [data nUsed nAllocated] in Hraw3.
      intros q Hq. apply Hraw3. lia. }
    mstep ltac:(exact E4).
    exists (mkArray (data a3) n (nAllocated a3)), h4. split; [reflexivity|].
    split; [|split; [reflexivity|]].
    + replace n with (Z.of_nat (length (replicate (Z.to_nat n) v))) at 1
        by (rewrite length_replicate; lia).
      eapply owns_constructed; eauto; rewrite length_replicate; try lia.
      intros q. rewrite Hc4. case_goal; [|reflexivity].
      by rewrite lookup_replicate_2 by lia.
    + cbn [data nAllocated]. split.
      * intros K. destruct (Hkeep K) as (-> & ->). unfold a1; cbn [data nAllocated].
        destruct Hsa4 as (_ & _ & ->). destruct Hsa1 as (_ & _ & ->). auto.
      * intros K. by destruct (Hre K) as (-> & _).
  - intros Hn.
    assert (isSizeOK X n = false) as Hok.
    { destruct (decide (n < 0)); [apply isSizeOK_negative; lia|].
      destruct (isSizeOK X n) eqn:E; [|reflexivity].
      apply isSizeOK_iff in E; lia. }
    by rewrite Hok.
Qed.

(** X19: [assign(first, last1)] from an input iterator that yields the
    values [vs], on an array whose capacity is at most [max_size] and for at
    most [max_size] values: the array then holds [vs].  The old elements are
    erased first and the buffer is never given up: the capacity does not
    shrink, and when the values fit the old capacity the buffer address and
    the capacity are the same and no memory is allocated or released. *)
Theorem assignImpl_input_correct vs a h l :
  heap_wf h → owns a h l → nAllocated a ≤ traits_max_size X →
  Z.of_nat (length vs) ≤ traits_max_size X →
  ∃ a' h', assignImpl_input build X vs a h = Returns tt a' h' ∧
           owns a' h' vs ∧ size a' = Z.of_nat (length vs) ∧
           capacity a ≤ capacity a' ∧
           (Z.of_nat (length vs) ≤ capacity a →
            data a' = data a ∧ capacity a' = capacity a ∧ same_alloc h h').
Proof.
  intros Hwf Hown Hmax Hfit. unfold assignImpl_input, size, capacity.
  destruct (clear_spec a h l Hown) as (h1 & E1 & Hsa1 & Hc1 & Hown1).
  pose proof (clear_heap_wf _ _ _ _ _ Hwf Hown E1) as Hwf1.
  mstep ltac:(exact E1). rewrite assignImpl_input_loop_eq.
  destruct (decide (Z.of_nat (length vs) ≤ nAllocated a)) as [Hin|Hout].
  - destruct (appends_inplace vs _ h1 [] Hwf1 Hown1) as (h' & E & _ & Hsa & Hown');
      cbn [data nUsed nAllocated] in *; try lia.
    rewrite app_nil_l in Hown'.
    eexists _, h'. split; [exact E|]. split; [exact Hown'|]. cbn [data nUsed nAllocated].
    split; [lia|]. split; [lia|]. intros _. split; [reflexivity|]. split; [reflexivity|].
    eapply same_alloc_trans; eauto.
  - destruct (appends_spec vs _ h1 [] Hwf1 Hown1) as (a' & h' & E & _ & Hown' & Hc');
      cbn [data nUsed nAllocated] in *; try lia.
    rewrite app_nil_l in Hown'. pose proof Hown' as (Hlen' & _).
    exists a', h'. split; [exact E|]. split; [exact Hown'|].
    split; [lia|]. split; [lia|]. lia.
Qed.

(** ** Construction and destruction *)

Lemma allocateNoConstruct_frame n a h :
  heap_wf h → 0 ≤ n →
  ∃ h', allocateNoConstruct n a h =
          Returns tt (mkArray (if decide (n = 0) then 0 else brk h) (nUsed a) n) h' ∧
        heap_wf h' ∧
        owns (mkArray (if decide (n = 0) then 0 else brk h) 0 n) h' [] ∧
        brk h' = brk h + n ∧
        nalloc h' = (if decide (n = 0) then nalloc h else S (nalloc h)) ∧
        blocks h' = (if decide (n = 0) then blocks h else <[brk h := n]> (blocks h)) ∧
        (∀ q, cells h' !! q =
                if decide (brk h ≤ q < brk h + n) then Some None else cells h !! q).
Proof.
  intros Hwf Hn. unfold allocateNoConstruct.
  destruct (decide (n = 0)) as [->|Hn0].
  - mstep ltac:(apply allocN_zero). exists h. split; [reflexivity|].
    split; [exact Hwf|]. split; [apply owns_nil_default|]. split; [lia|].
    split; [reflexivity|]. split; [reflexivity|]. intros q. case_goal; [lia|reflexivity].
  - destruct (allocN_spec n a h Hwf ltac:(lia)) as (h' & E & Hwf' & Hbl & Hbrk & Hna & Hc).
    mstep ltac:(exact E). exists h'. split; [reflexivity|].
    split; [exact Hwf'|]. split; [|auto].
    unfold owns, live, raw; cbn [data nUsed nAllocated length].
    split; [reflexivity|]. split; [lia|]. split; [intros; lia|].
    split; [|split; [lia|]].
    + intros q Hq. rewrite Hc. case_goal; [reflexivity|lia].
    + intros _. rewrite Hbl. apply lookup_insert_eq.
Qed.

Lemma Array_fill_exact (k : nat) v a0 h :
  heap_wf h →
  SimTK_SIZECHECK build (Z.of_nat k) (max_size X) a0 h = Returns tt a0 h →
  ∃ h', Array_fill build X (Z.of_nat k) v a0 h =
          Returns tt (mkArray (if decide (Z.of_nat k = 0) then 0 else brk h)
                              (Z.of_nat k) (Z.of_nat k)) h' ∧
        heap_wf h' ∧
        owns (mkArray (if decide (Z.of_nat k = 0) then 0 else brk h)
                      (Z.of_nat k) (Z.of_nat k)) h' (replicate k v) ∧
        brk h' = brk h + Z.of_nat k ∧
        nalloc h' = (if decide (Z.of_nat k = 0) then nalloc h else S (nalloc h)) ∧
        blocks h' = (if decide (Z.of_nat k = 0) then blocks h
                     else <[brk h := Z.of_nat k]> (blocks h)) ∧
        (∀ q, cells h' !! q =
                if decide (brk h ≤ q < brk h + Z.of_nat k) then Some (Some v)
                else cells h !! q).
Proof.
  intros Hwf Hk. unfold Array_fill.
  mstep ltac:(exact Hk).
  destruct (allocateNoConstruct_frame (Z.of_nat k) a0 h Hwf ltac:(lia))
    as (h1 & E1 & Hwf1 & Hown1 & Hbrk1 & Hn1 & Hbl1 & Hc1).
  mstep ltac:(exact E1). mstep ltac:(reflexivity). cbn [data].
  set (p := if decide (Z.of_nat k = 0) then 0 else brk h) in *.
  rewrite fillConstruct_eq.
  destruct (fill_buffer k v (mkArray p (nUsed a0) (Z.of_nat k)) h1)
    as (h2 & E2 & Hwf2 & Hown2); cbn [data nUsed nAllocated]; try assumption; try lia.
  destruct (fillConstruct_loop_spec k p v (mkArray p (nUsed a0) (Z.of_nat k)) h1)
    as (h2' & E2' & Hsa2 & Hc2).
  { destruct Hown1 as (_ & _ & _ & Hraw & _). cbn [data nUsed nAllocated] in Hraw.
    intros q Hq. apply Hraw. lia. }
  cbn [data] in E2. rewrite E2 in E2'. injection E2' as <-.
  mstep ltac:(exact E2).
  exists h2. split; [reflexivity|]. split; [exact Hwf2|]. split; [exact Hown2|].
  destruct Hsa2 as (-> & -> & ->). split; [exact Hbrk1|]. split; [exact Hn1|].
  split; [exact Hbl1|].
  intros q. rewrite Hc2, Hc1. unfold p.
  destruct (decide (Z.of_nat k = 0)); repeat case_goal; try reflexivity; lia.
Qed.

Lemma SimTK_SIZECHECK_debug_false sz a h :
  ¬ 0 ≤ sz ≤ traits_max_size X →
  SimTK_SIZECHECK (T:=T) Debug sz (max_size X) a h = Throws SizeLimitExceeded a h.
Proof.
  intros Hsz. unfold SimTK_SIZECHECK, SimTK_ERRCHK, SimTK_ERRCHK_ALWAYS, max_size.
  replace ((0 <=? sz) && (sz <=? traits_max_size X)) with false; [reflexivity|].
  symmetry. apply andb_false_iff. rewrite !Z.leb_gt. lia.
Qed.

(** The constructors [Array_(n)] and [Array_(n, initVal)] in the class that
    is granted whole slots. *)
Lemma sized_constructors_slots (k : nat) v a0 h :
  heap_wf h → Z.of_nat k ≤ traits_max_size X →
  (∃ a' h', Array_fill build X (Z.of_nat k) v a0 h = Returns tt a' h' ∧
            owns a' h' (replicate k v) ∧
            size a' = Z.of_nat k ∧ capacity a' = Z.of_nat k ∧
            nalloc h' = (if decide (k = 0%nat) then nalloc h else S (nalloc h)) ∧
            (k = 0%nat → data a' = 0 ∧ h' = h)) ∧
  (∃ a' h', Array_n T_default build X (Z.of_nat k) a0 h = Returns tt a' h' ∧
            owns a' h' (replicate k T_default) ∧
            size a' = Z.of_nat k ∧ capacity a' = Z.of_nat k ∧
            nalloc h' = (if decide (k = 0%nat) then nalloc h else S (nalloc h)) ∧
            (k = 0%nat → data a' = 0 ∧ h' = h)) ∧
  (∀ n, ¬ 0 ≤ n ≤ traits_max_size X →
     Array_fill Debug X n v a0 h = Throws SizeLimitExceeded a0 h ∧
     Array_n T_default Debug X n a0 h = Throws SizeLimitExceeded a0 h).
Proof.
  intros Hwf Hk.
  assert (∀ w, ∃ a' h', Array_fill build X (Z.of_nat k) w a0 h = Returns tt a' h' ∧
            owns a' h' (replicate k w) ∧
            size a' = Z.of_nat k ∧ capacity a' = Z.of_nat k ∧
            nalloc h' = (if decide (k = 0%nat) then nalloc h else S (nalloc h)) ∧
            (k = 0%nat → data a' = 0 ∧ h' = h)) as Hfill.
  { intros w.
    destruct (Array_fill_exact k w a0 h Hwf) as (h' & E & _ & Hown' & _ & Hn' & Hbl' & Hc');
      [apply SimTK_SIZECHECK_true; lia|].
    eexists _, h'. split; [exact E|]. split; [exact Hown'|].
    split; [reflexivity|]. split; [reflexivity|]. split.
    { rewrite Hn'. repeat case_goal; try reflexivity; lia. }
    intros ->. cbn [data]. split; [reflexivity|].
    unfold Array_fill in E. rewrite (bind_Returns _ _ _ _ tt a0 h) in E
      by (apply SimTK_SIZECHECK_true; lia).
    by injection E as <-. }
  split; [apply Hfill|]. split.
  - destruct (Hfill T_default) as (a' & h' & E & Hres).
    exists a', h'. split; [|exact Hres]. rewrite <- E.
    unfold Array_n, Array_fill. apply bind_cong. intros [] a1 h1 _.
    apply bind_cong. intros [] a2 h2 _. rewrite !bind_this.
    apply bind_eq; [|reflexivity].
    rewrite fillConstruct_eq, defaultConstruct_eq. apply defaultConstruct_loop_eq.
  - intros n Hn. unfold Array_fill, Array_n.
    by rewrite !(bind_Throws _ _ _ _ SizeLimitExceeded a0 h)
      by (apply SimTK_SIZECHECK_debug_false; exact Hn).
Qed.

Lemma heap_wf_no_null_block h : heap_wf h → blocks h !! 0 = None.
Proof.
  intros (_ & _ & Hb). destruct (blocks h !! 0) as [n|] eqn:E; [|reflexivity].
  apply Hb in E. lia.
Qed.

Lemma Array_destroy_exact a h l :
  heap_wf h → owns a h l →
  ∃ h', Array_destroy a h = Returns tt (mkArray 0 0 0) h' ∧ heap_wf h' ∧
        blocks h' = delete (data a) (blocks h) ∧
        brk h' = brk h ∧ nalloc h' = nalloc h ∧
        (∀ q, cells h' !! q =
                if decide (data a ≤ q < data a + nAllocated a) then None
                else cells h !! q).
Proof.
  intros Hwf Hown. unfold Array_destroy.
  pose proof Hown as (_ & Hle & _).
  pose proof (owns_block_bounds _ _ _ Hwf Hown) as (Hu0 & _).
  destruct (clear_spec a h l Hown) as (h1 & E1 & Hsa1 & Hc1 & Hown1).
  pose proof (clear_heap_wf _ _ _ _ _ Hwf Hown E1) as Hwf1.
  mstep ltac:(exact E1).
  destruct Hsa1 as (Hbl1 & Hbrk1 & Hn1).
  pose proof Hown1 as (_ & _ & _ & _ & Hnull & Hblk). cbn [data nUsed nAllocated] in *.
  unfold deallocateNoDestruct. rewrite bind_this. cbn [data].
  destruct (decide (nAllocated a = 0)) as [E0|E0].
  - rewrite Hnull by exact E0. mstep ltac:(apply freeN_null).
    exists h1. split; [reflexivity|]. split; [exact Hwf1|].
    split; [rewrite Hbl1; symmetry; apply delete_id, heap_wf_no_null_block, Hwf|].
    split; [exact Hbrk1|]. split; [exact Hn1|].
    intros q. rewrite Hc1. repeat case_goal; try reflexivity; lia.
  - destruct (freeN_spec (data a) (nAllocated a) (mkArray (data a) 0 (nAllocated a)) h1
                Hwf1 (Hblk E0))
      as (h' & E & Hwf' & Hbl' & Hbrk' & Hna' & Hc').
    mstep ltac:(exact E). exists h'. split; [reflexivity|]. split; [exact Hwf'|].
    split; [by rewrite Hbl', Hbl1|]. split; [lia|]. split; [lia|].
    intros q. rewrite Hc', Hc1. repeat case_goal; try reflexivity; lia.
Qed.


(** Construction followed by destruction in the class that is granted whole
    slots. *)
Lemma construct_then_destroy_slots (k : nat) v a0 h :
  heap_wf h → Z.of_nat k ≤ traits_max_size X →
  ∃ h', (Array_fill build X (Z.of_nat k) v ;; Array_destroy) a0 h =
          Returns tt (mkArray 0 0 0) h' ∧
        cells h' = cells h ∧ blocks h' = blocks h.
Proof.
  intros Hwf Hk.
  destruct (Array_fill_exact k v a0 h Hwf)
    as (h1 & E1 & Hwf1 & Hown1 & Hbrk1 & Hn1 & Hbl1 & Hc1);
    [apply SimTK_SIZECHECK_true; lia|].
  mstep ltac:(exact E1).
  destruct (Array_destroy_exact _ h1 _ Hwf1 Hown1) as (h2 & E2 & _ & Hbl2 & _ & _ & Hc2).
  exists h2. split; [exact E2|]. cbn [data nAllocated] in *. split.
  - apply map_eq. intros q. rewrite Hc2, Hc1.
    destruct (decide (Z.of_nat k = 0)); repeat case_goal; try reflexivity; try lia.
    symmetry. apply heap_wf_fresh; [exact Hwf|lia].
  - rewrite Hbl2, Hbl1. destruct (decide (Z.of_nat k = 0)).
    + apply delete_id, heap_wf_no_null_block, Hwf.
    + apply delete_insert_id, heap_wf_fresh_block; [exact Hwf|lia].
Qed.

(** X23: the copy constructor makes a deep copy sized to the source's
    length, not its capacity: the new array holds the elements of the source
    in a buffer of exactly [src.size()] slots, which for a source that is not
    empty is one new allocation, of slots that were not allocated before; the
    source still owns its buffer and holds the same elements. *)
Theorem copy_constructor_correct src ls a0 h :
  heap_wf h → owns src h ls →
  ∃ a' h', Array_copy src a0 h = Returns tt a' h' ∧
           owns a' h' ls ∧ owns src h' ls ∧
           size a' = size src ∧ capacity a' = size src ∧
           (ls = [] → data a' = 0 ∧ h' = h) ∧
           (ls ≠ [] →
            blocks h !! data a' = None ∧
            (∀ q, data a' ≤ q < data a' + size src → cells h !! q = None) ∧
            nalloc h' = S (nalloc h)).
Proof.
  intros Hwf Hsrc.
  pose proof (owns_block_bounds _ _ _ Hwf Hsrc) as (Hu0 & Hd0 & Hdb).
  pose proof Hsrc as (Hlen & Hle & Hlive & Hraw & Hnull & Hblk).
  unfold Array_copy, size, capacity.
  mstep ltac:(reflexivity). mstep ltac:(reflexivity). cbn [nUsed].
  rewrite <- Hlen in *.
  destruct (allocateNoConstruct_frame (Z.of_nat (length ls))
              (mkArray (data a0) (Z.of_nat (length ls)) (nAllocated a0)) h Hwf ltac:(lia))
    as (h1 & E1 & Hwf1 & Hown1 & Hbrk1 & Hn1 & Hbl1 & Hc1).
  mstep ltac:(exact E1). mstep ltac:(reflexivity). cbn [data nUsed].
  set (p := if decide (Z.of_nat (length ls) = 0) then 0 else brk h) in *.
  rewrite copyConstruct_eq.
  assert (live h1 (data src) ls) as Hlive1.
  { intros q Hq. rewrite Hc1. case_goal; [lia|]. apply Hlive, Hq. }
  destruct (copyConstruct_loop_spec ls p (data src)
              (mkArray p (Z.of_nat (length ls)) (Z.of_nat (length ls))) h1 Hlive1)
    as (h2 & E2 & Hsa2 & Hc2).
  { destruct Hown1 as (_ & _ & _ & Hraw1 & _). cbn [data nUsed nAllocated] in Hraw1.
    intros q Hq. apply Hraw1. lia. }
  exists (mkArray p (Z.of_nat (length ls)) (Z.of_nat (length ls))), h2.
  split; [exact E2|]. cbn [data nUsed nAllocated].
  split; [|split; [|split; [reflexivity|split; [reflexivity|split]]]].
  - change p with (data (mkArray p (Z.of_nat (length ls)) (Z.of_nat (length ls)))) at 1.
    eapply owns_constructed; cbn [data nUsed nAllocated]; eauto; lia.
  - destruct Hsa2 as (Hbl2 & _).
    unfold owns. rewrite <- Hlen. split; [reflexivity|]. split; [exact Hle|].
    split; [|split; [|split; [exact Hnull|]]].
    + intros q Hq. rewrite Hc2. unfold p.
      destruct (decide (Z.of_nat (length ls) = 0)); case_goal; try lia; apply Hlive1, Hq.
    + intros q Hq. rewrite Hc2, Hc1. unfold p.
      destruct (decide (Z.of_nat (length ls) = 0)); repeat case_goal; try lia;
        apply Hraw; lia.
    + intros Hne. rewrite Hbl2, Hbl1.
      destruct (decide (Z.of_nat (length ls) = 0)); [exact (Hblk Hne)|].
      rewrite lookup_insert_ne; [exact (Hblk Hne)|].
      specialize (Hblk Hne). destruct Hwf as (_ & _ & Hb). apply Hb in Hblk. lia.
  - intros ->. cbn [length] in *. unfold p. cbn. split; [reflexivity|].
    unfold allocateNoConstruct in E1. cbn in E1. injection E1 as <-.
    cbn in E2. by injection E2 as <-.
  - intros Hne.
    assert (Z.of_nat (length ls) ≠ 0) by (destruct ls; [done|cbn [length]; lia]).
    unfold p. destruct (decide (Z.of_nat (length ls) = 0)); [lia|].
    split; [apply heap_wf_fresh_block; [exact Hwf|lia]|].
    split; [intros q Hq; apply heap_wf_fresh; [exact Hwf|lia]|].
    destruct Hsa2 as (_ & _ & ->). exact Hn1.
Qed.

(** X24: the converting constructor [Array_(const Array_<T2,X2>&)] is the
    copy constructor whenever the source's length is at most this array's
    [max_size]: from a source that owns its buffer the two end the same way,
    with the same members and heap.  For a longer source a Debug build
    throws SizeLimitExceeded and allocates nothing. *)
Theorem converting_constructor_correct src ls a0 h :
  heap_wf h → owns src h ls →
  (nUsed src ≤ traits_max_size X →
   Array_converting build X src a0 h = Array_copy src a0 h) ∧
  (traits_max_size X < nUsed src < 2 ^ 64 →
   Array_converting Debug X src a0 h = Throws SizeLimitExceeded a0 h).
Proof.
  intros Hwf Hsrc.
  pose proof (max_size_bounds X) as HM. pose proof (max_size_lt_ull X) as HU.
  pose proof (owns_block_bounds _ _ _ Hwf Hsrc) as (Hu0 & Hd0 & Hdb).
  pose proof Hsrc as (Hlen & Hle & Hlive & _).
  unfold Array_converting, Array_range, Array_copy, begin, end_.
  rewrite <- Hlen in *.
  replace (data src + Z.of_nat (length ls) - data src) with (Z.of_nat (length ls)) by lia.
  split; intros Hfit.
  - mstep ltac:(apply SimTK_ERRCHK_true; by eapply null_check_passes).
    mstep ltac:(apply SimTK_ERRCHK_true; apply isSizeOK_iff; lia).
    by rewrite to_size_type_small by lia.
  - rewrite (null_check_passes h (data src) ls Hwf Hlive).
    mstep ltac:(reflexivity).
    erewrite bind_Throws; [reflexivity|].
    unfold SimTK_ERRCHK, SimTK_ERRCHK_ALWAYS.
    destruct (isSizeOK X (Z.of_nat (length ls))) eqn:E; [|reflexivity].
    apply isSizeOK_iff in E; lia.
Qed.

(** ** Exchange *)

(** X25: [swap] exchanges the members of two arrays and touches nothing
    else: afterwards each object has the buffer pointer, length and capacity
    the other had, every other object and the heap are unchanged (no
    constructor, destructor, allocation or release), and a second [swap] of
    the same two arrays restores the objects as they were; swapping an array
    with itself changes nothing. *)
Theorem swap_exchanges_and_undoes self other (objs : gmap Z Array) (h : Heap T) a b :
  objs !! self = Some a → objs !! other = Some b →
  ∃ objs1,
    swap self other objs h = Returns tt objs1 h ∧
    objs1 !! other = Some a ∧
    (self ≠ other → objs1 !! self = Some b) ∧
    (∀ k, k ≠ self → k ≠ other → objs1 !! k = objs !! k) ∧
    (self = other → objs1 = objs) ∧
    swap self other objs1 h = Returns tt objs h.
Proof.
  intros Ha Hb.
  exists (<[other := a]> (<[self := b]> objs)).
  split; [by apply swap_spec|].
  split; [apply lookup_insert_eq|].
  split; [intros Hne; by rewrite lookup_insert_ne, lookup_insert_eq|].
  split; [intros k H1 H2; by rewrite !lookup_insert_ne|].
  split.
  { intros <-. rewrite Ha in Hb. injection Hb as <-.
    rewrite insert_insert_eq. by apply insert_id. }
  destruct (decide (self = other)) as [<-|Hne].
  - rewrite Ha in Hb. injection Hb as <-.
    rewrite insert_insert_eq, (insert_id objs self a Ha).
    rewrite (swap_spec self self objs h a a Ha Ha).
    by rewrite insert_insert_eq, (insert_id objs self a Ha).
  - rewrite (swap_spec self other _ h b a).
    2:{ by rewrite lookup_insert_ne, lookup_insert_eq. }
    2:{ by rewrite lookup_insert_eq. }
    f_equal. apply map_eq. intros k.
    destruct (decide (k = other)) as [->|Hk1]; [by rewrite lookup_insert_eq|].
    rewrite lookup_insert_ne by done.
    destruct (decide (k = self)) as [->|Hk2]; [by rewrite lookup_insert_eq|].
    by rewrite !lookup_insert_ne.
Qed.


(** ** Output *)

Lemma operator_output_loop_spec l : ∀ p o a h,
  live h p l →
  operator_output_loop (length l) p o a h = Returns (o ++ spaced l) a h.
Proof.
  induction l as [|v l IH]; intros p o a h Hlive; cbn [length operator_output_loop spaced].
  - by rewrite app_nil_r.
  - mstep ltac:(apply load_eq; by eapply live_head).
    rewrite IH.
    + by rewrite <- app_assoc.
    + intros q Hq. rewrite (Hlive q) by (cbn [length]; lia).
      f_equal. by apply lookup_cons_Z; lia.
Qed.

(** X27: [operator<<] writes an array as its elements between braces with
    one space between neighbours: for an array holding [l], the stream
    receives ['{'], then the elements of [l] in order, each but the first
    after a [' '], then ['}']; an empty array is written as ["{}"].  The
    array and the heap are not changed. *)
Theorem operator_output_format o a h l :
  owns a h l →
  operator_output build o a h = Returns (o ++ braced l) a h.
Proof.
  intros Hown. pose proof Hown as (Hlen & _ & Hlive & _).
  unfold operator_output. rewrite bind_this. unfold empty.
  destruct l as [|v l]; cbn [length braced] in *.
  - rewrite <- Hlen. change (Z.of_nat 0 =? 0) with true. cbn [negb].
    unfold bind, ret. by rewrite <- app_assoc.
  - replace (nUsed a =? 0) with false by (symmetry; apply Z.eqb_neq; lia).
    cbn [negb]. rewrite bind_assoc.
    mstep ltac:(apply front_spec; lia).
    rewrite Z.add_0_r, bind_assoc.
    mstep ltac:(apply load_eq; by eapply live_head).
    unfold begin, end_.
    replace (data a + nUsed a <? data a + 1) with false by (symmetry; apply Z.ltb_ge; lia).
    replace (Z.to_nat (data a + nUsed a - (data a + 1))) with (length l) by lia.
    erewrite bind_Returns.
    2:{ apply operator_output_loop_spec.
        intros q Hq. rewrite (Hlive q) by (cbn [length]; lia).
        f_equal. by apply lookup_cons_Z; lia. }
    unfold ret. f_equal. rewrite <- !app_assoc. reflexivity.
Qed.

(** ** The unused [growWithGap] *)


(** ** IndexTraits *)

(** X29: every specialisation of [IndexTraits] meets the requirement its
    comments state: [max_size] is positive and a value of [size_type], the
    [difference_type] is signed, and it holds every difference of two
    positions of an array, from [-max_size] to [max_size]. *)
Theorem index_traits_fit (Y : index_type) :
  0 < traits_max_size Y ≤ size_type_max Y ∧
  size_signed (difference_type Y) = true ∧
  size_type_min (difference_type Y) ≤ - traits_max_size Y ∧
  traits_max_size Y ≤ size_type_max (difference_type Y).
Proof. destruct Y; vm_compute; repeat split; congruence. Qed.

(** ** Copy assignment *)

Lemma bind_inv {A B} (m : M T A) (f : A → M T B) a h v a' h' :
  bind m f a h = Returns v a' h' →
  ∃ v1 a1 h1, m a h = Returns v1 a1 h1 ∧ f v1 a1 h1 = Returns v a' h'.
Proof. unfold bind. destruct (m a h) as [v1 a1 h1| |]; [eauto|done|done]. Qed.

Lemma SimTK_ERRCHK_inv b cond c a h v a' h' :
  SimTK_ERRCHK (T:=T) b cond c a h = Returns v a' h' → a' = a ∧ h' = h.
Proof.
  unfold SimTK_ERRCHK, SimTK_ERRCHK_ALWAYS, ret, throw.
  destruct b, cond; intros [=]; auto.
Qed.





(** ** Capacity *)







(** ** The request in bytes *)

Lemma size_t_id z : 0 ≤ z < 2 ^ 64 → size_t z = z.
Proof. intros. unfold size_t. apply Z.mod_small. lia. Qed.

(** Where the request is exact, [allocN] is the allocation of so many
    slots. *)
Lemma allocN_exact n a h :
  request_exact sizeof_T n → Bytes.allocN sizeof_T n a h = allocN n a h.
Proof.
  intros (Hn & Hfit). unfold PTRDIFF_MAX in Hfit.
  unfold Bytes.allocN, allocN. destruct (Z.eqb_spec n 0) as [|Hn0]; [reflexivity|].
  assert (n ≤ n * Z.pos sizeof_T) as Hle by nia.
  rewrite (size_t_id n) by lia. rewrite size_t_id by lia.
  unfold operator_new_array, operator_new, PTRDIFF_MAX.
  destruct (Z.ltb_spec (2 ^ 63 - 1) (n * Z.pos sizeof_T)); [lia|].
  destruct (Z.ltb_spec n 0); [lia|].
  rewrite Z.div_mul by lia. rewrite Z.max_r by lia. reflexivity.
Qed.

Lemma reserve_exact n a h :
  (nAllocated a < n → request_exact sizeof_T n) →
  Bytes.reserve build sizeof_T n a h = reserve build n a h.
Proof.
  intros Hex. unfold Bytes.reserve, reserve. rewrite !bind_this.
  destruct (Z.leb_spec n (nAllocated a)) as [|Hlt]; [reflexivity|].
  apply bind_cong. intros [] a1 h1 _.
  apply bind_eq; [apply allocN_exact, Hex, Hlt|reflexivity].
Qed.




(** ** Assignment from a range of known size *)

(** [reallocateIfAdvisable(n)] where it gives up the buffer: the block is
    freed, then one of [n] slots is allocated (none for [n = 0]). *)
Lemma reallocateIfAdvisable_exact n a h :
  heap_wf h → owns (mkArray (data a) 0 (nAllocated a)) h [] → 0 ≤ n →
  ¬ keeps_buffer (nAllocated a) n →
  ∃ h', reallocateIfAdvisable X n a h =
          Returns tt (mkArray (if decide (n = 0) then 0 else brk h) (nUsed a) n) h' ∧
        heap_wf h' ∧ brk h' = brk h + n ∧
        nalloc h' = (if decide (n = 0) then nalloc h else S (nalloc h)) ∧
        blocks h' = (if decide (n = 0) then delete (data a) (blocks h)
                     else <[brk h := n]> (delete (data a) (blocks h))) ∧
        (∀ q, cells h' !! q =
                if decide (brk h ≤ q < brk h + n) then Some None
                else if decide (data a ≤ q < data a + nAllocated a) then None
                else cells h !! q).
Proof.
  intros Hwf Hbuf Hn Hk.
  pose proof (owns_block_bounds _ _ _ Hwf Hbuf) as (_ & Hd0 & Hdb).
  pose proof Hwf as (Hbrk0 & Hcw0 & Hblk0).
  destruct Hbuf as (_ & Hle & _ & _ & Hnull & Hblk). cbn [data nUsed nAllocated] in *.
  unfold reallocateIfAdvisable. rewrite bind_this. rewrite minAlloc_eq.
  assert ((nAllocated a <? n) || (Z.max 4 n <? nAllocated a `quot` 2) = true) as ->.
  { apply orb_true_iff. unfold keeps_buffer in Hk.
    destruct (Z.ltb_spec (nAllocated a) n); [by left|].
    destruct (Z.ltb_spec (Z.max 4 n) (nAllocated a `quot` 2)); [by right|lia]. }
  unfold reallocateNoDestructOrConstruct, deallocateNoDestruct.
  assert (∃ h1, freeN (data a) a h = Returns tt a h1 ∧ heap_wf h1 ∧
                blocks h1 = delete (data a) (blocks h) ∧ brk h1 = brk h ∧
                nalloc h1 = nalloc h ∧
                ∀ q, cells h1 !! q =
                       if decide (data a ≤ q < data a + nAllocated a) then None
                       else cells h !! q) as (h1 & E1 & Hwf1 & Hbl1 & Hbrk1 & Hn1 & Hc1).
  { destruct (decide (nAllocated a = 0)) as [E0|E0].
    - exists h. rewrite Hnull by exact E0. split; [apply freeN_null|]. split; [exact Hwf|].
      split.
      { symmetry. apply delete_id. destruct (blocks h !! 0) eqn:E; [|reflexivity].
        apply Hblk0 in E. lia. }
      repeat split. intros q. case_goal; [lia|reflexivity].
    - apply freeN_spec; [exact Hwf|exact (Hblk E0)]. }
  repeat first [rewrite bind_this | rewrite bind_assoc].
  mstep ltac:(exact E1). rewrite bind_assoc.
  mstep ltac:(reflexivity). mstep ltac:(reflexivity).
  destruct (allocateNoConstruct_frame n (mkArray 0 (nUsed a) 0) h1 Hwf1 Hn)
    as (h2 & E2 & Hwf2 & _ & Hbrk2 & Hn2 & Hbl2 & Hc2).
  cbn [data nUsed nAllocated] in E2. rewrite Hbrk1 in *.
  exists h2. split; [exact E2|]. split; [exact Hwf2|]. split; [lia|].
  split; [by rewrite Hn2, Hn1|]. split.
  - rewrite Hbl2, Hbl1. reflexivity.
  - intros q. rewrite Hc2, Hc1. reflexivity.
Qed.

(** The result of the assignment, slot by slot and block by block. *)
Lemma assignImpl_exact first vs a h l :
  heap_wf h → owns a h l → live h first vs →
  (∀ q, first ≤ q < first + Z.of_nat (length vs) →
        ¬ data a ≤ q < data a + nAllocated a) →
  Z.of_nat (length vs) ≤ traits_max_size X →
  (keeps_buffer (nAllocated a) (Z.of_nat (length vs)) →
   ∃ h', assignImpl build X first (first + Z.of_nat (length vs)) a h =
           Returns tt (mkArray (data a) (Z.of_nat (length vs)) (nAllocated a)) h' ∧
         same_alloc h h' ∧
         ∀ q, cells h' !! q =
                if decide (data a ≤ q < data a + Z.of_nat (length vs))
                then Some (vs !! Z.to_nat (q - data a))
                else if decide (data a ≤ q < data a + nUsed a) then Some None
                else cells h !! q) ∧
  (¬ keeps_buffer (nAllocated a) (Z.of_nat (length vs)) →
   ∃ h', assignImpl build X first (first + Z.of_nat (length vs)) a h =
           Returns tt (mkArray (if decide (Z.of_nat (length vs) = 0) then 0 else brk h)
                               (Z.of_nat (length vs)) (Z.of_nat (length vs))) h' ∧
         nalloc h' = (if decide (Z.of_nat (length vs) = 0) then nalloc h else S (nalloc h)) ∧
         blocks h' = (if decide (Z.of_nat (length vs) = 0) then delete (data a) (blocks h)
                      else <[brk h := Z.of_nat (length vs)]> (delete (data a) (blocks h))) ∧
         ∀ q, cells h' !! q =
                if decide (brk h ≤ q < brk h + Z.of_nat (length vs))
                then Some (vs !! Z.to_nat (q - brk h))
                else if decide (data a ≤ q < data a + nAllocated a) then None
                else cells h !! q).
Proof.
  intros Hwf Hown Hsrc Hdisj Hfit.
  pose proof (max_size_bounds X) as HM. pose proof (max_size_lt_ull X) as HU.
  pose proof (owns_block_bounds _ _ _ Hwf Hown) as (Hu0 & Hd0 & Hdb).
  assert (nUsed a ≤ nAllocated a) as Hle by (destruct Hown as (_ & ? & _); lia).
  destruct (clear_spec a h l Hown) as (h1 & E1 & Hsa1 & Hc1 & Hown1).
  pose proof (clear_heap_wf _ _ _ _ _ Hwf Hown E1) as Hwf1.
  set (m := Z.of_nat (length vs)) in *.
  set (a2 := mkArray (data a) m (nAllocated a)).
  assert (∀ K : M T unit,
            assignImpl build X first (first + m) a h =
              (reallocateIfAdvisable X m ;; K) a2 h1 →
            True) as _ by auto.
  assert (assignImpl build X first (first + m) a h =
            (reallocateIfAdvisable X m ;; a' <- this ;;
             copyConstruct (data a') (data a' + nUsed a') first) a2 h1) as Estart.
  { unfold assignImpl.
    mstep ltac:(apply SimTK_ERRCHK_true; lia).
    replace (first + m - first) with m by lia.
    mstep ltac:(apply SimTK_ERRCHK_true; apply isSizeOK_iff; lia).
    mstep ltac:(exact E1). mstep ltac:(reflexivity). mstep ltac:(reflexivity).
    cbn [data nUsed nAllocated]. rewrite to_size_type_small by lia. reflexivity. }
  assert (∀ q, first ≤ q < first + m → 0 < q < brk h) as Hsrcb.
  { intros q Hq. destruct (live_is_object h first vs q Hsrc Hq) as [v Hv].
    destruct Hwf as (_ & Hcw & _). apply Hcw. rewrite Hv. eauto. }
  split.
  - intros Hk. rewrite Estart.
    mstep ltac:(apply reallocateIfAdvisable_keep; exact Hk).
    rewrite bind_this. cbn [a2 data nUsed]. unfold m. rewrite copyConstruct_eq.
    destruct (copyConstruct_loop_spec vs (data a) first a2 h1) as (h4 & E4 & Hsa4 & Hc4).
    { intros q Hq. rewrite Hc1. case_goal; [exfalso; eapply Hdisj; eauto; lia|].
      apply Hsrc, Hq. }
    { destruct Hown1 as (_ & _ & _ & Hraw1 & _). cbn [data nUsed nAllocated] in Hraw1.
      destruct Hk as (Hk & _). intros q Hq. apply Hraw1. fold m in Hq. lia. }
    exists h4. split; [exact E4|]. split; [eapply same_alloc_trans; eauto|].
    intros q. rewrite Hc4, Hc1. reflexivity.
  - intros Hk. rewrite Estart.
    destruct (reallocateIfAdvisable_exact m a2 h1 Hwf1 Hown1 ltac:(lia) Hk)
      as (h2 & E2 & Hwf2 & Hbrk2 & Hn2 & Hbl2 & Hc2).
    destruct Hsa1 as (Hbl1 & Hbrk1 & Hn1). rewrite Hbl1, Hbrk1, Hn1 in *.
    cbn [a2 data nUsed nAllocated] in *.
    mstep ltac:(exact E2). rewrite bind_this. cbn [data nUsed].
    unfold m. rewrite copyConstruct_eq. fold m.
    set (p := if decide (m = 0) then 0 else brk h) in *.
    destruct (copyConstruct_loop_spec vs p first (mkArray p m m) h2) as (h4 & E4 & Hsa4 & Hc4).
    { intros q Hq. fold m in Hq. rewrite Hc2, Hc1.
      pose proof (Hsrcb q Hq). pose proof (Hdisj q Hq).
      repeat (case_goal; [lia|]). apply Hsrc, Hq. }
    { intros q Hq. fold m in Hq. rewrite Hc2. unfold p in Hq.
      destruct (decide (m = 0)); [lia|]. case_goal; [reflexivity|lia]. }
    exists h4. split; [exact E4|]. destruct Hsa4 as (Hbl4 & _ & Hn4).
    split; [by rewrite Hn4|]. split; [by rewrite Hbl4|].
    intros q. rewrite Hc4, Hc2, Hc1. fold m. unfold p.
    destruct (decide (m = 0)); by_cases.
Qed.


(** C5 (as amended): assignment from a range of [m] known elements that
    lies outside the buffer destroys the current elements and
    copy-constructs the [m] source values in order; afterwards the length is
    [m] and the source is as it was.  With [minAlloc = 4], the buffer is
    reused, and nothing is allocated or released, when it fits and the
    capacity is less than twice [max(minAlloc, m)]; the block is freed and
    replaced by a new one of exactly [m] slots (by none when [m = 0]) when
    it does not fit or the capacity exceeds twice [max(minAlloc, m)] plus
    one.  At most one allocation is made. *)
Theorem assign_known_size first vs a h l :
  heap_wf h → owns a h l → live h first vs →
  (∀ q, first ≤ q < first + Z.of_nat (length vs) →
        ¬ data a ≤ q < data a + nAllocated a) →
  Z.of_nat (length vs) ≤ traits_max_size X →
  ∃ a' h', assignImpl build X first (first + Z.of_nat (length vs)) a h = Returns tt a' h' ∧
           owns a' h' vs ∧ size a' = Z.of_nat (length vs) ∧ live h' first vs ∧
           (Z.of_nat (length vs) ≤ capacity a →
            capacity a < 2 * Z.max 4 (Z.of_nat (length vs)) →
            data a' = data a ∧ capacity a' = capacity a ∧ same_alloc h h') ∧
           (capacity a < Z.of_nat (length vs) ∨
            2 * Z.max 4 (Z.of_nat (length vs)) + 1 < capacity a →
            capacity a' = Z.of_nat (length vs) ∧
            (capacity a ≠ 0 → blocks h' !! data a ≠ Some (capacity a)) ∧
            (∀ q, data a ≤ q < data a + capacity a →
                  ¬ data a' ≤ q < data a' + Z.of_nat (length vs) →
                  cells h' !! q = None) ∧
            (Z.of_nat (length vs) = 0 → data a' = 0) ∧
            nalloc h' = (if decide (Z.of_nat (length vs) = 0) then nalloc h
                         else S (nalloc h))) ∧
           (nalloc h' ≤ S (nalloc h))%nat ∧
           (∀ q, ¬ data a ≤ q < data a + capacity a → is_Some (cells h !! q) →
                 cells h' !! q = cells h !! q).
Proof.
  intros Hwf Hown Hsrc Hdisj Hm.
  pose proof (owns_block_bounds _ _ _ Hwf Hown) as (Hu0 & Hd0 & Hdb).
  pose proof Hwf as (Hbrk0 & Hcw0 & Hblk0).
  pose proof Hown as (Hlen & Hle & Hlive & Hraw & Hnull & Hblk).
  assert (∀ q, first ≤ q < first + Z.of_nat (length vs) → 0 < q < brk h) as Hsrcb.
  { intros q Hq. destruct (live_is_object h first vs q Hsrc Hq) as [v Hv].
    apply Hcw0. rewrite Hv. eauto. }
  destruct (assignImpl_spec first vs a h l Hwf Hown Hsrc Hdisj Hm)
    as (a' & h' & E & _ & Hown' & _ & _).
  destruct (assignImpl_exact first vs a h l Hwf Hown Hsrc Hdisj Hm) as (Hkeep & Hrepl).
  exists a', h'. split; [exact E|]. split; [exact Hown'|].
  split; [by destruct Hown' as (-> & _)|]. unfold capacity.
  set (m := Z.of_nat (length vs)) in *.
  destruct (decide (keeps_buffer (nAllocated a) m)) as [K|K].
  - destruct (Hkeep K) as (h'' & E' & Hsa & Hc). rewrite E in E'.
    injection E' as -> ->. cbn [data nUsed nAllocated].
    destruct Hsa as (Hbl & Hbrk & Hn). pose proof K as (K1 & _).
    split.
    { intros q Hq. fold m in Hq. rewrite Hc. pose proof (Hdisj q Hq).
      repeat (case_goal; [lia|]). apply Hsrc, Hq. }
    split; [intros _ _; repeat split; assumption|].
    split.
    { intros Hout. exfalso. unfold keeps_buffer in K.
      Z.quot_rem_to_equations. lia. }
    split; [lia|].
    intros q Hq Hs. rewrite Hc. repeat (case_goal; [lia|]). reflexivity.
  - destruct (Hrepl K) as (h'' & E' & Hn & Hbl & Hc). rewrite E in E'.
    injection E' as -> ->. cbn [data nUsed nAllocated].
    split.
    { intros q Hq. fold m in Hq. rewrite Hc. pose proof (Hdisj q Hq).
      pose proof (Hsrcb q Hq). repeat (case_goal; [lia|]). apply Hsrc, Hq. }
    split.
    { intros H1 H2. exfalso. apply K. unfold keeps_buffer.
      Z.quot_rem_to_equations. lia. }
    split.
    { intros _. split; [reflexivity|]. split.
      { intros Hc0. rewrite Hbl. pose proof (Hblk0 _ _ (Hblk Hc0)).
        destruct (decide (m = 0)).
        - rewrite lookup_delete_eq. discriminate.
        - rewrite lookup_insert_ne by lia. rewrite lookup_delete_eq. discriminate. }
      split.
      { intros q Hq Hnq. rewrite Hc. destruct (decide (m = 0)); by_cases. }
      split; [|exact Hn].
      intros Hm0. destruct (decide (m = 0)); [reflexivity|lia]. }
    split; [rewrite Hn; case_goal; lia|].
    intros q Hq Hs. rewrite Hc. apply Hcw0 in Hs. by_cases.
Qed.


(** ** The class with requests in bytes

    Where every request is exact, the member functions of [Bytes] are the
    ones that take their requests in elements. *)

Lemma request_exact_le n m :
  request_exact sizeof_T m → 0 ≤ n ≤ m → request_exact sizeof_T n.
Proof.
  intros (H0 & H1) Hn. split; [lia|].
  pose proof (Z.mul_le_mono_nonneg_r n m (Z.pos sizeof_T) ltac:(lia) ltac:(lia)). lia.
Qed.

Lemma assert_inv cond a h v a' h' :
  assert (T:=T) build cond a h = Returns v a' h' → a' = a ∧ h' = h.
Proof. unfold assert, ret, fault. destruct build, cond; intros [=]; auto. Qed.

Lemma calcNewCapacityForGrowthBy_inv n a h c a' h' :
  0 ≤ nAllocated a → 0 ≤ n → nAllocated a + n < 2 ^ 64 →
  calcNewCapacityForGrowthBy X n a h = Returns c a' h' →
  a' = a ∧ h' = h ∧ c = grown_capacity X (nAllocated a) n ∧
  nAllocated a + n ≤ traits_max_size X.
Proof.
  intros Hc Hn Hs E.
  destruct (decide (nAllocated a + n ≤ traits_max_size X)) as [Hfit|Hout].
  - rewrite calcNewCapacityForGrowthBy_ok in E by assumption.
    injection E as <- <- <-. auto.
  - rewrite calcNewCapacityForGrowthBy_limit in E by lia. discriminate.
Qed.

Lemma allocateNoConstruct_bytes n a h :
  request_exact sizeof_T n →
  Bytes.allocateNoConstruct sizeof_T n a h = allocateNoConstruct n a h.
Proof.
  intros Hex. unfold Bytes.allocateNoConstruct, allocateNoConstruct.
  apply bind_eq; [by apply allocN_exact|reflexivity].
Qed.

Lemma reallocateIfAdvisable_bytes n a h :
  (¬ keeps_buffer (nAllocated a) n → request_exact sizeof_T n) →
  Bytes.reallocateIfAdvisable X sizeof_T n a h = reallocateIfAdvisable X n a h.
Proof.
  intros Hex. unfold Bytes.reallocateIfAdvisable, reallocateIfAdvisable.
  rewrite !bind_this. rewrite minAlloc_eq.
  destruct ((nAllocated a <? n) || (Z.max 4 n <? nAllocated a `quot` 2)) eqn:Hc;
    [|reflexivity].
  unfold Bytes.reallocateNoDestructOrConstruct, reallocateNoDestructOrConstruct.
  apply bind_cong. intros [] a1 h1 _. apply allocateNoConstruct_bytes, Hex.
  intros (H1 & H2). apply orb_true_iff in Hc as [Hc|Hc]; apply Z.ltb_lt in Hc; lia.
Qed.

Lemma clear_members a h v a' h' :
  clear (T:=T) a h = Returns v a' h' → a' = mkArray (data a) 0 (nAllocated a).
Proof.
  unfold clear. rewrite bind_this. intros E.
  apply bind_inv in E as ([] & a1 & h1 & E1 & E2).
  apply destructRange_array in E1 as ->. by injection E2 as <- <-.
Qed.

Lemma growAtEnd_bytes n a h :
  0 ≤ nAllocated a → 0 ≤ n → nAllocated a + n < 2 ^ 64 →
  grows_exactly sizeof_T X a n →
  Bytes.growAtEnd build X sizeof_T n a h = growAtEnd build X n a h.
Proof.
  intros Hc Hn Hs Hex. unfold Bytes.growAtEnd, growAtEnd.
  apply bind_cong. intros [] a0 h0 E0. apply assert_inv in E0 as (-> & ->).
  apply bind_cong. intros c a1 h1 E1.
  apply calcNewCapacityForGrowthBy_inv in E1 as (-> & -> & -> & Hfit); try assumption.
  apply bind_cong. intros [] a2 h2 E2. injection E2 as <- <-.
  rewrite !bind_this. cbn [nAllocated].
  apply bind_eq; [apply allocN_exact, Hex, Hfit|reflexivity].
Qed.

Lemma insertGapAt_bytes p n a h :
  0 ≤ nAllocated a → 0 ≤ n → nAllocated a + n < 2 ^ 64 →
  ((arith X (size a + n) <=? capacity a) = false → grows_exactly sizeof_T X a n) →
  Bytes.insertGapAt build X sizeof_T p n a h = insertGapAt build X p n a h.
Proof.
  intros Hc Hn Hs Hex. unfold Bytes.insertGapAt, insertGapAt. rewrite !bind_this.
  apply bind_cong. intros [] a0 h0 E0. apply SimTK_ERRCHK_inv in E0 as (-> & ->).
  destruct (n =? 0); [reflexivity|].
  destruct (arith X (size a + n) <=? capacity a); [reflexivity|].
  apply bind_cong. intros c a1 h1 E1.
  apply calcNewCapacityForGrowthBy_inv in E1 as (-> & -> & -> & Hfit); try assumption.
  apply bind_cong. intros [] a2 h2 E2.
  apply bind_eq; [apply allocN_exact, (Hex eq_refl), Hfit|reflexivity].
Qed.

Lemma reserve_bytes n a h :
  (nAllocated a < n → request_exact sizeof_T n) →
  Bytes.reserve build sizeof_T n a h = reserve build n a h.
Proof. apply reserve_exact. Qed.

Lemma insertFill_bytes p n v a h :
  0 ≤ nAllocated a → 0 ≤ n → nAllocated a + n < 2 ^ 64 →
  ((arith X (size a + n) <=? capacity a) = false → grows_exactly sizeof_T X a n) →
  Bytes.insertFill build X sizeof_T p n v a h = insertFill build X p n v a h.
Proof.
  intros. unfold Bytes.insertFill, insertFill.
  apply bind_eq; [by apply insertGapAt_bytes|reflexivity].
Qed.

Lemma insertOne_bytes p v a h :
  0 ≤ nAllocated a → nAllocated a + 1 < 2 ^ 64 →
  grows_exactly sizeof_T X a 1 →
  Bytes.insertOne build X sizeof_T p v a h = insertOne build X p v a h.
Proof.
  intros. unfold Bytes.insertOne, insertOne.
  apply bind_eq; [apply insertGapAt_bytes; auto; lia|reflexivity].
Qed.

Lemma insertRange_bytes p first last1 a h :
  0 ≤ nAllocated a → 0 ≤ to_size_type X (last1 - first) →
  nAllocated a + to_size_type X (last1 - first) < 2 ^ 64 →
  grows_exactly sizeof_T X a (to_size_type X (last1 - first)) →
  Bytes.insertRange build X sizeof_T p first last1 a h =
    insertRange build X p first last1 a h.
Proof.
  intros Hc Hn Hs Hex. unfold Bytes.insertRange, insertRange. rewrite !bind_this.
  apply bind_cong. intros [] a0 h0 E0. apply SimTK_ERRCHK_inv in E0 as (-> & ->).
  apply bind_cong. intros [] a0 h0 E0. apply SimTK_ERRCHK_inv in E0 as (-> & ->).
  unfold Bytes.insertImpl, insertImpl. rewrite !bind_this.
  apply bind_cong. intros [] a0 h0 E0. apply SimTK_ERRCHK_inv in E0 as (-> & ->).
  apply bind_cong. intros [] a0 h0 E0. apply SimTK_ERRCHK_inv in E0 as (-> & ->).
  apply bind_eq; [apply insertGapAt_bytes; auto|reflexivity].
Qed.

Lemma make_room_bytes a h :
  0 ≤ nAllocated a → nAllocated a + 1 < 2 ^ 64 →
  (nAllocated a = nUsed a → grows_exactly sizeof_T X a 1) →
  (if nAllocated a =? nUsed a then Bytes.growAtEnd build X sizeof_T 1 else ret tt) a h =
  (if nAllocated a =? nUsed a then growAtEnd build X 1 else ret tt) a h.
Proof.
  intros. destruct (Z.eqb_spec (nAllocated a) (nUsed a)); [|reflexivity].
  apply growAtEnd_bytes; auto; lia.
Qed.

Lemma push_back_bytes v a h :
  0 ≤ nAllocated a → nAllocated a + 1 < 2 ^ 64 →
  (nAllocated a = nUsed a → grows_exactly sizeof_T X a 1) →
  Bytes.push_back build X sizeof_T v a h = push_back build X v a h.
Proof.
  intros. unfold Bytes.push_back, push_back. rewrite !bind_this.
  apply bind_eq; [by apply make_room_bytes|reflexivity].
Qed.

Lemma push_back_default_bytes a h :
  0 ≤ nAllocated a → nAllocated a + 1 < 2 ^ 64 →
  (nAllocated a = nUsed a → grows_exactly sizeof_T X a 1) →
  Bytes.push_back_default T_default build X sizeof_T a h =
    push_back_default T_default build X a h.
Proof.
  intros. unfold Bytes.push_back_default, push_back_default. rewrite !bind_this.
  apply bind_eq; [by apply make_room_bytes|reflexivity].
Qed.

Lemma raw_push_back_bytes a h :
  0 ≤ nAllocated a → nAllocated a + 1 < 2 ^ 64 →
  (nAllocated a = nUsed a → grows_exactly sizeof_T X a 1) →
  Bytes.raw_push_back build X sizeof_T a h = raw_push_back build X a h.
Proof.
  intros. unfold Bytes.raw_push_back, raw_push_back. rewrite !bind_this.
  apply bind_eq; [by apply make_room_bytes|reflexivity].
Qed.

Lemma assignFill_bytes n v a h :
  - 2 ^ 63 ≤ n < 2 ^ 64 →
  (0 ≤ n ≤ traits_max_size X → ¬ keeps_buffer (nAllocated a) n →
   request_exact sizeof_T n) →
  Bytes.assignFill X sizeof_T n v a h = assignFill X n v a h.
Proof.
  intros Hty Hex. unfold Bytes.assignFill, assignFill.
  pose proof (max_size_bounds X) as HM.
  unfold SimTK_ERRCHK_ALWAYS. destruct (isSizeOK X n) eqn:Hok; [|reflexivity].
  apply bind_cong. intros [] a0 h0 E0. injection E0 as <- <-.
  apply bind_cong. intros [] a1 h1 E1. apply clear_members in E1 as ->.
  apply bind_eq; [|reflexivity]. apply reallocateIfAdvisable_bytes. cbn [nAllocated].
  apply Hex.
  destruct (decide (n < 0)); [rewrite isSizeOK_negative in Hok by lia; discriminate|].
  apply isSizeOK_iff in Hok; lia.
Qed.

Lemma assignImpl_bytes first last1 a h :
  request_exact sizeof_T (to_size_type X (last1 - first)) →
  Bytes.assignImpl build X sizeof_T first last1 a h = assignImpl build X first last1 a h.
Proof.
  intros Hex. unfold Bytes.assignImpl, assignImpl.
  apply bind_cong. intros [] a0 h0 _. apply bind_cong. intros [] a1 h1 _.
  apply bind_cong. intros [] a2 h2 _. apply bind_cong. intros [] a3 h3 E3.
  injection E3 as <- <-. rewrite !bind_this. cbn [nUsed].
  apply bind_eq; [apply reallocateIfAdvisable_bytes; auto|reflexivity].
Qed.

Lemma assignRange_bytes first last1 a h :
  request_exact sizeof_T (to_size_type X (last1 - first)) →
  Bytes.assignRange build X sizeof_T first last1 a h = assignRange build X first last1 a h.
Proof.
  intros Hex. unfold Bytes.assignRange, assignRange. rewrite !bind_this.
  apply bind_cong. intros [] a0 h0 _. apply bind_cong. intros [] a1 h1 _.
  by apply assignImpl_bytes.
Qed.

Lemma Array_n_bytes n a h :
  request_exact sizeof_T n →
  Bytes.Array_n T_default build X sizeof_T n a h = Array_n T_default build X n a h.
Proof.
  intros Hex. unfold Bytes.Array_n, Array_n.
  apply bind_cong. intros [] a0 h0 _.
  apply bind_eq; [by apply allocateNoConstruct_bytes|reflexivity].
Qed.

Lemma Array_fill_bytes n v a h :
  request_exact sizeof_T n →
  Bytes.Array_fill build X sizeof_T n v a h = Array_fill build X n v a h.
Proof.
  intros Hex. unfold Bytes.Array_fill, Array_fill.
  apply bind_cong. intros [] a0 h0 _.
  apply bind_eq; [by apply allocateNoConstruct_bytes|reflexivity].
Qed.

Lemma Array_range_bytes first last1 a h :
  request_exact sizeof_T (to_size_type X (last1 - first)) →
  Bytes.Array_range build X sizeof_T first last1 a h = Array_range build X first last1 a h.
Proof.
  intros Hex. unfold Bytes.Array_range, Array_range.
  apply bind_cong. intros [] a0 h0 _. apply bind_cong. intros [] a1 h1 _.
  apply bind_cong. intros [] a2 h2 E2. injection E2 as <- <-.
  rewrite !bind_this. cbn [nUsed].
  apply bind_eq; [by apply allocateNoConstruct_bytes|reflexivity].
Qed.

Lemma Array_copy_bytes src a h :
  request_exact sizeof_T (nUsed src) →
  Bytes.Array_copy sizeof_T src a h = Array_copy src a h.
Proof.
  intros Hex. unfold Bytes.Array_copy, Array_copy.
  apply bind_cong. intros [] a2 h2 E2. injection E2 as <- <-.
  rewrite !bind_this. cbn [nUsed].
  apply bind_eq; [by apply allocateNoConstruct_bytes|reflexivity].
Qed.

Lemma resizeFill_bytes sz v a h :
  (nAllocated a < sz → request_exact sizeof_T sz) →
  Bytes.resizeFill build X sizeof_T sz v a h = resizeFill build X sz v a h.
Proof.
  intros Hex. unfold Bytes.resizeFill, resizeFill. rewrite !bind_this.
  destruct (sz =? nUsed a); [reflexivity|]. destruct (sz =? 0); [reflexivity|].
  destruct (sz <? nUsed a); [reflexivity|].
  apply bind_eq; [by apply reserve_bytes|reflexivity].
Qed.

Lemma resize_bytes sz a h :
  (nAllocated a < sz → request_exact sizeof_T sz) →
  Bytes.resize T_default build X sizeof_T sz a h = resize T_default build X sz a h.
Proof.
  intros Hex. unfold Bytes.resize, resize. rewrite !bind_this.
  destruct (sz =? nUsed a); [reflexivity|]. destruct (sz =? 0); [reflexivity|].
  destruct (sz <? nUsed a); [reflexivity|].
  apply bind_eq; [by apply reserve_bytes|reflexivity].
Qed.

(** A run of appends requests capacities up to twice the final length. *)
Lemma appends_bytes (values : list T) : ∀ a h l,
  heap_wf h → owns a h l → nAllocated a ≤ traits_max_size X →
  request_exact sizeof_T
    (Z.min (traits_max_size X)
           (Z.max 4 (2 * (nUsed a + Z.of_nat (length values))))) →
  Bytes.appends build X sizeof_T values a h = appends build X values a h.
Proof.
  induction values as [|v values IH]; intros a h l Hwf Hown Hmax Hex;
    cbn [Bytes.appends appends]; [reflexivity|].
  pose proof (max_size_bounds X) as HM. pose proof (max_size_lt_ull X) as HU.
  pose proof (owns_block_bounds _ _ _ Hwf Hown) as (Hu0 & Hd0 & Hdb).
  pose proof Hown as (Hlen & Hle & _). cbn [length] in Hex.
  assert (Bytes.push_back build X sizeof_T v a h = push_back build X v a h) as Epb.
  { destruct (decide (nAllocated a = nUsed a)) as [Hfull|Hroom].
    + apply push_back_bytes; [lia|lia|].
      intros _ Hfit. eapply request_exact_le; [exact Hex|].
      unfold grown_capacity. lia.
    + apply push_back_bytes; [lia|lia|]. intros ?. lia. }
  apply bind_eq; [exact Epb|].
  - intros p a1 h1 E1. rewrite Epb in E1.
    destruct (push_back_total v a h l Hwf Hown Hmax)
      as [(p' & a' & h' & E & Hwf' & Hown' & Hc')|E]; rewrite E in E1; [|discriminate].
    injection E1 as <- <- <-.
    eapply IH; eauto.
    assert (nUsed a' = nUsed a + 1) as ->.
    { destruct Hown' as (Hl' & _). rewrite length_app in Hl'. cbn [length] in Hl'. lia. }
    eapply request_exact_le; [exact Hex|]. lia.
Qed.

Lemma assignImpl_input_bytes values a h l :
  heap_wf h → owns a h l → nAllocated a ≤ traits_max_size X →
  request_exact sizeof_T
    (Z.min (traits_max_size X) (Z.max 4 (2 * Z.of_nat (length values)))) →
  Bytes.assignImpl_input build X sizeof_T values a h = assignImpl_input build X values a h.
Proof.
  intros Hwf Hown Hmax Hex. unfold Bytes.assignImpl_input, assignImpl_input.
  destruct (clear_spec a h l Hown) as (h1 & E1 & Hsa1 & Hc1 & Hown1).
  pose proof (clear_heap_wf _ _ _ _ _ Hwf Hown E1) as Hwf1.
  rewrite !(bind_Returns _ _ _ _ _ _ _ E1).
  assert (∀ vs, Bytes.assignImpl_input_loop build X sizeof_T vs =
                Bytes.appends build X sizeof_T vs) as ->.
  { induction vs as [|w vs IHvs]; cbn; [reflexivity|]. by rewrite IHvs. }
  rewrite assignImpl_input_loop_eq.
  eapply appends_bytes; eauto.
Qed.

(** Every operation called under [requires] is the one that takes its
    requests in elements. *)
Lemma run_bytes op a h l :
  heap_wf h → owns a h l → inv X a → requires sizeof_T X op a h l →
  Bytes.run T_default build X sizeof_T op a h = run T_default build X op a h.
Proof.
  intros Hwf Hown Hinv Hreq. pose proof (inv_max a Hinv) as Hmax.
  pose proof (max_size_bounds X) as HM. pose proof (max_size_lt_ull X) as HU.
  pose proof (size_type_min_ge X) as Hmin. pose proof (size_type_max_lt_ull X) as HP.
  pose proof (size_type_max_lt_ull (promoted X)) as HPP.
  pose proof (owns_block_bounds _ _ _ Hwf Hown) as (Hu0 & Hd0 & Hdb).
  pose proof Hown as (Hlen & Hle & _).
  destruct op; cbn [Bytes.run run requires] in *; try reflexivity.
  - (* Array_(n) *) apply Array_n_bytes, Hreq.
  - (* Array_(n, initVal) *) apply Array_fill_bytes, Hreq.
  - (* Array_(first, last1) *)
    destruct Hreq as ((vs & Hsrc & -> & Hm & _) & Hex).
    apply Array_range_bytes.
    replace (first + Z.of_nat (length vs) - first) with (Z.of_nat (length vs)) in * by lia.
    by rewrite to_size_type_small by lia.
  - (* Array_(src) *) apply Array_copy_bytes, Hreq.
  - (* assign(n, fillValue) *)
    destruct Hreq as (Hty & Hex). apply assignFill_bytes; [lia|auto].
  - (* assign(first, last1) *)
    destruct Hreq as ((vs & Hsrc & -> & Hm & _) & Hex).
    apply assignRange_bytes.
    replace (first + Z.of_nat (length vs) - first) with (Z.of_nat (length vs)) in * by lia.
    by rewrite to_size_type_small by lia.
  - (* assign from an input iterator *)
    eapply assignImpl_input_bytes; eauto.
  - (* operator=(const Array_<T2,X2>&) *)
    destruct Hreq as ((vs & Hsrc & Hend & Hm & _) & Hex).
    unfold Bytes.operator_assign_converting, operator_assign_converting, begin, end_.
    apply assignImpl_bytes.
    replace (data src + nUsed src - data src) with (nUsed src) by lia.
    assert (nUsed src = Z.of_nat (length vs)) as Hn by lia.
    rewrite to_size_type_small; [exact Hex|lia].
  - (* resize(sz) *) apply resize_bytes. intros _. apply Hreq.
  - (* resize(sz, initVal) *) apply resizeFill_bytes. intros _. apply Hreq.
  - (* reserve(newCapacity) *)
    apply reserve_bytes. intros Hlt. apply Hreq. lia.
  - (* insert(p, n, value) *)
    destruct Hreq as (_ & Hn & Hty & Hex).
    apply bind_eq; [|reflexivity]. apply insertFill_bytes; auto; lia.
  - (* insert(p, value) *)
    destruct Hreq as (_ & Hty & Hex).
    apply bind_eq; [|reflexivity]. apply insertOne_bytes; auto; lia.
  - (* insert(p, first, last1) *)
    destruct Hreq as (_ & (vs & Hsrc & -> & Hm & _) & Hty & Hex).
    assert (to_size_type X (first + Z.of_nat (length vs) - first) =
            first + Z.of_nat (length vs) - first) as Hts
      by (apply to_size_type_small; lia).
    apply bind_eq; [|reflexivity].
    apply insertRange_bytes; rewrite ?Hts; auto; lia.
  - (* push_back(value) *)
    apply bind_eq; [|reflexivity]. apply push_back_bytes; auto; lia.
  - (* push_back() *)
    apply bind_eq; [|reflexivity]. apply push_back_default_bytes; auto; lia.
  - (* raw_push_back() *)
    apply bind_eq; [|reflexivity]. apply raw_push_back_bytes; auto; lia.
Qed.

Lemma operator_assign_bytes self src (objs : gmap Z Array) h s :
  objs !! src = Some s → 0 ≤ nUsed s ≤ traits_max_size X →
  request_exact sizeof_T (nUsed s) →
  Bytes.operator_assign build X sizeof_T self src objs h =
    operator_assign build X self src objs h.
Proof.
  intros Hsrc Hn Hex. unfold Bytes.operator_assign, operator_assign.
  destruct (negb (self =? src)); [|reflexivity]. rewrite Hsrc.
  unfold call. destruct (objs !! self) as [a|]; [|reflexivity].
  rewrite assignImpl_bytes; [reflexivity|].
  unfold begin, end_. replace (data s + nUsed s - data s) with (nUsed s) by lia.
  by rewrite to_size_type_small.
Qed.


(** ** The operations of the class with requests in bytes *)

(** Appends within the capacity request nothing. *)
Lemma appends_inplace_bytes (values : list T) : ∀ a h l,
  heap_wf h → owns a h l → nAllocated a ≤ traits_max_size X →
  nUsed a + Z.of_nat (length values) ≤ nAllocated a →
  Bytes.appends build X sizeof_T values a h = appends build X values a h.
Proof.
  induction values as [|v values IH]; intros a h l Hwf Hown Hmax Hfit;
    cbn [Bytes.appends appends length] in *; [reflexivity|].
  pose proof (max_size_lt_ull X) as HU.
  pose proof (owns_block_bounds _ _ _ Hwf Hown) as (Hu0 & _).
  assert (Bytes.push_back build X sizeof_T v a h = push_back build X v a h) as Epb.
  { apply push_back_bytes; [lia|lia|]. intros ?. lia. }
  apply bind_eq; [exact Epb|].
  intros p a1 h1 E1. rewrite Epb in E1.
  assert (cells h !! (data a + nUsed a) = Some None) as Hslot.
  { destruct Hown as (_ & _ & _ & Hraw & _). apply Hraw. lia. }
  rewrite push_back_inplace in E1 by (try exact Hslot; lia).
  injection E1 as <- <- <-.
  destruct (owns_append v a h l Hwf Hown ltac:(lia)) as (Hwf1 & Hown1).
  eapply IH; eauto; cbn [nUsed nAllocated]; lia.
Qed.

(** X5: [insert(p, n, value)] at index [i] of an array holding [l], with
    capacity at most [max_size].  When the [n] elements fit the spare
    capacity, or capacity plus [n] is at most [max_size] and the grown
    capacity is requested exactly, the call returns a pointer to index [i]
    of the array, which then holds the first [i] elements of [l], [n] copies
    of the value and the rest of [l]; the length has grown by [n], the
    capacity has not shrunk and is at most [max_size], and an insertion that
    fits the spare capacity keeps the buffer and allocates nothing.  When
    the elements do not fit the spare capacity, capacity plus [n] exceeds
    [max_size] and is a value of the promoted size type, the call throws
    SizeLimitExceeded, in either build, and leaves the array and the heap as
    they were. *)
Theorem insertFill_correct (i k : nat) v a h l :
  heap_wf h → owns a h l → (i ≤ length l)%nat →
  nAllocated a ≤ traits_max_size X →
  (nUsed a + Z.of_nat k ≤ nAllocated a ∨
   nAllocated a + Z.of_nat k ≤ traits_max_size X ∧
   request_exact sizeof_T (grown_capacity X (nAllocated a) (Z.of_nat k)) →
   ∃ a' h', Bytes.insertFill build X sizeof_T (data a + Z.of_nat i) (Z.of_nat k) v a h =
              Returns (data a' + Z.of_nat i) a' h' ∧
            owns a' h' (take i l ++ replicate k v ++ drop i l) ∧
            size a' = size a + Z.of_nat k ∧
            capacity a ≤ capacity a' ≤ traits_max_size X ∧
            (nUsed a + Z.of_nat k ≤ nAllocated a →
             data a' = data a ∧ capacity a' = capacity a ∧ nalloc h' = nalloc h)) ∧
  (nAllocated a < nUsed a + Z.of_nat k →
   traits_max_size X < nAllocated a + Z.of_nat k →
   nAllocated a + Z.of_nat k ≤ size_type_max (promoted X) →
   Bytes.insertFill build X sizeof_T (data a + Z.of_nat i) (Z.of_nat k) v a h =
     Throws SizeLimitExceeded a h).
Proof.
  intros Hwf Hown Hi Hmax.
  pose proof (max_size_bounds X) as HM. pose proof (max_size_lt_ull X) as HU.
  pose proof (size_type_max_lt_ull (promoted X)) as HPP.
  pose proof (owns_block_bounds _ _ _ Hwf Hown) as (Hu0 & Hd0 & Hdb).
  pose proof Hown as (Hlen & Hle & _).
  destruct (insertFill_slots i k v a h l Hwf Hown Hi Hmax) as (Hok & Hthrow).
  split.
  - intros Hfit. rewrite insertFill_bytes; [apply Hok; tauto|lia|lia|lia|].
    intros Hgrow _. destruct Hfit as [Hin|(_ & Hex)]; [|exact Hex].
    unfold size, capacity in Hgrow. rewrite arith_small in Hgrow by lia.
    apply Z.leb_gt in Hgrow. lia.
  - intros Hout Hlim Hty. rewrite insertFill_bytes; [by apply Hthrow|lia|lia|lia|].
    intros _ Hle'. lia.
Qed.

(** X11: after [reserve(n)], appending does not reallocate as long as the
    length stays within [n].  For an array of capacity at most [max_size],
    [n] at most [max_size], requested exactly where it exceeds the capacity,
    and values that bring the length to at most [n]: [reserve(n)] followed
    by the appends returns, the appends keep the buffer address and the
    capacity [reserve] left and call neither [operator new] nor
    [operator delete], the array holds the old elements followed by the
    values, and every element the array held is still at the address it had
    after [reserve]. *)
Theorem reserve_then_appends n values a h l :
  heap_wf h → owns a h l → nAllocated a ≤ traits_max_size X →
  nUsed a + Z.of_nat (length values) ≤ n → n ≤ traits_max_size X →
  (capacity a < n → request_exact sizeof_T n) →
  ∃ a1 h1 a' h',
    Bytes.reserve build sizeof_T n a h = Returns tt a1 h1 ∧
    Bytes.appends build X sizeof_T values a1 h1 = Returns tt a' h' ∧
    data a' = data a1 ∧ capacity a' = capacity a1 ∧ same_alloc h1 h' ∧
    owns a' h' (l ++ values) ∧
    ∀ (j : nat) v, l !! j = Some v →
      load (data a1 + Z.of_nat j) a1 h1 = Returns v a1 h1 ∧
      load (data a1 + Z.of_nat j) a' h' = Returns v a' h'.
Proof.
  intros Hwf Hown Hmax Hfit Hn Hex.
  destruct (reserve_total n a h l Hwf Hown) as (a1 & h1 & E1 & Hwf1 & Hown1 & Hu1 & Hc1).
  destruct (appends_inplace values a1 h1 l Hwf1 Hown1) as (h' & E & _ & Hsa & Hown');
    try lia.
  eexists a1, h1, _, h'. split; [by rewrite reserve_bytes|].
  split; [rewrite (appends_inplace_bytes values a1 h1 l) by (auto; lia); exact E|].
  cbn [data]. split; [reflexivity|]. split; [reflexivity|]. split; [exact Hsa|].
  split; [exact Hown'|].
  intros j v Hj. split; apply load_eq.
  - by eapply owns_cell.
  - change (data a1) with
      (data (mkArray (data a1) (nUsed a1 + Z.of_nat (length values)) (nAllocated a1))).
    eapply owns_cell; [exact Hown'|]. by apply lookup_app_l_Some.
Qed.

(** X13: [resize(sz)] and [resize(sz, initVal)] on an array of capacity at
    most [max_size] holding [l], for a size from 0 to [max_size] that is
    requested exactly where it exceeds the capacity: the array then holds
    the first [sz] elements of [l], followed, when [sz] exceeds the old
    length, by as many copies of the initial value (default-constructed
    values for [resize(sz)]) as are missing.  The length is [sz]; the
    capacity is the larger of the old capacity and [sz], so shrinking never
    releases memory and growing past the capacity allocates exactly [sz]
    slots, in one allocation; within the capacity the buffer stays where it
    is and the heap's allocations are untouched. *)
Theorem resize_correct sz v a h l :
  heap_wf h → owns a h l → nAllocated a ≤ traits_max_size X →
  0 ≤ sz ≤ traits_max_size X →
  (capacity a < sz → request_exact sizeof_T sz) →
  (∃ a' h', Bytes.resizeFill build X sizeof_T sz v a h = Returns tt a' h' ∧
            owns a' h' (take (Z.to_nat sz) l ++ replicate (Z.to_nat sz - length l) v) ∧
            size a' = sz ∧ capacity a' = Z.max (capacity a) sz ∧
            (sz ≤ capacity a → data a' = data a ∧ same_alloc h h') ∧
            (capacity a < sz → nalloc h' = S (nalloc h))) ∧
  (∃ a' h', Bytes.resize T_default build X sizeof_T sz a h = Returns tt a' h' ∧
            owns a' h'
              (take (Z.to_nat sz) l ++ replicate (Z.to_nat sz - length l) T_default) ∧
            size a' = sz ∧ capacity a' = Z.max (capacity a) sz ∧
            (sz ≤ capacity a → data a' = data a ∧ same_alloc h h') ∧
            (capacity a < sz → nalloc h' = S (nalloc h))).
Proof.
  intros Hwf Hown Hmax Hsz Hex.
  rewrite resizeFill_bytes, resize_bytes by exact Hex.
  by apply resize_slots.
Qed.

(** X18: [assign(n, fillValue)] checks [n] against [max_size] in either
    build, before it touches the array.  For [n] from 0 to [max_size],
    requested exactly where [reallocateIfAdvisable] does not keep the
    buffer, the array then holds [n] copies of the value; the buffer is kept
    when [n] fits the capacity and half the capacity is at most the larger
    of [n] and 4, and is otherwise replaced by one of exactly [n] slots.
    For any other [n] of [size_type] the call throws SizeLimitExceeded and
    leaves the array and the heap as they were. *)
Theorem assignFill_correct n v a h l :
  heap_wf h → owns a h l → size_type_min X ≤ n ≤ size_type_max X →
  (0 ≤ n ≤ traits_max_size X →
   (¬ keeps_buffer (capacity a) n → request_exact sizeof_T n) →
   ∃ a' h', Bytes.assignFill X sizeof_T n v a h = Returns tt a' h' ∧
            owns a' h' (replicate (Z.to_nat n) v) ∧ size a' = n ∧
            (keeps_buffer (capacity a) n →
             data a' = data a ∧ capacity a' = capacity a ∧ nalloc h' = nalloc h) ∧
            (¬ keeps_buffer (capacity a) n → capacity a' = n)) ∧
  (¬ 0 ≤ n ≤ traits_max_size X →
   Bytes.assignFill X sizeof_T n v a h = Throws SizeLimitExceeded a h).
Proof.
  intros Hwf Hown Hty.
  pose proof (size_type_min_ge X). pose proof (size_type_max_lt_ull X).
  destruct (assignFill_slots n v a h l Hwf Hown Hty) as (Hok & Hthrow).
  split.
  - intros Hn Hex. rewrite assignFill_bytes; [by apply Hok|lia|]. intros _. exact Hex.
  - intros Hn. rewrite assignFill_bytes; [by apply Hthrow|lia|]. intros Hn'. tauto.
Qed.

(** X20: the constructors [Array_(n)] and [Array_(n, initVal)], for [n] from
    0 to [max_size] that is requested exactly: the array holds [n]
    default-constructed values, or [n] copies of the initial value, and its
    capacity is exactly [n]; a positive [n] costs one allocation, and
    [n = 0] none: the buffer pointer is then null and the heap is as it was.
    A Debug build rejects any other [n] with SizeLimitExceeded before it
    allocates. *)
Theorem sized_constructors (k : nat) v a0 h :
  heap_wf h → Z.of_nat k ≤ traits_max_size X →
  request_exact sizeof_T (Z.of_nat k) →
  (∃ a' h', Bytes.Array_fill build X sizeof_T (Z.of_nat k) v a0 h = Returns tt a' h' ∧
            owns a' h' (replicate k v) ∧
            size a' = Z.of_nat k ∧ capacity a' = Z.of_nat k ∧
            nalloc h' = (if decide (k = 0%nat) then nalloc h else S (nalloc h)) ∧
            (k = 0%nat → data a' = 0 ∧ h' = h)) ∧
  (∃ a' h', Bytes.Array_n T_default build X sizeof_T (Z.of_nat k) a0 h = Returns tt a' h' ∧
            owns a' h' (replicate k T_default) ∧
            size a' = Z.of_nat k ∧ capacity a' = Z.of_nat k ∧
            nalloc h' = (if decide (k = 0%nat) then nalloc h else S (nalloc h)) ∧
            (k = 0%nat → data a' = 0 ∧ h' = h)) ∧
  (∀ n, ¬ 0 ≤ n ≤ traits_max_size X →
     Bytes.Array_fill Debug X sizeof_T n v a0 h = Throws SizeLimitExceeded a0 h ∧
     Bytes.Array_n T_default Debug X sizeof_T n a0 h = Throws SizeLimitExceeded a0 h).
Proof.
  intros Hwf Hk Hex.
  destruct (sized_constructors_slots k v a0 h Hwf Hk) as (Hfill & Hn & _).
  rewrite Array_fill_bytes, Array_n_bytes by exact Hex.
  split; [exact Hfill|]. split; [exact Hn|].
  intros n Hout. unfold Bytes.Array_fill, Bytes.Array_n.
  by rewrite !(bind_Throws _ _ _ _ SizeLimitExceeded a0 h)
    by (apply SimTK_SIZECHECK_debug_false; exact Hout).
Qed.

(** X22: construction followed by destruction leaves no trace in the heap:
    after [Array_(n, initVal)] and then the destructor, for [n] from 0 to
    [max_size] that is requested exactly, the allocated slots and the live
    allocations of the heap are exactly those from before the
    construction. *)
Theorem construct_then_destroy (k : nat) v a0 h :
  heap_wf h → Z.of_nat k ≤ traits_max_size X →
  request_exact sizeof_T (Z.of_nat k) →
  ∃ h', (Bytes.Array_fill build X sizeof_T (Z.of_nat k) v ;; Array_destroy) a0 h =
          Returns tt (mkArray 0 0 0) h' ∧
        cells h' = cells h ∧ blocks h' = blocks h.
Proof.
  intros Hwf Hk Hex.
  destruct (construct_then_destroy_slots k v a0 h Hwf Hk) as (h' & E & Hres).
  exists h'. split; [|exact Hres]. rewrite <- E.
  apply bind_eq; [by apply Array_fill_bytes|reflexivity].
Qed.


(** ** The invariants, and what the array holds *)

Lemma ends_owning_drop {A} keeps (m : M T A) a h :
  ends_owning keeps (m a h) → ends_owning keeps ((m ;; ret tt) a h).
Proof. unfold bind, ret. destruct (m a h); auto. Qed.

Lemma ends_owning_false {A} (m : M T A) a h :
  ends_with_inv X (m a h) → ends_owning false (m a h).
Proof. destruct (m a h); cbn; [discriminate|discriminate|auto]. Qed.

(** A heap that differs from a well-formed one in the elements of an array
    only. *)
Lemma heap_wf_elements a h h' l :
  heap_wf h → owns a h l → same_alloc h h' →
  (∀ q, ¬ data a ≤ q < data a + nUsed a → cells h' !! q = cells h !! q) →
  heap_wf h'.
Proof.
  intros Hwf (Hlen & _ & Hlive & _) Hsa Hfr.
  eapply heap_wf_same_dom; [exact Hwf|exact Hsa|].
  intros q Hq. destruct (decide (data a ≤ q < data a + nUsed a)) as [Hin|Hout].
  - rewrite Hlive by lia. eauto.
  - by rewrite <- Hfr.
Qed.

Lemma appends_owning values : ∀ a h l,
  heap_wf h → owns a h l → nAllocated a ≤ traits_max_size X →
  ends_owning true (appends build X values a h).
Proof.
  induction values as [|v values IH]; intros a h l Hwf Hown Hmax; cbn [appends].
  - cbn. eauto.
  - destruct (push_back_total v a h l Hwf Hown Hmax)
      as [(p & a' & h' & E & Hwf' & Hown' & Hc)|E].
    + mstep ltac:(exact E). eapply IH; eauto.
    + erewrite bind_Throws by exact E. cbn. eauto.
Qed.

Lemma run_keeps_ownership op a h l :
  heap_wf h → owns a h l → inv X a → requires sizeof_T X op a h l →
  ends_owning (keeps_elements op) (run T_default build X op a h).
Proof.
  intros Hwf Hown Hinv Hreq. pose proof (inv_max a Hinv) as Hmax.
  pose proof (max_size_bounds X) as HM.
  pose proof Hown as (Hlen & Hle & _).
  pose proof (run_preserves_inv op a h l Hwf Hown Hinv Hreq) as Hends.
  destruct op; cbn [run requires keeps_elements] in *;
    try (apply ends_owning_false; exact Hends); clear Hends.
  - (* Array_() *) cbn. intros _. split; [exact Hwf|]. exists []. apply owns_nil_default.
  - (* Array_(n) *)
    destruct (Array_n_ok (Z.to_nat n) a h Hwf ltac:(lia)) as (a' & h' & E & Hwf' & Hown' & Hc).
    rewrite Z2Nat.id in E by lia. rewrite E. cbn. eauto.
  - (* Array_(n, initVal) *)
    destruct (Array_fill_ok (Z.to_nat n) initVal a h Hwf ltac:(lia))
      as (a' & h' & E & Hwf' & Hown' & Hc).
    rewrite Z2Nat.id in E by lia. rewrite E. cbn. eauto.
  - (* Array_(first, last1) *)
    destruct Hreq as ((vs & Hsrc & -> & Hm & _) & _).
    destruct (Array_range_ok first vs a h Hwf Hsrc Hm) as (a' & h' & E & Hwf' & Hown' & Hc).
    rewrite E. cbn. eauto.
  - (* Array_(src) *)
    destruct Hreq as (Hinvs & (ls & Hsrc) & _).
    destruct (Array_copy_ok src ls a h Hwf Hsrc) as (a' & h' & E & Hwf' & Hown' & Hc).
    rewrite E. cbn. eauto.
  - (* ~Array_() *)
    destruct (Array_destroy_ok a h l Hwf Hown) as (h' & E & Hwf').
    rewrite E. cbn. intros _. split; [exact Hwf'|]. exists []. apply owns_nil_default.
  - (* assign(n, fillValue) *)
    destruct (assignFill_total n fillValue a h l Hwf Hown (proj1 Hreq))
      as [(a' & h' & E & Hwf' & Hown' & _)|E]; rewrite E; cbn; eauto.
  - (* assign(first, last1) *)
    destruct Hreq as ((vs & Hsrc & -> & Hm & Hdisj) & _).
    destruct (assignRange_ok first vs a h l Hwf Hown Hsrc Hdisj Hm)
      as (a' & h' & E & Hwf' & Hown' & Hc).
    rewrite E. cbn. eauto.
  - (* assign from an input iterator *)
    unfold assignImpl_input.
    destruct (clear_spec a h l Hown) as (h1 & E1 & Hsa1 & Hc1 & Hown1).
    pose proof (clear_heap_wf _ _ _ _ _ Hwf Hown E1) as Hwf1.
    mstep ltac:(exact E1). rewrite assignImpl_input_loop_eq.
    exact (appends_owning values _ h1 [] Hwf1 Hown1 Hmax).
  - (* operator=(const Array_<T2,X2>&) *)
    destruct Hreq as ((vs & Hsrc & Hend & Hm & Hdisj) & _).
    unfold operator_assign_converting, begin, end_. rewrite Hend.
    destruct (assignImpl_spec (data src) vs a h l) as (a' & h' & E & Hwf' & Hown' & _);
      try assumption.
    { intros q Hq. lia. }
    rewrite E. cbn. eauto.
  - (* resize(sz) *)
    destruct (resize_ok sz a h l Hwf Hown Hmax (proj1 Hreq))
      as (a' & h' & E & Hwf' & Hown' & Hc).
    rewrite E. cbn. eauto.
  - (* resize(sz, initVal) *)
    destruct (resizeFill_ok sz initVal a h l Hwf Hown Hmax (proj1 Hreq))
      as (a' & h' & E & Hwf' & Hown' & Hc).
    rewrite E. cbn. eauto.
  - (* reserve(newCapacity) *)
    destruct (reserve_total newCapacity a h l Hwf Hown) as (a' & h' & E & Hwf' & Hown' & _).
    rewrite E. cbn. eauto.
  - (* clear() *)
    destruct (clear_spec a h l Hown) as (h' & E & _ & _ & Hown').
    pose proof (clear_heap_wf _ _ _ _ _ Hwf Hown E) as Hwf'.
    rewrite E. cbn. eauto.
  - (* erase(first, last1) *)
    destruct Hreq as (i & j & (-> & Hi) & (-> & Hj) & Hij).
    apply ends_owning_drop.
    destruct (erase_spec i j a h l Hown ltac:(lia) ltac:(lia)) as (h' & E & Hsa & Hown' & Hfr).
    rewrite E. cbn. intros _. split; [eapply heap_wf_elements; eauto|eauto].
  - (* erase(p) *)
    destruct Hreq as (i & (-> & _) & Hi). apply ends_owning_drop.
    destruct (eraseOne_spec i a h l Hown Hi ltac:(lia)) as (h' & E & Hsa & Hown' & Hfr).
    rewrite E. cbn. intros _. split; [eapply heap_wf_elements; eauto|eauto].
  - (* eraseFast(p) *)
    destruct Hreq as (i & (-> & _) & Hi). apply ends_owning_drop.
    destruct (eraseFast_spec i a h l Hown Hi ltac:(lia)) as (h' & E & Hsa & Hown' & Hfr).
    rewrite E. cbn. intros _. split; [eapply heap_wf_elements; eauto|eauto].
  - (* insert(p, n, value) *)
    destruct Hreq as ((i & -> & Hi) & Hn & Hty & _). apply ends_owning_drop.
    destruct (insertFill_total i (Z.to_nat n) value a h l Hwf Hown Hi Hmax ltac:(lia))
      as [(a' & h' & E & Hwf' & Hown' & Hc)|E];
      rewrite Z2Nat.id in E by lia; rewrite E; cbn; eauto.
  - (* insert(p, value) *)
    destruct Hreq as ((i & -> & Hi) & Hty & _). apply ends_owning_drop.
    destruct (insertOne_total i value a h l Hwf Hown Hi Hmax Hty)
      as [(a' & h' & E & Hwf' & Hown' & Hc)|E]; rewrite E; cbn; eauto.
  - (* push_back(value) *)
    apply ends_owning_drop.
    destruct (push_back_total value a h l Hwf Hown Hmax)
      as [(p & a' & h' & E & Hwf' & Hown' & Hc)|E]; rewrite E; cbn; eauto.
  - (* push_back() *)
    apply ends_owning_drop. rewrite push_back_default_eq.
    destruct (push_back_total T_default a h l Hwf Hown Hmax)
      as [(p & a' & h' & E & Hwf' & Hown' & Hc)|E]; rewrite E; cbn; eauto.
  - (* pop_back() *)
    destruct l as [|x l0] using rev_ind; [done|]. clear IHl0.
    rewrite (pop_back_spec a h l0 x Hown ltac:(lia)). cbn. intros _.
    pose proof (owns_remove_last a h l0 x Hown) as Hown'.
    split; [|eauto]. apply heap_wf_set_cell; [exact Hwf|].
    destruct Hown as (Hl & _ & Hlive & _). rewrite length_app in Hl. cbn [length] in Hl.
    rewrite Hlive by (rewrite length_app; cbn [length]; lia). eauto.
  - (* operator[] *)
    apply ends_owning_drop. rewrite operator_index_spec by lia. cbn. eauto.
  - (* at() *)
    apply ends_owning_drop.
    unfold at_, SimTK_INDEXCHECK_ALWAYS, SimTK_ERRCHK_ALWAYS. rewrite bind_this.
    destruct ((0 <=? i) && (i <? nUsed a)); cbn; eauto.
  - (* front() *)
    apply ends_owning_drop. rewrite front_spec; [cbn; eauto|].
    destruct l; [done|]. cbn [length] in Hlen. lia.
  - (* back() *)
    apply ends_owning_drop. rewrite back_spec; [cbn; eauto|].
    destruct l; [done|]. cbn [length] in Hlen. lia.
Qed.

(** C2 (as amended): every public operation called under [requires]
    (positions inside the array, sizes from 0 to [max_size], sources outside
    the buffer, and every buffer the call may allocate requested exactly) on
    a container that owns its buffer and satisfies the invariants returns
    or throws, and the container then satisfies the invariants: length at
    most capacity, null buffer when the capacity is zero, capacity at most
    [max_size].  But for [raw_push_back()] and [insert(p, first, last1)]
    the heap is then well formed and the container owns its buffer and
    holds a list of elements, so that the next operation finds what this
    one required.  The same holds of copy assignment from a source whose
    length is requested exactly, and [swap] keeps the invariants of every
    object.  A request that [operator new[]] refuses is not covered. *)
Theorem public_operations_preserve_invariants :
  (∀ op a h l,
     heap_wf h → owns a h l → inv X a → requires sizeof_T X op a h l →
     ends_with_inv X (Bytes.run T_default build X sizeof_T op a h) ∧
     ends_owning (keeps_elements op) (Bytes.run T_default build X sizeof_T op a h)) ∧
  (∀ self src (objs : gmap Z Array) h a s l ls,
     store_inv X objs → objs !! self = Some a → objs !! src = Some s →
     heap_wf h → owns a h l → owns s h ls →
     (self ≠ src → data s + nUsed s ≤ data a ∨ data a + nAllocated a ≤ data s) →
     request_exact sizeof_T (nUsed s) →
     ∃ objs' h' a', Bytes.operator_assign build X sizeof_T self src objs h =
                      Returns tt objs' h' ∧
                    store_inv X objs' ∧ heap_wf h' ∧
                    objs' !! self = Some a' ∧ owns a' h' ls) ∧
  (∀ self other (objs : gmap Z Array) (h : Heap T) a b,
     store_inv X objs → objs !! self = Some a → objs !! other = Some b →
     ∃ objs', swap self other objs h = Returns tt objs' h ∧ store_inv X objs' ∧
              objs' !! self = Some b ∧ objs' !! other = Some a).
Proof.
  split; [|split].
  - intros op a h l Hwf Hown Hinv Hreq.
    rewrite (run_bytes op a h l Hwf Hown Hinv Hreq).
    split; [by eapply run_preserves_inv|by eapply run_keeps_ownership].
  - intros self src objs h a s l ls Hst Hself Hsrc Hwf Hown Howns Hdisj Hex.
    rewrite (operator_assign_bytes self src objs h s Hsrc); [| |exact Hex].
    2:{ destruct (Hst _ _ Hsrc) as (? & _ & ?). destruct Howns as (? & _). lia. }
    destruct (decide (self = src)) as [->|Hne].
    + exists objs, h, a. split; [apply operator_assign_self|]. split; [exact Hst|].
      split; [exact Hwf|]. split; [exact Hself|].
      rewrite Hself in Hsrc. by injection Hsrc as ->.
    + pose proof (Hst _ _ Hself) as Hinv. pose proof (Hst _ _ Hsrc) as Hinvs.
      destruct (operator_assign_other self src objs h a s l ls)
        as (a' & h' & E & Hwf' & Hown' & Hc); auto.
      { destruct Hinvs as (? & _ & ?). lia. }
      eexists _, h', a'. split; [exact E|]. split.
      { apply store_inv_insert; [exact Hst|].
        eapply inv_of_owns; eauto. pose proof (inv_max a Hinv). lia. }
      split; [exact Hwf'|]. split; [apply lookup_insert_eq|exact Hown'].
  - intros self other objs h a b Hst Ha Hb.
    eexists. split; [by apply swap_spec|]. split.
    { apply store_inv_insert; [apply store_inv_insert|]; eauto. }
    destruct (decide (self = other)) as [->|Hne].
    + rewrite Ha in Hb. injection Hb as <-. rewrite lookup_insert_eq. auto.
    + rewrite lookup_insert_ne by done. rewrite !lookup_insert_eq. auto.
Qed.


End Properties.

(** * Debug against Release *)

(** X26: in a Debug build [insert(p, first, last1)] on pointers tests the
    source length against the capacity, not the length: a source outside the
    buffer that fits the spare capacity, so that the new length is within
    [max_size], is rejected with SizeLimitExceeded whenever capacity plus
    source length exceeds [max_size], and the array is left untouched.  A
    Release build accepts the same call: it returns [p], keeps the buffer
    and the capacity, and the buffer then holds the first [i] elements, the
    source elements and the rest. *)
Theorem insertRange_checked_against_capacity {T} (X : index_type) (i : nat) first
    (vs : list T) a h l :
  heap_wf h → owns a h l → (i ≤ length l)%nat → live h first vs →
  first + Z.of_nat (length vs) ≤ data a ∨ data a + nAllocated a ≤ first →
  nAllocated a ≤ traits_max_size X →
  nUsed a + Z.of_nat (length vs) ≤ nAllocated a →
  traits_max_size X < nAllocated a + Z.of_nat (length vs) →
  insertRange Debug X (data a + Z.of_nat i) first (first + Z.of_nat (length vs)) a h =
    Throws SizeLimitExceeded a h ∧
  ∃ a' h',
    insertRange Release X (data a + Z.of_nat i) first (first + Z.of_nat (length vs)) a h =
      Returns (data a + Z.of_nat i) a' h' ∧
    data a' = data a ∧ capacity a' = capacity a ∧
    live h' (data a) (take i l ++ vs ++ drop i l).
Proof.
  intros Hwf Hown Hi Hsrc Hdisj Hmax Hin Hover.
  pose proof (max_size_bounds X) as HM. pose proof (max_size_lt_ull X) as HU.
  pose proof (owns_block_bounds _ _ _ Hwf Hown) as (Hu0 & Hd0 & Hdb).
  pose proof Hown as (Hlen & Hle & _).
  assert ((data a + nUsed a <=? first) = true ∨
          (first + Z.of_nat (length vs) <=? data a) = true) as Hapart
    by (rewrite !Z.leb_le; lia).
  split.
  - unfold insertRange, insertImpl, SimTK_ERRCHK, SimTK_ERRCHK_ALWAYS, begin, end_.
    rewrite !bind_this.
    rewrite (null_check_passes h first vs Hwf Hsrc).
    erewrite bind_Returns by reflexivity. cbv beta.
    replace ((first + Z.of_nat (length vs) <=? data a) || (data a + nUsed a <=? first))
      with true by (symmetry; apply orb_true_iff; tauto).
    erewrite bind_Returns by reflexivity. cbv beta.
    replace (first <=? first + Z.of_nat (length vs)) with true
      by (symmetry; apply Z.leb_le; lia).
    erewrite bind_Returns by reflexivity. cbv beta.
    replace (first + Z.of_nat (length vs) - first) with (Z.of_nat (length vs)) by lia.
    destruct (isGrowthOK X a (Z.of_nat (length vs))) eqn:E; [|reflexivity].
    apply isGrowthOK_iff in E; lia.
  - unfold insertRange, insertImpl. rewrite !bind_this.
    do 5 (erewrite bind_Returns by reflexivity; cbv beta).
    replace (first + Z.of_nat (length vs) - first) with (Z.of_nat (length vs)) by lia.
    rewrite to_size_type_small by lia.
    destruct (insertImpl_gap_and_copy Release X i first vs a h l)
      as (a' & h' & E & _ & _ & Hkeep & Hfilled); try assumption; [by left|].
    destruct (Hkeep Hin) as (Hd & Hc). rewrite Hd in E, Hfilled.
    exists a', h'. split; [exact E|]. split; [exact Hd|].
    split; [exact Hc|]. by destruct Hfilled as (_ & _ & Hlive & _).
Qed.


(** * Examples, witnesses and counterexamples *)

Lemma example_cells q :
  cells example_heap !! q =
    if decide (1 ≤ q < 6) then Some (Some q)
    else if decide (6 ≤ q < 9) then Some None
    else if decide (q = 9) then Some (Some 100)
    else if decide (q = 10) then Some (Some 200)
    else None.
Proof.
  unfold example_heap; cbn [cells list_to_map foldr uncurry fst snd].
  rewrite !lookup_insert, lookup_empty.
  repeat case_goal; subst; try reflexivity; lia.
Qed.

Lemma example_heap_wf : heap_wf example_heap.
Proof.
  split; [cbn; lia|]. split.
  - intros q. rewrite example_cells. repeat case_goal; try (cbn; lia).
    by intros [? ?].
  - intros b n. unfold example_heap; cbn [blocks brk list_to_map foldr uncurry fst snd].
    rewrite !lookup_insert, lookup_empty.
    repeat case_goal; intros [= <-] || intros [=]; subst; lia.
Qed.

Lemma example_owns : owns example_array example_heap [1; 2; 3; 4; 5].
Proof.
  unfold owns, live, raw, example_array; cbn [data nUsed nAllocated length].
  split; [reflexivity|]. split; [lia|]. split; [|split; [|split; [lia|]]].
  - intros q Hq. rewrite example_cells. case_goal; [|lia].
    assert (q = 1 ∨ q = 2 ∨ q = 3 ∨ q = 4 ∨ q = 5) as [->|[->|[->|[->| ->]]]] by lia;
      reflexivity.
  - intros q Hq. rewrite example_cells. repeat case_goal; try lia. reflexivity.
  - intros _. reflexivity.
Qed.

Lemma example_source_live : live example_heap 9 [100; 200].
Proof.
  intros q Hq. cbn [length] in Hq. rewrite example_cells.
  assert (q = 9 ∨ q = 10) as [-> | ->] by lia; reflexivity.
Qed.

Lemma example_inv : inv Int example_array.
Proof. unfold inv, example_array; cbn. lia. Qed.

(** [sizeof(int) = 4]: a request for 20 elements is exact. *)
Lemma example_request_exact : request_exact 4 20.
Proof. split; vm_compute; discriminate. Qed.

(** The scenario of the specification: 10, 20, 30, 40, 50 appended to a
    default-constructed [Array_<int>]. *)
Lemma appends_to_default_constructed_witness :
  heap_wf (empty_heap (T:=Z)) ∧
  Z.of_nat (length [10; 20; 30; 40; 50]) ≤ traits_max_size Int ∧
  ∃ a' h',
    (Array_default ;; appends Debug Int [10; 20; 30; 40; 50]) (mkArray 0 0 0) empty_heap =
      Returns tt a' h' ∧
    size a' = Z.of_nat (length [10; 20; 30; 40; 50]) ∧
    size a' ≤ capacity a' ∧
    ∀ (i : nat) v, [10; 20; 30; 40; 50] !! i = Some v →
                   read Debug (Z.of_nat i) a' h' = Returns v a' h'.
Proof.
  split; [apply heap_wf_empty|]. split; [vm_compute; discriminate|].
  apply (appends_to_default_constructed Debug Int [10; 20; 30; 40; 50]).
  - apply heap_wf_empty.
  - vm_compute; discriminate.
Defined.

(** C1, as stated, fails for an index type with a small [max_size]: with
    [signed char] the 128th append throws and the length stays 127. *)
Lemma appends_beyond_max_size :
  (¬ ∃ a' h',
       (Array_default ;; appends Debug SChar (replicate 128 7))
         (mkArray 0 0 0) (empty_heap (T:=Z)) = Returns tt a' h') ∧
  ∃ a' h',
    (Array_default ;; appends Debug SChar (replicate 128 7))
      (mkArray 0 0 0) (empty_heap (T:=Z)) = Throws SizeLimitExceeded a' h' ∧
    size a' = 127.
Proof.
  assert (∃ a' h',
            (Array_default ;; appends Debug SChar (replicate 128 7))
              (mkArray 0 0 0) (empty_heap (T:=Z)) = Throws SizeLimitExceeded a' h' ∧
            size a' = 127) as (a' & h' & E & Hs).
  { eexists _, _. split; [vm_compute; reflexivity|reflexivity]. }
  split.
  - intros (a'' & h'' & E'). rewrite E in E'. discriminate.
  - exists a', h'. split; [exact E|exact Hs].
Qed.

(** [resize(20)] on the [Array_<int>] holding 1..5 in 8 slots. *)
Lemma public_operations_preserve_invariants_witness :
  heap_wf example_heap ∧ owns example_array example_heap [1; 2; 3; 4; 5] ∧
  inv Int example_array ∧
  requires 4 Int (OpResize 20) example_array example_heap [1; 2; 3; 4; 5] ∧
  ends_with_inv Int (Bytes.run 0 Debug Int 4 (OpResize 20) example_array example_heap) ∧
  ends_owning (keeps_elements (OpResize (T:=Z) 20))
    (Bytes.run 0 Debug Int 4 (OpResize 20) example_array example_heap).
Proof.
  assert (requires 4 Int (OpResize 20) example_array example_heap [1; 2; 3; 4; 5]) as Hreq.
  { split; [vm_compute; split; discriminate|exact example_request_exact]. }
  split; [apply example_heap_wf|]. split; [apply example_owns|].
  split; [apply example_inv|]. split; [exact Hreq|].
  exact (proj1 (public_operations_preserve_invariants 0 Debug Int 4)
           (OpResize 20) example_array example_heap [1; 2; 3; 4; 5]
           example_heap_wf example_owns example_inv Hreq).
Defined.

(** C2, as stated, fails where a check is left out of the build on purpose:
    in a Release build the constructor [Array_<T, unsigned short>(40000)]
    returns an array whose capacity exceeds [max_size]. *)
Lemma release_constructor_exceeds_max_size :
  request_exact 4 40000 ∧
  ∃ a' h',
    Bytes.run 0 Release UShort 4 (OpCtorN 40000) (mkArray 0 0 0) (empty_heap (T:=Z)) =
      Returns tt a' h' ∧
    capacity a' = 40000 ∧ traits_max_size UShort = 32767 ∧ ¬ inv UShort a'.
Proof.
  assert (request_exact 4 40000) as Hex by (split; vm_compute; discriminate).
  split; [exact Hex|].
  destruct (Array_n_run 0 Release UShort (Z.to_nat 40000) (mkArray 0 0 0) empty_heap
              heap_wf_empty eq_refl) as (a' & h' & E & _ & _ & Hc).
  rewrite Z2Nat.id in E, Hc by lia.
  exists a', h'. split.
  { change (Bytes.run 0 Release UShort 4 (OpCtorN 40000))
      with (Bytes.Array_n 0 Release UShort 4 40000).
    rewrite (Array_n_bytes 0 Release UShort 4 40000) by exact Hex. exact E. }
  split; [exact Hc|]. split; [reflexivity|].
  intros (_ & _ & Hmax). unfold capacity in *. rewrite Hc in Hmax.
  vm_compute in Hmax. by apply Hmax.
Qed.

Lemma example_source_foreign q :
  9 ≤ q < 9 + Z.of_nat (length [100; 200]) →
  ¬ data example_array ≤ q < data example_array + nAllocated example_array.
Proof. cbn. lia. Qed.

Example eraseFast_list_example : eraseFast_list 2%nat [1; 2; 3; 4; 5] = [1; 2; 5; 4].
Proof. reflexivity. Qed.

Example erase_list_example : delete 2%nat [1; 2; 3; 4; 5] = [1; 2; 4; 5].
Proof. reflexivity. Qed.

(** The scenario of the specification: on 1, 2, 3, 4, 5, [eraseFast] at
    position 2 leaves 1, 2, 5, 4 and [erase] leaves 1, 2, 4, 5. *)
Lemma eraseFast_and_erase_witness :
  owns example_array example_heap [1; 2; 3; 4; 5] ∧
  (2 < length [1; 2; 3; 4; 5])%nat ∧ nUsed example_array ≤ size_type_max Int ∧
  (∃ a' h', eraseFast Debug Int (data example_array + Z.of_nat 2) example_array example_heap =
              Returns (data example_array + Z.of_nat 2) a' h' ∧
            owns a' h' [1; 2; 5; 4] ∧
            size a' = size example_array - 1 ∧ capacity a' = capacity example_array) ∧
  (∃ a' h', eraseOne Debug Int (data example_array + Z.of_nat 2) example_array example_heap =
              Returns (data example_array + Z.of_nat 2) a' h' ∧
            owns a' h' [1; 2; 4; 5] ∧
            size a' = size example_array - 1 ∧ capacity a' = capacity example_array).
Proof.
  assert (nUsed example_array ≤ size_type_max Int) as Hty by (vm_compute; discriminate).
  assert (2 < length [1; 2; 3; 4; 5])%nat as Hi by (cbn; lia).
  split; [apply example_owns|]. split; [exact Hi|]. split; [exact Hty|].
  destruct (eraseFast_and_erase Debug Int 2 example_array example_heap [1; 2; 3; 4; 5]
              example_owns Hi Hty)
    as ((a1 & h1 & E1 & Hown1 & Hs1 & Hc1 & _) & (a2 & h2 & E2 & Hown2 & Hs2 & Hc2)).
  split.
  - exists a1, h1. auto.
  - exists a2, h2. auto.
Defined.

Lemma aliasing_range_rejected_when_checked_witness :
  2 < end_ example_array ∧ begin example_array < 4 ∧
  assignRange Debug Int 2 4 example_array example_heap =
    Throws InvalidRange example_array example_heap ∧
  insertRange Debug Int 1 2 4 example_array example_heap =
    Throws InvalidRange example_array example_heap.
Proof.
  assert (2 < end_ example_array) as H1 by (vm_compute; reflexivity).
  assert (begin example_array < 4) as H2 by (vm_compute; reflexivity).
  split; [exact H1|]. split; [exact H2|].
  apply (aliasing_range_rejected_when_checked Int 1 2 4 example_array example_heap H1 H2).
Defined.

(** C7, as stated, fails in a Release build, where the aliasing check is
    compiled out: [assign] and [insert] from the array's own elements do not
    throw, they go on to destroy or move the elements they then read.  In a
    Debug build the check covers the elements only: a range in the unused
    part of the buffer is let through. *)
Lemma aliasing_range_not_rejected :
  assignRange Release Int 1 6 example_array example_heap = Fault ∧
  insertRange Release Int 1 2 4 example_array example_heap = Fault ∧
  assignRange Debug Int 6 7 example_array example_heap = Fault.
Proof. split; [|split]; vm_compute; reflexivity. Qed.

Lemma pop_back_correct_witness :
  owns example_array example_heap [1; 2; 3; 4; 5] ∧
  nUsed example_array ≤ size_type_max Int ∧
  ([1; 2; 3; 4; 5] = [] →
   pop_back Debug Int example_array example_heap =
     Throws EmptyContainerAccess example_array example_heap) ∧
  (∀ l' v, [1; 2; 3; 4; 5] = l' ++ [v] →
     ∃ a' h', pop_back Release Int example_array example_heap = Returns tt a' h' ∧
              owns a' h' l' ∧ size a' = size example_array - 1 ∧
              capacity a' = capacity example_array ∧ data a' = data example_array).
Proof.
  assert (nUsed example_array ≤ size_type_max Int) as Hty by (vm_compute; discriminate).
  split; [apply example_owns|]. split; [exact Hty|].
  apply (pop_back_correct Release Int example_array example_heap [1; 2; 3; 4; 5]
           example_owns Hty).
Defined.

(** C9, as stated, fails in a Release build, where the emptiness check is
    compiled out: [pop_back] on an empty array does not throw, it decrements
    the length below zero and calls the destructor on a slot that holds no
    object. *)
Lemma pop_back_empty_release :
  pop_back Release Int (mkArray 0 0 0) (empty_heap (T:=Z)) = Fault ∧
  pop_back Debug Int (mkArray 0 0 0) (empty_heap (T:=Z)) =
    Throws EmptyContainerAccess (mkArray 0 0 0) empty_heap.
Proof. split; vm_compute; reflexivity. Qed.

Lemma self_assignment_is_guarded_witness :
  heap_wf example_heap ∧ owns example_array example_heap [1; 2; 3; 4; 5] ∧
  [1; 2; 3; 4; 5] ≠ [] ∧ nUsed example_array ≤ traits_max_size Int ∧
  ({[0 := example_array]} : gmap Z Array) !! 0 = Some example_array ∧
  operator_assign Debug Int 0 0 {[0 := example_array]} example_heap =
    Returns tt {[0 := example_array]} example_heap ∧
  assignRange Debug Int (begin example_array) (end_ example_array) example_array example_heap =
    Throws InvalidRange example_array example_heap ∧
  operator_assign_converting_at Debug Int 0 0 {[0 := example_array]} example_heap = Fault.
Proof.
  assert (nUsed example_array ≤ traits_max_size Int) as Hm by (vm_compute; discriminate).
  assert (({[0 := example_array]} : gmap Z Array) !! 0 = Some example_array) as Hself
    by apply lookup_singleton_eq.
  split; [apply example_heap_wf|]. split; [apply example_owns|].
  split; [discriminate|]. split; [exact Hm|]. split; [exact Hself|].
  apply (self_assignment_is_guarded Debug Int 0 {[0 := example_array]} example_array
           example_heap [1; 2; 3; 4; 5] example_heap_wf example_owns
           ltac:(discriminate) Hm Hself).
Defined.

(** C3: the growth check does not fail for an [unsigned long long] index when
    the sum of capacity and growth reaches 2^64: with capacity 1 and a growth
    of 2^64 - 1 elements the sum wraps to 0, the check passes, and the
    capacity chosen is 4. *)
Theorem growth_check_wraps_unsigned_long_long (T : Type) (h : Heap T) :
  size_type_min ULongLong ≤ 2 ^ 64 - 1 ≤ size_type_max ULongLong ∧
  traits_max_size ULongLong < capacity (mkArray 1 0 1) + (2 ^ 64 - 1) ∧
  calcNewCapacityForGrowthBy ULongLong (2 ^ 64 - 1) (mkArray 1 0 1) h =
    Returns 4 (mkArray 1 0 1) h.
Proof.
  split; [vm_compute; split; discriminate|]. split; [vm_compute; reflexivity|].
  reflexivity.
Qed.

(** C8: [reserve] makes no test against [max_size]: on an
    [Array_<T, unsigned short>] a call of [reserve(40000)] returns and the
    capacity is 40000, above the [max_size] of 32767. *)
Theorem reserve_exceeds_max_size :
  size_type_min UShort ≤ 40000 ≤ size_type_max UShort ∧
  traits_max_size UShort < 40000 ∧
  ∃ h', reserve Debug 40000 (mkArray 0 0 0) (empty_heap (T:=Z)) =
          Returns tt (mkArray 1 0 40000) h' ∧
        ¬ inv UShort (mkArray 1 0 40000).
Proof.
  split; [vm_compute; split; discriminate|]. split; [vm_compute; reflexivity|].
  destruct (reserve_grow (T:=Z) Debug 40000 (mkArray 0 0 0) empty_heap [] heap_wf_empty
              (owns_nil_default _) ltac:(cbn; lia)) as (h' & E & _).
  exists h'. split; [exact E|].
  intros (_ & _ & Hmax). vm_compute in Hmax. by apply Hmax.
Qed.

(** ** Witnesses of the further properties *)


Lemma example_nUsed_fits : 0 < nUsed example_array ≤ size_type_max Int.
Proof. vm_compute. split; [reflexivity|discriminate]. Qed.

Lemma example_capacity_fits : nAllocated example_array ≤ traits_max_size Int.
Proof. vm_compute. discriminate. Qed.

Lemma example_has_room : nUsed example_array < traits_max_size Int.
Proof. vm_compute. reflexivity. Qed.

Lemma clear_is_erase_of_all_witness :
  0 ≤ nUsed example_array ≤ size_type_max Int ∧
  erase Debug Int (begin example_array) (end_ example_array) example_array example_heap =
    (clear ;; ret (begin example_array)) example_array example_heap.
Proof.
  assert (0 ≤ nUsed example_array ≤ size_type_max Int) as H
    by (vm_compute; split; discriminate).
  split; [exact H|].
  exact (clear_is_erase_of_all Debug Int example_array example_heap H).
Defined.

Lemma pop_back_is_eraseFast_of_last_witness :
  0 < nUsed example_array ≤ size_type_max Int ∧
  pop_back Debug Int example_array example_heap =
    (eraseFast Debug Int (end_ example_array - 1) ;; ret tt) example_array example_heap.
Proof.
  split; [exact example_nUsed_fits|].
  exact (pop_back_is_eraseFast_of_last Debug Int example_array example_heap
           example_nUsed_fits).
Defined.

(** Two copies of 7 inserted at index 2 of 1, 2, 3, 4, 5, within the spare
    capacity. *)
Lemma insertFill_correct_witness :
  heap_wf example_heap ∧ owns example_array example_heap [1; 2; 3; 4; 5] ∧
  (2 ≤ length [1; 2; 3; 4; 5])%nat ∧ nAllocated example_array ≤ traits_max_size Int ∧
  nAllocated example_array + Z.of_nat 4 ≤ traits_max_size Int ∧
  request_exact 4 (grown_capacity Int (nAllocated example_array) (Z.of_nat 4)) ∧
  ∃ a' h',
    Bytes.insertFill Debug Int 4 (data example_array + Z.of_nat 2) (Z.of_nat 4) 7
      example_array example_heap = Returns (data a' + Z.of_nat 2) a' h' ∧
    owns a' h' [1; 2; 7; 7; 7; 7; 3; 4; 5] ∧ size a' = 9 ∧
    capacity example_array ≤ capacity a'.
Proof.
  assert (2 ≤ length [1; 2; 3; 4; 5])%nat as Hi by (cbn; lia).
  assert (nAllocated example_array + Z.of_nat 4 ≤ traits_max_size Int) as Hfit
    by (vm_compute; discriminate).
  assert (request_exact 4 (grown_capacity Int (nAllocated example_array) (Z.of_nat 4)))
    as Hex by (split; vm_compute; discriminate).
  split; [exact example_heap_wf|]. split; [exact example_owns|]. split; [exact Hi|].
  split; [exact example_capacity_fits|]. split; [exact Hfit|]. split; [exact Hex|].
  destruct (proj1 (insertFill_correct Debug Int 4 2 4 7 example_array example_heap
                     [1; 2; 3; 4; 5] example_heap_wf example_owns Hi
                     example_capacity_fits) (or_intror (conj Hfit Hex)))
    as (a' & h' & E & Hown & Hs & Hc & _).
  exists a', h'. split; [exact E|]. split; [exact Hown|]. split; [exact Hs|].
  exact (proj1 Hc).
Defined.

Lemma example_source_apart :
  9 + Z.of_nat (length [100; 200]) ≤ data example_array ∨
  data example_array + nAllocated example_array ≤ 9.
Proof. right. vm_compute. discriminate. Qed.

(** 100, 200 inserted at index 2 of 1, 2, 3, 4, 5 through pointers: the
    buffer holds seven objects, the length stays 5. *)
Lemma insertRange_leaves_size_witness :
  heap_wf example_heap ∧ owns example_array example_heap [1; 2; 3; 4; 5] ∧
  (2 ≤ length [1; 2; 3; 4; 5])%nat ∧ live example_heap 9 [100; 200] ∧
  nAllocated example_array + Z.of_nat (length [100; 200]) ≤ traits_max_size Int ∧
  ∃ a' h',
    insertRange Debug Int (data example_array + Z.of_nat 2) 9
      (9 + Z.of_nat (length [100; 200])) example_array example_heap =
      Returns (data a' + Z.of_nat 2) a' h' ∧
    size a' = 5 ∧
    live h' (data a') [1; 2; 100; 200; 3; 4; 5] ∧
    ∀ l', ¬ owns a' h' l'.
Proof.
  assert (2 ≤ length [1; 2; 3; 4; 5])%nat as Hi by (cbn; lia).
  assert (nAllocated example_array + Z.of_nat (length [100; 200]) ≤ traits_max_size Int)
    as Hfit by (vm_compute; discriminate).
  split; [exact example_heap_wf|]. split; [exact example_owns|]. split; [exact Hi|].
  split; [exact example_source_live|]. split; [exact Hfit|].
  destruct (insertRange_leaves_size Debug Int 2 9 [100; 200] example_array example_heap
              [1; 2; 3; 4; 5] example_heap_wf example_owns Hi example_source_live
              example_source_apart Hfit)
    as (a' & h' & E & Hs & Hlive & Hbroken).
  exists a', h'. split; [exact E|]. split; [exact Hs|]. split; [exact Hlive|].
  apply Hbroken. discriminate.
Defined.

(** 7, 8 inserted at index 2 of 1, 2, 3, 4, 5 from an input iterator. *)
Lemma insertImpl_input_correct_witness :
  heap_wf example_heap ∧ owns example_array example_heap [1; 2; 3; 4; 5] ∧
  (2 ≤ length [1; 2; 3; 4; 5])%nat ∧ nAllocated example_array ≤ traits_max_size Int ∧
  nUsed example_array + Z.of_nat (length [7; 8]) ≤ traits_max_size Int ∧
  ∃ a' h',
    insertImpl_input Debug Int (data example_array + Z.of_nat 2) [7; 8]
      example_array example_heap = Returns (data a' + Z.of_nat 2) a' h' ∧
    owns a' h' [1; 2; 7; 8; 3; 4; 5] ∧ size a' = 7.
Proof.
  assert (2 ≤ length [1; 2; 3; 4; 5])%nat as Hi by (cbn; lia).
  assert (nUsed example_array + Z.of_nat (length [7; 8]) ≤ traits_max_size Int) as Hroom
    by (vm_compute; discriminate).
  split; [exact example_heap_wf|]. split; [exact example_owns|]. split; [exact Hi|].
  split; [exact example_capacity_fits|]. split; [exact Hroom|].
  destruct (insertImpl_input_correct Debug Int 2 [7; 8] example_array example_heap
              [1; 2; 3; 4; 5] example_heap_wf example_owns Hi example_capacity_fits Hroom)
    as (a' & h' & E & Hown & Hs & _).
  exists a', h'. split; [exact E|]. split; [exact Hown|]. exact Hs.
Defined.

Lemma push_back_returns_back_witness :
  heap_wf example_heap ∧ owns example_array example_heap [1; 2; 3; 4; 5] ∧
  nAllocated example_array ≤ traits_max_size Int ∧
  nUsed example_array < traits_max_size Int ∧
  ∃ p a' h', push_back Debug Int 6 example_array example_heap = Returns p a' h' ∧
             back Debug a' h' = Returns p a' h' ∧
             p = data a' + (size a' - 1) ∧
             load p a' h' = Returns 6 a' h'.
Proof.
  split; [exact example_heap_wf|]. split; [exact example_owns|].
  split; [exact example_capacity_fits|]. split; [exact example_has_room|].
  exact (push_back_returns_back Debug Int 6 example_array example_heap [1; 2; 3; 4; 5]
           example_heap_wf example_owns example_capacity_fits example_has_room).
Defined.

Lemma push_back_then_pop_back_witness :
  heap_wf example_heap ∧ owns example_array example_heap [1; 2; 3; 4; 5] ∧
  nAllocated example_array ≤ traits_max_size Int ∧
  nUsed example_array < traits_max_size Int ∧
  nUsed example_array < nAllocated example_array ∧
  (push_back Debug Int 6 ;; pop_back Debug Int) example_array example_heap =
    Returns tt example_array example_heap.
Proof.
  assert (nUsed example_array < nAllocated example_array) as Hspare
    by (vm_compute; reflexivity).
  split; [exact example_heap_wf|]. split; [exact example_owns|].
  split; [exact example_capacity_fits|]. split; [exact example_has_room|].
  split; [exact Hspare|].
  exact (proj2 (push_back_then_pop_back Debug Int 6 example_array example_heap
                  [1; 2; 3; 4; 5] example_heap_wf example_owns example_capacity_fits
                  example_has_room) Hspare).
Defined.

(** An [Array_<int, signed char>] of 127 elements in 127 slots. *)
Lemma push_back_on_full_array_witness :
  nUsed (mkArray 1 127 127) = traits_max_size SChar ∧
  nAllocated (mkArray 1 127 127) = traits_max_size SChar ∧
  push_back Debug SChar 7 (mkArray 1 127 127) (empty_heap (T:=Z)) =
    Throws SizeLimitExceeded (mkArray 1 127 127) empty_heap ∧
  push_back_default 0 Debug SChar (mkArray 1 127 127) (empty_heap (T:=Z)) =
    Throws SizeLimitExceeded (mkArray 1 127 127) empty_heap ∧
  raw_push_back Debug SChar (mkArray 1 127 127) (empty_heap (T:=Z)) =
    Throws SizeLimitExceeded (mkArray 1 127 127) empty_heap.
Proof.
  split; [reflexivity|]. split; [reflexivity|].
  exact (push_back_on_full_array 0 Debug SChar 7 (mkArray 1 127 127) empty_heap
           eq_refl eq_refl).
Defined.

(** [reserve(20)] on 1, 2, 3, 4, 5, then 6 and 7 appended. *)
Lemma reserve_then_appends_witness :
  heap_wf example_heap ∧ owns example_array example_heap [1; 2; 3; 4; 5] ∧
  nAllocated example_array ≤ traits_max_size Int ∧
  nUsed example_array + Z.of_nat (length [6; 7]) ≤ 20 ∧ 20 ≤ traits_max_size Int ∧
  request_exact 4 20 ∧
  ∃ a1 h1 a' h',
    Bytes.reserve Debug 4 20 example_array example_heap = Returns tt a1 h1 ∧
    Bytes.appends Debug Int 4 [6; 7] a1 h1 = Returns tt a' h' ∧
    data a' = data a1 ∧ capacity a' = capacity a1 ∧ same_alloc h1 h' ∧
    owns a' h' [1; 2; 3; 4; 5; 6; 7].
Proof.
  assert (nUsed example_array + Z.of_nat (length [6; 7]) ≤ 20) as Hfit
    by (vm_compute; discriminate).
  assert (20 ≤ traits_max_size Int) as Hn by (vm_compute; discriminate).
  split; [exact example_heap_wf|]. split; [exact example_owns|].
  split; [exact example_capacity_fits|]. split; [exact Hfit|]. split; [exact Hn|].
  split; [exact example_request_exact|].
  destruct (reserve_then_appends Debug Int 4 20 [6; 7] example_array example_heap
              [1; 2; 3; 4; 5] example_heap_wf example_owns example_capacity_fits Hfit Hn
              (λ _, example_request_exact))
    as (a1 & h1 & a' & h' & E1 & E & Hd & Hc & Hsa & Hown & _).
  exists a1, h1, a', h'.
  split; [exact E1|]. split; [exact E|]. split; [exact Hd|]. split; [exact Hc|].
  split; [exact Hsa|exact Hown].
Defined.

(** The five appends of the specification's scenario: at most two
    allocations (2^j ≤ 10 gives j ≤ 3) and a capacity of at most 10. *)
Lemma appends_reallocate_logarithmically_witness :
  heap_wf (empty_heap (T:=Z)) ∧ [10; 20; 30; 40; 50] ≠ [] ∧
  Z.of_nat (length [10; 20; 30; 40; 50]) ≤ traits_max_size Int ∧
  ∃ a' h' (j : nat),
    (Array_default ;; appends Debug Int [10; 20; 30; 40; 50]) (mkArray 0 0 0) empty_heap =
      Returns tt a' h' ∧
    owns a' h' [10; 20; 30; 40; 50] ∧
    capacity a' ≤ Z.max 4 (2 * Z.of_nat (length [10; 20; 30; 40; 50])) ∧
    nalloc h' = (nalloc (empty_heap (T:=Z)) + j)%nat ∧
    2 ^ Z.of_nat j ≤ 2 * Z.of_nat (length [10; 20; 30; 40; 50]).
Proof.
  assert ([10; 20; 30; 40; 50] ≠ []) as Hne by discriminate.
  assert (Z.of_nat (length [10; 20; 30; 40; 50]) ≤ traits_max_size Int) as Hk
    by (vm_compute; discriminate).
  split; [exact heap_wf_empty|]. split; [exact Hne|]. split; [exact Hk|].
  exact (appends_reallocate_logarithmically Debug Int [10; 20; 30; 40; 50] (mkArray 0 0 0)
           empty_heap heap_wf_empty Hne Hk).
Defined.

(** [resize(3, 9)] and [resize(3)] on 1, 2, 3, 4, 5. *)
Lemma resize_correct_witness :
  heap_wf example_heap ∧ owns example_array example_heap [1; 2; 3; 4; 5] ∧
  nAllocated example_array ≤ traits_max_size Int ∧ 0 ≤ 20 ≤ traits_max_size Int ∧
  capacity example_array < 20 ∧ request_exact 4 20 ∧
  (∃ a' h', Bytes.resizeFill Debug Int 4 20 9 example_array example_heap = Returns tt a' h' ∧
            owns a' h' ([1; 2; 3; 4; 5] ++ replicate 15 9) ∧
            size a' = 20 ∧ capacity a' = 20) ∧
  (∃ a' h', Bytes.resize 0 Debug Int 4 20 example_array example_heap = Returns tt a' h' ∧
            owns a' h' ([1; 2; 3; 4; 5] ++ replicate 15 0) ∧
            size a' = 20 ∧ capacity a' = 20).
Proof.
  assert (0 ≤ 20 ≤ traits_max_size Int) as Hsz by (vm_compute; split; discriminate).
  assert (capacity example_array < 20) as Hgrow by (vm_compute; reflexivity).
  split; [exact example_heap_wf|]. split; [exact example_owns|].
  split; [exact example_capacity_fits|]. split; [exact Hsz|]. split; [exact Hgrow|].
  split; [exact example_request_exact|].
  destruct (resize_correct 0 Debug Int 4 20 9 example_array example_heap [1; 2; 3; 4; 5]
              example_heap_wf example_owns example_capacity_fits Hsz
              (λ _, example_request_exact))
    as ((a1 & h1 & E1 & Hown1 & Hs1 & Hc1 & _) & (a2 & h2 & E2 & Hown2 & Hs2 & Hc2 & _)).
  split.
  - exists a1, h1. split; [exact E1|]. split; [exact Hown1|]. split; [exact Hs1|exact Hc1].
  - exists a2, h2. split; [exact E2|]. split; [exact Hown2|]. split; [exact Hs2|exact Hc2].
Defined.

Lemma clear_correct_witness :
  owns example_array example_heap [1; 2; 3; 4; 5] ∧
  ∃ a' h', clear example_array example_heap = Returns tt a' h' ∧
           owns a' h' [] ∧ size a' = 0 ∧ capacity a' = capacity example_array ∧
           data a' = data example_array ∧ same_alloc example_heap h'.
Proof.
  split; [exact example_owns|].
  destruct (clear_correct example_array example_heap [1; 2; 3; 4; 5] example_owns)
    as (a' & h' & E & Hown & Hs & Hc & Hd & Hsa & _).
  exists a', h'. split; [exact E|]. split; [exact Hown|]. split; [exact Hs|].
  split; [exact Hc|]. split; [exact Hd|exact Hsa].
Defined.

(** The elements at indices 1 and 2 erased from 1, 2, 3, 4, 5. *)
Lemma erase_range_correct_witness :
  owns example_array example_heap [1; 2; 3; 4; 5] ∧
  (1 ≤ 3 ≤ length [1; 2; 3; 4; 5])%nat ∧ nUsed example_array ≤ size_type_max Int ∧
  (∃ a' h', erase Debug Int (data example_array + Z.of_nat 1)
              (data example_array + Z.of_nat 3) example_array example_heap =
              Returns (data example_array + Z.of_nat 1) a' h' ∧
            owns a' h' [1; 4; 5] ∧ size a' = 3 ∧
            capacity a' = capacity example_array) ∧
  erase Debug Int 4 2 example_array example_heap =
    Throws InvalidRange example_array example_heap.
Proof.
  assert (1 ≤ 3 ≤ length [1; 2; 3; 4; 5])%nat as Hij by (cbn; lia).
  assert (nUsed example_array ≤ size_type_max Int) as Hty by (vm_compute; discriminate).
  split; [exact example_owns|]. split; [exact Hij|]. split; [exact Hty|].
  destruct (erase_range_correct Debug Int 1 3 example_array example_heap [1; 2; 3; 4; 5]
              example_owns Hij Hty)
    as ((a' & h' & E & Hown & Hs & Hc & _) & Hbad).
  split.
  - exists a', h'. split; [exact E|]. split; [exact Hown|]. split; [exact Hs|exact Hc].
  - apply Hbad. vm_compute. intros (_ & H & _). by apply H.
Defined.

Lemma at_is_always_checked_witness :
  owns example_array example_heap [1; 2; 3; 4; 5] ∧
  at_ 2 example_array example_heap = Returns 3 example_array example_heap ∧
  load 3 example_array example_heap = Returns 3 example_array example_heap ∧
  at_ 5 example_array example_heap = Throws OutOfRange example_array example_heap ∧
  operator_index Debug 5 example_array example_heap =
    Throws OutOfRange example_array example_heap ∧
  operator_index Release 5 example_array example_heap =
    Returns 6 example_array example_heap.
Proof.
  split; [exact example_owns|].
  destruct (at_is_always_checked Debug 2 example_array example_heap [1; 2; 3; 4; 5]
              example_owns) as (Hin & _).
  destruct (at_is_always_checked Debug 5 example_array example_heap [1; 2; 3; 4; 5]
              example_owns) as (_ & Hout).
  destruct Hin as (E & _ & v & Hv & El); [vm_compute; split; [discriminate|reflexivity]|].
  injection Hv as <-.
  destruct Hout as (E1 & E2 & E3); [vm_compute; intros (_ & H); discriminate|].
  split; [exact E|]. split; [exact El|]. split; [exact E1|]. split; [exact E2|exact E3].
Defined.

Lemma front_and_back_witness :
  owns example_array example_heap [1; 2; 3; 4; 5] ∧
  (front Debug example_array example_heap = Returns 1 example_array example_heap ∧
   load 1 example_array example_heap = Returns 1 example_array example_heap) ∧
  (back Debug example_array example_heap = Returns 5 example_array example_heap ∧
   load 5 example_array example_heap = Returns 5 example_array example_heap).
Proof.
  split; [exact example_owns|].
  destruct (front_and_back Debug example_array example_heap [1; 2; 3; 4; 5] example_owns)
    as (Hf & Hb & _).
  split.
  - exact (Hf 1 [2; 3; 4; 5] eq_refl).
  - exact (Hb [1; 2; 3; 4] 5 eq_refl).
Defined.

(** [assign(3, 9)] on 1, 2, 3, 4, 5, and [assign(-1, 9)]. *)
Lemma assignFill_correct_witness :
  heap_wf example_heap ∧ owns example_array example_heap [1; 2; 3; 4; 5] ∧
  size_type_min Int ≤ 20 ≤ size_type_max Int ∧ 0 ≤ 20 ≤ traits_max_size Int ∧
  ¬ keeps_buffer (capacity example_array) 20 ∧ request_exact 4 20 ∧
  (∃ a' h', Bytes.assignFill Int 4 20 9 example_array example_heap = Returns tt a' h' ∧
            owns a' h' (replicate 20 9) ∧ size a' = 20 ∧ capacity a' = 20) ∧
  Bytes.assignFill Int 4 (-1) 9 example_array example_heap =
    Throws SizeLimitExceeded example_array example_heap.
Proof.
  assert (size_type_min Int ≤ 20 ≤ size_type_max Int) as Hty
    by (vm_compute; split; discriminate).
  assert (size_type_min Int ≤ -1 ≤ size_type_max Int) as Hty'
    by (vm_compute; split; discriminate).
  assert (0 ≤ 20 ≤ traits_max_size Int) as Hn by (vm_compute; split; discriminate).
  assert (¬ keeps_buffer (capacity example_array) 20) as Hk
    by (vm_compute; intros (H & _); by apply H).
  split; [exact example_heap_wf|]. split; [exact example_owns|]. split; [exact Hty|].
  split; [exact Hn|]. split; [exact Hk|]. split; [exact example_request_exact|].
  destruct (assignFill_correct Int 4 20 9 example_array example_heap [1; 2; 3; 4; 5]
              example_heap_wf example_owns Hty) as (Hok & _).
  destruct (assignFill_correct Int 4 (-1) 9 example_array example_heap [1; 2; 3; 4; 5]
              example_heap_wf example_owns Hty') as (_ & Hbad).
  destruct (Hok Hn (λ _, example_request_exact)) as (a' & h' & E & Hown & Hs & _ & Hc).
  split.
  - exists a', h'. split; [exact E|]. split; [exact Hown|]. split; [exact Hs|exact (Hc Hk)].
  - apply Hbad. vm_compute. intros (H & _). by apply H.
Defined.

Lemma assignImpl_input_correct_witness :
  heap_wf example_heap ∧ owns example_array example_heap [1; 2; 3; 4; 5] ∧
  nAllocated example_array ≤ traits_max_size Int ∧
  Z.of_nat (length [7; 8]) ≤ traits_max_size Int ∧
  ∃ a' h', assignImpl_input Debug Int [7; 8] example_array example_heap = Returns tt a' h' ∧
           owns a' h' [7; 8] ∧ size a' = 2 ∧
           data a' = data example_array ∧ capacity a' = capacity example_array.
Proof.
  assert (Z.of_nat (length [7; 8]) ≤ traits_max_size Int) as Hfit
    by (vm_compute; discriminate).
  split; [exact example_heap_wf|]. split; [exact example_owns|].
  split; [exact example_capacity_fits|]. split; [exact Hfit|].
  destruct (assignImpl_input_correct Debug Int [7; 8] example_array example_heap
              [1; 2; 3; 4; 5] example_heap_wf example_owns example_capacity_fits Hfit)
    as (a' & h' & E & Hown & Hs & _ & Hkeep).
  destruct Hkeep as (Hd & Hc & _); [vm_compute; discriminate|].
  exists a', h'. split; [exact E|]. split; [exact Hown|]. split; [exact Hs|].
  split; [exact Hd|exact Hc].
Defined.

(** [Array_<int>(3, 9)] and [Array_<int>(3)]. *)
Lemma sized_constructors_witness :
  heap_wf (empty_heap (T:=Z)) ∧ Z.of_nat 3 ≤ traits_max_size Int ∧
  request_exact 4 (Z.of_nat 3) ∧
  (∃ a' h', Bytes.Array_fill Debug Int 4 (Z.of_nat 3) 9 (mkArray 0 0 0) empty_heap =
              Returns tt a' h' ∧
            owns a' h' [9; 9; 9] ∧ size a' = 3 ∧ capacity a' = 3) ∧
  (∃ a' h', Bytes.Array_n 0 Debug Int 4 (Z.of_nat 3) (mkArray 0 0 0) empty_heap =
              Returns tt a' h' ∧
            owns a' h' [0; 0; 0] ∧ size a' = 3 ∧ capacity a' = 3) ∧
  Bytes.Array_fill Debug Int 4 (-1) 9 (mkArray 0 0 0) (empty_heap (T:=Z)) =
    Throws SizeLimitExceeded (mkArray 0 0 0) empty_heap.
Proof.
  assert (Z.of_nat 3 ≤ traits_max_size Int) as Hk by (vm_compute; discriminate).
  assert (request_exact 4 (Z.of_nat 3)) as Hex by (split; vm_compute; discriminate).
  split; [exact heap_wf_empty|]. split; [exact Hk|]. split; [exact Hex|].
  destruct (sized_constructors 0 Debug Int 4 3 9 (mkArray 0 0 0) empty_heap heap_wf_empty
              Hk Hex)
    as ((a1 & h1 & E1 & Hown1 & Hs1 & Hc1 & _) & (a2 & h2 & E2 & Hown2 & Hs2 & Hc2 & _) &
        Hbad).
  split; [|split].
  - exists a1, h1. split; [exact E1|]. split; [exact Hown1|]. split; [exact Hs1|exact Hc1].
  - exists a2, h2. split; [exact E2|]. split; [exact Hown2|]. split; [exact Hs2|exact Hc2].
  - apply (Hbad (-1)). vm_compute. intros (H & _). by apply H.
Defined.


Lemma construct_then_destroy_witness :
  heap_wf example_heap ∧ Z.of_nat 3 ≤ traits_max_size Int ∧
  request_exact 4 (Z.of_nat 3) ∧
  ∃ h', (Bytes.Array_fill Debug Int 4 (Z.of_nat 3) 9 ;; Array_destroy) (mkArray 0 0 0) example_heap =
          Returns tt (mkArray 0 0 0) h' ∧
        cells h' = cells example_heap ∧ blocks h' = blocks example_heap.
Proof.
  assert (Z.of_nat 3 ≤ traits_max_size Int) as Hk by (vm_compute; discriminate).
  assert (request_exact 4 (Z.of_nat 3)) as Hex by (split; vm_compute; discriminate).
  split; [exact example_heap_wf|]. split; [exact Hk|]. split; [exact Hex|].
  exact (construct_then_destroy Debug Int 4 3 9 (mkArray 0 0 0) example_heap
           example_heap_wf Hk Hex).
Defined.

Lemma copy_constructor_correct_witness :
  heap_wf example_heap ∧ owns example_array example_heap [1; 2; 3; 4; 5] ∧
  ∃ a' h', Array_copy example_array (mkArray 0 0 0) example_heap = Returns tt a' h' ∧
           owns a' h' [1; 2; 3; 4; 5] ∧ owns example_array h' [1; 2; 3; 4; 5] ∧
           size a' = 5 ∧ capacity a' = 5 ∧
           blocks example_heap !! data a' = None ∧
           nalloc h' = S (nalloc example_heap).
Proof.
  split; [exact example_heap_wf|]. split; [exact example_owns|].
  destruct (copy_constructor_correct example_array [1; 2; 3; 4; 5] (mkArray 0 0 0)
              example_heap example_heap_wf example_owns)
    as (a' & h' & E & Hown & Hsrc & Hs & Hc & _ & Hfresh).
  destruct (Hfresh ltac:(discriminate)) as (Hb & _ & Hn).
  exists a', h'. split; [exact E|]. split; [exact Hown|]. split; [exact Hsrc|].
  split; [exact Hs|]. split; [exact Hc|]. split; [exact Hb|exact Hn].
Defined.

Lemma converting_constructor_correct_witness :
  heap_wf example_heap ∧ owns example_array example_heap [1; 2; 3; 4; 5] ∧
  nUsed example_array ≤ traits_max_size Int ∧
  Array_converting Debug Int example_array (mkArray 0 0 0) example_heap =
    Array_copy example_array (mkArray 0 0 0) example_heap.
Proof.
  assert (nUsed example_array ≤ traits_max_size Int) as Hfit by (vm_compute; discriminate).
  split; [exact example_heap_wf|]. split; [exact example_owns|]. split; [exact Hfit|].
  exact (proj1 (converting_constructor_correct Debug Int example_array [1; 2; 3; 4; 5]
                  (mkArray 0 0 0) example_heap example_heap_wf example_owns) Hfit).
Defined.

(** The two example arrays as objects at addresses 0 and 1. *)
Lemma example_objects_self :
  (<[0 := example_array]> {[1 := example_source]} : gmap Z Array) !! 0 = Some example_array.
Proof. apply lookup_insert_eq. Qed.

Lemma example_objects_other :
  (<[0 := example_array]> {[1 := example_source]} : gmap Z Array) !! 1 = Some example_source.
Proof. rewrite lookup_insert_ne by discriminate. apply lookup_singleton_eq. Qed.

Lemma swap_exchanges_and_undoes_witness :
  (<[0 := example_array]> {[1 := example_source]} : gmap Z Array) !! 0 = Some example_array ∧
  (<[0 := example_array]> {[1 := example_source]} : gmap Z Array) !! 1 = Some example_source ∧
  ∃ objs1,
    swap 0 1 (<[0 := example_array]> {[1 := example_source]}) example_heap =
      Returns tt objs1 example_heap ∧
    objs1 !! 1 = Some example_array ∧ objs1 !! 0 = Some example_source ∧
    swap 0 1 objs1 example_heap =
      Returns tt (<[0 := example_array]> {[1 := example_source]}) example_heap.
Proof.
  split; [exact example_objects_self|]. split; [exact example_objects_other|].
  destruct (swap_exchanges_and_undoes 0 1 (<[0 := example_array]> {[1 := example_source]})
              example_heap example_array example_source
              example_objects_self example_objects_other)
    as (objs1 & E & H1 & H0 & _ & _ & Eback).
  exists objs1. split; [exact E|]. split; [exact H1|].
  split; [apply H0; discriminate|exact Eback].
Defined.

(** [{1 2 3 4 5}] *)
Lemma operator_output_format_witness :
  owns example_array example_heap [1; 2; 3; 4; 5] ∧
  operator_output Debug [] example_array example_heap =
    Returns [PutChar "{"; PutElem 1; PutChar " "; PutElem 2; PutChar " "; PutElem 3;
             PutChar " "; PutElem 4; PutChar " "; PutElem 5; PutChar "}"]
      example_array example_heap.
Proof.
  split; [exact example_owns|].
  exact (operator_output_format Debug [] example_array example_heap [1; 2; 3; 4; 5]
           example_owns).
Defined.




Lemma example_spare_cells q :
  cells example_spare_heap !! q =
    if decide (1 ≤ q < 127) then Some None
    else if decide (q = 127) then Some (Some 7)
    else if decide (q = 128) then Some (Some 8)
    else None.
Proof.
  unfold example_spare_heap; cbn [cells].
  rewrite lookup_raw_cells. change (1 + Z.of_nat 126) with 127.
  case_goal; [reflexivity|].
  cbn [list_to_map foldr uncurry fst snd].
  rewrite !lookup_insert, lookup_empty.
  repeat case_goal; subst; try reflexivity; lia.
Qed.

Lemma example_spare_heap_wf : heap_wf example_spare_heap.
Proof.
  split; [cbn; lia|]. split.
  - intros q. rewrite example_spare_cells. repeat case_goal; try (cbn; lia).
    by intros [? ?].
  - intros b n. unfold example_spare_heap; cbn [blocks brk list_to_map foldr uncurry fst snd].
    rewrite !lookup_insert, lookup_empty.
    repeat case_goal; intros [= <-] || intros [=]; subst; lia.
Qed.

Lemma example_spare_owns : owns example_spare_array example_spare_heap [].
Proof.
  unfold owns, live, raw, example_spare_array; cbn [data nUsed nAllocated length].
  split; [reflexivity|]. split; [lia|]. split; [intros q Hq; lia|].
  split; [|split; [lia|intros _; reflexivity]].
  intros q Hq. rewrite example_spare_cells. case_goal; [reflexivity|lia].
Qed.

Lemma example_spare_source : live example_spare_heap 127 [7; 8].
Proof.
  intros q Hq. cbn [length] in Hq. rewrite example_spare_cells.
  assert (q = 127 ∨ q = 128) as [-> | ->] by lia; reflexivity.
Qed.

(** 7, 8 inserted through pointers into an empty [Array_<int, signed char>]
    of capacity 126: the new length 2 is within [max_size] = 127 and the
    elements fit the buffer, but 126 + 2 exceeds 127. *)
Lemma insertRange_checked_against_capacity_witness :
  heap_wf example_spare_heap ∧ owns example_spare_array example_spare_heap [] ∧
  live example_spare_heap 127 [7; 8] ∧
  nAllocated example_spare_array ≤ traits_max_size SChar ∧
  nUsed example_spare_array + Z.of_nat (length [7; 8]) ≤ nAllocated example_spare_array ∧
  traits_max_size SChar < nAllocated example_spare_array + Z.of_nat (length [7; 8]) ∧
  insertRange Debug SChar (data example_spare_array + Z.of_nat 0) 127
    (127 + Z.of_nat (length [7; 8])) example_spare_array example_spare_heap =
    Throws SizeLimitExceeded example_spare_array example_spare_heap ∧
  ∃ a' h',
    insertRange Release SChar (data example_spare_array + Z.of_nat 0) 127
      (127 + Z.of_nat (length [7; 8])) example_spare_array example_spare_heap =
      Returns (data example_spare_array + Z.of_nat 0) a' h' ∧
    data a' = data example_spare_array ∧ capacity a' = capacity example_spare_array ∧
    live h' (data example_spare_array) [7; 8].
Proof.
  assert (0 ≤ length (@nil Z))%nat as Hi by (cbn; lia).
  assert (127 + Z.of_nat (length [7; 8]) ≤ data example_spare_array ∨
          data example_spare_array + nAllocated example_spare_array ≤ 127) as Hdisj
    by (right; vm_compute; discriminate).
  assert (nAllocated example_spare_array ≤ traits_max_size SChar) as Hmax
    by (vm_compute; discriminate).
  assert (nUsed example_spare_array + Z.of_nat (length [7; 8]) ≤
          nAllocated example_spare_array) as Hin by (vm_compute; discriminate).
  assert (traits_max_size SChar <
          nAllocated example_spare_array + Z.of_nat (length [7; 8])) as Hover
    by (vm_compute; reflexivity).
  split; [exact example_spare_heap_wf|]. split; [exact example_spare_owns|].
  split; [exact example_spare_source|]. split; [exact Hmax|]. split; [exact Hin|].
  split; [exact Hover|].
  exact (insertRange_checked_against_capacity SChar 0 127 [7; 8] example_spare_array
           example_spare_heap [] example_spare_heap_wf example_spare_owns Hi
           example_spare_source Hdisj Hmax Hin Hover).
Defined.


(** ** [reserve] and the size of the request *)



(** ** Assignment and the size of the buffer *)

Lemma example_small_cells q :
  cells example_small_heap !! q =
    if decide (1 ≤ q < 4) then Some (Some q)
    else if decide (4 ≤ q < 8) then Some None
    else if decide (q = 8) then Some (Some 100)
    else None.
Proof.
  unfold example_small_heap; cbn [cells list_to_map foldr uncurry fst snd].
  rewrite !lookup_insert, lookup_empty.
  repeat case_goal; subst; try reflexivity; lia.
Qed.

Lemma example_small_owns : owns example_small_array example_small_heap [1; 2; 3].
Proof.
  unfold owns, live, raw, example_small_array; cbn [data nUsed nAllocated length].
  split; [reflexivity|]. split; [lia|]. split; [|split; [|split; [lia|]]].
  - intros q Hq. rewrite example_small_cells. case_goal; [|lia].
    assert (q = 1 ∨ q = 2 ∨ q = 3) as [->|[->| ->]] by lia; reflexivity.
  - intros q Hq. rewrite example_small_cells. repeat case_goal; try lia. reflexivity.
  - intros _. reflexivity.
Qed.

Lemma example_small_source : live example_small_heap 8 [100].
Proof.
  intros q Hq. cbn [length] in Hq. rewrite example_small_cells.
  assert (q = 8) as -> by lia. reflexivity.
Qed.

(** [assign] of 100, 200 to the array holding 1..5 in 8 slots: the buffer is
    reused. *)
Lemma assign_known_size_witness :
  heap_wf example_heap ∧ owns example_array example_heap [1; 2; 3; 4; 5] ∧
  live example_heap 9 [100; 200] ∧
  Z.of_nat (length [100; 200]) ≤ traits_max_size Int ∧
  ∃ a' h',
    assignImpl Debug Int 9 (9 + Z.of_nat (length [100; 200])) example_array example_heap =
      Returns tt a' h' ∧
    owns a' h' [100; 200] ∧ size a' = Z.of_nat (length [100; 200]) ∧
    live h' 9 [100; 200] ∧ (nalloc h' ≤ S (nalloc example_heap))%nat.
Proof.
  assert (Z.of_nat (length [100; 200]) ≤ traits_max_size Int) as Hm
    by (vm_compute; discriminate).
  split; [apply example_heap_wf|]. split; [apply example_owns|].
  split; [apply example_source_live|]. split; [exact Hm|].
  destruct (assign_known_size Debug Int 9 [100; 200] example_array example_heap
              [1; 2; 3; 4; 5] example_heap_wf example_owns example_source_live
              example_source_foreign Hm)
    as (a' & h' & E & Hown & Hs & Hsrc & _ & _ & Hn & _).
  exists a', h'. auto.
Defined.

(** C5, as stated, fails on the reuse rule: a buffer of 7 slots is more than
    twice the need of 1 element, yet it is kept and nothing is allocated,
    because a need below [minAlloc = 4] counts as [minAlloc], as the comment
    of [reallocateIfAdvisable] says (7 is less than twice 4). *)
Lemma assign_keeps_small_buffer :
  owns example_small_array example_small_heap [1; 2; 3] ∧
  live example_small_heap 8 [100] ∧
  capacity example_small_array = 7 ∧ 2 * Z.of_nat (length [100]) < 7 ∧
  ∃ h', assignImpl Debug Int 8 (8 + Z.of_nat (length [100]))
          example_small_array example_small_heap =
          Returns tt (mkArray 1 1 7) h' ∧
        blocks h' = blocks example_small_heap ∧
        nalloc h' = nalloc example_small_heap.
Proof.
  split; [apply example_small_owns|]. split; [apply example_small_source|].
  split; [reflexivity|]. split; [vm_compute; reflexivity|].
  eexists. split; [vm_compute; reflexivity|]. split; reflexivity.
Qed.
